(** * Supply-chain cost engine: a shallow embedding of [src/index.js]

    The development follows the classes of the source file: [Graph],
    [CostState], [BOMProcessor], [CurrencyConverter], [EntityManager],
    [RuleEngine] and [CostCalculator].

    Modelling conventions.
    - A JavaScript [Map] is an association list kept in insertion order
      ([JsMap]); a JavaScript [Set] of strings is a duplicate-free list in
      insertion order ([JsSet]).  Iteration order is therefore the order of
      the list, as it is for the JavaScript containers.
    - A JavaScript number that holds a money amount, a rate or a quantity is
      an exact rational ([Q]); rounding of IEEE doubles is not modelled.
      Counters and in-degrees are integers ([Z]) or naturals.
    - A function that may throw returns an [outcome]; a loop or a recursion
      with no syntactic bound takes a [fuel] argument and returns [None] or
      [OutOfFuel] when the fuel runs out.  Part II proves for each of them
      that the fuel given by its caller is enough. *)

From Stdlib Require Import String Ascii List Bool Arith ZArith QArith Qabs Lia Lqa.
From Stdlib Require DecimalString.
Import ListNotations.

Local Open Scope string_scope.
Local Open Scope list_scope.

(* ================================================================== *)
(** * Part I: the program *)
(* ================================================================== *)

(** ** Outcomes of functions that may throw *)

(** [Ok a]: the call returned [a]; [Throw msg]: it threw [new Error(msg)]
    (or the runtime threw a [TypeError]); [OutOfFuel]: the model ran out of
    fuel before the call finished. *)
Inductive outcome (A : Type) : Type :=
| Ok (a : A)
| Throw (msg : string)
| OutOfFuel.
Arguments Ok {A} a.
Arguments Throw {A} msg.
Arguments OutOfFuel {A}.

Definition bind {A B : Type} (c : outcome A) (k : A -> outcome B) : outcome B :=
  match c with
  | Ok a => k a
  | Throw msg => Throw msg
  | OutOfFuel => OutOfFuel
  end.

Notation "x <- c ;; k" := (bind c (fun x => k))
  (at level 61, c at next level, right associativity).
Notation "' pat <- c ;; k" := (bind c (fun x => match x with pat => k end))
  (at level 61, pat pattern, c at next level, right associativity).

Definition ofOption {A : Type} (o : option A) : outcome A :=
  match o with Some a => Ok a | None => OutOfFuel end.

(** A [for] loop whose body may throw. *)
Fixpoint forEachM {A S : Type} (body : A -> S -> outcome S) (l : list A) (s : S)
  : outcome S :=
  match l with
  | [] => Ok s
  | a :: r => s' <- body a s ;; forEachM body r s'
  end.

(** ** JavaScript [Map] with string keys *)

Module JsMap.
Section Defs.
Context {V : Type}.

Definition t := list (string * V).

Definition empty : t := [].

Fixpoint get (m : t) (k : string) : option V :=
  match m with
  | [] => None
  | (k', v) :: r => if String.eqb k' k then Some v else get r k
  end.

Definition has (m : t) (k : string) : bool :=
  match get m k with Some _ => true | None => false end.

(** [set] keeps the position of an existing key and appends a new one. *)
Fixpoint set (m : t) (k : string) (v : V) : t :=
  match m with
  | [] => [(k, v)]
  | (k', v') :: r =>
      if String.eqb k' k then (k', v) :: r else (k', v') :: set r k v
  end.

Definition keys (m : t) : list string := map fst m.
Definition values (m : t) : list V := map snd m.
Definition size (m : t) : nat := length m.
End Defs.
Arguments t : clear implicits.
End JsMap.

(** ** JavaScript [Set] of strings *)

Module JsSet.
Definition t := list string.

Definition empty : t := [].

Fixpoint has (s : t) (k : string) : bool :=
  match s with
  | [] => false
  | k' :: r => if String.eqb k' k then true else has r k
  end.

Definition add (s : t) (k : string) : t :=
  if has s k then s else s ++ [k].

Fixpoint delete (s : t) (k : string) : t :=
  match s with
  | [] => []
  | k' :: r => if String.eqb k' k then r else k' :: delete r k
  end.

Definition size (s : t) : nat := length s.
End JsSet.

(** ** Loops over arrays whose body may run out of fuel *)

Fixpoint forEach {A S : Type} (body : A -> S -> option S) (l : list A) (s : S)
  : option S :=
  match l with
  | [] => Some s
  | a :: r =>
      match body a s with
      | Some s' => forEach body r s'
      | None => None
      end
  end.

(** ** class Graph *)

Module Graph.
Section Defs.
(** [M] is the type of the metadata that [addEdge] spreads into the
    neighbour record [{ node: to, ...metadata }]. *)
Context {M : Type}.

Record Edge : Type := mkEdge { node : string; meta : M }.

(** [this.adjacencyList] *)
Definition t := JsMap.t (list Edge).

Definition empty : t := JsMap.empty.

Definition addNode (g : t) (n : string) : t :=
  if JsMap.has g n then g else JsMap.set g n [].

Definition getNeighbors (g : t) (n : string) : list Edge :=
  match JsMap.get g n with Some l => l | None => [] end.

Definition addEdge (g : t) (from to : string) (metadata : M) : t :=
  let g1 := addNode g from in
  let g2 := addNode g1 to in
  match JsMap.get g2 from with
  | Some l => JsMap.set g2 from (l ++ [mkEdge to metadata])
  | None => g2
  end.

Definition getNodes (g : t) : list string := JsMap.keys g.

(** *** detectCycles *)

Inductive Color : Type := WHITE | GRAY | BLACK.

Definition isGray (c : option Color) : bool :=
  match c with Some GRAY => true | _ => false end.
Definition isWhite (c : option Color) : bool :=
  match c with Some WHITE => true | _ => false end.

(** [path.indexOf(x)]; [None] stands for [-1]. *)
Fixpoint indexOf (l : list string) (x : string) : option nat :=
  match l with
  | [] => None
  | y :: r =>
      if String.eqb y x then Some 0%nat
      else match indexOf r x with Some i => Some (S i) | None => None end
  end.

(** [path.slice(start)] for the value [indexOf] returned: a negative
    start counts from the end, so [slice(-1)] is the last element. *)
Definition slice (l : list string) (start : option nat) : list string :=
  match start with
  | Some i => skipn i l
  | None => skipn (length l - 1) l
  end.

(** The variables captured by the closure [dfs]: the colour map, the
    cycles found so far, and the array [path], which [dfs] pushes onto
    and pops from in place. *)
Record DfsState : Type := mkDfs {
  color : JsMap.t Color;
  cycles : list (list string);
  path : list string
}.

Fixpoint dfs (fuel : nat) (g : t) (n : string) (st : DfsState)
  : option DfsState :=
  match fuel with
  | O => None
  | S fuel' =>
      let st1 := mkDfs (JsMap.set (color st) n GRAY) (cycles st)
                       (path st ++ [n]) in
      let body (e : Edge) (s : DfsState) : option DfsState :=
        let neighbor := node e in
        if isGray (JsMap.get (color s) neighbor) then
          let cycleStart := indexOf (path s) neighbor in
          Some (mkDfs (color s)
                      (cycles s ++ [slice (path s) cycleStart ++ [neighbor]])
                      (path s))
        else if isWhite (JsMap.get (color s) neighbor) then
          dfs fuel' g neighbor s
        else Some s in
      match forEach body (getNeighbors g n) st1 with
      | Some st2 =>
          Some (mkDfs (JsMap.set (color st2) n BLACK) (cycles st2)
                      (removelast (path st2)))
      | None => None
      end
  end.

Definition initColors (g : t) : JsMap.t Color :=
  fold_left (fun c n => JsMap.set c n WHITE) (getNodes g) JsMap.empty.

(** The second [for] loop: every top-level call gets a fresh [path]. *)
Definition detectCycles_from (fuel : nat) (g : t) (n : string)
           (st : DfsState) : option DfsState :=
  if isWhite (JsMap.get (color st) n)
  then dfs fuel g n (mkDfs (color st) (cycles st) [])
  else Some st.

Definition detectCycles_fuel (fuel : nat) (g : t)
  : option (list (list string)) :=
  match forEach (detectCycles_from fuel g) (getNodes g)
                (mkDfs (initColors g) [] []) with
  | Some st => Some (cycles st)
  | None => None
  end.

(** A call of [dfs] turns a white node gray, so the recursion is never
    deeper than the number of nodes. *)
Definition detectCycles (g : t) : option (list (list string)) :=
  detectCycles_fuel (S (length (getNodes g))) g.

(** *** topologicalSort *)

Definition getOr0 (m : JsMap.t Z) (k : string) : Z :=
  match JsMap.get m k with Some d => d | None => 0%Z end.

Definition initInDegree (g : t) : JsMap.t Z :=
  fold_left (fun m n => JsMap.set m n 0%Z) (getNodes g) JsMap.empty.

Definition countEdges (g : t) (inDegree : JsMap.t Z) : JsMap.t Z :=
  fold_left
    (fun m n =>
       fold_left (fun m' e => JsMap.set m' (node e) (getOr0 m' (node e) + 1)%Z)
                 (getNeighbors g n) m)
    (getNodes g) inDegree.

Definition initQueue (inDegree : JsMap.t Z) : list string :=
  map fst (filter (fun nd => Z.eqb (snd nd) 0) inDegree).

(** The body of the inner [for] of the [while] loop.  By then every
    neighbour has an entry in [inDegree] (the counting loop gave it
    one); for a missing entry JavaScript would store [NaN], which never
    equals [0], and the model leaves the map as it is. *)
Definition relax (e : Edge) (s : JsMap.t Z * list string)
  : JsMap.t Z * list string :=
  let '(inDegree, queue) := s in
  match JsMap.get inDegree (node e) with
  | Some d =>
      let inDegree' := JsMap.set inDegree (node e) (d - 1)%Z in
      if Z.eqb (d - 1) 0 then (inDegree', queue ++ [node e])
      else (inDegree', queue)
  | None => (inDegree, queue)
  end.

Fixpoint kahn (fuel : nat) (g : t) (inDegree : JsMap.t Z)
         (queue result : list string) : option (list string) :=
  match queue with
  | [] => Some result
  | n :: queue' =>
      match fuel with
      | O => None
      | S fuel' =>
          let '(inDegree', queue'') :=
            fold_left (fun s e => relax e s) (getNeighbors g n)
                      (inDegree, queue') in
          kahn fuel' g inDegree' queue'' (result ++ [n])
      end
  end.

Definition cycleMessage : string :=
  "Cycle detected in dependency graph - topological sort impossible".

Definition topologicalSort_fuel (fuel : nat) (g : t)
  : outcome (list string) :=
  let inDegree := countEdges g (initInDegree g) in
  match kahn fuel g inDegree (initQueue inDegree) [] with
  | Some res =>
      if Nat.eqb (length res) (length (getNodes g))
      then Ok res else Throw cycleMessage
  | None => OutOfFuel
  end.

(** Each iteration of the [while] loop moves one node to [result], and
    no node is enqueued twice, so one iteration per node is enough. *)
Definition topologicalSort (g : t) : outcome (list string) :=
  topologicalSort_fuel (length (getNodes g)) g.

(** *** findAllPaths *)

(** An element [{ node, edge }] of a path; [edge] is [null] for the
    start node. *)
Record Step : Type := mkStep { snode : string; sedge : option Edge }.

(** The state [dfs] works on: the result array [paths] of the
    enclosing function, and the array [path] and the set [visited]
    that are passed by reference and restored after each recursive
    call. *)
Record PathState : Type := mkPS {
  paths : list (list Step);
  cur : list Step;
  visited : JsSet.t
}.

Fixpoint pathDfs (fuel : nat) (g : t) (target : string) (maxDepth : nat)
         (current : string) (st : PathState) : option PathState :=
  if Nat.ltb maxDepth (length (cur st)) then Some st
  else if String.eqb current target then
    Some (mkPS (paths st ++ [cur st]) (cur st) (visited st))
  else
    match fuel with
    | O => None
    | S fuel' =>
        let body (e : Edge) (s : PathState) : option PathState :=
          if negb (JsSet.has (visited s) (node e)) then
            let s1 := mkPS (paths s) (cur s ++ [mkStep (node e) (Some e)])
                           (JsSet.add (visited s) (node e)) in
            match pathDfs fuel' g target maxDepth (node e) s1 with
            | Some s2 =>
                Some (mkPS (paths s2) (removelast (cur s2))
                           (JsSet.delete (visited s2) (node e)))
            | None => None
            end
          else Some s in
        forEach body (getNeighbors g current) st
    end.

(** A recursive call is made only while [path.length <= maxDepth], and
    each call lengthens [path] by one, so [maxDepth] nested calls are
    enough. *)
Definition findAllPaths (g : t) (start target : string) (maxDepth : nat)
  : option (list (list Step)) :=
  match pathDfs maxDepth g target maxDepth start
                (mkPS [] [mkStep start None] (JsSet.add JsSet.empty start)) with
  | Some st => Some (paths st)
  | None => None
  end.

Definition defaultMaxDepth : nat := 10.
End Defs.
Arguments Edge : clear implicits.
Arguments t : clear implicits.
Arguments Step : clear implicits.
Arguments PathState : clear implicits.
End Graph.

(** ** Strings and numbers *)

Definition cat (a b : string) : string := String.append a b.
Infix "+++" := cat (at level 60, right associativity).

(** [l.join(sep)] *)
Fixpoint join (sep : string) (l : list string) : string :=
  match l with
  | [] => ""
  | [a] => a
  | a :: r => a +++ sep +++ join sep r
  end.

Local Open Scope Q_scope.

(** [x < y] on numbers. *)
Definition Qltb (x y : Q) : bool := negb (Qle_bool y x).

(** [x || y] on numbers: [x] unless it is [0]. *)
Definition orElse (x y : Q) : Q := if Qeq_bool x 0 then y else x.

(** [x || 0] for a field that may be missing. *)
Definition orZero (x : option Q) : Q :=
  match x with Some v => v | None => 0 end.

(** ** class CostState *)

Module CostState.
(** An element of [componentBreakdown]. *)
Record ComponentCost : Type := mkComponentCost {
  ccItemId : string;
  ccType : string;
  ccQuantity : Q;
  ccScrapMultiplier : Q;
  ccUnitCost : option Q;
  ccCost : Q
}.

(** An element of [transferPath]. *)
Record PathCost : Type := mkPathCost {
  pcEntity : string;
  pcCost : Q;
  pcMarkup : option Q
}.

Record Variance : Type := mkVariance {
  vAmount : Q;
  vPercentage : Q;
  vFavorable : bool
}.

(** The cost breakdown stored for a [(product, entity, period)] key.
    The fields that only some producers fill in are options. *)
Record Cost : Type := mkCost {
  directMaterial : Q;
  directLabor : Q;
  scrapAdjustment : Q;
  laborBurden : Q;
  factoryOverhead : Q;
  rndAmortization : Q;
  royalty : Q;
  managementFee : Q;
  interCompanyMarkup : Q;
  customsDuties : Q;
  totalCost : Q;
  componentBreakdown : option (list ComponentCost);
  sourceEntity : option string;
  transferPath : option (list PathCost);
  weightedAverageCost : option Q;
  variance : option Variance;
  _key : option string
}.

Definition withKey (c : Cost) (k : string) : Cost :=
  mkCost (directMaterial c) (directLabor c) (scrapAdjustment c) (laborBurden c)
         (factoryOverhead c) (rndAmortization c) (royalty c) (managementFee c)
         (interCompanyMarkup c) (customsDuties c) (totalCost c)
         (componentBreakdown c) (sourceEntity c) (transferPath c)
         (weightedAverageCost c) (variance c) (Some k).

Record t : Type := mk {
  costs : JsMap.t Cost;
  ruleOutputs : JsMap.t Q;
  dependencies : JsMap.t JsSet.t;
  dirty : JsSet.t
}.

Definition new : t := mk JsMap.empty JsMap.empty JsMap.empty JsSet.empty.

Definition getCostKey (productId entityId period : string) : string :=
  productId +++ ":" +++ entityId +++ ":" +++ period.

Definition getRuleKey (ruleId productId entityId period : string) : string :=
  ruleId +++ ":" +++ productId +++ ":" +++ entityId +++ ":" +++ period.

Definition setCost (st : t) (productId entityId period : string)
           (breakdown : Cost) : t :=
  let key := getCostKey productId entityId period in
  mk (JsMap.set (costs st) key (withKey breakdown key))
     (ruleOutputs st) (dependencies st) (dirty st).

Definition getCost (st : t) (productId entityId period : string)
  : option Cost :=
  JsMap.get (costs st) (getCostKey productId entityId period).

Definition setRuleOutput (st : t) (ruleId productId entityId period : string)
           (output : Q) : t :=
  mk (costs st)
     (JsMap.set (ruleOutputs st) (getRuleKey ruleId productId entityId period) output)
     (dependencies st) (dirty st).

Definition getRuleOutput (st : t) (ruleId productId entityId period : string)
  : option Q :=
  JsMap.get (ruleOutputs st) (getRuleKey ruleId productId entityId period).

Definition addDependency (st : t) (sourceKey dependentKey : string) : t :=
  let deps :=
    if JsMap.has (dependencies st) sourceKey then dependencies st
    else JsMap.set (dependencies st) sourceKey JsSet.empty in
  let deps' :=
    match JsMap.get deps sourceKey with
    | Some s => JsMap.set deps sourceKey (JsSet.add s dependentKey)
    | None => deps
    end in
  mk (costs st) (ruleOutputs st) deps' (dirty st).

(** [markDirty] recurses through the registered dependents with no
    guard against cycles. *)
Fixpoint markDirty (fuel : nat) (st : t) (key : string) : option t :=
  match fuel with
  | O => None
  | S fuel' =>
      let st1 := mk (costs st) (ruleOutputs st) (dependencies st)
                    (JsSet.add (dirty st) key) in
      match JsMap.get (dependencies st1) key with
      | Some dependents =>
          forEach (fun dependent s => markDirty fuel' s dependent) dependents st1
      | None => Some st1
      end
  end.

Definition getDirtyKeys (st : t) : list string := dirty st.

Definition clearDirty (st : t) : t :=
  mk (costs st) (ruleOutputs st) (dependencies st) JsSet.empty.

(** Draining the dirty set.  The class has no method of this name:
    this is the pair [getDirtyKeys] then [clearDirty], as
    [recalculateIncremental] calls them: the keys to recompute and the
    state with the dirty set emptied. *)
Definition drainDirty (st : t) : list string * t :=
  (getDirtyKeys st, clearDirty st).
End CostState.

(** ** class BOMProcessor *)

Module BOMProcessor.
Record Component : Type := mkComponent {
  itemId : string;
  quantity : Q;
  scrapRate : option Q;
  unit : option string
}.

Record BomItem : Type := mkBomItem {
  productId : string;
  components : list Component
}.

(** The metadata of an edge of [bomGraph]. *)
Record BomMeta : Type := mkBomMeta {
  mQuantity : Q;
  mScrapRate : Q;
  mUnit : option string
}.

(** The result of [explodeBOM]: [{ productId, isRawMaterial, components,
    depth }], each component being the BOM component together with its
    [explosion] and its [effectiveQuantity]. *)
#[warnings="-register-all"]
Inductive Exploded : Type :=
| mkExploded (eProductId : string) (isRawMaterial : bool)
             (eComponents : list (Component * Exploded * Q)) (depth : nat).

Record t : Type := mk {
  bom : JsMap.t BomItem;
  bomGraph : Graph.t BomMeta;
  explosionCache : JsMap.t Exploded
}.

Definition addItem (s : JsMap.t BomItem * Graph.t BomMeta) (item : BomItem)
  : JsMap.t BomItem * Graph.t BomMeta :=
  let '(b, gr) := s in
  let gr1 := Graph.addNode gr (productId item) in
  let gr2 :=
    fold_left
      (fun gr' c =>
         Graph.addEdge gr' (productId item) (itemId c)
           (mkBomMeta (quantity c) (orZero (scrapRate c)) (unit c)))
      (components item) gr1 in
  (JsMap.set b (productId item) item, gr2).

Definition index (billOfMaterials : list BomItem)
  : JsMap.t BomItem * Graph.t BomMeta :=
  fold_left addItem billOfMaterials (JsMap.empty, Graph.empty).

Definition cyclesMessage (cycles : list (list string)) : string :=
  "BOM contains cycles: " +++ join "; " (map (join " -> ") cycles).

(** The constructor: index the BOM, then reject it if the graph has a
    cycle. *)
Definition new (billOfMaterials : list BomItem) : outcome t :=
  let '(b, gr) := index billOfMaterials in
  cycles <- ofOption (Graph.detectCycles gr) ;;
  if Nat.ltb 0 (length cycles) then Throw (cyclesMessage cycles)
  else Ok (mk b gr JsMap.empty).

Definition getExplosionOrder (p : t) : outcome (list string) :=
  order <- Graph.topologicalSort (bomGraph p) ;; Ok (rev order).

Definition effectiveQuantity (c : Component) : Q :=
  quantity c / (1 - orZero (scrapRate c)).

Definition circularMessage (productId : string) : string :=
  "Circular reference detected: " +++ productId.

(** [explodeBOM(productId, depth, visited)] over the BOM index [b],
    threading the cache.  Fuel is spent only where the function calls
    itself. *)
Fixpoint explodeBOM_fuel (fuel : nat) (b : JsMap.t BomItem)
         (cache : JsMap.t Exploded) (pid : string) (depth : nat)
         (visited : JsSet.t) : outcome (Exploded * JsMap.t Exploded) :=
  match JsMap.get cache pid with
  | Some cached => Ok (cached, cache)
  | None =>
      if JsSet.has visited pid then Throw (circularMessage pid)
      else
        let visited' := JsSet.add visited pid in
        match JsMap.get b pid with
        | None => Ok (mkExploded pid true [] depth, cache)
        | Some product =>
            match components product with
            | [] =>
                let result := mkExploded pid true [] depth in
                Ok (result, JsMap.set cache pid result)
            | comps =>
                match fuel with
                | O => OutOfFuel
                | S fuel' =>
                    '(exploded, cache') <-
                      forEachM
                        (fun c (s : list (Component * Exploded * Q)
                                    * JsMap.t Exploded) =>
                           '(child, cache1) <-
                             explodeBOM_fuel fuel' b (snd s) (itemId c)
                                             (S depth) visited' ;;
                           Ok (fst s ++ [(c, child, effectiveQuantity c)], cache1))
                        comps ([], cache) ;;
                    let result := mkExploded pid false exploded depth in
                    Ok (result, JsMap.set cache' pid result)
                end
            end
        end
  end.

(** The recursion descends through distinct products of the index, so
    its depth is bounded by their number. *)
Definition explodeBOM (p : t) (pid : string) : outcome (Exploded * t) :=
  '(r, cache') <-
    explodeBOM_fuel (length (bom p)) (bom p) (explosionCache p) pid 0 JsSet.empty ;;
  Ok (r, mk (bom p) (bomGraph p) cache').

(** The closure [traverse] of [getFlattenedMaterials], which adds to
    the map [materials] of the enclosing function.  It has no cache
    and no visited set; fuel is spent where it calls itself. *)
Fixpoint traverse (fuel : nat) (b : JsMap.t BomItem) (item : string) (qty : Q)
         (materials : JsMap.t Q) : option (JsMap.t Q) :=
  let rawMaterial :=
    Some (JsMap.set materials item (orZero (JsMap.get materials item) + qty)) in
  match JsMap.get b item with
  | None => rawMaterial
  | Some product =>
      match components product with
      | [] => rawMaterial
      | comps =>
          match fuel with
          | O => None
          | S fuel' =>
              forEach
                (fun c m =>
                   let effectiveQty :=
                     qty * quantity c / (1 - orZero (scrapRate c)) in
                   traverse fuel' b (itemId c) effectiveQty m)
                comps materials
          end
      end
  end.

(** On a bill without cycles the recursion descends through distinct
    products of the index. *)
Definition getFlattenedMaterials (p : t) (pid : string) (multiplier : Q)
  : option (JsMap.t Q) :=
  traverse (length (bom p)) (bom p) pid multiplier JsMap.empty.

Definition getProduct (p : t) (pid : string) : option BomItem :=
  JsMap.get (bom p) pid.

Definition getAllProducts (p : t) : list string := JsMap.keys (bom p).
End BOMProcessor.

(** ** class CurrencyConverter *)

Module CurrencyConverter.
(** [exchangeRates]: period -> rate key (["CNY/USD"]) -> rate. *)
Definition Rates := JsMap.t (JsMap.t Q).

Record t : Type := mk { rates : Rates }.

(** *** Built-ins on strings and integers

    [parseInt] and [Number] are modelled on the integer literals that
    period strings such as ["2024-Q4"] are made of; [None] stands for
    [NaN].  [parseInt] reads an optional sign, an optional [0x] prefix
    and the longest run of digits; [Number] accepts a whole string of
    decimal digits with an optional sign (other numeric literals, such
    as fractions and exponents, are outside the model and read as
    [NaN]). *)

Local Open Scope Z_scope.

Definition isSpace (c : ascii) : bool :=
  let n := Z.of_nat (nat_of_ascii c) in
  ((9 <=? n) && (n <=? 13)) || (n =? 32).

Fixpoint skipSpaces (s : string) : string :=
  match s with
  | String c r => if isSpace c then skipSpaces r else s
  | EmptyString => s
  end.

Definition digit (radix : Z) (c : ascii) : option Z :=
  let n := Z.of_nat (nat_of_ascii c) in
  let v :=
    if (48 <=? n) && (n <=? 57) then Some (n - 48)
    else if (97 <=? n) && (n <=? 122) then Some (n - 87)
    else if (65 <=? n) && (n <=? 90) then Some (n - 55)
    else None in
  match v with
  | Some d => if d <? radix then Some d else None
  | None => None
  end.

Fixpoint digits (radix : Z) (s : string) (acc : option Z) : option Z :=
  match s with
  | String c r =>
      match digit radix c with
      | Some d =>
          digits radix r
                 (Some (match acc with Some a => a * radix + d | None => d end))
      | None => acc
      end
  | EmptyString => acc
  end.

Definition readSign (s : string) : Z * string :=
  match s with
  | String "-"%char r => (-1, r)
  | String "+"%char r => (1, r)
  | _ => (1, s)
  end.

Definition parseInt (s : string) : option Z :=
  let '(sign, s2) := readSign (skipSpaces s) in
  let '(radix, s3) :=
    match s2 with
    | String "0"%char (String "x"%char r) => (16, r)
    | String "0"%char (String "X"%char r) => (16, r)
    | _ => (10, s2)
    end in
  match digits radix s3 None with
  | Some v => Some (sign * v)
  | None => None
  end.

Fixpoint allDecimal (s : string) : bool :=
  match s with
  | String c r =>
      match digit 10 c with Some _ => allDecimal r | None => false end
  | EmptyString => true
  end.

Fixpoint dropTrailingSpaces (s : string) : string :=
  match s with
  | String c r =>
      match dropTrailingSpaces r with
      | EmptyString => if isSpace c then EmptyString else String c EmptyString
      | r' => String c r'
      end
  | EmptyString => EmptyString
  end.

Definition Number (s : string) : option Z :=
  let s1 := dropTrailingSpaces (skipSpaces s) in
  match s1 with
  | EmptyString => Some 0
  | _ =>
      let '(sign, s2) := readSign s1 in
      match s2 with
      | EmptyString => None
      | _ => if allDecimal s2
             then match digits 10 s2 None with
                  | Some v => Some (sign * v)
                  | None => None
                  end
             else None
      end
  end.

(** A number inside a template literal. *)
Definition numToString (n : option Z) : string :=
  match n with
  | Some z => DecimalString.NilZero.string_of_int (Z.to_int z)
  | None => "NaN"
  end.

(** [s.split('-Q')] *)
Fixpoint splitDashQ (s : string) (piece : string) : list string :=
  match s with
  | EmptyString => [piece]
  | String "-"%char (String "Q"%char r) => piece :: splitDashQ r ""
  | String c r => splitDashQ r (piece +++ String c "")
  end.

Definition periodToNumber (period : string) : option Z :=
  let parts := splitDashQ period "" in
  let year := nth 0 parts "undefined" in
  let quarter := nth 1 parts "undefined" in
  match parseInt year, parseInt quarter with
  | Some y, Some q => Some (y * 4 + q)
  | _, _ => None
  end.

(** [Math.abs(a - t) < Math.abs(b - t)], false when any side is [NaN]. *)
Definition closer (a b t : option Z) : bool :=
  match a, b, t with
  | Some x, Some y, Some z => Z.abs (x - z) <? Z.abs (y - z)
  | _, _, _ => false
  end.

(** [Object.keys(rates).sort()] *)
Fixpoint insertSorted (k : string) (l : list string) : list string :=
  match l with
  | [] => [k]
  | x :: r => if String.leb k x then k :: l else x :: insertSorted k r
  end.

Definition sortKeys (l : list string) : list string :=
  fold_right insertSorted [] l.

(** A string used as a condition: [null] and [""] are falsy. *)
Definition truthy (s : option string) : bool :=
  match s with
  | Some x => negb (String.eqb x "")
  | None => false
  end.

(** The callback of the [reduce] that looks for the nearest period. *)
Definition pickNearest (period : string) (nearest : option string)
           (p : string) : option string :=
  match nearest with
  | Some n =>
      if truthy nearest then
        if closer (periodToNumber p) (periodToNumber n) (periodToNumber period)
        then Some p else nearest
      else Some p
  | None => Some p
  end.

Definition nearestPeriod (c : t) (period : string) : option string :=
  fold_left (pickNearest period) (sortKeys (JsMap.keys (rates c))) None.

Local Close Scope Z_scope.
Local Open Scope Q_scope.

(** [periodRates[rateKey]] used as a condition: a missing rate and a
    rate of [0] are both falsy. *)
Definition rateOf (periodRates : JsMap.t Q) (rateKey : string) : option Q :=
  match JsMap.get periodRates rateKey with
  | Some r => if Qeq_bool r 0 then None else Some r
  | None => None
  end.

Definition missingRate (rateKey period : string) : string :=
  "Missing exchange rate: " +++ rateKey +++ " for period " +++ period.

Definition noRate (period : string) : string :=
  "No exchange rate found for period " +++ period.

(** The part of [convert] below the period lookup. *)
Definition convertWith (periodRates : JsMap.t Q) (amount : Q)
           (fromCurrency toCurrency period : string) : outcome Q :=
  amountInUSD <-
    (if String.eqb fromCurrency "USD" then Ok amount
     else match rateOf periodRates (fromCurrency +++ "/USD") with
          | Some r => Ok (amount * r)
          | None => Throw (missingRate (fromCurrency +++ "/USD") period)
          end) ;;
  if String.eqb toCurrency "USD" then Ok amountInUSD
  else match rateOf periodRates (toCurrency +++ "/USD") with
       | Some r => Ok (amountInUSD / r)
       | None => Throw (missingRate (toCurrency +++ "/USD") period)
       end.

Fixpoint convert_fuel (fuel : nat) (c : t) (amount : Q)
         (fromCurrency toCurrency period : string) : outcome Q :=
  if String.eqb fromCurrency toCurrency then Ok amount
  else
    match JsMap.get (rates c) period with
    | Some periodRates =>
        convertWith periodRates amount fromCurrency toCurrency period
    | None =>
        match nearestPeriod c period with
        | Some nearest =>
            if truthy (Some nearest) then
              match fuel with
              | O => OutOfFuel
              | S fuel' =>
                  convert_fuel fuel' c amount fromCurrency toCurrency nearest
              end
            else Throw (noRate period)
        | None => Throw (noRate period)
        end
    end.

(** The nearest period is a key of the table, so the recursive call
    finds its rates and does not recurse again. *)
Definition convert (c : t) (amount : Q)
           (fromCurrency toCurrency period : string) : outcome Q :=
  convert_fuel 1 c amount fromCurrency toCurrency period.

Local Open Scope Z_scope.

(** One turn of the loop of [getPriorPeriods]. *)
Definition priorStep (yq : option Z * option Z) : option Z * option Z :=
  let '(year, quarter) := yq in
  let quarter1 := option_map (fun q => q - 1) quarter in
  match quarter1 with
  | Some q => if q <? 1 then (option_map (fun y => y - 1) year, Some 4)
              else (year, quarter1)
  | None => (year, quarter1)
  end.

Fixpoint priorLoop (count : nat) (yq : option Z * option Z) : list string :=
  match count with
  | O => []
  | S count' =>
      let yq' := priorStep yq in
      (numToString (fst yq') +++ "-Q" +++ numToString (snd yq'))
        :: priorLoop count' yq'
  end.

Definition getPriorPeriods (period : string) (count : nat) : list string :=
  let parts := splitDashQ period "" in
  let year := Number (nth 0 parts "") in
  let quarter := match nth_error parts 1 with
                 | Some q => Number q
                 | None => None
                 end in
  priorLoop count (year, quarter).
End CurrencyConverter.

(** ** class EntityManager *)

Module EntityManager.
Record Entity : Type := mkEntity {
  id : string;
  type : string;
  country : string;
  currency : string
}.

Record Route : Type := mkRoute {
  rFrom : string;
  rTo : string;
  itemTypes : list string;
  markupType : string;
  markupValue : Q
}.

(** The metadata of an edge of [transferGraph]. *)
Record RouteMeta : Type := mkRouteMeta {
  mItemTypes : list string;
  mMarkupType : string;
  mMarkupValue : Q
}.

Record t : Type := mk {
  entities : JsMap.t Entity;
  transferGraph : Graph.t RouteMeta
}.

Definition new (ents : list Entity) (transferRoutes : list Route) : t :=
  let '(m, gr) :=
    fold_left
      (fun (s : JsMap.t Entity * Graph.t RouteMeta) e =>
         (JsMap.set (fst s) (id e) e, Graph.addNode (snd s) (id e)))
      ents (JsMap.empty, Graph.empty) in
  let gr' :=
    fold_left
      (fun g r =>
         Graph.addEdge g (rFrom r) (rTo r)
           (mkRouteMeta (itemTypes r) (markupType r) (markupValue r)))
      transferRoutes gr in
  mk m gr'.

Definition getEntity (em : t) (entityId : string) : option Entity :=
  JsMap.get (entities em) entityId.

Definition getAllEntities (em : t) : list Entity := JsMap.values (entities em).

Definition getManufacturingEntities (em : t) : list Entity :=
  filter (fun e => String.eqb (type e) "manufacturing") (getAllEntities em).

Definition getDistributionEntities (em : t) : list Entity :=
  filter (fun e => String.eqb (type e) "distribution") (getAllEntities em).

Definition findTransferPaths (em : t) (fromEntity toEntity : string)
  : option (list (list (Graph.Step RouteMeta))) :=
  Graph.findAllPaths (transferGraph em) fromEntity toEntity Graph.defaultMaxDepth.

(** [neighbors.find(n => n.node === toEntity)] *)
Definition getTransferRoute (em : t) (fromEntity toEntity : string)
  : option (Graph.Edge RouteMeta) :=
  find (fun n => String.eqb (Graph.node n) toEntity)
       (Graph.getNeighbors (transferGraph em) fromEntity).

(** [from && to && from.country !== to.country] used as a condition. *)
Definition isCrossBorder (em : t) (fromEntityId toEntityId : string) : bool :=
  match getEntity em fromEntityId, getEntity em toEntityId with
  | Some f, Some t' => negb (String.eqb (country f) (country t'))
  | _, _ => false
  end.
End EntityManager.

(** ** class RuleEngine *)

Module RuleEngine.
(** An allocation rule.  The parameters that only some rule types read
    are plain fields; [lookbackPeriods] may be left out. *)
Record Rule : Type := mkRule {
  id : string;
  type : string;
  dependencies : list string;
  burdenRate : Q;
  baseRules : list string;
  percentage : Q;
  poolId : string;
  lookbackPeriods : option nat;
  transferType : string
}.

Record t : Type := mk {
  rules : JsMap.t Rule;
  ruleGraph : Graph.t unit;
  executionOrder : list string
}.

Definition buildGraph (allocationRules : list Rule) : Graph.t unit :=
  let g0 := fold_left (fun g r => Graph.addNode g (id r)) allocationRules Graph.empty in
  fold_left
    (fun g r => fold_left (fun g' depId => Graph.addEdge g' depId (id r) tt)
                          (dependencies r) g)
    allocationRules g0.

Definition cyclesMessage (cycles : list (list string)) : string :=
  "Rule dependencies contain cycles: " +++ join "; " (map (join " -> ") cycles).

Definition new (allocationRules : list Rule) : outcome t :=
  let rs := fold_left (fun m r => JsMap.set m (id r) r) allocationRules JsMap.empty in
  let g := buildGraph allocationRules in
  cycles <- ofOption (Graph.detectCycles g) ;;
  if Nat.ltb 0 (length cycles) then Throw (cyclesMessage cycles)
  else order <- Graph.topologicalSort g ;; Ok (mk rs g order).

Definition getExecutionOrder (re : t) : list string := executionOrder re.

Definition getRule (re : t) (ruleId : string) : option Rule :=
  JsMap.get (rules re) ruleId.

(** Reading [rule.dependencies] when [rule] is [undefined]. *)
Definition undefinedRule : string :=
  "TypeError: cannot read properties of undefined".

(** The body of the [for] loop of [getParallelGroups]. *)
Definition groupStep (re : t) (executed : JsSet.t) (ruleId : string)
           (group : list string) : outcome (list string) :=
  if JsSet.has executed ruleId then Ok group
  else
    match getRule re ruleId with
    | None => Throw undefinedRule
    | Some rule =>
        if forallb (JsSet.has executed) (dependencies rule)
        then Ok (group ++ [ruleId])
        else Ok group
    end.

(** The [while] loop of [getParallelGroups]. *)
Fixpoint groupLoop (fuel : nat) (re : t) (groups : list (list string))
         (executed : JsSet.t) : outcome (list (list string)) :=
  if Nat.ltb (JsSet.size executed) (JsMap.size (rules re)) then
    match fuel with
    | O => OutOfFuel
    | S fuel' =>
        group <- forEachM (groupStep re executed) (executionOrder re) [] ;;
        if Nat.eqb (length group) 0 then Ok groups
        else groupLoop fuel' re (groups ++ [group])
                       (fold_left JsSet.add group executed)
    end
  else Ok groups.

(** A turn of the loop that does not leave it adds a rule to
    [executed], so there are at most as many turns as rules. *)
Definition getParallelGroups (re : t) : outcome (list (list string)) :=
  groupLoop (JsMap.size (rules re)) re [] JsSet.empty.
End RuleEngine.

(** ** class CostCalculator *)

Module CostCalculator.
Import CostState.

(** [{ unit, currency }]: the cost of an item at an entity in a period. *)
Record ItemCost : Type := mkItemCost { icUnit : Q; icCurrency : string }.

(** An entry of the [periodCosts] dataset. *)
Record PeriodCostEntry : Type := mkPeriodCostEntry {
  pceItemId : string;
  pceEntityId : string;
  pcePeriods : list (string * ItemCost)
}.

Record PoolPeriod : Type := mkPoolPeriod { ppAmount : Q; ppCurrency : string }.

Record Pool : Type := mkPool {
  poolEntityId : string;
  poolPeriods : JsMap.t PoolPeriod
}.

(** A contribution recorded in the audit trail; the description text
    and the timestamp are not modelled. *)
Record Contribution : Type := mkContribution {
  conKey : string;
  conRuleId : string;
  conAmount : Q
}.

Record Config : Type := mkConfig {
  cfgBillOfMaterials : list BOMProcessor.BomItem;
  cfgExchangeRates : CurrencyConverter.Rates;
  cfgEntities : list EntityManager.Entity;
  cfgTransferRoutes : list EntityManager.Route;
  cfgAllocationRules : list RuleEngine.Rule;
  cfgPeriodCosts : list PeriodCostEntry;
  cfgProductionVolumes : JsMap.t (JsMap.t (JsMap.t Q));
  cfgCostPools : JsMap.t Pool
}.

(** The fields of the calculator that the modelled methods read or
    write ([standardCosts] is read only by the variance phase). *)
Record t : Type := mk {
  auditTrail : list Contribution;
  costState : CostState.t;
  bomProcessor : BOMProcessor.t;
  currencyConverter : CurrencyConverter.t;
  entityManager : EntityManager.t;
  ruleEngine : RuleEngine.t;
  periodCosts : JsMap.t ItemCost;
  productionVolumes : JsMap.t (JsMap.t (JsMap.t Q));
  costPools : JsMap.t Pool;
  transferRoutes : list EntityManager.Route;
  warnings : list string
}.

Definition withState (c : t) (st : CostState.t) (audit : list Contribution) : t :=
  mk audit st (bomProcessor c) (currencyConverter c) (entityManager c)
     (ruleEngine c) (periodCosts c) (productionVolumes c) (costPools c)
     (transferRoutes c) (warnings c).

Definition indexPeriodCosts (pcs : list PeriodCostEntry) : JsMap.t ItemCost :=
  fold_left
    (fun index cost =>
       fold_left
         (fun index' (pd : string * ItemCost) =>
            JsMap.set index'
              (pceItemId cost +++ ":" +++ pceEntityId cost +++ ":" +++ fst pd)
              (snd pd))
         (pcePeriods cost) index)
    pcs JsMap.empty.

(** The constructor; [this.warnings] starts empty. *)
Definition new (config : Config) : outcome t :=
  bp <- BOMProcessor.new (cfgBillOfMaterials config) ;;
  let em := EntityManager.new (cfgEntities config) (cfgTransferRoutes config) in
  re <- RuleEngine.new (cfgAllocationRules config) ;;
  Ok (mk [] CostState.new bp (CurrencyConverter.mk (cfgExchangeRates config))
         em re (indexPeriodCosts (cfgPeriodCosts config))
         (cfgProductionVolumes config) (cfgCostPools config)
         (cfgTransferRoutes config) []).

Definition getItemCost (c : t) (itemId entityId period : string)
  : option ItemCost :=
  JsMap.get (periodCosts c) (itemId +++ ":" +++ entityId +++ ":" +++ period).

Definition recordContribution (audit : list Contribution)
           (productId entityId ruleId : string) (amount : Q)
  : list Contribution :=
  audit ++ [mkContribution (productId +++ ":" +++ entityId) ruleId amount].

(** *** calculateBaseCost *)

(** The running totals of the loop over the components of an assembly. *)
Record BaseAcc : Type := mkBaseAcc {
  accMaterial : Q;
  accLabor : Q;
  accComponents : list ComponentCost
}.

Definition isLabor (component : BOMProcessor.Component) : bool :=
  match BOMProcessor.unit component with
  | Some u => String.eqb u "hours"
  | None => false
  end.

Definition baseComponent (c : t) (entityId period targetCurrency : string)
           (component : BOMProcessor.Component) (acc : BaseAcc)
  : outcome BaseAcc :=
  let itemId := BOMProcessor.itemId component in
  let quantity := BOMProcessor.quantity component in
  let scrapMultiplier := 1 / (1 - orZero (BOMProcessor.scrapRate component)) in
  if isLabor component then
    match getItemCost c itemId entityId period with
    | Some laborRate =>
        laborCost <-
          CurrencyConverter.convert (currencyConverter c)
            (icUnit laborRate * quantity * scrapMultiplier)
            (icCurrency laborRate) targetCurrency period ;;
        Ok (mkBaseAcc (accMaterial acc) (accLabor acc + laborCost)
              (accComponents acc ++
                 [mkComponentCost itemId "labor" quantity scrapMultiplier
                                  None laborCost]))
    | None => Ok acc
    end
  else
    match getCost (costState c) itemId entityId period with
    | Some componentCost =>
        let unitCost := orElse (totalCost componentCost)
                               (orElse (directMaterial componentCost) 0) in
        let totalComponentCost := unitCost * quantity * scrapMultiplier in
        Ok (mkBaseAcc (accMaterial acc + totalComponentCost) (accLabor acc)
              (accComponents acc ++
                 [mkComponentCost itemId "material" quantity scrapMultiplier
                                  (Some unitCost) totalComponentCost]))
    | None =>
        match getItemCost c itemId entityId period with
        | Some rawCost =>
            materialCost <-
              CurrencyConverter.convert (currencyConverter c)
                (icUnit rawCost * quantity * scrapMultiplier)
                (icCurrency rawCost) targetCurrency period ;;
            Ok (mkBaseAcc (accMaterial acc + materialCost) (accLabor acc)
                  (accComponents acc ++
                     [mkComponentCost itemId "raw-material" quantity
                        scrapMultiplier (Some (icUnit rawCost)) materialCost]))
        | None => Ok acc
        end
    end.

Definition baseBreakdown (acc : BaseAcc) : Cost :=
  mkCost (accMaterial acc) (accLabor acc) 0 0 0 0 0 0 0 0
         (accMaterial acc + accLabor acc)
         (Some (accComponents acc)) None None None None None.

(** Returns the breakdown ([None] stands for [null]) and the updated
    calculator. *)
Definition calculateBaseCost (c : t)
           (productId entityId period targetCurrency : string)
  : outcome (option Cost * t) :=
  match BOMProcessor.getProduct (bomProcessor c) productId with
  | None => Ok (None, c)
  | Some product =>
      acc <-
        match BOMProcessor.components product with
        | [] =>
            match getItemCost c productId entityId period with
            | Some costData =>
                dm <- CurrencyConverter.convert (currencyConverter c)
                        (icUnit costData) (icCurrency costData)
                        targetCurrency period ;;
                Ok (mkBaseAcc dm 0 [])
            | None => Ok (mkBaseAcc 0 0 [])
            end
        | comps =>
            forEachM (baseComponent c entityId period targetCurrency) comps
                     (mkBaseAcc 0 0 [])
        end ;;
      let breakdown := baseBreakdown acc in
      let st := setCost (costState c) productId entityId period breakdown in
      let audit := recordContribution (auditTrail c) productId entityId "BASE"
                     (accMaterial acc + accLabor acc) in
      Ok (Some breakdown, withState c st audit)
  end.

(** *** applyRule *)

Definition setLaborBurden (c : Cost) (v : Q) : Cost :=
  mkCost (directMaterial c) (directLabor c) (scrapAdjustment c) v
         (factoryOverhead c) (rndAmortization c) (royalty c) (managementFee c)
         (interCompanyMarkup c) (customsDuties c) (totalCost c)
         (componentBreakdown c) (sourceEntity c) (transferPath c)
         (weightedAverageCost c) (variance c) (_key c).

Definition setFactoryOverhead (c : Cost) (v : Q) : Cost :=
  mkCost (directMaterial c) (directLabor c) (scrapAdjustment c) (laborBurden c)
         v (rndAmortization c) (royalty c) (managementFee c)
         (interCompanyMarkup c) (customsDuties c) (totalCost c)
         (componentBreakdown c) (sourceEntity c) (transferPath c)
         (weightedAverageCost c) (variance c) (_key c).

Definition setRndAmortization (c : Cost) (v : Q) : Cost :=
  mkCost (directMaterial c) (directLabor c) (scrapAdjustment c) (laborBurden c)
         (factoryOverhead c) v (royalty c) (managementFee c)
         (interCompanyMarkup c) (customsDuties c) (totalCost c)
         (componentBreakdown c) (sourceEntity c) (transferPath c)
         (weightedAverageCost c) (variance c) (_key c).

Definition setRoyalty (c : Cost) (v : Q) : Cost :=
  mkCost (directMaterial c) (directLabor c) (scrapAdjustment c) (laborBurden c)
         (factoryOverhead c) (rndAmortization c) v (managementFee c)
         (interCompanyMarkup c) (customsDuties c) (totalCost c)
         (componentBreakdown c) (sourceEntity c) (transferPath c)
         (weightedAverageCost c) (variance c) (_key c).

Definition setManagementFee (c : Cost) (v : Q) : Cost :=
  mkCost (directMaterial c) (directLabor c) (scrapAdjustment c) (laborBurden c)
         (factoryOverhead c) (rndAmortization c) (royalty c) v
         (interCompanyMarkup c) (customsDuties c) (totalCost c)
         (componentBreakdown c) (sourceEntity c) (transferPath c)
         (weightedAverageCost c) (variance c) (_key c).

Definition setTotalCost (c : Cost) (v : Q) : Cost :=
  mkCost (directMaterial c) (directLabor c) (scrapAdjustment c) (laborBurden c)
         (factoryOverhead c) (rndAmortization c) (royalty c) (managementFee c)
         (interCompanyMarkup c) (customsDuties c) v
         (componentBreakdown c) (sourceEntity c) (transferPath c)
         (weightedAverageCost c) (variance c) (_key c).

(** [arr.includes(x)] *)
Definition includes (l : list string) (x : string) : bool :=
  existsb (String.eqb x) l.

Definition sumValues (m : JsMap.t Q) : Q :=
  fold_left (fun total kv => total + snd kv) m 0.

Definition getTotalProductionVolume (c : t) (period : string)
           (lookbackPeriods : option nat) : Q :=
  let lookback := match lookbackPeriods with Some n => n | None => 1%nat end in
  let periods :=
    period :: CurrencyConverter.getPriorPeriods period (lookback - 1) in
  let total :=
    fold_left
      (fun total p =>
         match JsMap.get (productionVolumes c) p with
         | Some periodVolumes =>
             fold_left
               (fun total' (ev : string * JsMap.t Q) =>
                  fold_left (fun t' (pv : string * Q) => t' + snd pv)
                            (snd ev) total')
               periodVolumes total
         | None => total
         end)
      periods 0 in
  total / inject_Z (Z.of_nat (length periods)).

Definition getProductVolume (c : t) (productId entityId period : string) : Q :=
  match JsMap.get (productionVolumes c) period with
  | Some pv =>
      match JsMap.get pv entityId with
      | Some ev => orZero (JsMap.get ev productId)
      | None => 0
      end
  | None => 0
  end.

(** What the [switch] of [applyRule] leaves behind: the mutated cost
    object, the rule output and the audit trail. *)
Record RuleAcc : Type := mkRuleAcc {
  raCost : Cost;
  raOutput : Q;
  raAudit : list Contribution
}.

(** The body of the loops over the royalty and the management-fee
    routes. *)
Definition royaltyRoute (productId entityId ruleId : string)
           (acc : RuleAcc) (route : EntityManager.Route) : RuleAcc :=
  if String.eqb (EntityManager.markupType route) "revenue-percent" then
    let cost := raCost acc in
    let roy := totalCost cost * EntityManager.markupValue route in
    let cost1 := setRoyalty cost (royalty cost + roy) in
    let cost2 := setTotalCost cost1 (totalCost cost1 + roy) in
    mkRuleAcc cost2 (raOutput acc + roy)
              (recordContribution (raAudit acc) productId entityId ruleId roy)
  else acc.

Definition mgmtRoute (productId entityId ruleId : string)
           (acc : RuleAcc) (route : EntityManager.Route) : RuleAcc :=
  if String.eqb (EntityManager.markupType route) "revenue-percent" then
    let cost := raCost acc in
    let fee := totalCost cost * EntityManager.markupValue route in
    let cost1 := setManagementFee cost (managementFee cost + fee) in
    let cost2 := setTotalCost cost1 (totalCost cost1 + fee) in
    mkRuleAcc cost2 (raOutput acc + fee)
              (recordContribution (raAudit acc) productId entityId ruleId fee)
  else acc.

Definition routesFor (c : t) (entityId itemType : string)
  : list EntityManager.Route :=
  filter (fun r => String.eqb (EntityManager.rTo r) entityId
                   && includes (EntityManager.itemTypes r) itemType)
         (transferRoutes c).

(** The [reduce] of the [percentage-of-base] case. *)
Definition baseAmount (cost : Cost) (baseRules : list string) : Q :=
  fold_left
    (fun sum baseRuleId =>
       if String.eqb baseRuleId "RULE-002"
       then sum + directMaterial cost + scrapAdjustment cost
       else if String.eqb baseRuleId "RULE-003"
       then sum + directLabor cost + laborBurden cost
       else sum)
    baseRules 0.

(** The [switch (rule.type)] of [applyRule]. *)
Definition ruleSwitch (c : t) (rule : RuleEngine.Rule)
           (productId entityId period targetCurrency : string)
           (cost : Cost) : outcome RuleAcc :=
  let ty := RuleEngine.type rule in
  let ruleId := RuleEngine.id rule in
  let audit := auditTrail c in
  if String.eqb ty "sum-components" then
    Ok (mkRuleAcc cost (directMaterial cost + directLabor cost) audit)
  else if String.eqb ty "multiply" then
    Ok (mkRuleAcc cost 0 audit)
  else if String.eqb ty "labor-burden" then
    if Qltb 0 (directLabor cost) then
      let burden := directLabor cost * RuleEngine.burdenRate rule in
      let cost1 := setLaborBurden cost burden in
      let cost2 := setTotalCost cost1 (totalCost cost1 + burden) in
      Ok (mkRuleAcc cost2 burden
            (recordContribution audit productId entityId ruleId burden))
    else Ok (mkRuleAcc cost 0 audit)
  else if String.eqb ty "percentage-of-base" then
    let overhead := baseAmount cost (RuleEngine.baseRules rule)
                    * RuleEngine.percentage rule in
    let cost1 := setFactoryOverhead cost overhead in
    let cost2 := setTotalCost cost1 (totalCost cost1 + overhead) in
    Ok (mkRuleAcc cost2 overhead
          (recordContribution audit productId entityId ruleId overhead))
  else if String.eqb ty "per-unit-allocation" then
    match JsMap.get (costPools c) (RuleEngine.poolId rule) with
    | Some pool =>
        let totalVolume :=
          getTotalProductionVolume c period (RuleEngine.lookbackPeriods rule) in
        let productVolume := getProductVolume c productId entityId period in
        if Qltb 0 totalVolume && Qltb 0 productVolume then
          let pp := JsMap.get (poolPeriods pool) period in
          poolAmount <-
            CurrencyConverter.convert (currencyConverter c)
              (match pp with Some x => orElse (ppAmount x) 0 | None => 0 end)
              (match pp with
               | Some x => if String.eqb (ppCurrency x) "" then "USD"
                           else ppCurrency x
               | None => "USD"
               end)
              targetCurrency period ;;
          let allocation :=
            (poolAmount / totalVolume) * (productVolume / productVolume) in
          let cost1 := setRndAmortization cost allocation in
          let cost2 := setTotalCost cost1 (totalCost cost1 + allocation) in
          Ok (mkRuleAcc cost2 allocation
                (recordContribution audit productId entityId ruleId allocation))
        else Ok (mkRuleAcc cost 0 audit)
    | None => Ok (mkRuleAcc cost 0 audit)
    end
  else if String.eqb ty "transfer-price" then
    if String.eqb (RuleEngine.transferType rule) "royalty" then
      Ok (fold_left (royaltyRoute productId entityId ruleId)
                    (routesFor c entityId "royalty")
                    (mkRuleAcc cost 0 audit))
    else if String.eqb (RuleEngine.transferType rule) "mgmt-fee" then
      Ok (fold_left (mgmtRoute productId entityId ruleId)
                    (routesFor c entityId "mgmt-fee")
                    (mkRuleAcc cost 0 audit))
    else Ok (mkRuleAcc cost 0 audit)
  else
    (* 'conditional', 'weighted-average', 'variance-calculation' and any
       other type: no case changes the cost *)
    Ok (mkRuleAcc cost 0 audit).

Definition applyRule (c : t) (rule : RuleEngine.Rule)
           (productId entityId period targetCurrency : string) : outcome t :=
  match getCost (costState c) productId entityId period with
  | None => Ok c
  | Some cost =>
      acc <- ruleSwitch c rule productId entityId period targetCurrency cost ;;
      let st1 := setRuleOutput (costState c) (RuleEngine.id rule)
                               productId entityId period (raOutput acc) in
      let st2 := setCost st1 productId entityId period (raCost acc) in
      Ok (withState c st2 (raAudit acc))
  end.

(** *** calculateTransferPrice *)

(** Reading a property of [null] or [undefined]. *)
Definition typeError : string := "TypeError: cannot read properties of undefined".

(** The variables of the loop over the hops of a path: the running
    [transferCost], the array [pathCosts], and [path[i - 1].node]. *)
Record WalkAcc : Type := mkWalkAcc {
  transferCost : Q;
  pathCosts : list PathCost;
  prevNode : string
}.

Definition dutyRateOf (countryCode : string) : Q :=
  let dutyRate := 3 # 100 in
  let dutyRate := if String.eqb countryCode "US" then 25 # 1000 else dutyRate in
  let dutyRate := if String.eqb countryCode "DE" then 4 # 100 else dutyRate in
  dutyRate.

Definition walkStep (c : t) (step : Graph.Step EntityManager.RouteMeta)
           (acc : WalkAcc) : outcome WalkAcc :=
  match Graph.sedge step with
  | None => Throw typeError
  | Some e =>
      let route := Graph.meta e in
      let mv := EntityManager.mMarkupValue route in
      let cost1 :=
        if String.eqb (EntityManager.mMarkupType route) "cost-plus"
        then transferCost acc * (1 + mv)
        else if String.eqb (EntityManager.mMarkupType route) "resale-minus"
        then transferCost acc * (1 + mv * (1 # 2))
        else transferCost acc in
      cost2 <-
        (if EntityManager.isCrossBorder (entityManager c) (prevNode acc)
                                        (Graph.snode step)
         then match EntityManager.getEntity (entityManager c) (Graph.snode step) with
              | Some toEntity =>
                  let duty := cost1 * dutyRateOf (EntityManager.country toEntity) in
                  Ok (cost1 + duty)
              | None => Throw typeError
              end
         else Ok cost1) ;;
      Ok (mkWalkAcc cost2
            (pathCosts acc ++ [mkPathCost (Graph.snode step) cost2 (Some mv)])
            (Graph.snode step))
  end.

(** The loop [for (let i = 1; i < path.length; i++)] from the source
    cost. *)
Definition walkPath (c : t) (mfgId : string) (sourceTotal : Q)
           (path : list (Graph.Step EntityManager.RouteMeta))
  : outcome WalkAcc :=
  match path with
  | [] => Ok (mkWalkAcc sourceTotal [mkPathCost mfgId sourceTotal None] mfgId)
  | first :: rest =>
      forEachM (walkStep c) rest
               (mkWalkAcc sourceTotal [mkPathCost mfgId sourceTotal None]
                          (Graph.snode first))
  end.

(** [bestCost], [bestPath] and [bestSourceEntity]; [None] is the
    initial [Infinity], [null], [null]. *)
Definition Best : Type := option (Q * list PathCost * string).

Definition betterThan (cost : Q) (best : Best) : bool :=
  match best with
  | Some (bestCost, _, _) => Qltb cost bestCost
  | None => true
  end.

Definition tryPath (c : t) (productId period mfgId : string)
           (path : list (Graph.Step EntityManager.RouteMeta)) (best : Best)
  : outcome Best :=
  match getCost (costState c) productId mfgId period with
  | None => Ok best
  | Some sourceCost =>
      w <- walkPath c mfgId (totalCost sourceCost) path ;;
      if betterThan (transferCost w) best
      then Ok (Some (transferCost w, pathCosts w, mfgId))
      else Ok best
  end.

Definition trySource (c : t) (productId destEntityId period : string)
           (mfgEntity : EntityManager.Entity) (best : Best) : outcome Best :=
  paths <- ofOption (EntityManager.findTransferPaths (entityManager c)
                       (EntityManager.id mfgEntity) destEntityId) ;;
  forEachM (tryPath c productId period (EntityManager.id mfgEntity)) paths best.

Definition selectBestPath (c : t) (productId destEntityId period : string)
  : outcome Best :=
  forEachM (trySource c productId destEntityId period)
           (EntityManager.getManufacturingEntities (entityManager c)) None.

Definition transferBreakdown (sourceCost : Cost) (bestCost : Q)
           (bestPath : list PathCost) (bestSourceEntity : string) : Cost :=
  mkCost (directMaterial sourceCost) (directLabor sourceCost)
         (scrapAdjustment sourceCost) (laborBurden sourceCost)
         (factoryOverhead sourceCost) (rndAmortization sourceCost)
         (royalty sourceCost) (managementFee sourceCost)
         (bestCost - totalCost sourceCost) 0 bestCost
         None (Some bestSourceEntity) (Some bestPath) None None None.

Definition calculateTransferPrice (c : t)
           (productId destEntityId period targetCurrency : string) : outcome t :=
  match EntityManager.getEntity (entityManager c) destEntityId with
  | None => Ok c
  | Some destEntity =>
      if negb (String.eqb (EntityManager.type destEntity) "distribution")
      then Ok c
      else
        best <- selectBestPath c productId destEntityId period ;;
        match best with
        | None => Ok c
        | Some (bestCost, bestPath, bestSourceEntity) =>
            match getCost (costState c) productId bestSourceEntity period with
            | None => Throw typeError
            | Some sourceCost =>
                let breakdown :=
                  transferBreakdown sourceCost bestCost bestPath bestSourceEntity in
                let st := setCost (costState c) productId destEntityId period
                                  breakdown in
                Ok (withState c st
                      (recordContribution (auditTrail c) productId destEntityId
                         "TRANSFER" (bestCost - totalCost sourceCost)))
            end
        end
  end.

(** *** resolveRoyaltyCycle *)

Record Resolution : Type := mkResolution {
  converged : bool;
  iterations : nat;
  finalCost : Q
}.

(** [this.costState.getCost(...)?.totalCost || 0] *)
Definition currentTotal (c : t) (productId entityId period : string) : Q :=
  match getCost (costState c) productId entityId period with
  | Some cost => orElse (totalCost cost) 0
  | None => 0
  end.

Definition isRoyaltyRule (rule : RuleEngine.Rule) : bool :=
  String.eqb (RuleEngine.type rule) "transfer-price"
  && String.eqb (RuleEngine.transferType rule) "royalty".

(** The body of the loop over the execution order; [rule.type] on a
    rule id that names no rule is a [TypeError]. *)
Definition royaltyRuleStep (productId entityId period targetCurrency : string)
           (ruleId : string) (c : t) : outcome t :=
  match RuleEngine.getRule (ruleEngine c) ruleId with
  | None => Throw typeError
  | Some rule =>
      if isRoyaltyRule rule
      then applyRule c rule productId entityId period targetCurrency
      else Ok c
  end.

(** The body of the [while] loop. *)
Definition royaltyIteration (c : t)
           (productId entityId period targetCurrency : string) : outcome t :=
  '(_, c1) <- calculateBaseCost c productId entityId period targetCurrency ;;
  forEachM (royaltyRuleStep productId entityId period targetCurrency)
           (RuleEngine.getExecutionOrder (ruleEngine c1)) c1.

(** The variables of the [while] loop. *)
Record LoopState : Type := mkLoopState {
  lsCalc : t;
  lsPrevCost : Q;
  lsCurrentCost : Q;
  lsIterations : nat
}.

Fixpoint royaltyLoop (fuel : nat)
         (productId entityId period targetCurrency : string)
         (maxIterations : nat) (tolerance : Q) (s : LoopState)
  : outcome LoopState :=
  if Qltb tolerance (Qabs (lsCurrentCost s - lsPrevCost s))
     && Nat.ltb (lsIterations s) maxIterations
  then
    match fuel with
    | O => OutOfFuel
    | S fuel' =>
        c' <- royaltyIteration (lsCalc s) productId entityId period
                               targetCurrency ;;
        royaltyLoop fuel' productId entityId period targetCurrency
          maxIterations tolerance
          (mkLoopState c' (lsCurrentCost s)
                       (currentTotal c' productId entityId period)
                       (S (lsIterations s)))
    end
  else Ok s.

(** The loop runs at most [maxIterations] times, which is the fuel it
    is given. *)
Definition resolveRoyaltyCycle (c : t)
           (productId entityId period targetCurrency : string)
           (maxIterations : nat) (tolerance : Q)
  : outcome (Resolution * t) :=
  s <- royaltyLoop maxIterations productId entityId period targetCurrency
         maxIterations tolerance
         (mkLoopState c 0 (currentTotal c productId entityId period) 0) ;;
  Ok (mkResolution
        (Qle_bool (Qabs (lsCurrentCost s - lsPrevCost s)) tolerance)
        (lsIterations s) (lsCurrentCost s),
      lsCalc s).

Definition defaultMaxIterations : nat := 10.
Definition defaultTolerance : Q := 1 # 100.

(** *** The audit trail *)

(** [AuditTrail.getContributions]: the contributions recorded under
    the key of the product and the entity, in the order recorded. *)
Definition getContributions (audit : list Contribution)
           (productId entityId : string) : list Contribution :=
  filter (fun k => String.eqb (conKey k) (productId +++ ":" +++ entityId)) audit.

(** *** executeRule *)

Definition executeRule (c : t) (ruleId : string) (productIds : list string)
           (period targetCurrency : string) : outcome t :=
  match RuleEngine.getRule (ruleEngine c) ruleId with
  | None => Ok c
  | Some rule =>
      forEachM
        (fun productId c1 =>
           forEachM
             (fun entity c2 =>
                applyRule c2 rule productId (EntityManager.id entity)
                          period targetCurrency)
             (EntityManager.getManufacturingEntities (entityManager c1)) c1)
        productIds c
  end.

(** *** calculateWeightedAverage *)

(** [weights['prior-' + (i + 1)]]: the table has a weight for the
    first two prior periods. *)
Definition priorWeight (i : nat) : option Q :=
  match i with
  | 0%nat => Some (25 # 100)
  | 1%nat => Some (15 # 100)
  | _ => None
  end.

Definition currentWeight : Q := 6 # 10.

(** The variables of the loop over the prior periods. *)
Record WeightAcc : Type := mkWeightAcc {
  weightedCost : Q;
  totalWeight : Q;
  waIndex : nat
}.

Definition weighPrior (c : t) (productId entityId : string)
           (acc : WeightAcc) (prior : string) : WeightAcc :=
  match getCost (costState c) productId entityId prior,
        priorWeight (waIndex acc) with
  | Some priorCost, Some w =>
      mkWeightAcc (weightedCost acc + totalCost priorCost * w)
                  (totalWeight acc + w) (S (waIndex acc))
  | _, _ => mkWeightAcc (weightedCost acc) (totalWeight acc) (S (waIndex acc))
  end.

Definition setWeightedAverageCost (c : Cost) (v : Q) : Cost :=
  mkCost (directMaterial c) (directLabor c) (scrapAdjustment c) (laborBurden c)
         (factoryOverhead c) (rndAmortization c) (royalty c) (managementFee c)
         (interCompanyMarkup c) (customsDuties c) (totalCost c)
         (componentBreakdown c) (sourceEntity c) (transferPath c)
         (Some v) (variance c) (_key c).

(** The body of the loop over the entities. *)
Definition weighEntity (productId period : string) (priorPeriods : list string)
           (c : t) (entity : EntityManager.Entity) : t :=
  let entityId := EntityManager.id entity in
  match getCost (costState c) productId entityId period with
  | None => c
  | Some currentCost =>
      let acc :=
        fold_left (weighPrior c productId entityId) priorPeriods
                  (mkWeightAcc (totalCost currentCost * currentWeight)
                               currentWeight 0) in
      let currentCost' :=
        setWeightedAverageCost currentCost (weightedCost acc / totalWeight acc) in
      withState c (setCost (costState c) productId entityId period currentCost')
                (auditTrail c)
  end.

Definition calculateWeightedAverage (c : t)
           (productId period targetCurrency : string) : t :=
  let priorPeriods := CurrencyConverter.getPriorPeriods period 2 in
  fold_left (weighEntity productId period priorPeriods)
            (EntityManager.getAllEntities (entityManager c)) c.

(** *** updateCost *)

(** [markDirty] recurses along the registered dependencies; the fuel
    is enough whenever they have no cycle.  The entry of [periodCosts]
    is updated in place; [None] when the recursion does not end. *)
Definition updateCost (c : t) (itemId entityId period : string) (newCost : Q)
  : option (list string * t) :=
  let key := getCostKey itemId entityId period in
  match markDirty (S (JsMap.size (dependencies (costState c))))
                  (costState c) key with
  | None => None
  | Some st =>
      let pkey := itemId +++ ":" +++ entityId +++ ":" +++ period in
      let periodCosts' :=
        match JsMap.get (periodCosts c) pkey with
        | Some costData =>
            JsMap.set (periodCosts c) pkey
                      (mkItemCost newCost (icCurrency costData))
        | None => periodCosts c
        end in
      Some (getDirtyKeys st,
            mk (auditTrail c) st (bomProcessor c) (currencyConverter c)
               (entityManager c) (ruleEngine c) periodCosts'
               (productionVolumes c) (costPools c) (transferRoutes c)
               (warnings c))
  end.
End CostCalculator.

(* ================================================================== *)
(** * Part II: properties of the program *)
(* ================================================================== *)

(** ** Facts about [JsMap] *)

Section JsMapFacts.
Context {V : Type}.
Implicit Types (m : JsMap.t V) (k : string) (v : V).

Lemma jsmap_get_set_same m k v : JsMap.get (JsMap.set m k v) k = Some v.
Proof.
  induction m as [|[k' v'] r IH]; simpl.
  - now rewrite String.eqb_refl.
  - destruct (String.eqb k' k) eqn:E; simpl; rewrite E; auto.
Qed.

Lemma jsmap_get_set_other m k k' v :
  k <> k' -> JsMap.get (JsMap.set m k v) k' = JsMap.get m k'.
Proof.
  intros Hne. induction m as [|[k0 v0] r IH]; simpl.
  - destruct (String.eqb_spec k k'); congruence.
  - destruct (String.eqb_spec k0 k); simpl.
    + subst. destruct (String.eqb_spec k k'); congruence.
    + now rewrite IH.
Qed.

Lemma jsmap_get_None_iff m k : JsMap.get m k = None <-> ~ In k (JsMap.keys m).
Proof.
  induction m as [|[k' v'] r IH]; simpl.
  - tauto.
  - destruct (String.eqb_spec k' k).
    + split; [discriminate | intros H; exfalso; apply H; now left].
    + rewrite IH. tauto.
Qed.

Lemma jsmap_get_Some_in m k v : JsMap.get m k = Some v -> In k (JsMap.keys m).
Proof.
  intros H. destruct (in_dec string_dec k (JsMap.keys m)) as [|Hn]; auto.
  apply jsmap_get_None_iff in Hn. congruence.
Qed.

Lemma jsmap_in_get m k : In k (JsMap.keys m) -> exists v, JsMap.get m k = Some v.
Proof.
  intros H. destruct (JsMap.get m k) eqn:E; eauto.
  apply jsmap_get_None_iff in E. contradiction.
Qed.

Lemma jsmap_keys_set_in m k v :
  In k (JsMap.keys m) -> JsMap.keys (JsMap.set m k v) = JsMap.keys m.
Proof.
  induction m as [|[k' v'] r IH]; simpl; [tauto|].
  intros H. destruct (String.eqb_spec k' k); simpl; auto.
  f_equal. apply IH. destruct H; congruence.
Qed.

Lemma jsmap_keys_set_notin m k v :
  ~ In k (JsMap.keys m) -> JsMap.keys (JsMap.set m k v) = JsMap.keys m ++ [k].
Proof.
  induction m as [|[k' v'] r IH]; simpl; auto.
  intros H. destruct (String.eqb_spec k' k); simpl.
  - exfalso; auto.
  - f_equal. apply IH. tauto.
Qed.

Lemma jsmap_has_true_iff m k : JsMap.has m k = true <-> In k (JsMap.keys m).
Proof.
  unfold JsMap.has. destruct (JsMap.get m k) eqn:E.
  - split; auto. intros _. eapply jsmap_get_Some_in; eauto.
  - apply jsmap_get_None_iff in E. split; [discriminate | tauto].
Qed.

Lemma jsmap_in_keys_set m k k' v :
  In k' (JsMap.keys (JsMap.set m k v)) <-> k' = k \/ In k' (JsMap.keys m).
Proof.
  destruct (in_dec string_dec k (JsMap.keys m)) as [Hin|Hn].
  - rewrite jsmap_keys_set_in by auto. split; auto. intros [->|]; auto.
  - rewrite jsmap_keys_set_notin by auto. rewrite in_app_iff. simpl.
    split; intros; intuition auto.
Qed.

Lemma jsmap_NoDup_keys_set m k v :
  NoDup (JsMap.keys m) -> NoDup (JsMap.keys (JsMap.set m k v)).
Proof.
  intros H. destruct (in_dec string_dec k (JsMap.keys m)) as [Hin|Hn].
  - now rewrite jsmap_keys_set_in.
  - rewrite jsmap_keys_set_notin by auto.
    apply NoDup_app; auto.
    + constructor; [simpl; tauto | constructor].
    + intros x Hx [<-|[]]. contradiction.
Qed.
End JsMapFacts.

Section GraphSpec.
Context {M : Type}.
Implicit Types (g : Graph.t M) (u v w n : string).

(** Graphs built with [addNode] and [addEdge]: one entry per node, and
    every neighbour is itself a node. *)
Definition wf g : Prop :=
  NoDup (Graph.getNodes g) /\
  forall n e, In e (Graph.getNeighbors g n) -> In (Graph.node e) (Graph.getNodes g).

Definition edge g u v : Prop :=
  exists e, In e (Graph.getNeighbors g u) /\ Graph.node e = v.

(** [reach g u v]: a walk of one or more edges from [u] to [v]. *)
Inductive reach g : string -> string -> Prop :=
| reach_step u v : edge g u v -> reach g u v
| reach_cons u v w : edge g u v -> reach g v w -> reach g u w.

Definition hasCycle g : Prop := exists u, reach g u u.
Definition acyclic g : Prop := forall u, ~ reach g u u.

(** [precedes l u v]: as the tests write it,
    [l.indexOf(u) < l.indexOf(v)], both being present. *)
Definition precedes (l : list string) u v : Prop :=
  exists i j, Graph.indexOf l u = Some i /\ Graph.indexOf l v = Some j /\ (i < j)%nat.
End GraphSpec.

Section GraphWf.
Context {M : Type}.
Implicit Types (g : Graph.t M) (u v w n : string).

Lemma getNeighbors_in_nodes g n e :
  In e (Graph.getNeighbors g n) -> In n (Graph.getNodes g).
Proof.
  unfold Graph.getNeighbors, Graph.getNodes.
  destruct (JsMap.get g n) eqn:E; [|intros []].
  intros _. eapply jsmap_get_Some_in; eauto.
Qed.

Lemma edge_src_node g u v : edge g u v -> In u (Graph.getNodes g).
Proof. intros (e & He & _). eapply getNeighbors_in_nodes; eauto. Qed.

Lemma edge_dst_node g u v : wf g -> edge g u v -> In v (Graph.getNodes g).
Proof. intros [_ H] (e & He & <-). eauto. Qed.

Lemma reach_src_node g u v : reach g u v -> In u (Graph.getNodes g).
Proof. intros H; destruct H; eapply edge_src_node; eauto. Qed.

Lemma wf_empty : wf (@Graph.empty M).
Proof. split; [constructor | intros n e []]. Qed.

Lemma getNeighbors_set g k l n :
  Graph.getNeighbors (JsMap.set g k l) n =
  if String.eqb k n then l else Graph.getNeighbors g n.
Proof.
  unfold Graph.getNeighbors. destruct (String.eqb_spec k n).
  - subst. now rewrite jsmap_get_set_same.
  - now rewrite jsmap_get_set_other.
Qed.

Lemma wf_addNode g n : wf g -> wf (Graph.addNode g n).
Proof.
  intros [Hnd Hcl]. unfold Graph.addNode.
  destruct (JsMap.has g n) eqn:E; [split; auto|].
  split.
  - apply jsmap_NoDup_keys_set; auto.
  - intros n' e. rewrite getNeighbors_set.
    destruct (String.eqb_spec n n'); [intros []|].
    intros He. unfold Graph.getNodes. apply jsmap_in_keys_set. right. eapply Hcl; eauto.
Qed.

Lemma addNode_in g n : In n (Graph.getNodes (Graph.addNode g n)).
Proof.
  unfold Graph.addNode. destruct (JsMap.has g n) eqn:E.
  - now apply jsmap_has_true_iff.
  - unfold Graph.getNodes. apply jsmap_in_keys_set. now left.
Qed.

Lemma addNode_incl g n x :
  In x (Graph.getNodes g) -> In x (Graph.getNodes (Graph.addNode g n)).
Proof.
  unfold Graph.addNode. destruct (JsMap.has g n); auto.
  intros. unfold Graph.getNodes. apply jsmap_in_keys_set. now right.
Qed.

Lemma wf_addEdge g a b (md : M) : wf g -> wf (Graph.addEdge g a b md).
Proof.
  intros Hwf. unfold Graph.addEdge.
  set (g2 := Graph.addNode (Graph.addNode g a) b).
  assert (H2 : wf g2) by (apply wf_addNode, wf_addNode, Hwf).
  assert (Ha : In a (Graph.getNodes g2)) by apply addNode_incl, addNode_in.
  assert (Hb : In b (Graph.getNodes g2)) by apply addNode_in.
  destruct (JsMap.get g2 a) as [l|] eqn:E; auto.
  destruct H2 as [Hnd Hcl]. split.
  - apply jsmap_NoDup_keys_set; auto.
  - intros n e. rewrite getNeighbors_set. unfold Graph.getNodes.
    rewrite jsmap_keys_set_in by exact Ha.
    destruct (String.eqb_spec a n).
    + subst. rewrite in_app_iff. intros [He|[<-|[]]].
      * apply (Hcl n e). unfold Graph.getNeighbors. now rewrite E.
      * exact Hb.
    + apply Hcl.
Qed.
End GraphWf.

Lemma jsset_has_true_iff (s : JsSet.t) k : JsSet.has s k = true <-> In k s.
Proof.
  induction s as [|k' r IH]; simpl.
  - split; [discriminate | tauto].
  - destruct (String.eqb_spec k' k); [tauto|]. rewrite IH. intuition congruence.
Qed.

Lemma jsset_has_false_iff (s : JsSet.t) k : JsSet.has s k = false <-> ~ In k s.
Proof.
  rewrite <- jsset_has_true_iff. destruct (JsSet.has s k); intuition congruence.
Qed.

Lemma not_NoDup_repeat (l : list string) :
  ~ NoDup l -> exists x l1 l2 l3, l = l1 ++ x :: l2 ++ x :: l3.
Proof.
  induction l as [|a r IH]; intros H.
  - exfalso; apply H; constructor.
  - destruct (in_dec string_dec a r) as [Hin|Hn].
    + apply in_split in Hin as (l2 & l3 & ->). now exists a, [], l2, l3.
    + destruct IH as (x & l1 & l2 & l3 & ->).
      { intros Hnd. apply H. now constructor. }
      now exists x, (a :: l1), l2, l3.
Qed.

Section IndexOf.
Implicit Types (l : list string) (x y : string).

Lemma indexOf_Some_lt l x i : Graph.indexOf l x = Some i -> (i < length l)%nat.
Proof.
  revert i; induction l as [|a r IH]; simpl; intros i; [discriminate|].
  destruct (String.eqb a x).
  - intros [= <-]. lia.
  - destruct (Graph.indexOf r x) as [j|]; [|discriminate].
    intros [= <-]. specialize (IH j eq_refl). lia.
Qed.

Lemma indexOf_Some_nth l x i : Graph.indexOf l x = Some i -> nth_error l i = Some x.
Proof.
  revert i; induction l as [|a r IH]; simpl; intros i; [discriminate|].
  destruct (String.eqb_spec a x).
  - intros [= <-]. now subst.
  - destruct (Graph.indexOf r x) as [j|]; [|discriminate].
    intros [= <-]. simpl. auto.
Qed.

Lemma indexOf_Some_in l x i : Graph.indexOf l x = Some i -> In x l.
Proof. intros H. eapply nth_error_In, indexOf_Some_nth, H. Qed.

Lemma indexOf_in l x : In x l -> exists i, Graph.indexOf l x = Some i.
Proof.
  induction l as [|a r IH]; simpl; [tauto|].
  intros H. destruct (String.eqb_spec a x); eauto.
  destruct IH as [i ->]; eauto. destruct H; congruence.
Qed.

Lemma indexOf_None_iff l x : Graph.indexOf l x = None <-> ~ In x l.
Proof.
  split.
  - intros H Hin. apply indexOf_in in Hin as [i Hi]. congruence.
  - intros H. destruct (Graph.indexOf l x) eqn:E; auto.
    apply indexOf_Some_in in E. contradiction.
Qed.

Lemma indexOf_app_l l l' x i :
  Graph.indexOf l x = Some i -> Graph.indexOf (l ++ l') x = Some i.
Proof.
  revert i; induction l as [|a r IH]; simpl; intros i; [discriminate|].
  destruct (String.eqb a x); auto.
  destruct (Graph.indexOf r x) as [j|]; [|discriminate].
  intros [= <-]. now rewrite (IH j eq_refl).
Qed.

Lemma indexOf_app_r l x :
  ~ In x l -> Graph.indexOf (l ++ [x]) x = Some (length l).
Proof.
  induction l as [|a r IH]; simpl; intros H.
  - now rewrite String.eqb_refl.
  - destruct (String.eqb_spec a x); [exfalso; auto|].
    rewrite IH by tauto. reflexivity.
Qed.
End IndexOf.

Section Precedes.
Implicit Types (l : list string) (u v w : string).

Lemma precedes_in_l l u v : precedes l u v -> In u l.
Proof. intros (i & j & Hi & _). eapply indexOf_Some_in; eauto. Qed.

Lemma precedes_irrefl l u : ~ precedes l u u.
Proof. intros (i & j & Hi & Hj & Hlt). rewrite Hi in Hj. injection Hj. lia. Qed.

Lemma precedes_trans l u v w : precedes l u v -> precedes l v w -> precedes l u w.
Proof.
  intros (i & j & Hi & Hj & Hij) (j' & k & Hj' & Hk & Hjk).
  rewrite Hj in Hj'. injection Hj' as <-. exists i, k. repeat split; auto. lia.
Qed.

Lemma precedes_snoc_old l u v w : precedes l u v -> precedes (l ++ [w]) u v.
Proof.
  intros (i & j & Hi & Hj & Hij). exists i, j.
  repeat split; auto using indexOf_app_l.
Qed.

Lemma precedes_snoc_new l u w : In u l -> ~ In w l -> precedes (l ++ [w]) u w.
Proof.
  intros Hu Hw. destruct (indexOf_in _ _ Hu) as [i Hi].
  exists i, (length l). repeat split; auto using indexOf_app_l, indexOf_app_r.
  eapply indexOf_Some_lt; eauto.
Qed.
End Precedes.

Section Chains.
Context {M : Type}.
Variable g : Graph.t M.

(** Consecutive elements of the list are joined by edges. *)
Fixpoint isChain (l : list string) : Prop :=
  match l with
  | x :: (y :: _) as r => edge g x y /\ isChain r
  | _ => True
  end.

Lemma isChain_app_r l1 l2 : isChain (l1 ++ l2) -> isChain l2.
Proof.
  induction l1 as [|a r IH]; simpl; auto.
  destruct (r ++ l2) eqn:E; intros H.
  - destruct r; [simpl in E; subst; exact I | discriminate].
  - apply IH. tauto.
Qed.

Lemma isChain_app_l l1 l2 : isChain (l1 ++ l2) -> isChain l1.
Proof.
  induction l1 as [|a r IH]; simpl; auto.
  destruct r as [|b r']; [simpl; auto|].
  intros [H1 H2]. split; auto.
Qed.

Lemma isChain_snoc l x y : isChain (l ++ [x]) -> edge g x y -> isChain (l ++ [x; y]).
Proof.
  induction l as [|a r IH]; simpl; [tauto|].
  intros H He. destruct r as [|b r']; simpl in *.
  - tauto.
  - split; [tauto|]. apply IH; tauto.
Qed.

Lemma isChain_reach l x y : isChain (x :: l ++ [y]) -> reach g x y.
Proof.
  revert x; induction l as [|a r IH]; intros x H.
  - destruct H as [H _]. now apply reach_step.
  - change (edge g x a /\ isChain (a :: r ++ [y])) in H. destruct H as [H1 H2].
    eapply reach_cons; [exact H1 | apply IH, H2].
Qed.

Lemma reach_trans u v w : reach g u v -> reach g v w -> reach g u w.
Proof.
  intros H1 H2. induction H1 as [u v He|u v x He H IH].
  - eapply reach_cons; eauto.
  - eapply reach_cons; eauto.
Qed.

(** A non-empty finite set in which every node has a predecessor holds
    a cycle. *)
Lemma backward_chain (S : list string) :
  (forall v, In v S -> exists u, In u S /\ edge g u v) ->
  forall n v, In v S -> exists c, length c = Datatypes.S n /\ incl c S /\ isChain c.
Proof.
  intros Hpred n. induction n as [|n IH]; intros v Hv.
  - exists [v]. repeat split; simpl; auto. intros x [<-|[]]; auto.
  - destruct (IH v Hv) as (c & Hlen & Hincl & Hch).
    destruct c as [|x r]; [discriminate|].
    destruct (Hpred x) as (u & Hu & He); [apply Hincl; now left|].
    exists (u :: x :: r). split; [simpl in *; lia|]. split.
    + intros y [<-|Hy]; auto.
    + split; auto.
Qed.

Lemma all_have_pred_cycle (S : list string) v :
  In v S ->
  (forall v, In v S -> exists u, In u S /\ edge g u v) ->
  hasCycle g.
Proof.
  intros Hv Hpred.
  destruct (backward_chain S Hpred (length S) v Hv) as (c & Hlen & Hincl & Hch).
  assert (Hnd : ~ NoDup c).
  { intros Hnd. pose proof (NoDup_incl_length Hnd Hincl). lia. }
  apply not_NoDup_repeat in Hnd as (x & l1 & l2 & l3 & ->).
  exists x. apply (isChain_reach l2).
  apply isChain_app_r in Hch.
  change (x :: l2 ++ x :: l3) with ((x :: l2) ++ x :: l3) in Hch.
  replace ((x :: l2) ++ x :: l3) with ((x :: l2 ++ [x]) ++ l3) in Hch
    by (simpl; now rewrite <- app_assoc).
  now apply isChain_app_l in Hch.
Qed.
End Chains.

Section InitFold.
Context {V : Type}.

(** The loops [for (node of nodes) map.set(node, c)]. *)
Lemma init_fold_keys (c : V) (l : list string) (m0 : JsMap.t V) :
  NoDup (JsMap.keys m0 ++ l) ->
  JsMap.keys (fold_left (fun m n => JsMap.set m n c) l m0) = JsMap.keys m0 ++ l.
Proof.
  revert m0; induction l as [|a r IH]; intros m0 H; simpl.
  - now rewrite app_nil_r.
  - assert (Ha : ~ In a (JsMap.keys m0)).
    { apply NoDup_remove_2 in H. intros Hin. apply H. apply in_or_app; auto. }
    rewrite IH; rewrite jsmap_keys_set_notin by exact Ha.
    + now rewrite <- app_assoc.
    + now rewrite <- app_assoc.
Qed.

Lemma init_fold_get (c : V) (l : list string) (m0 : JsMap.t V) v :
  (In v l \/ JsMap.get m0 v = Some c) ->
  JsMap.get (fold_left (fun m n => JsMap.set m n c) l m0) v = Some c.
Proof.
  revert m0; induction l as [|a r IH]; intros m0 H; simpl.
  - destruct H as [[]|H]; auto.
  - apply IH. destruct (string_dec a v) as [->|Hne].
    + right. apply jsmap_get_set_same.
    + destruct H as [[H|H]|H]; [congruence | now left |].
      right. now rewrite jsmap_get_set_other.
Qed.
End InitFold.

Section Kahn.
Context {M : Type}.
Variable g : Graph.t M.
Hypothesis Hwf : wf g.

Local Abbreviation nodes := (Graph.getNodes g).

(** Number of edges of the list that point to [v]. *)
Definition cnt (v : string) (es : list (Graph.Edge M)) : nat :=
  length (filter (fun e => String.eqb (Graph.node e) v) es).

(** In-degree of [v] counting only the edges that leave [srcs]. *)
Definition indegFrom (srcs : list string) (v : string) : nat :=
  list_sum (map (fun n => cnt v (Graph.getNeighbors g n)) srcs).

(** The nodes not yet output. *)
Definition remaining (res : list string) : list string :=
  filter (fun n => negb (JsSet.has res n)) nodes.

Lemma cnt_cons v e es :
  cnt v (e :: es) = ((if String.eqb (Graph.node e) v then 1 else 0) + cnt v es)%nat.
Proof. unfold cnt; simpl. destruct (String.eqb (Graph.node e) v); reflexivity. Qed.

Lemma cnt_pos_edge v es : cnt v es <> 0%nat -> exists e, In e es /\ Graph.node e = v.
Proof.
  unfold cnt. destruct (filter _ es) as [|e r] eqn:E; [tauto|]. intros _.
  assert (H : In e (filter (fun e => String.eqb (Graph.node e) v) es))
    by (rewrite E; now left).
  apply filter_In in H as [H1 H2]. apply String.eqb_eq in H2. eauto.
Qed.

Lemma cnt_zero_edge v es e : cnt v es = 0%nat -> In e es -> Graph.node e <> v.
Proof.
  unfold cnt. intros H Hin Heq.
  assert (Hf : In e (filter (fun e => String.eqb (Graph.node e) v) es)).
  { apply filter_In. split; auto. now apply String.eqb_eq. }
  destruct (filter _ es); [destruct Hf | discriminate].
Qed.

Lemma indegFrom_pos srcs v :
  indegFrom srcs v <> 0%nat -> exists u, In u srcs /\ edge g u v.
Proof.
  unfold indegFrom. induction srcs as [|a r IH]; simpl; [tauto|].
  intros H. destruct (Nat.eq_dec (cnt v (Graph.getNeighbors g a)) 0) as [Hz|Hnz].
  - destruct IH as (u & Hu & He); [lia|]. eauto.
  - apply cnt_pos_edge in Hnz as (e & He & Hv). exists a. split; auto. now exists e.
Qed.

Lemma indegFrom_zero srcs v u :
  indegFrom srcs v = 0%nat -> In u srcs -> ~ edge g u v.
Proof.
  unfold indegFrom. induction srcs as [|a r IH]; simpl; [tauto|].
  intros H [->|Hin] (e & He & Hv).
  - eapply (cnt_zero_edge v _ e); eauto. lia.
  - apply IH; auto; [lia | now exists e].
Qed.

Lemma remaining_in res n : In n (remaining res) <-> In n nodes /\ ~ In n res.
Proof.
  unfold remaining. rewrite filter_In, negb_true_iff, jsset_has_false_iff. tauto.
Qed.

Lemma sum_filter_snoc (f : string -> nat) (res l : list string) n :
  NoDup l -> ~ In n res ->
  list_sum (map f (filter (fun x => negb (JsSet.has res x)) l)) =
  (list_sum (map f (filter (fun x => negb (JsSet.has (res ++ [n]) x)) l))
   + (if in_dec string_dec n l then f n else 0))%nat.
Proof.
  intros Hnd Hn. induction l as [|a r IH]; simpl; auto.
  inversion Hnd as [|? ? Ha Hr]; subst. specialize (IH Hr).
  destruct (JsSet.has res a) eqn:E1; simpl.
  - assert (E2 : JsSet.has (res ++ [n]) a = true).
    { apply jsset_has_true_iff, in_or_app. left. now apply jsset_has_true_iff. }
    rewrite E2; simpl. rewrite IH.
    destruct (string_dec a n) as [->|Hne].
    + apply jsset_has_true_iff in E1. contradiction.
    + destruct (in_dec string_dec n r); reflexivity.
  - destruct (string_dec a n) as [->|Hne].
    + assert (E2 : JsSet.has (res ++ [n]) n = true).
      { apply jsset_has_true_iff, in_or_app. right. now left. }
      rewrite E2; simpl. rewrite IH.
      destruct (in_dec string_dec n r); [contradiction|]. lia.
    + assert (E2 : JsSet.has (res ++ [n]) a = false).
      { apply jsset_has_false_iff. rewrite in_app_iff. simpl.
        apply jsset_has_false_iff in E1. intuition congruence. }
      rewrite E2; simpl. rewrite IH.
      destruct (in_dec string_dec n r); lia.
Qed.

Lemma indegFrom_remaining_snoc res n v :
  In n nodes -> ~ In n res ->
  indegFrom (remaining res) v =
  (indegFrom (remaining (res ++ [n])) v + cnt v (Graph.getNeighbors g n))%nat.
Proof.
  intros Hn Hres. unfold indegFrom, remaining.
  rewrite (sum_filter_snoc _ res nodes n (proj1 Hwf) Hres).
  destruct (in_dec string_dec n nodes); [reflexivity | contradiction].
Qed.

(** *** The counting loops *)

Lemma initInDegree_keys : JsMap.keys (Graph.initInDegree g) = nodes.
Proof.
  unfold Graph.initInDegree. rewrite init_fold_keys; [reflexivity|].
  simpl. exact (proj1 Hwf).
Qed.

Lemma initInDegree_get v : In v nodes -> JsMap.get (Graph.initInDegree g) v = Some 0%Z.
Proof. intros H. apply init_fold_get. now left. Qed.


Lemma countEdges_inner (es : list (Graph.Edge M)) (m : JsMap.t Z) :
  (forall e, In e es -> In (Graph.node e) (JsMap.keys m)) ->
  let m' := fold_left (fun m' e => JsMap.set m' (Graph.node e)
                                     (Graph.getOr0 m' (Graph.node e) + 1)%Z) es m in
  JsMap.keys m' = JsMap.keys m /\
  forall v, Graph.getOr0 m' v = (Graph.getOr0 m v + Z.of_nat (cnt v es))%Z.
Proof.
  revert m; induction es as [|e r IH]; intros m Hin; simpl.
  - split; auto. intros v. unfold cnt; simpl. lia.
  - set (m1 := JsMap.set m (Graph.node e) (Graph.getOr0 m (Graph.node e) + 1)%Z).
    assert (Hk : JsMap.keys m1 = JsMap.keys m).
    { apply jsmap_keys_set_in, Hin. now left. }
    destruct (IH m1) as [IH1 IH2].
    { intros e' He'. rewrite Hk. apply Hin. now right. }
    split; [congruence|]. intros v. rewrite IH2, cnt_cons.
    unfold Graph.getOr0 at 1, m1.
    destruct (String.eqb_spec (Graph.node e) v) as [->|Hne].
    + rewrite jsmap_get_set_same. lia.
    + rewrite jsmap_get_set_other by exact Hne. fold (Graph.getOr0 m v). lia.
Qed.

Lemma countEdges_outer (srcs : list string) (m : JsMap.t Z) :
  JsMap.keys m = nodes ->
  let m' := fold_left
    (fun m n =>
       fold_left (fun m' e => JsMap.set m' (Graph.node e)
                                (Graph.getOr0 m' (Graph.node e) + 1)%Z)
                 (Graph.getNeighbors g n) m) srcs m in
  JsMap.keys m' = nodes /\
  forall v, Graph.getOr0 m' v = (Graph.getOr0 m v + Z.of_nat (indegFrom srcs v))%Z.
Proof.
  revert m; induction srcs as [|a r IH]; intros m Hk; simpl.
  - split; auto. intros v. unfold indegFrom; simpl. lia.
  - destruct (countEdges_inner (Graph.getNeighbors g a) m) as [H1 H2].
    { intros e He. rewrite Hk. eapply (proj2 Hwf); eauto. }
    simpl in H1, H2.
    destruct (IH _ (eq_trans H1 Hk)) as [H3 H4]. simpl in H3, H4.
    split; auto. intros v. rewrite H4, H2. unfold indegFrom; simpl.
    fold (indegFrom r v). lia.
Qed.

Lemma countEdges_spec :
  let m := Graph.countEdges g (Graph.initInDegree g) in
  JsMap.keys m = nodes /\
  forall v, In v nodes -> JsMap.get m v = Some (Z.of_nat (indegFrom nodes v)).
Proof.
  destruct (countEdges_outer nodes (Graph.initInDegree g) initInDegree_keys)
    as [H1 H2].
  fold (Graph.countEdges g (Graph.initInDegree g)) in H1, H2.
  cbv zeta. split; [exact H1|]. intros v Hv.
  specialize (H2 v). unfold Graph.getOr0 in H2.
  rewrite (initInDegree_get v Hv) in H2.
  destruct (JsMap.get (Graph.countEdges g (Graph.initInDegree g)) v) eqn:E.
  - now subst.
  - apply jsmap_get_None_iff in E. rewrite H1 in E. contradiction.
Qed.

(** *** The [while] loop *)

(** [topo l]: every node of [l] comes after all its predecessors. *)
Inductive topo : list string -> Prop :=
| topo_nil : topo []
| topo_snoc l v : topo l -> (forall u, edge g u v -> In u l) -> topo (l ++ [v]).

(** Invariant of the inner [for] loop over the neighbours [todo] still to
    be relaxed; with [todo = []] it is the invariant of the [while]
    loop. *)
Definition relInv (res : list string) (todo : list (Graph.Edge M))
           (s : JsMap.t Z * list string) : Prop :=
  JsMap.keys (fst s) = nodes /\
  (forall v, In v nodes ->
     JsMap.get (fst s) v = Some (Z.of_nat (indegFrom (remaining res) v + cnt v todo))) /\
  NoDup (res ++ snd s) /\
  incl (res ++ snd s) nodes /\
  (forall v, In v nodes ->
     (In v (res ++ snd s) <-> (indegFrom (remaining res) v + cnt v todo = 0)%nat)) /\
  topo (res ++ snd s).

Lemma NoDup_snoc (l : list string) x : NoDup l -> ~ In x l -> NoDup (l ++ [x]).
Proof.
  intros H Hx. apply NoDup_app; auto.
  - constructor; [simpl; tauto | constructor].
  - intros y Hy [<-|[]]. contradiction.
Qed.

Lemma relax_step res e todo s :
  In (Graph.node e) nodes ->
  relInv res (e :: todo) s -> relInv res todo (Graph.relax e s).
Proof.
  destruct s as [inDeg queue]. unfold relInv; simpl fst; simpl snd.
  intros Hw (Hk & Hval & Hnd & Hincl & Hiff & Htopo).
  set (w := Graph.node e) in *.
  pose proof (Hval w Hw) as Hgw. pose proof (Hiff w Hw) as Hiw.
  rewrite cnt_cons in Hgw, Hiw. fold w in Hgw, Hiw. rewrite String.eqb_refl in Hgw, Hiw.
  assert (Hwl : ~ In w (res ++ queue)) by (rewrite Hiw; lia).
  unfold Graph.relax. fold w. rewrite Hgw.
  assert (Hval' : forall v, In v nodes ->
    JsMap.get (JsMap.set inDeg w
      (Z.of_nat (indegFrom (remaining res) w + (1 + cnt w todo)) - 1)%Z) v =
    Some (Z.of_nat (indegFrom (remaining res) v + cnt v todo))).
  { intros v Hv. destruct (string_dec w v) as [<-|Hne].
    - rewrite jsmap_get_set_same. f_equal. lia.
    - rewrite jsmap_get_set_other by exact Hne. rewrite (Hval v Hv), cnt_cons. fold w.
      destruct (String.eqb_spec w v); [contradiction|]. reflexivity. }
  assert (Hk' : forall z, JsMap.keys (JsMap.set inDeg w z) = nodes).
  { intros z. rewrite jsmap_keys_set_in; auto. now rewrite Hk. }
  assert (Hold : forall v, v <> w -> In v nodes ->
    (In v (res ++ queue) <-> (indegFrom (remaining res) v + cnt v todo = 0)%nat)).
  { intros v Hne Hv. rewrite (Hiff v Hv), cnt_cons. fold w.
    destruct (String.eqb_spec w v); [congruence|]. reflexivity. }
  destruct (Z.eqb_spec (Z.of_nat (indegFrom (remaining res) w + (1 + cnt w todo)) - 1) 0)
    as [Hz|Hnz]; simpl fst; simpl snd.
  - assert (Hz' : (indegFrom (remaining res) w + cnt w todo = 0)%nat) by lia.
    rewrite app_assoc. repeat split; auto.
    + now apply NoDup_snoc.
    + intros x Hx. apply in_app_or in Hx as [Hx|[<-|[]]]; auto.
    + destruct (string_dec v w) as [->|Hne]; [intros _; exact Hz'|].
      intros Hx. apply in_app_or in Hx as [Hx|[Hx|[]]]; [|congruence].
      now apply (Hold v Hne H).
    + destruct (string_dec v w) as [->|Hne].
      * intros _. apply in_or_app. right. now left.
      * intros Hx. apply in_or_app. left. now apply (Hold v Hne H).
    + constructor; auto. intros u He.
      assert (Hu : In u nodes) by (eapply edge_src_node; eauto).
      destruct (in_dec string_dec u res) as [Hin|Hnin]; [apply in_or_app; now left|].
      exfalso. eapply (indegFrom_zero (remaining res) w u); eauto; [lia|].
      apply remaining_in. auto.
  - repeat split; auto.
    + destruct (string_dec v w) as [->|Hne]; [intros Hx; contradiction|].
      now apply (Hold v Hne H).
    + destruct (string_dec v w) as [->|Hne]; [intros Hx; lia|].
      now apply (Hold v Hne H).
Qed.

Lemma relax_fold res todo s :
  (forall e, In e todo -> In (Graph.node e) nodes) ->
  relInv res todo s ->
  relInv res [] (fold_left (fun s e => Graph.relax e s) todo s).
Proof.
  revert s; induction todo as [|e r IH]; intros s Hin H; simpl; auto.
  apply IH; [intros; apply Hin; now right|].
  apply relax_step; auto. apply Hin. now left.
Qed.

Lemma kahn_loop fuel : forall inDeg queue res,
  relInv res [] (inDeg, queue) ->
  (length nodes <= fuel + length res)%nat ->
  exists out inDeg',
    Graph.kahn fuel g inDeg queue res = Some out /\ relInv out [] (inDeg', []).
Proof.
  induction fuel as [|fuel IH]; intros inDeg queue res Hinv Hfuel.
  - destruct queue as [|n q]; simpl; [eauto|].
    exfalso. destruct Hinv as (_ & _ & Hnd & Hincl & _). simpl in Hnd, Hincl.
    pose proof (NoDup_incl_length Hnd Hincl) as Hlen.
    rewrite length_app in Hlen. simpl in *. lia.
  - destruct queue as [|n q]; simpl; [eauto|].
    destruct (fold_left (fun s e => Graph.relax e s) (Graph.getNeighbors g n) (inDeg, q))
      as [inDeg' q'] eqn:E.
    apply IH; [|rewrite length_app; simpl; lia].
    rewrite <- E. apply relax_fold.
    { intros e He. eapply (proj2 Hwf); eauto. }
    destruct Hinv as (Hk & Hval & Hnd & Hincl & Hiff & Htopo).
    simpl fst in *; simpl snd in *.
    assert (Hn : In n nodes) by (apply Hincl, in_or_app; right; now left).
    assert (Hnres : ~ In n res).
    { intros Hin. apply NoDup_remove_2 in Hnd. apply Hnd, in_or_app. now left. }
    assert (Hl : (res ++ [n]) ++ q = res ++ n :: q) by now rewrite <- app_assoc.
    unfold relInv; simpl fst; simpl snd. rewrite Hl.
    repeat split; auto.
    + intros v Hv. rewrite (Hval v Hv). f_equal. f_equal.
      rewrite (indegFrom_remaining_snoc res n v Hn Hnres). unfold cnt at 2; simpl. lia.
    + intros Hx. apply (Hiff v H) in Hx.
      rewrite (indegFrom_remaining_snoc res n v Hn Hnres) in Hx.
      unfold cnt at 2 in Hx; simpl in Hx. lia.
    + intros Hx. apply (Hiff v H).
      rewrite (indegFrom_remaining_snoc res n v Hn Hnres).
      unfold cnt at 2; simpl. lia.
Qed.

Lemma topo_no_preds (l : list string) :
  (forall v u, In v l -> ~ edge g u v) -> topo l.
Proof.
  induction l as [|x l IH] using rev_ind; intros H; [constructor|].
  constructor.
  - apply IH. intros v u Hv. apply H, in_or_app. now left.
  - intros u He. exfalso. apply (H x u); auto. apply in_or_app. right. now left.
Qed.

Lemma topo_edge_precedes l :
  topo l -> NoDup l -> forall u v, edge g u v -> In v l -> precedes l u v.
Proof.
  induction 1 as [|l w Ht IH Hpre]; intros Hnd u v He Hv; [destruct Hv|].
  assert (Hl : NoDup l) by (eapply NoDup_app_remove_r; eauto).
  assert (Hw : ~ In w l).
  { intros Hin. apply NoDup_remove_2 in Hnd. apply Hnd. rewrite app_nil_r. exact Hin. }
  apply in_app_or in Hv as [Hv|[<-|[]]].
  - apply precedes_snoc_old. now apply IH.
  - apply precedes_snoc_new; auto.
Qed.

Lemma topo_reach_precedes l :
  topo l -> NoDup l -> forall u v, reach g u v -> In v l -> precedes l u v.
Proof.
  intros Ht Hnd u v Hr. induction Hr as [u v He|u y v He Hr IH]; intros Hv.
  - now apply topo_edge_precedes.
  - specialize (IH Hv). eapply precedes_trans; [|exact IH].
    apply topo_edge_precedes; auto. eapply precedes_in_l; eauto.
Qed.

Lemma remaining_nil : remaining [] = nodes.
Proof.
  unfold remaining. induction nodes as [|a r IH]; [reflexivity|].
  simpl in *. now f_equal.
Qed.

Lemma jsmap_in_pair_get {V} (m : JsMap.t V) k (v : V) :
  NoDup (JsMap.keys m) -> (In (k, v) m <-> JsMap.get m k = Some v).
Proof.
  induction m as [|[k' v'] r IH]; simpl; intros Hnd.
  - split; [tauto | discriminate].
  - inversion Hnd as [|? ? Hk Hr]; subst.
    destruct (String.eqb_spec k' k) as [->|Hne].
    + split.
      * intros [[= ->]|Hin]; auto. exfalso. apply Hk.
        change k with (fst (k, v)). now apply in_map.
      * intros [= ->]. now left.
    + rewrite <- (IH Hr). split; [intros [[= ? ?]|]; [congruence | assumption] | tauto].
Qed.

Lemma NoDup_map_fst_filter {V} (f : string * V -> bool) (m : JsMap.t V) :
  NoDup (map fst m) -> NoDup (map fst (filter f m)).
Proof.
  induction m as [|a r IH]; simpl; intros H; [constructor|].
  inversion H as [|? ? Ha Hr]; subst.
  destruct (f a); simpl; auto. constructor; auto.
  intros Hin. apply Ha. apply in_map_iff in Hin as (x & Hx & Hf).
  apply filter_In in Hf as [Hf _]. apply in_map_iff. eauto.
Qed.

Lemma initQueue_in (m : JsMap.t Z) v :
  NoDup (JsMap.keys m) ->
  (In v (Graph.initQueue m) <-> JsMap.get m v = Some 0%Z).
Proof.
  intros Hnd. unfold Graph.initQueue. rewrite in_map_iff. split.
  - intros ([k d] & <- & Hf). apply filter_In in Hf as [Hin Hd]. simpl in *.
    apply Z.eqb_eq in Hd. subst. now apply jsmap_in_pair_get.
  - intros Hg. exists (v, 0%Z). split; auto. apply filter_In. split; auto.
    now apply jsmap_in_pair_get.
Qed.

Lemma kahn_init :
  let inDeg := Graph.countEdges g (Graph.initInDegree g) in
  relInv [] [] (inDeg, Graph.initQueue inDeg).
Proof.
  destruct countEdges_spec as [Hk Hval]. cbv zeta in *.
  set (inDeg := Graph.countEdges g (Graph.initInDegree g)) in *.
  assert (Hnd : NoDup (JsMap.keys inDeg)) by (rewrite Hk; exact (proj1 Hwf)).
  unfold relInv; simpl fst; simpl snd. rewrite remaining_nil. simpl app.
  assert (Hq : forall v, In v (Graph.initQueue inDeg) ->
               In v nodes /\ indegFrom nodes v = 0%nat).
  { intros v Hv. apply initQueue_in in Hv; auto.
    assert (Hn : In v nodes) by (rewrite <- Hk; eapply jsmap_get_Some_in; eauto).
    split; auto. rewrite (Hval v Hn) in Hv. injection Hv. lia. }
  repeat split; auto.
  - intros v Hv. rewrite (Hval v Hv). f_equal. unfold cnt; simpl. lia.
  - now apply NoDup_map_fst_filter.
  - intros v Hv. now apply Hq.
  - intros Hx. apply Hq in Hx. unfold cnt; simpl. lia.
  - intros Hx. apply initQueue_in; auto. rewrite (Hval v H). f_equal.
    unfold cnt in Hx; simpl in Hx. lia.
  - apply topo_no_preds. intros v u Hv He.
    destruct (Hq v Hv) as [Hn Hz].
    eapply (indegFrom_zero nodes v u); eauto. eapply edge_src_node; eauto.
Qed.

(** What the [while] loop leaves in [result]. *)
Lemma kahn_result :
  exists res,
    Graph.kahn (length nodes) g (Graph.countEdges g (Graph.initInDegree g))
               (Graph.initQueue (Graph.countEdges g (Graph.initInDegree g))) [] = Some res /\
    NoDup res /\ incl res nodes /\ topo res /\
    (forall v, In v nodes -> ~ In v res -> exists u, In u nodes /\ ~ In u res /\ edge g u v).
Proof.
  destruct (kahn_loop (length nodes) _ _ [] kahn_init) as (res & inDeg' & Hrun & Hinv).
  { simpl. lia. }
  exists res. split; [exact Hrun|].
  destruct Hinv as (_ & _ & Hnd & Hincl & Hiff & Htopo).
  simpl snd in *. rewrite app_nil_r in *.
  repeat split; auto.
  intros v Hv Hnin.
  destruct (indegFrom_pos (remaining res) v) as (u & Hu & He).
  { intros Hz. apply Hnin. apply (Hiff v Hv). unfold cnt; simpl. lia. }
  apply remaining_in in Hu. exists u. tauto.
Qed.

Lemma topologicalSort_acyclic :
  acyclic g ->
  exists res, Graph.topologicalSort g = Ok res /\
              length res = length nodes /\
              forall u v, edge g u v -> precedes res u v.
Proof.
  intros Hac. destruct kahn_result as (res & Hrun & Hnd & Hincl & Htopo & Hrem).
  assert (Hall : incl nodes res).
  { intros v Hv. destruct (in_dec string_dec v res) as [|Hn]; auto.
    exfalso. destruct (all_have_pred_cycle g (remaining res) v) as [x Hx].
    - apply remaining_in. auto.
    - intros y Hy. apply remaining_in in Hy as [Hy1 Hy2].
      destruct (Hrem y Hy1 Hy2) as (u & Hu1 & Hu2 & He).
      exists u. split; auto. apply remaining_in. auto.
    - exact (Hac x Hx). }
  assert (Hlen : length res = length nodes).
  { apply Nat.le_antisymm; apply NoDup_incl_length; auto. exact (proj1 Hwf). }
  exists res. repeat split; auto.
  - unfold Graph.topologicalSort, Graph.topologicalSort_fuel. rewrite Hrun.
    now rewrite Hlen, Nat.eqb_refl.
  - intros u v He. apply topo_edge_precedes; auto.
    apply Hall. eapply edge_dst_node; eauto.
Qed.

Lemma topologicalSort_cyclic :
  hasCycle g -> Graph.topologicalSort g = Throw Graph.cycleMessage.
Proof.
  intros [x Hx]. destruct kahn_result as (res & Hrun & Hnd & Hincl & Htopo & Hrem).
  unfold Graph.topologicalSort, Graph.topologicalSort_fuel. rewrite Hrun.
  destruct (Nat.eqb_spec (length res) (length nodes)) as [Hlen|]; [|reflexivity].
  exfalso. assert (Hall : incl nodes res).
  { apply NoDup_length_incl; auto. lia. }
  apply (precedes_irrefl res x). apply topo_reach_precedes; auto.
  apply Hall. eapply reach_src_node; eauto.
Qed.
End Kahn.

Ltac splits := repeat match goal with |- _ /\ _ => split end.

Section DetectCycles.
Context {M : Type}.
Variable g : Graph.t M.
Hypothesis Hwf : wf g.

Local Abbreviation nodes := (Graph.getNodes g).
Implicit Types (c : JsMap.t Graph.Color) (st s : Graph.DfsState) (n x w : string).

Definition hasColor c (k : Graph.Color) x : Prop := JsMap.get c x = Some k.

Definition isWhiteEntry (kv : string * Graph.Color) : bool :=
  match snd kv with Graph.WHITE => true | _ => false end.

Definition whiteCount c : nat := length (filter isWhiteEntry c).

(** The black nodes are closed under edges and none of them lies on a
    cycle. *)
Definition closed c : Prop :=
  forall b w, hasColor c Graph.BLACK b -> edge g b w -> hasColor c Graph.BLACK w.

Definition good c : Prop :=
  closed c /\ forall b, hasColor c Graph.BLACK b -> ~ reach g b b.

(** A reported cycle [x; ...; x] is a closed walk of the graph. *)
Definition isCycle (l : list string) : Prop :=
  exists x mid, l = x :: mid ++ [x] /\ isChain g l.

Lemma whiteCount_set_le c n k :
  k <> Graph.WHITE -> (whiteCount (JsMap.set c n k) <= whiteCount c)%nat.
Proof.
  intros Hk. unfold whiteCount. induction c as [|[k' v'] r IH]; simpl.
  - unfold isWhiteEntry; simpl. destruct k; simpl; auto; congruence.
  - destruct (String.eqb k' n); simpl.
    + unfold isWhiteEntry at 1 3; simpl. destruct k, v'; simpl; auto; congruence.
    + destruct (isWhiteEntry (k', v')); simpl; lia.
Qed.

Lemma whiteCount_set_lt c n k :
  k <> Graph.WHITE -> hasColor c Graph.WHITE n ->
  (whiteCount (JsMap.set c n k) < whiteCount c)%nat.
Proof.
  intros Hk. unfold whiteCount, hasColor. induction c as [|[k' v'] r IH]; simpl.
  - discriminate.
  - destruct (String.eqb k' n); simpl.
    + intros [= ->]. unfold isWhiteEntry at 1 3; simpl.
      destruct k; simpl; auto; congruence.
    + intros H. specialize (IH H). destruct (isWhiteEntry (k', v')); simpl; lia.
Qed.

Lemma whiteCount_le_length c : (whiteCount c <= length (JsMap.keys c))%nat.
Proof.
  unfold whiteCount, JsMap.keys. rewrite length_map. apply filter_length_le.
Qed.

Lemma closed_reach c b x :
  closed c -> hasColor c Graph.BLACK b -> reach g b x -> hasColor c Graph.BLACK x.
Proof.
  intros Hc Hb Hr. induction Hr as [u v He|u v y He Hr IH]; eauto.
Qed.

Lemma isCycle_reach l : isCycle l -> hasCycle g.
Proof.
  intros (x & mid & -> & Hch). exists x. eapply isChain_reach; eauto.
Qed.

(** The body of the [for] loop of [dfs]. *)
Definition visit (fuel : nat) (e : Graph.Edge M) (s : Graph.DfsState)
  : option Graph.DfsState :=
  if Graph.isGray (JsMap.get (Graph.color s) (Graph.node e)) then
    Some (Graph.mkDfs (Graph.color s)
            (Graph.cycles s ++
               [Graph.slice (Graph.path s) (Graph.indexOf (Graph.path s) (Graph.node e))
                  ++ [Graph.node e]])
            (Graph.path s))
  else if Graph.isWhite (JsMap.get (Graph.color s) (Graph.node e)) then
    Graph.dfs fuel g (Graph.node e) s
  else Some s.

Lemma dfs_unfold fuel n st :
  Graph.dfs (S fuel) g n st =
  match forEach (visit fuel) (Graph.getNeighbors g n)
          (Graph.mkDfs (JsMap.set (Graph.color st) n Graph.GRAY) (Graph.cycles st)
                       (Graph.path st ++ [n])) with
  | Some st2 =>
      Some (Graph.mkDfs (JsMap.set (Graph.color st2) n Graph.BLACK) (Graph.cycles st2)
                        (removelast (Graph.path st2)))
  | None => None
  end.
Proof. reflexivity. Qed.

Definition dfsPre st n : Prop :=
  JsMap.keys (Graph.color st) = nodes /\
  hasColor (Graph.color st) Graph.WHITE n /\
  isChain g (Graph.path st ++ [n]) /\
  (forall x, hasColor (Graph.color st) Graph.GRAY x <-> In x (Graph.path st)).

Definition dfsPost st n st' : Prop :=
  JsMap.keys (Graph.color st') = nodes /\
  (whiteCount (Graph.color st') <= whiteCount (Graph.color st))%nat /\
  (forall x, hasColor (Graph.color st) Graph.BLACK x ->
             hasColor (Graph.color st') Graph.BLACK x) /\
  (forall x, hasColor (Graph.color st) Graph.GRAY x <->
             hasColor (Graph.color st') Graph.GRAY x) /\
  hasColor (Graph.color st') Graph.BLACK n /\
  Graph.path st' = Graph.path st /\
  (exists extra, Graph.cycles st' = Graph.cycles st ++ extra /\ Forall isCycle extra) /\
  (Graph.cycles st' = [] -> good (Graph.color st) -> good (Graph.color st')).

Definition dfsOk (fuel : nat) : Prop :=
  forall n st, dfsPre st n -> (whiteCount (Graph.color st) < fuel)%nat ->
  exists st', Graph.dfs fuel g n st = Some st' /\ dfsPost st n st'.

Definition loopInv st1 (done : list (Graph.Edge M)) s : Prop :=
  JsMap.keys (Graph.color s) = nodes /\
  (whiteCount (Graph.color s) <= whiteCount (Graph.color st1))%nat /\
  (forall x, hasColor (Graph.color st1) Graph.BLACK x ->
             hasColor (Graph.color s) Graph.BLACK x) /\
  (forall x, hasColor (Graph.color st1) Graph.GRAY x <->
             hasColor (Graph.color s) Graph.GRAY x) /\
  Graph.path s = Graph.path st1 /\
  (exists extra, Graph.cycles s = Graph.cycles st1 ++ extra /\ Forall isCycle extra) /\
  (Graph.cycles s = [] -> good (Graph.color st1) ->
     good (Graph.color s) /\
     forall e, In e done -> hasColor (Graph.color s) Graph.BLACK (Graph.node e)).

Lemma slice_cycle (p : list string) n w :
  isChain g (p ++ [n]) -> edge g n w -> In w (p ++ [n]) ->
  isCycle (Graph.slice (p ++ [n]) (Graph.indexOf (p ++ [n]) w) ++ [w]).
Proof.
  intros Hch He Hin. destruct (indexOf_in _ _ Hin) as [i Hi]. rewrite Hi. simpl.
  pose proof (indexOf_Some_nth _ _ _ Hi) as Hnth.
  pose proof (indexOf_Some_lt _ _ _ Hi) as Hlt.
  rewrite length_app in Hlt; simpl in Hlt.
  assert (Hsk : skipn i (p ++ [n]) = skipn i p ++ [n]).
  { rewrite skipn_app. replace (i - length p)%nat with 0%nat by lia. reflexivity. }
  assert (Hch' : isChain g (skipn i p ++ [n; w])).
  { apply isChain_snoc; auto. rewrite <- Hsk.
    rewrite <- (firstn_skipn i (p ++ [n])) in Hch. eapply isChain_app_r; eauto. }
  destruct (skipn i (p ++ [n])) as [|y rest] eqn:E.
  { rewrite Hsk in E. destruct (skipn i p); discriminate. }
  assert (Hy : y = w).
  { rewrite <- (firstn_skipn i (p ++ [n])), E in Hnth.
    rewrite nth_error_app2 in Hnth by (rewrite length_firstn, length_app; simpl; lia).
    rewrite length_firstn, length_app in Hnth. simpl in Hnth.
    replace (i - Nat.min i (length p + 1))%nat with 0%nat in Hnth by lia.
    simpl in Hnth. congruence. }
  subst y. exists w, rest. split; [reflexivity|].
  change (w :: rest ++ [w]) with ((w :: rest) ++ [w]).
  rewrite Hsk, <- app_assoc. exact Hch'.
Qed.

Lemma visit_loop fuel st1 n p :
  dfsOk fuel ->
  (whiteCount (Graph.color st1) < fuel)%nat ->
  Graph.path st1 = p ++ [n] ->
  isChain g (p ++ [n]) ->
  (forall x, hasColor (Graph.color st1) Graph.GRAY x <-> In x (Graph.path st1)) ->
  forall es done s,
    (forall e, In e es -> In e (Graph.getNeighbors g n)) ->
    loopInv st1 done s ->
    exists s', forEach (visit fuel) es s = Some s' /\ loopInv st1 (done ++ es) s'.
Proof.
  intros Hok Hfuel Hp Hch Hg1. induction es as [|e r IH]; intros done s Hes Hinv.
  - exists s. rewrite app_nil_r. auto.
  - assert (He : In e (Graph.getNeighbors g n)) by (apply Hes; now left).
    assert (Hedge : edge g n (Graph.node e)) by (now exists e).
    assert (Hw : In (Graph.node e) nodes) by (eapply (proj2 Hwf); eauto).
    set (w := Graph.node e) in *.
    destruct Hinv as (Hk & Hcnt & Hblk & Hgray & Hpath & (extra & Hcyc & Hfa) & Hgood).
    assert (Hgs : forall x, hasColor (Graph.color s) Graph.GRAY x <-> In x (Graph.path s)).
    { intros x. rewrite <- Hgray, Hpath. apply Hg1. }
    destruct (jsmap_in_get (Graph.color s) w) as [k Hget]; [now rewrite Hk|].
    assert (Hnext : forall s1, loopInv st1 (done ++ [e]) s1 ->
              exists s', forEach (visit fuel) r s1 = Some s' /\
                         loopInv st1 (done ++ e :: r) s').
    { intros s1 H1. destruct (IH (done ++ [e]) s1) as (s' & Hrun & Hinv'); auto.
      - intros e' He'. apply Hes. now right.
      - exists s'. split; auto. now rewrite <- app_assoc in Hinv'. }
    simpl. unfold visit at 1. fold w. rewrite Hget.
    destruct k; simpl.
    + (* white: recursive call *)
      destruct (Hok w s) as (s1 & Hrun & Hpost); [|lia|].
      { unfold dfsPre. splits; auto.
        rewrite Hpath, Hp, <- app_assoc. simpl. now apply isChain_snoc. }
      rewrite Hrun. apply Hnext.
      destruct Hpost as (Hk1 & Hcnt1 & Hblk1 & Hgray1 & Hbw & Hpath1
                         & (extra1 & Hcyc1 & Hfa1) & Hgood1).
      unfold loopInv. splits; auto.
      * lia.
      * intros x. rewrite Hgray. apply Hgray1.
      * congruence.
      * exists (extra ++ extra1). split.
        -- rewrite Hcyc1, Hcyc. now rewrite app_assoc.
        -- apply Forall_app. auto.
      * intros Hnil Hg.
        assert (Hc0 : Graph.cycles s = [])
          by (rewrite Hcyc1 in Hnil; now apply app_eq_nil in Hnil).
        destruct (Hgood Hc0 Hg) as [Hgs' Hdone]. split; auto.
        intros e' He'. apply in_app_or in He' as [He'|[<-|[]]]; auto.
    + (* gray: a cycle is recorded *)
      apply Hnext. unfold loopInv. simpl. splits; auto.
      * exists (extra ++ [Graph.slice (Graph.path s) (Graph.indexOf (Graph.path s) w) ++ [w]]).
        split; [rewrite Hcyc; now rewrite app_assoc|].
        apply Forall_app. split; auto. constructor; [|constructor].
        rewrite Hpath, Hp. apply slice_cycle; auto.
        rewrite <- Hp, <- Hpath. now apply Hgs.
      * intros Hnil. exfalso. now apply app_eq_nil in Hnil as [_ ?].
    + (* black: nothing to do *)
      apply Hnext. unfold loopInv. splits; auto.
      * exists extra. auto.
      * intros Hnil Hg. destruct (Hgood Hnil Hg) as [Hgs' Hdone]. split; auto.
        intros e' He'. apply in_app_or in He' as [He'|[<-|[]]]; auto.
Qed.

Lemma hasColor_set_same c n k : hasColor (JsMap.set c n k) k n.
Proof. apply jsmap_get_set_same. Qed.

Lemma hasColor_set_other c n k k' x :
  n <> x -> (hasColor (JsMap.set c n k) k' x <-> hasColor c k' x).
Proof. intros H. unfold hasColor. now rewrite jsmap_get_set_other. Qed.

Lemma dfs_all_ok fuel : dfsOk fuel.
Proof.
  induction fuel as [|fuel IH]; intros n st (Hk & Hwhite & Hch & Hgp) Hf; [lia|].
  rewrite dfs_unfold.
  set (st1 := Graph.mkDfs (JsMap.set (Graph.color st) n Graph.GRAY) (Graph.cycles st)
                          (Graph.path st ++ [n])).
  assert (Hn : In n nodes) by (rewrite <- Hk; eapply jsmap_get_Some_in; eauto).
  assert (Hk1 : JsMap.keys (Graph.color st1) = nodes).
  { simpl. rewrite jsmap_keys_set_in; auto. now rewrite Hk. }
  assert (Hc1 : (whiteCount (Graph.color st1) < whiteCount (Graph.color st))%nat).
  { simpl. apply whiteCount_set_lt; [discriminate | exact Hwhite]. }
  assert (Hg1 : forall x, hasColor (Graph.color st1) Graph.GRAY x <-> In x (Graph.path st1)).
  { intros x. simpl. rewrite in_app_iff. simpl. destruct (string_dec n x) as [<-|Hne].
    - split; [auto | intros _; apply hasColor_set_same].
    - rewrite hasColor_set_other by exact Hne. rewrite Hgp. intuition congruence. }
  assert (Hb1 : forall x, hasColor (Graph.color st1) Graph.BLACK x <->
                          hasColor (Graph.color st) Graph.BLACK x).
  { intros x. simpl. destruct (string_dec n x) as [<-|Hne].
    - unfold hasColor. rewrite jsmap_get_set_same. unfold hasColor in Hwhite.
      rewrite Hwhite. split; discriminate.
    - now apply hasColor_set_other. }
  destruct (visit_loop fuel st1 n (Graph.path st) IH) with
    (es := Graph.getNeighbors g n) (done := @nil (Graph.Edge M)) (s := st1)
    as (s2 & Hrun & Hinv); auto.
  { lia. }
  { unfold loopInv. splits; auto; try tauto.
    - exists []. rewrite app_nil_r. auto.
    - intros _ Hg. split; [exact Hg | intros e []]. }
  rewrite Hrun. eexists; split; [reflexivity|].
  destruct Hinv as (Hk2 & Hcnt2 & Hblk2 & Hgray2 & Hpath2 & (extra & Hcyc2 & Hfa2) & Hgood2).
  simpl app in Hgood2.
  assert (Hgn : hasColor (Graph.color s2) Graph.GRAY n).
  { apply Hgray2. simpl. apply hasColor_set_same. }
  unfold dfsPost; simpl. splits.
  - rewrite jsmap_keys_set_in; auto. now rewrite Hk2.
  - pose proof (whiteCount_set_le (Graph.color s2) n Graph.BLACK). 
    assert (Graph.BLACK <> Graph.WHITE) by discriminate. intuition lia.
  - intros x Hx. destruct (string_dec n x) as [<-|Hne]; [apply hasColor_set_same|].
    apply hasColor_set_other; auto. apply Hblk2, Hb1, Hx.
  - intros x. destruct (string_dec n x) as [<-|Hne].
    + unfold hasColor. rewrite jsmap_get_set_same. unfold hasColor in Hwhite.
      rewrite Hwhite. split; discriminate.
    + rewrite hasColor_set_other by exact Hne. rewrite <- Hgray2. simpl.
      now rewrite hasColor_set_other.
  - apply hasColor_set_same.
  - rewrite Hpath2. simpl. apply removelast_last.
  - exists extra. auto.
  - intros Hnil Hg.
    assert (Hg1' : good (Graph.color st1)).
    { destruct Hg as [Hcl Hnc]. split.
      - intros b w Hb He. apply Hb1. eapply Hcl; eauto. now apply Hb1.
      - intros b Hb. apply Hnc. now apply Hb1. }
    destruct (Hgood2 Hnil Hg1') as [[Hcl Hnc] Hdone].
    assert (Hnb : ~ hasColor (Graph.color s2) Graph.BLACK n).
    { unfold hasColor in *. rewrite Hgn. discriminate. }
    split.
    + intros b w Hb (e & He & Hew).
      destruct (string_dec n w) as [<-|Hnw]; [apply hasColor_set_same|].
      apply hasColor_set_other; auto.
      destruct (string_dec n b) as [<-|Hnb'].
      * rewrite <- Hew. now apply Hdone.
      * apply (Hcl b w); [|now exists e]. eapply hasColor_set_other; eauto.
    + intros b Hb Hr. destruct (string_dec n b) as [<-|Hnb'].
      * apply Hnb. inversion Hr as [u v He Hu Hv|u v y He Hr' Hu Hv]; subst;
          destruct He as (e & He & Hew); pose proof (Hdone e He) as Hd; rewrite Hew in Hd.
        -- exact Hd.
        -- eapply closed_reach; eauto.
      * apply (Hnc b); auto. eapply hasColor_set_other; eauto.
Qed.

(** *** The outer loop of [detectCycles] *)

Definition outerInv (done : list string) s : Prop :=
  JsMap.keys (Graph.color s) = nodes /\
  (forall x, ~ hasColor (Graph.color s) Graph.GRAY x) /\
  (forall x, In x done -> hasColor (Graph.color s) Graph.BLACK x) /\
  Forall isCycle (Graph.cycles s) /\
  (Graph.cycles s = [] -> good (Graph.color s)).

Lemma outer_loop fuel :
  (length nodes < fuel)%nat ->
  forall l done s,
    incl l nodes -> outerInv done s ->
    exists s', forEach (Graph.detectCycles_from fuel g) l s = Some s' /\
               outerInv (done ++ l) s'.
Proof.
  intros Hfuel. induction l as [|n r IH]; intros done s Hincl Hinv.
  - exists s. rewrite app_nil_r. auto.
  - destruct Hinv as (Hk & Hng & Hdone & Hfa & Hgood).
    assert (Hn : In n nodes) by (apply Hincl; now left).
    assert (Hnext : forall s1, outerInv (done ++ [n]) s1 ->
              exists s', forEach (Graph.detectCycles_from fuel g) r s1 = Some s' /\
                         outerInv (done ++ n :: r) s').
    { intros s1 H1. destruct (IH (done ++ [n]) s1) as (s' & Hrun & Hinv'); auto.
      - intros x Hx. apply Hincl. now right.
      - exists s'. split; auto. now rewrite <- app_assoc in Hinv'. }
    simpl. unfold Graph.detectCycles_from at 1.
    destruct (jsmap_in_get (Graph.color s) n) as [k Hget]; [now rewrite Hk|].
    rewrite Hget. destruct k; simpl.
    + destruct (dfs_all_ok fuel n (Graph.mkDfs (Graph.color s) (Graph.cycles s) []))
        as (s1 & Hrun & Hpost).
      { unfold dfsPre; simpl. splits; auto. intros x. split; [apply Hng | intros []]. }
      { simpl. pose proof (whiteCount_le_length (Graph.color s)). rewrite Hk in *. lia. }
      rewrite Hrun. apply Hnext.
      destruct Hpost as (Hk1 & Hcnt1 & Hblk1 & Hgray1 & Hbw & Hpath1
                         & (extra1 & Hcyc1 & Hfa1) & Hgood1).
      simpl in *. unfold outerInv. splits; auto.
      * intros x Hx. apply (Hng x). now apply Hgray1.
      * intros x Hx. apply in_app_or in Hx as [Hx|[<-|[]]]; auto.
      * rewrite Hcyc1. apply Forall_app. auto.
      * intros Hnil. apply Hgood1; auto. apply Hgood.
        rewrite Hcyc1 in Hnil. now apply app_eq_nil in Hnil.
    + exfalso. apply (Hng n). exact Hget.
    + apply Hnext. unfold outerInv. splits; auto.
      intros x Hx. apply in_app_or in Hx as [Hx|[<-|[]]]; auto.
Qed.

Lemma initColors_spec :
  JsMap.keys (Graph.initColors g) = nodes /\
  forall x, In x nodes -> hasColor (Graph.initColors g) Graph.WHITE x.
Proof.
  unfold Graph.initColors. split.
  - rewrite init_fold_keys; [reflexivity | exact (proj1 Hwf)].
  - intros x Hx. apply init_fold_get. now left.
Qed.

(** [detectCycles] terminates, every cycle it reports is a closed walk
    of the graph, and it reports none only if the graph has none. *)
Lemma detectCycles_spec :
  exists cs, Graph.detectCycles g = Some cs /\
             Forall isCycle cs /\
             (cs = [] -> acyclic g).
Proof.
  destruct initColors_spec as [Hk Hw].
  destruct (outer_loop (S (length nodes)) (Nat.lt_succ_diag_r _) nodes []
              (Graph.mkDfs (Graph.initColors g) [] []))
    as (s' & Hrun & Hinv).
  { apply incl_refl. }
  { unfold outerInv; simpl. splits; auto.
    - intros x Hx. unfold hasColor in Hx.
      assert (Hin : In x nodes) by (rewrite <- Hk; eapply jsmap_get_Some_in; eauto).
      specialize (Hw x Hin). unfold hasColor in Hw. congruence.
    - intros x [].
    - intros _. split.
      + intros b w Hb. unfold hasColor in Hb.
        assert (Hin : In b nodes) by (rewrite <- Hk; eapply jsmap_get_Some_in; eauto).
        specialize (Hw b Hin). unfold hasColor in Hw. congruence.
      + intros b Hb. unfold hasColor in Hb.
        assert (Hin : In b nodes) by (rewrite <- Hk; eapply jsmap_get_Some_in; eauto).
        specialize (Hw b Hin). unfold hasColor in Hw. congruence. }
  unfold Graph.detectCycles, Graph.detectCycles_fuel. rewrite Hrun.
  exists (Graph.cycles s'). destruct Hinv as (Hk' & Hng & Hdone & Hfa & Hgood).
  splits; auto.
  intros Hnil u Hr. destruct (Hgood Hnil) as [_ Hnc].
  apply (Hnc u); auto. apply Hdone. simpl. eapply reach_src_node; eauto.
Qed.

Lemma detectCycles_cyclic :
  hasCycle g ->
  exists cs, Graph.detectCycles g = Some cs /\ cs <> [] /\ Forall isCycle cs.
Proof.
  intros [u Hu]. destruct detectCycles_spec as (cs & Hrun & Hfa & Hnil).
  exists cs. splits; auto. intros ->. exact (Hnil eq_refl u Hu).
Qed.
End DetectCycles.

Section PathSpec.
Context {M : Type}.
Variable g : Graph.t M.

(** The path element that [dfs] pushes for the edge [e]. *)
Definition stepOf (e : Graph.Edge M) : Graph.Step M :=
  Graph.mkStep (Graph.node e) (Some e).

(** [edgeChain u es]: [es] are consecutive edges of the graph, the first
    one leaving [u]. *)
Fixpoint edgeChain (u : string) (es : list (Graph.Edge M)) : Prop :=
  match es with
  | [] => True
  | e :: r => In e (Graph.getNeighbors g u) /\ edgeChain (Graph.node e) r
  end.

(** A simple path from [start] to [target], as [findAllPaths] records
    it: the start node with a [null] edge, then one element for each
    edge followed; no node is visited twice. *)
Definition simplePath (start target : string) (p : list (Graph.Step M)) : Prop :=
  exists es,
    p = Graph.mkStep start None :: map stepOf es /\
    edgeChain start es /\
    NoDup (start :: map (@Graph.node M) es) /\
    last (map (@Graph.node M) es) start = target.

(** Number of edges (hops) of a recorded path. *)
Definition hops (p : list (Graph.Step M)) : nat := length p - 1.
End PathSpec.

Lemma jsset_add_notin (s : JsSet.t) x : ~ In x s -> JsSet.add s x = s ++ [x].
Proof.
  intros H. unfold JsSet.add. apply jsset_has_false_iff in H. now rewrite H.
Qed.

Lemma jsset_delete_snoc (s : JsSet.t) x : ~ In x s -> JsSet.delete (s ++ [x]) x = s.
Proof.
  induction s as [|a r IH]; simpl; intros H.
  - now rewrite String.eqb_refl.
  - destruct (String.eqb_spec a x); [exfalso; auto|]. f_equal. apply IH. tauto.
Qed.

Lemma last_cons_default {A} (l : list A) : forall a d : A, last (a :: l) d = last l a.
Proof.
  induction l as [|b r IH]; intros a d; [reflexivity|].
  transitivity (last (b :: r) d); [reflexivity|].
  now rewrite (IH b d), (IH b a).
Qed.

Lemma last_In_cons {A} (l : list A) : forall a : A, In (last l a) (a :: l).
Proof.
  induction l as [|b r IH]; intros a; [now left|].
  right. rewrite last_cons_default. apply IH.
Qed.

Section FindAllPaths.
Context {M : Type}.
Variable g : Graph.t M.
Variable target : string.
Variable maxDepth : nat.

Implicit Types (st s : Graph.PathState M) (es : list (Graph.Edge M)).

(** [ext current vis es]: the edges [es] extend a path that has reached
    [current] and has visited [vis] into a simple path to [target]. *)
Definition ext (current : string) (vis : list string) es : Prop :=
  edgeChain g current es /\
  NoDup (map (@Graph.node M) es) /\
  (forall e, In e es -> ~ In (Graph.node e) vis) /\
  last (map (@Graph.node M) es) current = target.

Lemma ext_nil current vis : ext current vis [] <-> current = target.
Proof.
  unfold ext; simpl. split; [tauto|]. intros ->. splits; auto; try constructor.
Qed.

Lemma ext_cons current vis e r :
  ext current vis (e :: r) <->
  In e (Graph.getNeighbors g current) /\ ~ In (Graph.node e) vis /\
  ext (Graph.node e) (vis ++ [Graph.node e]) r.
Proof.
  unfold ext. simpl map. rewrite last_cons_default. simpl edgeChain. split.
  - intros ((He & Hch) & Hnd & Hvis & Hlast).
    inversion Hnd as [|? ? Hn Hr]; subst.
    splits; auto.
    + apply Hvis. now left.
    + intros e' He' Hin. apply in_app_or in Hin as [Hin|[Heq|[]]].
      * apply (Hvis e'); auto. now right.
      * apply Hn. rewrite Heq. now apply in_map.
  - intros (He & Hn & Hch & Hnd & Hvis & Hlast).
    splits; auto.
    + constructor; auto. intros Hin. apply in_map_iff in Hin as (e' & Heq & He').
      apply (Hvis e' He'). apply in_or_app. right. left. now rewrite Heq.
    + intros e' [<-|He'] Hin; auto. apply (Hvis e' He'). apply in_or_app. now left.
Qed.

Lemma ext_target_nil vis es : In target vis -> ext target vis es -> es = [].
Proof.
  intros Hin (Hch & Hnd & Hvis & Hlast). destruct es as [|e r]; auto.
  exfalso. simpl map in Hlast.
  pose proof (last_In_cons (map (@Graph.node M) r) (Graph.node e)) as Hl.
  rewrite last_cons_default in Hlast. rewrite Hlast in Hl.
  change (Graph.node e :: map (@Graph.node M) r) with (map (@Graph.node M) (e :: r)) in Hl.
  apply in_map_iff in Hl as (e' & Heq & He').
  apply (Hvis e' He'). now rewrite Heq.
Qed.

(** The body of the [for] loop of [dfs]. *)
Definition pathVisit (fuel : nat) (e : Graph.Edge M) s : option (Graph.PathState M) :=
  if negb (JsSet.has (Graph.visited s) (Graph.node e)) then
    match Graph.pathDfs fuel g target maxDepth (Graph.node e)
            (Graph.mkPS (Graph.paths s) (Graph.cur s ++ [stepOf e])
                        (JsSet.add (Graph.visited s) (Graph.node e))) with
    | Some s2 =>
        Some (Graph.mkPS (Graph.paths s2) (removelast (Graph.cur s2))
                         (JsSet.delete (Graph.visited s2) (Graph.node e)))
    | None => None
    end
  else Some s.

Lemma pathDfs_unfold fuel current st :
  Graph.pathDfs (S fuel) g target maxDepth current st =
  if Nat.ltb maxDepth (length (Graph.cur st)) then Some st
  else if String.eqb current target then
    Some (Graph.mkPS (Graph.paths st ++ [Graph.cur st]) (Graph.cur st) (Graph.visited st))
  else forEach (pathVisit fuel) (Graph.getNeighbors g current) st.
Proof. reflexivity. Qed.

(** [found base current vis q]: [q] extends [base] by a simple path
    from [current] to the target and is short enough to be kept. *)
Definition found (base : list (Graph.Step M)) (current : string)
           (vis : list string) (q : list (Graph.Step M)) : Prop :=
  exists es, q = base ++ map stepOf es /\ ext current vis es /\
             (length q <= maxDepth)%nat.

Definition pathPost (current : string) st st' : Prop :=
  Graph.cur st' = Graph.cur st /\
  Graph.visited st' = Graph.visited st /\
  exists new, Graph.paths st' = Graph.paths st ++ new /\
              forall q, In q new <-> found (Graph.cur st) current (Graph.visited st) q.

Definition pathOk (fuel : nat) : Prop :=
  forall current st,
    In current (Graph.visited st) ->
    (maxDepth + 1 <= fuel + length (Graph.cur st))%nat ->
    exists st', Graph.pathDfs fuel g target maxDepth current st = Some st' /\
                pathPost current st st'.

Definition pathLoopInv (current : string) st (done : list (Graph.Edge M)) s : Prop :=
  Graph.cur s = Graph.cur st /\
  Graph.visited s = Graph.visited st /\
  exists new, Graph.paths s = Graph.paths st ++ new /\
    forall q, In q new <->
      exists e r, In e done /\ q = Graph.cur st ++ map stepOf (e :: r) /\
                  ext current (Graph.visited st) (e :: r) /\
                  (length q <= maxDepth)%nat.

Lemma pathVisit_loop fuel current st :
  pathOk fuel ->
  (maxDepth <= fuel + length (Graph.cur st))%nat ->
  forall es done s,
    (forall e, In e es -> In e (Graph.getNeighbors g current)) ->
    pathLoopInv current st done s ->
    exists s', forEach (pathVisit fuel) es s = Some s' /\
               pathLoopInv current st (done ++ es) s'.
Proof.
  intros Hok Hfuel. induction es as [|e r IH]; intros done s Hes Hinv.
  - exists s. rewrite app_nil_r. auto.
  - assert (He : In e (Graph.getNeighbors g current)) by (apply Hes; now left).
    destruct Hinv as (Hcur & Hvis & new & Hpaths & Hnew).
    assert (Hnext : forall s1, pathLoopInv current st (done ++ [e]) s1 ->
              exists s', forEach (pathVisit fuel) r s1 = Some s' /\
                         pathLoopInv current st (done ++ e :: r) s').
    { intros s1 H1. destruct (IH (done ++ [e]) s1) as (s' & Hrun & Hinv'); auto.
      - intros e' He'. apply Hes. now right.
      - exists s'. split; auto. now rewrite <- app_assoc in Hinv'. }
    simpl. unfold pathVisit at 1.
    destruct (JsSet.has (Graph.visited s) (Graph.node e)) eqn:Ehas; simpl.
    + (* already on the path *)
      apply jsset_has_true_iff in Ehas. rewrite Hvis in Ehas.
      apply Hnext. unfold pathLoopInv. splits; auto.
      exists new. split; auto. intros q. rewrite Hnew. split.
      * intros (e' & r' & He' & H). exists e', r'. split; auto.
        apply in_or_app. now left.
      * intros (e' & r' & He' & Hq & Hext & Hlen). exists e', r'. splits; auto.
        apply in_app_or in He' as [He'|[<-|[]]]; auto.
        exfalso. apply ext_cons in Hext. tauto.
    + (* a new node: recursive call *)
      apply jsset_has_false_iff in Ehas.
      rewrite (jsset_add_notin _ _ Ehas).
      set (s1 := Graph.mkPS (Graph.paths s) (Graph.cur s ++ [stepOf e])
                            (Graph.visited s ++ [Graph.node e])).
      destruct (Hok (Graph.node e) s1) as (s2 & Hrun & Hc2 & Hv2 & new2 & Hp2 & Hn2).
      { simpl. apply in_or_app. right. now left. }
      { simpl. rewrite length_app, Hcur. simpl. lia. }
      rewrite Hrun. apply Hnext. unfold pathLoopInv; simpl.
      rewrite Hc2, Hv2. simpl. splits.
      * rewrite removelast_last. exact Hcur.
      * rewrite (jsset_delete_snoc _ _ Ehas). exact Hvis.
      * exists (new ++ new2). split.
        { rewrite Hp2. simpl. rewrite Hpaths. now rewrite app_assoc. }
        intros q. rewrite in_app_iff, Hnew, Hn2. simpl. rewrite Hcur, Hvis.
        rewrite Hvis in Ehas. split.
        -- intros [(e' & r' & He' & H)|(r' & Hq & Hext & Hlen)].
           ++ exists e', r'. split; auto. apply in_or_app. now left.
           ++ exists e, r'. splits; auto.
              ** apply in_or_app. right. now left.
              ** rewrite Hq, <- app_assoc. reflexivity.
              ** apply ext_cons. auto.
        -- intros (e' & r' & He' & Hq & Hext & Hlen).
           apply in_app_or in He' as [He'|[<-|[]]].
           ++ left. exists e', r'. auto.
           ++ right. exists r'. splits; auto.
              ** rewrite Hq, <- app_assoc. reflexivity.
              ** apply ext_cons in Hext. tauto.
Qed.

Lemma pathDfs_all_ok fuel : pathOk fuel.
Proof.
  induction fuel as [|fuel IH]; intros current st Hin Hfuel.
  - (* no fuel: the path is already at the depth bound *)
    assert (Hbase : Graph.pathDfs 0 g target maxDepth current st =
      if Nat.ltb maxDepth (length (Graph.cur st)) then Some st
      else if String.eqb current target then
        Some (Graph.mkPS (Graph.paths st ++ [Graph.cur st]) (Graph.cur st) (Graph.visited st))
      else None) by reflexivity.
    rewrite Hbase. destruct (Nat.ltb_spec maxDepth (length (Graph.cur st))); [|lia].
    exists st. split; auto. unfold pathPost. splits; auto.
    exists []. rewrite app_nil_r. split; auto.
    intros q. split; [intros []|]. intros (es & -> & _ & Hlen).
    rewrite length_app in Hlen. lia.
  - rewrite pathDfs_unfold.
    destruct (Nat.ltb_spec maxDepth (length (Graph.cur st))) as [Hlt|Hle].
    { exists st. split; auto. unfold pathPost. splits; auto.
      exists []. rewrite app_nil_r. split; auto.
      intros q. split; [intros []|]. intros (es & -> & _ & Hlen).
      rewrite length_app in Hlen. lia. }
    destruct (String.eqb_spec current target) as [Heq|Hne].
    { eexists. split; [reflexivity|]. unfold pathPost; simpl. splits; auto.
      exists [Graph.cur st]. split; auto. intros q. split.
      - intros [<-|[]]. exists []. simpl. rewrite app_nil_r. splits; auto.
        now apply ext_nil.
      - intros (es & -> & Hext & Hlen). subst current.
        apply ext_target_nil in Hext; auto. subst es. simpl. rewrite app_nil_r. now left. }
    destruct (pathVisit_loop fuel current st IH) with
      (es := Graph.getNeighbors g current) (done := @nil (Graph.Edge M)) (s := st)
      as (s' & Hrun & Hc & Hv & new & Hp & Hn); auto.
    { lia. }
    { unfold pathLoopInv. splits; auto. exists []. rewrite app_nil_r. split; auto.
      intros q. split; [intros [] | intros (e & r & [] & _)]. }
    exists s'. split; auto. unfold pathPost. splits; auto.
    exists new. split; auto. intros q. rewrite Hn. simpl. split.
    + intros (e & r & He & Hq & Hext & Hlen). exists (e :: r). auto.
    + intros (es & Hq & Hext & Hlen). destruct es as [|e r].
      * apply ext_nil in Hext. contradiction.
      * exists e, r. splits; auto. apply ext_cons in Hext. tauto.
Qed.

(** [findAllPaths] returns exactly the simple paths from [start] to the
    target that have at most [maxDepth] elements, the start node
    included. *)
Lemma findAllPaths_spec (start : string) :
  exists ps, Graph.findAllPaths g start target maxDepth = Some ps /\
    forall p, In p ps <->
              simplePath g start target p /\ (length p <= maxDepth)%nat.
Proof.
  unfold Graph.findAllPaths.
  destruct (pathDfs_all_ok maxDepth start
              (Graph.mkPS [] [Graph.mkStep start None] (JsSet.add JsSet.empty start)))
    as (st' & Hrun & Hc & Hv & new & Hp & Hn).
  { simpl. now left. }
  { simpl. lia. }
  rewrite Hrun. exists (Graph.paths st'). split; auto.
  intros p. rewrite Hp. simpl. rewrite Hn. simpl.
  unfold found, simplePath, ext. split.
  - intros (es & -> & (Hch & Hnd & Hvis & Hlast) & Hlen). split; auto.
    exists es. splits; auto. constructor; auto.
    intros Hin. apply in_map_iff in Hin as (e & Heq & He).
    apply (Hvis e He). now left.
  - intros ((es & -> & Hch & Hnd & Hlast) & Hlen).
    exists es. inversion Hnd as [|? ? Hs Hr]; subst. splits; auto.
    intros e He [Heq|[]]. apply Hs. rewrite Heq. now apply in_map.
Qed.
End FindAllPaths.

(** ** CurrencyConverter *)

Section ConvertFacts.
Variable c : CurrencyConverter.t.

Lemma insertSorted_in k l x :
  In x (CurrencyConverter.insertSorted k l) <-> x = k \/ In x l.
Proof.
  induction l as [|a r IH]; simpl; [intuition auto|].
  destruct (String.leb k a); simpl; [intuition auto|]. rewrite IH. intuition auto.
Qed.

Lemma sortKeys_in l x : In x (CurrencyConverter.sortKeys l) <-> In x l.
Proof.
  induction l as [|a r IH]; simpl; [tauto|].
  rewrite insertSorted_in, IH. intuition auto.
Qed.

Lemma pickNearest_cases period acc p :
  CurrencyConverter.pickNearest period acc p = acc \/
  CurrencyConverter.pickNearest period acc p = Some p.
Proof.
  unfold CurrencyConverter.pickNearest. destruct acc as [n|]; auto.
  destruct (CurrencyConverter.truthy (Some n)); auto.
  destruct (CurrencyConverter.closer _ _ _); auto.
Qed.

Lemma fold_pickNearest period l : forall init n,
  fold_left (CurrencyConverter.pickNearest period) l init = Some n ->
  init = Some n \/ In n l.
Proof.
  induction l as [|a r IH]; simpl; intros init n H; auto.
  destruct (IH _ _ H) as [H1|H1]; auto.
  destruct (pickNearest_cases period init a) as [E|E]; rewrite E in H1; auto.
  injection H1 as ->. auto.
Qed.

Lemma nearestPeriod_in period n :
  CurrencyConverter.nearestPeriod c period = Some n ->
  In n (JsMap.keys (CurrencyConverter.rates c)).
Proof.
  unfold CurrencyConverter.nearestPeriod. intros H.
  apply fold_pickNearest in H as [H|H]; [discriminate|].
  exact (proj1 (sortKeys_in _ _) H).
Qed.

Lemma convertWith_not_OutOfFuel pr amount f t p :
  CurrencyConverter.convertWith pr amount f t p <> OutOfFuel.
Proof.
  unfold CurrencyConverter.convertWith.
  destruct (String.eqb f "USD"); simpl.
  - destruct (String.eqb t "USD"); [discriminate|].
    destruct (CurrencyConverter.rateOf pr _); discriminate.
  - destruct (CurrencyConverter.rateOf pr (f +++ "/USD")); simpl; [|discriminate].
    destruct (String.eqb t "USD"); [discriminate|].
    destruct (CurrencyConverter.rateOf pr _); discriminate.
Qed.

(** One unit of fuel is enough for [convert]: the nearest period has
    rates of its own. *)
Lemma convert_not_OutOfFuel amount f t p :
  CurrencyConverter.convert c amount f t p <> OutOfFuel.
Proof.
  unfold CurrencyConverter.convert.
  cbn [CurrencyConverter.convert_fuel].
  destruct (String.eqb f t); [discriminate|].
  destruct (JsMap.get (CurrencyConverter.rates c) p);
    [apply convertWith_not_OutOfFuel|].
  destruct (CurrencyConverter.nearestPeriod c p) as [n|] eqn:E; [|discriminate].
  destruct (CurrencyConverter.truthy (Some n)); [|discriminate].
  apply nearestPeriod_in in E. apply jsmap_in_get in E as [pr Hpr].
  rewrite Hpr.
  apply convertWith_not_OutOfFuel.
Qed.

Lemma convert_same amount cur p :
  CurrencyConverter.convert c amount cur cur p = Ok amount.
Proof.
  unfold CurrencyConverter.convert. cbn [CurrencyConverter.convert_fuel].
  now rewrite String.eqb_refl.
Qed.
End ConvertFacts.

Lemma convert_empty_table amount f t p :
  f <> t ->
  CurrencyConverter.convert (CurrencyConverter.mk []) amount f t p =
  Throw (CurrencyConverter.noRate p).
Proof.
  intros H. unfold CurrencyConverter.convert. cbn [CurrencyConverter.convert_fuel].
  apply String.eqb_neq in H. now rewrite H.
Qed.

(** ** CostState: dirty propagation *)

Section DirtyChain.
Variables A B C : string.
Hypothesis HAB : A <> B.
Hypothesis HBC : B <> C.
Hypothesis HAC : A <> C.

(** The state after [addDependency(A, B)] and [addDependency(B, C)] on a
    new [CostState]. *)
Definition chainState : CostState.t :=
  CostState.addDependency (CostState.addDependency CostState.new A B) B C.

Lemma chain_eqb :
  String.eqb A B = false /\ String.eqb B A = false /\
  String.eqb B C = false /\ String.eqb C B = false /\
  String.eqb A C = false /\ String.eqb C A = false.
Proof. repeat split; apply String.eqb_neq; congruence. Qed.

Lemma chainState_eq :
  chainState = CostState.mk JsMap.empty JsMap.empty [(A, [B]); (B, [C])] JsSet.empty.
Proof.
  destruct chain_eqb as (EAB & EBA & EBC & ECB & EAC & ECA).
  unfold chainState, CostState.addDependency, CostState.new, JsMap.has, JsSet.add.
  simpl.
  repeat (progress (rewrite ?String.eqb_refl, ?EAB, ?EBA, ?EBC, ?ECB, ?EAC, ?ECA; simpl)).
  reflexivity.
Qed.

Lemma markDirty_chain fuel :
  (3 <= fuel)%nat ->
  exists st', CostState.markDirty fuel chainState A = Some st' /\
              CostState.getDirtyKeys st' = [A; B; C] /\
              CostState.costs st' = CostState.costs chainState /\
              CostState.dependencies st' = CostState.dependencies chainState.
Proof.
  intros Hf. destruct fuel as [|[|[|fuel]]]; try lia.
  destruct chain_eqb as (EAB & EBA & EBC & ECB & EAC & ECA).
  rewrite chainState_eq.
  cbn [CostState.markDirty CostState.dependencies CostState.dirty CostState.costs
       CostState.ruleOutputs].
  unfold JsSet.add. simpl.
  repeat (progress (rewrite ?String.eqb_refl, ?EAB, ?EBA, ?EBC, ?ECB, ?EAC, ?ECA; simpl)).
  eexists. split; [reflexivity|]. simpl. auto.
Qed.
End DirtyChain.

(** ** Edges of a graph under [addNode] and [addEdge] *)

Section GraphEdges.
Context {M : Type}.
Implicit Types (g : Graph.t M).

Lemma getNeighbors_addNode g n u :
  Graph.getNeighbors (Graph.addNode g n) u = Graph.getNeighbors g u.
Proof.
  unfold Graph.addNode. destruct (JsMap.has g n) eqn:E; auto.
  rewrite getNeighbors_set. destruct (String.eqb_spec n u); auto. subst.
  unfold Graph.getNeighbors, JsMap.has in *. destruct (JsMap.get g u); [discriminate | auto].
Qed.

Lemma getNeighbors_addEdge g a b (md : M) u :
  Graph.getNeighbors (Graph.addEdge g a b md) u =
  if String.eqb a u then Graph.getNeighbors g u ++ [Graph.mkEdge b md]
  else Graph.getNeighbors g u.
Proof.
  unfold Graph.addEdge.
  set (g2 := Graph.addNode (Graph.addNode g a) b).
  assert (Ha : In a (Graph.getNodes g2)) by apply addNode_incl, addNode_in.
  assert (Hn : forall x, Graph.getNeighbors g2 x = Graph.getNeighbors g x).
  { intros x. unfold g2. now rewrite !getNeighbors_addNode. }
  apply jsmap_in_get in Ha as [l Hl]. rewrite Hl.
  rewrite getNeighbors_set. destruct (String.eqb_spec a u); [|apply Hn].
  subst. rewrite <- Hn. unfold Graph.getNeighbors. now rewrite Hl.
Qed.

Lemma edge_addNode g n u v : edge (Graph.addNode g n) u v <-> edge g u v.
Proof. unfold edge. now rewrite getNeighbors_addNode. Qed.

Lemma edge_addEdge_old g a b (md : M) u v :
  edge g u v -> edge (Graph.addEdge g a b md) u v.
Proof.
  intros (e & He & Hv). exists e. split; auto. rewrite getNeighbors_addEdge.
  destruct (String.eqb a u); auto. apply in_or_app. now left.
Qed.

Lemma edge_addEdge_new g a b (md : M) : edge (Graph.addEdge g a b md) a b.
Proof.
  exists (Graph.mkEdge b md). split; auto. rewrite getNeighbors_addEdge.
  rewrite String.eqb_refl. apply in_or_app. right. now left.
Qed.
End GraphEdges.

(** ** BOMProcessor *)

Section BomFacts.
Import BOMProcessor.

(** The edges that [explodeBOM] follows: from a product of the index to
    the items of its components. *)
Definition bomEdge (b : JsMap.t BomItem) (u v : string) : Prop :=
  exists item c, JsMap.get b u = Some item /\ In c (components item) /\ itemId c = v.

Inductive bomReach (b : JsMap.t BomItem) : string -> string -> Prop :=
| bomReach_step u v : bomEdge b u v -> bomReach b u v
| bomReach_cons u v w : bomEdge b u v -> bomReach b v w -> bomReach b u w.

Lemma bomReach_snoc b u v w : bomReach b u v -> bomEdge b v w -> bomReach b u w.
Proof.
  intros H He. induction H as [u v H|u v x H Hr IH].
  - eapply bomReach_cons; eauto. now apply bomReach_step.
  - eapply bomReach_cons; eauto.
Qed.

(** *** The index built by the constructor *)

Definition indexInv (s : JsMap.t BomItem * Graph.t BomMeta) : Prop :=
  wf (snd s) /\
  forall u v, bomEdge (fst s) u v -> edge (snd s) u v.

Lemma addItem_edges (pid : string) (cs : list Component) :
  forall gr,
    wf gr ->
    let gr' := fold_left
      (fun gr' c => Graph.addEdge gr' pid (itemId c)
                      (mkBomMeta (quantity c) (orZero (scrapRate c)) (unit c)))
      cs gr in
    wf gr' /\
    (forall u v, edge gr u v -> edge gr' u v) /\
    (forall c, In c cs -> edge gr' pid (itemId c)).
Proof.
  induction cs as [|c r IH]; intros gr Hwf; simpl.
  - splits; auto. intros c [].
  - destruct (IH (Graph.addEdge gr pid (itemId c)
                    (mkBomMeta (quantity c) (orZero (scrapRate c)) (unit c))))
      as (H1 & H2 & H3).
    { now apply wf_addEdge. }
    splits; auto.
    + intros u v He. apply H2. now apply edge_addEdge_old.
    + intros c' [<-|Hc]; auto. apply H2. apply edge_addEdge_new.
Qed.

Lemma addItem_inv s item : indexInv s -> indexInv (addItem s item).
Proof.
  destruct s as [b gr]. intros [Hwf Hed]. unfold addItem. simpl in *.
  destruct (addItem_edges (productId item) (components item)
              (Graph.addNode gr (productId item))) as (H1 & H2 & H3).
  { now apply wf_addNode. }
  split; simpl; auto.
  intros u v (it & c & Hget & Hc & Hv). simpl in Hget.
  destruct (String.eqb_spec (productId item) u) as [Heq|Hne].
  - subst u. rewrite jsmap_get_set_same in Hget. injection Hget as <-.
    rewrite <- Hv. now apply H3.
  - rewrite jsmap_get_set_other in Hget by exact Hne.
    apply H2, edge_addNode, Hed. now exists it, c.
Qed.

Lemma index_inv bill : indexInv (index bill).
Proof.
  unfold index.
  assert (H : forall s, indexInv s -> indexInv (fold_left addItem bill s)).
  { induction bill as [|i r IH]; simpl; auto. intros s Hs. apply IH.
    now apply addItem_inv. }
  apply H. split; simpl; [apply wf_empty|].
  intros u v (it & c & Hget & _). discriminate.
Qed.

(** A processor that the constructor accepted has no product among its
    own descendants. *)
Lemma new_acyclic bill p :
  BOMProcessor.new bill = Ok p ->
  bom p = fst (index bill) /\ bomGraph p = snd (index bill) /\
  explosionCache p = JsMap.empty /\
  forall u, ~ bomReach (bom p) u u.
Proof.
  unfold BOMProcessor.new. pose proof (index_inv bill) as [Hwf Hed].
  destruct (index bill) as [b gr]. simpl in *.
  destruct (detectCycles_spec gr Hwf) as (cs & Hrun & _ & Hnil).
  rewrite Hrun. simpl. destruct cs as [|c cs']; simpl; [|discriminate].
  intros [= <-]. simpl. splits; auto.
  intros u Hr. apply (Hnil eq_refl u).
  assert (Hrr : forall x y, bomReach b x y -> reach gr x y).
  { intros x y Hxy. induction Hxy as [x y H|x y w H Hxy IH].
    - apply reach_step, Hed, H.
    - eapply reach_cons; [apply Hed, H | exact IH]. }
  now apply Hrr.
Qed.
End BomFacts.

Section Explode.
Import BOMProcessor.
Variable b : JsMap.t BomItem.

(** The leaf record [{ productId, isRawMaterial: true, components: [],
    depth }]. *)
Definition leaf (pid : string) (depth : nat) : Exploded :=
  mkExploded pid true [] depth.

(** The loop body of [explodeBOM]. *)
Definition explodeChild (fuel : nat) (depth : nat) (visited : JsSet.t)
           (c : Component)
           (s : list (Component * Exploded * Q) * JsMap.t Exploded)
  : outcome (list (Component * Exploded * Q) * JsMap.t Exploded) :=
  '(child, cache1) <-
    explodeBOM_fuel fuel b (snd s) (itemId c) (S depth) visited ;;
  Ok (fst s ++ [(c, child, effectiveQuantity c)], cache1).

Lemma explodeBOM_fuel_eq fuel cache pid depth visited :
  explodeBOM_fuel fuel b cache pid depth visited =
  match JsMap.get cache pid with
  | Some cached => Ok (cached, cache)
  | None =>
      if JsSet.has visited pid then Throw (circularMessage pid)
      else
        match JsMap.get b pid with
        | None => Ok (leaf pid depth, cache)
        | Some product =>
            match components product with
            | [] => Ok (leaf pid depth, JsMap.set cache pid (leaf pid depth))
            | comps =>
                match fuel with
                | O => OutOfFuel
                | S fuel' =>
                    '(exploded, cache') <-
                      forEachM (explodeChild fuel' depth (JsSet.add visited pid))
                               comps ([], cache) ;;
                    Ok (mkExploded pid false exploded depth,
                        JsMap.set cache' pid (mkExploded pid false exploded depth))
                end
            end
        end
  end.
Proof. destruct fuel; reflexivity. Qed.

Lemma explode_hit fuel cache pid depth visited r :
  JsMap.get cache pid = Some r ->
  explodeBOM_fuel fuel b cache pid depth visited = Ok (r, cache).
Proof. intros H. rewrite explodeBOM_fuel_eq, H. reflexivity. Qed.

Lemma explode_absent fuel cache pid depth visited :
  JsMap.get cache pid = None -> JsSet.has visited pid = false ->
  JsMap.get b pid = None ->
  explodeBOM_fuel fuel b cache pid depth visited = Ok (leaf pid depth, cache).
Proof. intros H1 H2 H3. rewrite explodeBOM_fuel_eq, H1, H2, H3. reflexivity. Qed.

(** Products of the index that are not on the current call stack. *)
Definition unvisited (visited : JsSet.t) : nat :=
  length (filter (fun k => negb (JsSet.has visited k)) (JsMap.keys b)).

Lemma unvisited_add visited pid :
  In pid (JsMap.keys b) -> ~ In pid visited ->
  (unvisited (JsSet.add visited pid) < unvisited visited)%nat.
Proof.
  intros Hin Hn. rewrite (jsset_add_notin _ _ Hn). unfold unvisited.
  induction (JsMap.keys b) as [|a r IH]; [destruct Hin|]. simpl.
  assert (Hle : (length (filter (fun k => negb (JsSet.has (visited ++ [pid]) k)) r)
                 <= length (filter (fun k => negb (JsSet.has visited k)) r))%nat).
  { clear. induction r as [|x r IH]; simpl; auto.
    destruct (JsSet.has visited x) eqn:E; simpl.
    - assert (E' : JsSet.has (visited ++ [pid]) x = true).
      { apply jsset_has_true_iff, in_or_app. left. now apply jsset_has_true_iff. }
      now rewrite E'.
    - destruct (JsSet.has (visited ++ [pid]) x); simpl; lia. }
  destruct (string_dec a pid) as [->|Hne].
  - assert (E1 : JsSet.has visited pid = false) by now apply jsset_has_false_iff.
    assert (E2 : JsSet.has (visited ++ [pid]) pid = true).
    { apply jsset_has_true_iff, in_or_app. right. now left. }
    rewrite E1, E2. simpl. lia.
  - destruct Hin as [|Hin]; [congruence|]. specialize (IH Hin).
    destruct (JsSet.has visited a) eqn:E; simpl.
    + assert (E' : JsSet.has (visited ++ [pid]) a = true).
      { apply jsset_has_true_iff, in_or_app. left. now apply jsset_has_true_iff. }
      rewrite E'. simpl. exact IH.
    + assert (E' : JsSet.has (visited ++ [pid]) a = false).
      { apply jsset_has_false_iff. intros H. apply in_app_or in H as [H|[H|[]]].
        - apply jsset_has_false_iff in E. contradiction.
        - congruence. }
      rewrite E'. simpl. lia.
Qed.

(** How a call of [explodeBOM] ends: a cache hit, an uncached leaf for
    an item that is not in the index, or a result that is now cached. *)
Definition explodePost (cache : JsMap.t Exploded) (pid : string) (depth : nat)
           (r : Exploded) (cache' : JsMap.t Exploded) : Prop :=
  (JsMap.get cache pid = Some r /\ cache' = cache) \/
  (JsMap.get cache pid = None /\ JsMap.get b pid = None /\
   r = leaf pid depth /\ cache' = cache) \/
  (JsMap.get cache pid = None /\ In pid (JsMap.keys b) /\
   JsMap.get cache' pid = Some r).

Hypothesis Hac : forall u, ~ bomReach b u u.

Lemma explode_ok fuel : forall cache pid depth visited,
  (unvisited visited <= fuel)%nat ->
  (forall v, In v visited -> bomReach b v pid) ->
  exists r cache',
    explodeBOM_fuel fuel b cache pid depth visited = Ok (r, cache') /\
    explodePost cache pid depth r cache'.
Proof.
  induction fuel as [|fuel IH]; intros cache pid depth visited Hfuel Hvis;
    rewrite explodeBOM_fuel_eq.
  all: destruct (JsMap.get cache pid) as [cached|] eqn:Ec;
    [exists cached, cache; split; auto; left; auto|].
  all: destruct (JsSet.has visited pid) eqn:Ev;
    [exfalso; apply jsset_has_true_iff in Ev; exact (Hac pid (Hvis pid Ev))|].
  all: destruct (JsMap.get b pid) as [product|] eqn:Eb;
    [|exists (leaf pid depth), cache; split; auto; right; left; auto].
  all: assert (Hk : In pid (JsMap.keys b)) by (eapply jsmap_get_Some_in; eauto).
  all: destruct (components product) as [|c0 cs] eqn:Ecs;
    [eexists; eexists; split; [reflexivity|]; right; right; splits; auto;
     apply jsmap_get_set_same|].
  all: apply jsset_has_false_iff in Ev;
    pose proof (unvisited_add visited pid Hk Ev) as Hlt.
  - lia.
  - assert (Hloop : forall comps acc cache0,
      (forall c, In c comps -> bomEdge b pid (itemId c)) ->
      exists acc' cache',
        forEachM (explodeChild fuel depth (JsSet.add visited pid)) comps (acc, cache0)
        = Ok (acc', cache')).
    { induction comps as [|c r IHc]; intros acc cache0 Hed; simpl; [eauto|].
      destruct (IH cache0 (itemId c) (S depth) (JsSet.add visited pid))
        as (child & cache1 & Hrun & _).
      - lia.
      - intros v Hv. rewrite (jsset_add_notin _ _ Ev) in Hv.
        apply in_app_or in Hv as [Hv|[<-|[]]].
        + eapply bomReach_snoc; [apply Hvis, Hv|]. apply Hed. now left.
        + apply bomReach_step. apply Hed. now left.
      - unfold explodeChild at 1. simpl. rewrite Hrun. simpl.
        apply IHc. intros c' Hc'. apply Hed. now right. }
    destruct (Hloop (c0 :: cs) [] cache) as (acc' & cache' & Hrun).
    { intros c Hc. exists product, c. rewrite <- Ecs in Hc. auto. }
    rewrite Hrun. simpl. eexists; eexists; split; [reflexivity|].
    right; right. splits; auto. apply jsmap_get_set_same.
Qed.
End Explode.

Section ExplodeTwice.
Import BOMProcessor.

(** Calling [explodeBOM] twice on a processor whose BOM has no product
    among its own descendants. *)
Lemma explodeBOM_twice (p : BOMProcessor.t) (pid : string) :
  (forall u, ~ bomReach (bom p) u u) ->
  exists r p2,
    explodeBOM p pid = Ok (r, p2) /\
    explodeBOM p2 pid = Ok (r, p2) /\
    explodeBOM_fuel 0 (bom p2) (explosionCache p2) pid 0 JsSet.empty
      = Ok (r, explosionCache p2) /\
    (In pid (getAllProducts p) -> JsMap.get (explosionCache p2) pid = Some r) /\
    (~ In pid (getAllProducts p) -> JsMap.get (explosionCache p) pid = None ->
     r = leaf pid 0 /\ explosionCache p2 = explosionCache p).
Proof.
  intros Hac. unfold explodeBOM, getAllProducts.
  destruct (explode_ok (bom p) Hac (length (bom p)) (explosionCache p) pid 0 JsSet.empty)
    as (r & cache' & Hrun & Hpost).
  { unfold unvisited. simpl. unfold JsMap.keys.
    rewrite <- (length_map fst (bom p)). apply filter_length_le. }
  { intros v []. }
  rewrite Hrun. cbn [bind]. exists r, (mk (bom p) (bomGraph p) cache').
  cbn [bom bomGraph explosionCache].
  destruct Hpost as [[Hhit ->]|[(Hn & Hb & -> & ->)|(Hn & Hk & Hc)]].
  - rewrite !(explode_hit (bom p) _ _ _ _ _ _ Hhit). cbn [bind]. splits; auto.
    intros _ Hnone. congruence.
  - rewrite !(explode_absent (bom p) _ _ _ _ JsSet.empty Hn eq_refl Hb). cbn [bind].
    splits; auto.
    intros Hin. apply jsmap_get_None_iff in Hb. contradiction.
  - rewrite !(explode_hit (bom p) _ _ _ _ _ _ Hc). cbn [bind]. splits; auto.
    intros Hnk. contradiction.
Qed.
End ExplodeTwice.

Local Open Scope Q_scope.

(** ** The cost-record invariant *)

Section CostInvariant.
Import CostState CostCalculator.

(** The sum of the itemized fields of a cost record. *)
Definition itemizedSum (c : Cost) : Q :=
  directMaterial c + directLabor c + scrapAdjustment c + laborBurden c
  + factoryOverhead c + rndAmortization c + royalty c + managementFee c
  + interCompanyMarkup c + customsDuties c.

(** [totalCost] equals the sum of the itemized fields. *)
Definition balanced (c : Cost) : Prop := totalCost c == itemizedSum c.

Lemma balanced_withKey c k : balanced (withKey c k) <-> balanced c.
Proof. unfold balanced, itemizedSum. simpl. tauto. Qed.

Lemma getCost_setCost st p e per bd :
  getCost (setCost st p e per bd) p e per = Some (withKey bd (getCostKey p e per)).
Proof. unfold getCost, setCost. simpl. apply jsmap_get_set_same. Qed.

Lemma getCost_setRuleOutput st rid p e per out p' e' per' :
  getCost (setRuleOutput st rid p e per out) p' e' per' = getCost st p' e' per'.
Proof. reflexivity. Qed.

(** *** calculateBaseCost *)

Lemma baseBreakdown_balanced acc : balanced (baseBreakdown acc).
Proof. unfold balanced, itemizedSum. simpl. ring. Qed.

(** The record that [calculateBaseCost] stores. *)
Lemma calculateBaseCost_stored c p e per cur bd c' :
  calculateBaseCost c p e per cur = Ok (Some bd, c') ->
  exists acc,
    bd = baseBreakdown acc /\
    getCost (costState c') p e per = Some (withKey bd (getCostKey p e per)).
Proof.
  unfold calculateBaseCost.
  destruct (BOMProcessor.getProduct (bomProcessor c) p) as [product|]; [|discriminate].
  match goal with |- bind ?X _ = _ -> _ => destruct X as [acc| |] end;
    simpl; try discriminate.
  intros [= <- <-]. exists acc. split; auto. simpl. apply getCost_setCost.
Qed.

(** *** applyRule *)

(** A rule of one of these three types assigns its field instead of
    adding to it. *)
Definition assigns (rule : RuleEngine.Rule) (field : string) : bool :=
  String.eqb (RuleEngine.type rule) field.

(** The field that the rule assigns, if any, is still zero. *)
Definition assignsFresh (rule : RuleEngine.Rule) (cost : Cost) : Prop :=
  (assigns rule "labor-burden" = true -> laborBurden cost == 0) /\
  (assigns rule "percentage-of-base" = true -> factoryOverhead cost == 0) /\
  (assigns rule "per-unit-allocation" = true -> rndAmortization cost == 0).

(** What a rule leaves alone. *)
Definition sameAssigned (rule : RuleEngine.Rule) (cost cost' : Cost) : Prop :=
  (assigns rule "labor-burden" = false -> laborBurden cost' = laborBurden cost) /\
  (assigns rule "percentage-of-base" = false ->
     factoryOverhead cost' = factoryOverhead cost) /\
  (assigns rule "per-unit-allocation" = false ->
     rndAmortization cost' = rndAmortization cost).

Lemma royaltyRoute_spec p e rid acc route :
  let acc' := royaltyRoute p e rid acc route in
  (balanced (raCost acc) -> balanced (raCost acc')) /\
  laborBurden (raCost acc') = laborBurden (raCost acc) /\
  factoryOverhead (raCost acc') = factoryOverhead (raCost acc) /\
  rndAmortization (raCost acc') = rndAmortization (raCost acc).
Proof.
  unfold royaltyRoute. destruct (String.eqb _ _); simpl; [|tauto].
  splits; auto. unfold balanced, itemizedSum. simpl. intros H. rewrite H. ring.
Qed.

Lemma mgmtRoute_spec p e rid acc route :
  let acc' := mgmtRoute p e rid acc route in
  (balanced (raCost acc) -> balanced (raCost acc')) /\
  laborBurden (raCost acc') = laborBurden (raCost acc) /\
  factoryOverhead (raCost acc') = factoryOverhead (raCost acc) /\
  rndAmortization (raCost acc') = rndAmortization (raCost acc).
Proof.
  unfold mgmtRoute. destruct (String.eqb _ _); simpl; [|tauto].
  splits; auto. unfold balanced, itemizedSum. simpl. intros H. rewrite H. ring.
Qed.

Lemma fold_routes_spec (f : RuleAcc -> EntityManager.Route -> RuleAcc) :
  (forall acc route,
     (balanced (raCost acc) -> balanced (raCost (f acc route))) /\
     laborBurden (raCost (f acc route)) = laborBurden (raCost acc) /\
     factoryOverhead (raCost (f acc route)) = factoryOverhead (raCost acc) /\
     rndAmortization (raCost (f acc route)) = rndAmortization (raCost acc)) ->
  forall routes acc,
    (balanced (raCost acc) -> balanced (raCost (fold_left f routes acc))) /\
    laborBurden (raCost (fold_left f routes acc)) = laborBurden (raCost acc) /\
    factoryOverhead (raCost (fold_left f routes acc)) = factoryOverhead (raCost acc) /\
    rndAmortization (raCost (fold_left f routes acc)) = rndAmortization (raCost acc).
Proof.
  intros Hf. induction routes as [|r rs IH]; intros acc; simpl; [tauto|].
  destruct (Hf acc r) as (H1 & H2 & H3 & H4).
  destruct (IH (f acc r)) as (I1 & I2 & I3 & I4).
  splits; auto; congruence.
Qed.

(** The [switch] keeps a balanced record balanced when the field it
    assigns is fresh, and touches no other assigned field. *)
Lemma ruleSwitch_spec c rule p e per cur cost acc :
  ruleSwitch c rule p e per cur cost = Ok acc ->
  (balanced cost -> assignsFresh rule cost -> balanced (raCost acc)) /\
  sameAssigned rule cost (raCost acc).
Proof.
  unfold ruleSwitch, assignsFresh, sameAssigned, assigns. cbv zeta.
  destruct (String.eqb_spec (RuleEngine.type rule) "sum-components") as [E|_].
  { rewrite ?E. simpl. intros [= <-]. simpl. tauto. }
  destruct (String.eqb_spec (RuleEngine.type rule) "multiply") as [E|_].
  { rewrite ?E. simpl. intros [= <-]. simpl. tauto. }
  destruct (String.eqb_spec (RuleEngine.type rule) "labor-burden") as [E|_].
  { rewrite ?E. simpl. destruct (Qltb 0 (directLabor cost)); intros [= <-]; simpl.
    - split; [|splits; auto; discriminate].
      unfold balanced, itemizedSum. simpl. intros H (Hz & _). specialize (Hz eq_refl).
      rewrite H. rewrite Hz. ring.
    - split; [tauto | splits; auto]. }
  destruct (String.eqb_spec (RuleEngine.type rule) "percentage-of-base") as [E|_].
  { rewrite ?E. simpl. intros [= <-]; simpl.
    split; [|splits; auto; discriminate].
    unfold balanced, itemizedSum. simpl. intros H (_ & Hz & _). specialize (Hz eq_refl).
    rewrite H. rewrite Hz. ring. }
  destruct (String.eqb_spec (RuleEngine.type rule) "per-unit-allocation") as [E|_].
  { rewrite ?E. simpl.
    destruct (JsMap.get (costPools c) (RuleEngine.poolId rule)) as [pool|];
      [|intros [= <-]; simpl; split; [tauto | splits; auto]].
    destruct (Qltb 0 (getTotalProductionVolume c per (RuleEngine.lookbackPeriods rule))
              && Qltb 0 (getProductVolume c p e per));
      [|intros [= <-]; simpl; split; [tauto | splits; auto]].
    match goal with |- bind ?X _ = _ -> _ => destruct X as [amt| |] end;
      simpl; try discriminate.
    intros [= <-]; simpl. split; [|splits; auto; discriminate].
    unfold balanced, itemizedSum. simpl. intros H (_ & _ & Hz). specialize (Hz eq_refl).
    rewrite H. rewrite Hz. ring. }
  destruct (String.eqb_spec (RuleEngine.type rule) "transfer-price") as [E|_].
  { rewrite ?E. simpl.
    destruct (String.eqb (RuleEngine.transferType rule) "royalty").
    - intros [= <-].
      destruct (fold_routes_spec (royaltyRoute p e (RuleEngine.id rule))
                  (royaltyRoute_spec p e (RuleEngine.id rule))
                  (routesFor c e "royalty") (mkRuleAcc cost 0 (auditTrail c)))
        as (H1 & H2 & H3 & H4).
      simpl in *. split; [intros H _; auto | splits; auto].
    - destruct (String.eqb (RuleEngine.transferType rule) "mgmt-fee").
      + intros [= <-].
        destruct (fold_routes_spec (mgmtRoute p e (RuleEngine.id rule))
                    (mgmtRoute_spec p e (RuleEngine.id rule))
                    (routesFor c e "mgmt-fee") (mkRuleAcc cost 0 (auditTrail c)))
          as (H1 & H2 & H3 & H4).
        simpl in *. split; [intros H _; auto | splits; auto].
      + intros [= <-]. simpl. split; [tauto | splits; auto]. }
  intros [= <-]. simpl. split; [tauto | splits; auto].
Qed.

(** One application of a rule to a stored record. *)
Lemma applyRule_stored c rule p e per cur c' cost :
  getCost (costState c) p e per = Some cost ->
  applyRule c rule p e per cur = Ok c' ->
  exists cost',
    getCost (costState c') p e per = Some cost' /\
    (balanced cost -> assignsFresh rule cost -> balanced cost') /\
    sameAssigned rule cost cost'.
Proof.
  intros Hget. unfold applyRule. rewrite Hget.
  destruct (ruleSwitch c rule p e per cur cost) as [acc| |] eqn:E; simpl;
    try discriminate.
  intros [= <-]. simpl. rewrite getCost_setCost. eexists. split; [reflexivity|].
  destruct (ruleSwitch_spec _ _ _ _ _ _ _ _ E) as [H1 H2].
  split.
  - intros Hb Hf. apply balanced_withKey. auto.
  - exact H2.
Qed.
End CostInvariant.

Lemma forEachM_inv {A S : Type} (P : S -> Prop) (body : A -> S -> outcome S)
      (l : list A) :
  (forall a s s', In a l -> P s -> body a s = Ok s' -> P s') ->
  forall s s', P s -> forEachM body l s = Ok s' -> P s'.
Proof.
  induction l as [|a r IH]; simpl; intros Hstep s s' Hs Hrun.
  - injection Hrun as Heq. rewrite <- Heq. exact Hs.
  - destruct (body a s) as [s1| |] eqn:E; simpl in Hrun; try discriminate.
    apply (IH (fun a0 x x' Hin => Hstep a0 x x' (or_intror Hin)) s1 s'); auto.
    eapply Hstep; eauto.
Qed.

Section RuleRuns.
Import CostState CostCalculator.
Variables p e per cur : string.

(** The calculators after each rule of [rs], applied in order to the
    record of [(p, e, per)], as [executeRule] does rule after rule. *)
Fixpoint applyRules (c : t) (rs : list RuleEngine.Rule) : outcome (list t) :=
  match rs with
  | [] => Ok []
  | rule :: rest =>
      c' <- applyRule c rule p e per cur ;;
      tr <- applyRules c' rest ;;
      Ok (c' :: tr)
  end.

Definition countType (rs : list RuleEngine.Rule) (ty : string) : nat :=
  length (filter (fun r => assigns r ty) rs).

(** At most one rule of each type that assigns its field. *)
Definition assignOnce (rs : list RuleEngine.Rule) : Prop :=
  (countType rs "labor-burden" <= 1)%nat /\
  (countType rs "percentage-of-base" <= 1)%nat /\
  (countType rs "per-unit-allocation" <= 1)%nat.

(** The record is balanced, and a field still to be assigned by a rule
    of [rs] is zero. *)
Definition runInv (cost : Cost) (rs : list RuleEngine.Rule) : Prop :=
  balanced cost /\ assignOnce rs /\
  (countType rs "labor-burden" = 0%nat \/ laborBurden cost == 0) /\
  (countType rs "percentage-of-base" = 0%nat \/ factoryOverhead cost == 0) /\
  (countType rs "per-unit-allocation" = 0%nat \/ rndAmortization cost == 0).

Lemma countType_cons r rs ty :
  countType (r :: rs) ty = ((if assigns r ty then 1 else 0) + countType rs ty)%nat.
Proof. unfold countType. simpl. destruct (assigns r ty); reflexivity. Qed.

Lemma runInv_step cost cost' rule rest :
  runInv cost (rule :: rest) ->
  (balanced cost -> assignsFresh rule cost -> balanced cost') ->
  sameAssigned rule cost cost' ->
  runInv cost' rest.
Proof.
  intros (Hb & (O1 & O2 & O3) & Z1 & Z2 & Z3) Hbal (S1 & S2 & S3).
  rewrite !countType_cons in *.
  assert (Hfresh : assignsFresh rule cost).
  { unfold assignsFresh. splits; intros E; rewrite E in *.
    - destruct Z1; [lia | auto].
    - destruct Z2; [lia | auto].
    - destruct Z3; [lia | auto]. }
  unfold runInv, assignOnce. splits; auto; try lia.
  - destruct (assigns rule "labor-burden"); [left; lia|].
    rewrite (S1 eq_refl). destruct Z1; [left; lia | auto].
  - destruct (assigns rule "percentage-of-base"); [left; lia|].
    rewrite (S2 eq_refl). destruct Z2; [left; lia | auto].
  - destruct (assigns rule "per-unit-allocation"); [left; lia|].
    rewrite (S3 eq_refl). destruct Z3; [left; lia | auto].
Qed.

Lemma applyRules_balanced rs : forall c cost tr,
  getCost (costState c) p e per = Some cost ->
  runInv cost rs ->
  applyRules c rs = Ok tr ->
  Forall (fun c' => exists cost',
            getCost (costState c') p e per = Some cost' /\ balanced cost') tr.
Proof.
  induction rs as [|rule rest IH]; intros c cost tr Hget Hinv; simpl.
  - intros [= <-]. constructor.
  - destruct (applyRule c rule p e per cur) as [c'| |] eqn:E; simpl; try discriminate.
    destruct (applyRules c' rest) as [tr'| |] eqn:E'; simpl; try discriminate.
    intros [= <-].
    destruct (applyRule_stored _ _ _ _ _ _ _ _ Hget E) as (cost' & Hget' & Hbal & Hsame).
    pose proof (runInv_step _ _ _ _ Hinv Hbal Hsame) as Hinv'.
    constructor; [exists cost'; split; [auto | apply Hinv']|].
    eapply IH; eauto.
Qed.

Lemma runInv_base acc k rs :
  assignOnce rs -> runInv (withKey (baseBreakdown acc) k) rs.
Proof.
  intros H. unfold runInv. splits; auto.
  - apply balanced_withKey, baseBreakdown_balanced.
  - right. simpl. reflexivity.
  - right. simpl. reflexivity.
  - right. simpl. reflexivity.
Qed.
End RuleRuns.

Section TransferInvariant.
Import CostState CostCalculator.

Lemma transferBreakdown_balanced sc best path src :
  balanced sc -> interCompanyMarkup sc == 0 -> customsDuties sc == 0 ->
  balanced (transferBreakdown sc best path src).
Proof.
  unfold balanced, itemizedSum. simpl. intros H H1 H2.
  rewrite H1, H2 in H. rewrite H. ring.
Qed.

(** The chosen source is a manufacturing entity with a stored cost. *)
Definition bestFrom (c : t) (p per : string) (best : Best) : Prop :=
  match best with
  | None => True
  | Some (_, _, src) =>
      (exists m, In m (EntityManager.getManufacturingEntities (entityManager c))
                 /\ EntityManager.id m = src) /\
      exists sc, getCost (costState c) p src per = Some sc
  end.

Lemma selectBestPath_from c p dest per best :
  selectBestPath c p dest per = Ok best -> bestFrom c p per best.
Proof.
  unfold selectBestPath.
  apply (forEachM_inv (bestFrom c p per)); [|exact I].
  intros m b b' Hm Hb. unfold trySource.
  destruct (EntityManager.findTransferPaths _ _ _) as [paths|]; simpl; [|discriminate].
  apply (forEachM_inv (bestFrom c p per)); [|exact Hb].
  intros path s s' _ Hs. unfold tryPath.
  destruct (getCost (costState c) p (EntityManager.id m) per) as [sc|] eqn:Eg;
    [|now intros [= <-]].
  destruct (walkPath c (EntityManager.id m) (totalCost sc) path) as [w| |];
    simpl; try discriminate.
  destruct (betterThan (transferCost w) s); intros [= <-]; auto.
  simpl. split; eauto.
Qed.

(** [calculateTransferPrice] either leaves the calculator as it is or
    stores the breakdown derived from a manufacturing source. *)
Lemma calculateTransferPrice_stored c p dest per cur c' :
  calculateTransferPrice c p dest per cur = Ok c' ->
  c' = c \/
  exists m sc best path,
    In m (EntityManager.getManufacturingEntities (entityManager c)) /\
    getCost (costState c) p (EntityManager.id m) per = Some sc /\
    getCost (costState c') p dest per =
      Some (withKey (transferBreakdown sc best path (EntityManager.id m))
                    (getCostKey p dest per)).
Proof.
  unfold calculateTransferPrice.
  destruct (EntityManager.getEntity (entityManager c) dest) as [d|];
    [|intros [= <-]; now left].
  destruct (negb (String.eqb (EntityManager.type d) "distribution"));
    [intros [= <-]; now left|].
  destruct (selectBestPath c p dest per) as [best| |] eqn:E; simpl; try discriminate.
  apply selectBestPath_from in E.
  destruct best as [[[bc bp] src]|]; [|intros [= <-]; now left].
  destruct E as ((m & Hm & <-) & sc & Hsc). rewrite Hsc.
  intros [= <-]. right. exists m, sc, bc, bp. splits; auto.
  simpl. apply getCost_setCost.
Qed.
End TransferInvariant.

(** [arr.map(f)] for an [f] that may throw. *)
Fixpoint mapM {A B : Type} (f : A -> outcome B) (l : list A) : outcome (list B) :=
  match l with
  | [] => Ok []
  | a :: r => b <- f a ;; bs <- mapM f r ;; Ok (b :: bs)
  end.

Lemma mapM_total {A B : Type} (f : A -> outcome B) (l : list A) :
  (forall a, In a l -> exists b, f a = Ok b) ->
  exists bs, mapM f l = Ok bs /\
             forall b, In b bs <-> exists a, In a l /\ f a = Ok b.
Proof.
  induction l as [|a r IH]; intros H; simpl.
  - exists []. split; auto. intros b. split; [intros [] | intros (a & [] & _)].
  - destruct (H a (or_introl eq_refl)) as [b Hb]. rewrite Hb. simpl.
    destruct IH as (bs & Hbs & Hin); [intros; apply H; now right|].
    rewrite Hbs. simpl. exists (b :: bs). split; auto.
    intros y. simpl. rewrite Hin. split.
    + intros [<-|(a' & Ha' & Hf)]; [exists a; auto | exists a'; auto].
    + intros (a' & [<-|Ha'] & Hf); [left; congruence | right; eauto].
Qed.


Lemma Qltb_false x y : Qltb x y = false <-> y <= x.
Proof.
  unfold Qltb. rewrite negb_false_iff. apply Qle_bool_iff.
Qed.

Section TransferSelection.
Import CostState CostCalculator.
Variable c : t.
Variables p dest per : string.

Local Abbreviation mfgs := (EntityManager.getManufacturingEntities (entityManager c)).
Local Abbreviation tgraph := (EntityManager.transferGraph (entityManager c)).

(** A candidate: the final cost of a path, its hop costs and its
    source entity. *)
Definition Candidate : Type := (Q * list PathCost * string)%type.

Definition candCost (x : Candidate) : Q := fst (fst x).

Definition candidateOf (mfgId : string) (sc : Cost)
           (path : list (Graph.Step EntityManager.RouteMeta)) : outcome Candidate :=
  w <- walkPath c mfgId (totalCost sc) path ;;
  Ok (transferCost w, pathCosts w, mfgId).

(** The candidates of one manufacturing entity, in path order; none
    when the entity has no stored cost. *)
Definition candidatesFrom (m : EntityManager.Entity) : outcome (list Candidate) :=
  paths <- ofOption (EntityManager.findTransferPaths (entityManager c)
                       (EntityManager.id m) dest) ;;
  match getCost (costState c) p (EntityManager.id m) per with
  | None => Ok []
  | Some sc => mapM (candidateOf (EntityManager.id m) sc) paths
  end.

(** All candidates, in source order and then path order. *)
Definition candidates : outcome (list Candidate) :=
  css <- mapM candidatesFrom mfgs ;; Ok (concat css).

(** The update [if (transferCost < bestCost) ...]. *)
Definition pick (best : Best) (x : Candidate) : Best :=
  if betterThan (candCost x) best then Some x else best.


Lemma tryPath_fold mfgId sc paths : forall best,
  getCost (costState c) p mfgId per = Some sc ->
  forEachM (tryPath c p per mfgId) paths best =
  (cs <- mapM (candidateOf mfgId sc) paths ;; Ok (fold_left pick cs best)).
Proof.
  induction paths as [|q r IH]; intros best Hget; simpl; [reflexivity|].
  unfold tryPath at 1. rewrite Hget. unfold candidateOf at 1.
  destruct (walkPath c mfgId (totalCost sc) q) as [w| |]; simpl; auto.
  destruct (betterThan (transferCost w) best) eqn:E; simpl;
    rewrite IH by exact Hget;
    destruct (mapM (candidateOf mfgId sc) r); simpl; auto;
    do 2 f_equal; unfold pick, candCost; simpl fst; now rewrite E.
Qed.

Lemma tryPath_none mfgId paths best :
  getCost (costState c) p mfgId per = None ->
  forEachM (tryPath c p per mfgId) paths best = Ok best.
Proof.
  intros Hget. induction paths as [|q r IH]; simpl; [reflexivity|].
  unfold tryPath at 1. rewrite Hget. simpl. exact IH.
Qed.

Lemma trySource_fold m best :
  trySource c p dest per m best =
  (cs <- candidatesFrom m ;; Ok (fold_left pick cs best)).
Proof.
  unfold trySource, candidatesFrom.
  destruct (EntityManager.findTransferPaths _ _ _) as [paths|]; simpl; [|reflexivity].
  destruct (getCost (costState c) p (EntityManager.id m) per) as [sc|] eqn:E.
  - now apply tryPath_fold.
  - now apply tryPath_none.
Qed.

Lemma select_fold ms : forall best,
  forEachM (trySource c p dest per) ms best =
  (css <- mapM candidatesFrom ms ;; Ok (fold_left pick (concat css) best)).
Proof.
  induction ms as [|m r IH]; intros best; simpl; [reflexivity|].
  rewrite trySource_fold.
  destruct (candidatesFrom m) as [cs| |]; simpl; auto.
  rewrite IH. destruct (mapM candidatesFrom r); simpl; auto.
  now rewrite fold_left_app.
Qed.

(** The two nested loops compute the [pick]-fold of the candidates. *)
Lemma selectBestPath_candidates :
  selectBestPath c p dest per = (cs <- candidates ;; Ok (fold_left pick cs None)).
Proof.
  unfold selectBestPath, candidates. rewrite select_fold.
  destruct (mapM candidatesFrom mfgs); reflexivity.
Qed.


(** *** Walking an enumerated path never throws *)

Lemma walkStep_ok e acc :
  exists w, walkStep c (stepOf e) acc = Ok w.
Proof.
  unfold walkStep, stepOf. simpl.
  destruct (EntityManager.isCrossBorder (entityManager c) (prevNode acc) (Graph.node e))
    eqn:E; simpl; [|eauto].
  unfold EntityManager.isCrossBorder in E.
  destruct (EntityManager.getEntity (entityManager c) (prevNode acc)); [|discriminate].
  destruct (EntityManager.getEntity (entityManager c) (Graph.node e));
    [|discriminate].
  simpl. eauto.
Qed.

Lemma walkSteps_ok es : forall acc,
  exists w, forEachM (walkStep c) (map (@stepOf EntityManager.RouteMeta) es) acc = Ok w.
Proof.
  induction es as [|e r IH]; intros acc; simpl; [eauto|].
  destruct (walkStep_ok e acc) as [w Hw]. rewrite Hw. simpl. apply IH.
Qed.

Lemma walkPath_ok mfgId total start q :
  simplePath tgraph start dest q ->
  exists w, walkPath c mfgId total q = Ok w.
Proof.
  intros (es & -> & _). simpl. apply walkSteps_ok.
Qed.

(** [x] is the candidate of a manufacturing entity with a stored cost
    and of a simple path of at most ten elements to the destination. *)
Definition isCandidate (x : Candidate) : Prop :=
  exists m sc q w,
    In m mfgs /\
    getCost (costState c) p (EntityManager.id m) per = Some sc /\
    simplePath tgraph (EntityManager.id m) dest q /\
    (length q <= Graph.defaultMaxDepth)%nat /\
    walkPath c (EntityManager.id m) (totalCost sc) q = Ok w /\
    x = (transferCost w, pathCosts w, EntityManager.id m).

Lemma candidatesFrom_spec m :
  In m mfgs ->
  exists cs, candidatesFrom m = Ok cs /\
    forall x, In x cs <->
      exists sc q w,
        getCost (costState c) p (EntityManager.id m) per = Some sc /\
        simplePath tgraph (EntityManager.id m) dest q /\
        (length q <= Graph.defaultMaxDepth)%nat /\
        walkPath c (EntityManager.id m) (totalCost sc) q = Ok w /\
        x = (transferCost w, pathCosts w, EntityManager.id m).
Proof.
  intros Hm. unfold candidatesFrom, EntityManager.findTransferPaths.
  destruct (findAllPaths_spec tgraph dest Graph.defaultMaxDepth (EntityManager.id m))
    as (ps & Hps & Hin).
  rewrite Hps. simpl.
  destruct (getCost (costState c) p (EntityManager.id m) per) as [sc|] eqn:Eg.
  - destruct (mapM_total (candidateOf (EntityManager.id m) sc) ps) as (cs & Hcs & Hc).
    { intros q Hq. apply Hin in Hq as [Hq _].
      destruct (walkPath_ok (EntityManager.id m) (totalCost sc) _ _ Hq) as [w Hw].
      unfold candidateOf. rewrite Hw. simpl. eauto. }
    exists cs. split; auto. intros x. rewrite Hc. split.
    + intros (q & Hq & Hx). apply Hin in Hq as [Hq Hlen].
      unfold candidateOf in Hx.
      destruct (walkPath c (EntityManager.id m) (totalCost sc) q) as [w| |] eqn:Ew;
        simpl in Hx; try discriminate.
      injection Hx as <-. exists sc, q, w. splits; auto.
    + intros (sc' & q & w & Hsc & Hq & Hlen & Hw & ->).
      injection Hsc as <-. exists q. split; [apply Hin; auto|].
      unfold candidateOf. rewrite Hw. reflexivity.
  - exists []. split; auto. intros x. split; [intros []|].
    intros (sc & _ & _ & Hsc & _). discriminate.
Qed.

Lemma candidates_spec :
  exists cs, candidates = Ok cs /\ forall x, In x cs <-> isCandidate x.
Proof.
  unfold candidates.
  destruct (mapM_total candidatesFrom mfgs) as (css & Hcss & Hin).
  { intros m Hm. destruct (candidatesFrom_spec m Hm) as (cs & Hcs & _). eauto. }
  rewrite Hcss. simpl. exists (concat css). split; auto.
  intros x. rewrite in_concat. split.
  - intros (cs & Hcs & Hx). apply Hin in Hcs as (m & Hm & Hrun).
    destruct (candidatesFrom_spec m Hm) as (cs' & Hcs' & Hspec).
    rewrite Hrun in Hcs'. injection Hcs' as <-.
    apply Hspec in Hx as (sc & q & w & H1 & H2 & H3 & H4 & H5).
    exists m, sc, q, w. splits; auto.
  - intros (m & sc & q & w & Hm & H1 & H2 & H3 & H4 & H5).
    destruct (candidatesFrom_spec m Hm) as (cs & Hcs & Hspec).
    exists cs. split; [apply Hin; eauto|].
    apply Hspec. exists sc, q, w. splits; auto.
Qed.

(** *** The stored transfer price *)


(** With no enumerated path from a costed source, nothing changes. *)
Lemma calculateTransferPrice_no_path cur :
  (forall m sc q,
      In m mfgs ->
      getCost (costState c) p (EntityManager.id m) per = Some sc ->
      simplePath tgraph (EntityManager.id m) dest q ->
      (length q <= Graph.defaultMaxDepth)%nat -> False) ->
  calculateTransferPrice c p dest per cur = Ok c.
Proof.
  intros Hno. unfold calculateTransferPrice.
  destruct (EntityManager.getEntity (entityManager c) dest) as [d|]; [|reflexivity].
  destruct (String.eqb (EntityManager.type d) "distribution"); [|reflexivity].
  simpl. rewrite selectBestPath_candidates.
  destruct candidates_spec as (cs & Hcs & Hspec). rewrite Hcs. simpl.
  destruct cs as [|x r]; [reflexivity|].
  exfalso. destruct (proj1 (Hspec x) (or_introl eq_refl))
    as (m & sc & q & w & Hm & Hsc & Hq & Hlen & _).
  eapply Hno; eauto.
Qed.
End TransferSelection.

Lemma forEachM_not_OutOfFuel {A S : Type} (body : A -> S -> outcome S) (l : list A) :
  (forall a s, body a s <> OutOfFuel) -> forall s, forEachM body l s <> OutOfFuel.
Proof.
  intros H. induction l as [|a r IH]; intros s; simpl; [discriminate|].
  destruct (body a s) as [s'| |] eqn:E; simpl; [apply IH | discriminate |].
  exfalso. exact (H a s E).
Qed.

Section NoFuelNeeded.
Import CostState CostCalculator.

Lemma baseComponent_not_OutOfFuel c e per cur comp acc :
  baseComponent c e per cur comp acc <> OutOfFuel.
Proof.
  unfold baseComponent. destruct (isLabor comp).
  - destruct (getItemCost c _ e per) as [ic|]; [|discriminate].
    destruct (CurrencyConverter.convert _ _ _ _ _) eqn:E; simpl; try discriminate.
    exfalso. eapply convert_not_OutOfFuel; eauto.
  - destruct (getCost _ _ e per); [discriminate|].
    destruct (getItemCost c _ e per) as [ic|]; [|discriminate].
    destruct (CurrencyConverter.convert _ _ _ _ _) eqn:E; simpl; try discriminate.
    exfalso. eapply convert_not_OutOfFuel; eauto.
Qed.

Lemma calculateBaseCost_not_OutOfFuel c p e per cur :
  calculateBaseCost c p e per cur <> OutOfFuel.
Proof.
  unfold calculateBaseCost.
  destruct (BOMProcessor.getProduct (bomProcessor c) p) as [product|]; [|discriminate].
  destruct (BOMProcessor.components product) as [|c0 cs].
  - destruct (getItemCost c p e per) as [ic|]; simpl; [|discriminate].
    destruct (CurrencyConverter.convert _ _ _ _ _) eqn:E; simpl; try discriminate.
    exfalso. eapply convert_not_OutOfFuel; eauto.
  - destruct (forEachM _ (c0 :: cs) _) eqn:E; simpl; try discriminate.
    exfalso. revert E. apply forEachM_not_OutOfFuel.
    intros. apply baseComponent_not_OutOfFuel.
Qed.

Lemma ruleSwitch_not_OutOfFuel c rule p e per cur cost :
  ruleSwitch c rule p e per cur cost <> OutOfFuel.
Proof.
  unfold ruleSwitch. cbv zeta.
  repeat match goal with
         | |- (if ?b then _ else _) <> _ => destruct b
         | |- match ?x with Some _ => _ | None => _ end <> _ => destruct x
         | |- Ok _ <> _ => discriminate
         end.
  destruct (CurrencyConverter.convert _ _ _ _ _) eqn:E; simpl; try discriminate.
  exfalso. eapply convert_not_OutOfFuel; eauto.
Qed.

Lemma applyRule_not_OutOfFuel c rule p e per cur :
  applyRule c rule p e per cur <> OutOfFuel.
Proof.
  unfold applyRule. destruct (getCost _ p e per) as [cost|]; [|discriminate].
  destruct (ruleSwitch c rule p e per cur cost) eqn:E; simpl; try discriminate.
  exfalso. eapply ruleSwitch_not_OutOfFuel; eauto.
Qed.

Lemma royaltyIteration_not_OutOfFuel c p e per cur :
  royaltyIteration c p e per cur <> OutOfFuel.
Proof.
  unfold royaltyIteration.
  destruct (calculateBaseCost c p e per cur) as [[o c1]| |] eqn:E; simpl;
    try discriminate.
  - apply forEachM_not_OutOfFuel. intros rid s. unfold royaltyRuleStep.
    destruct (RuleEngine.getRule _ rid) as [rule|]; [|discriminate].
    destruct (isRoyaltyRule rule); [apply applyRule_not_OutOfFuel | discriminate].
  - exfalso. eapply calculateBaseCost_not_OutOfFuel; eauto.
Qed.
End NoFuelNeeded.

Section RoyaltyCycle.
Import CostState CostCalculator.
Variables p e per cur : string.
Variable maxIterations : nat.
Variable tolerance : Q.

(** The calculator after [k] turns of the loop body. *)
Fixpoint iterate (k : nat) (c : t) : outcome t :=
  match k with
  | O => Ok c
  | S k' => c1 <- royaltyIteration c p e per cur ;; iterate k' c1
  end.

(** The cost read before the last of [n] turns: [0] before any turn. *)
Definition previousCost (c : t) (n : nat) (prev : Q) : Prop :=
  (n = 0%nat /\ prev = 0) \/
  exists m cm, n = S m /\ iterate m c = Ok cm /\ prev = currentTotal cm p e per.

Lemma royaltyLoop_eq fuel s :
  royaltyLoop fuel p e per cur maxIterations tolerance s =
  if Qltb tolerance (Qabs (lsCurrentCost s - lsPrevCost s))
     && Nat.ltb (lsIterations s) maxIterations
  then
    match fuel with
    | O => OutOfFuel
    | S fuel' =>
        c' <- royaltyIteration (lsCalc s) p e per cur ;;
        royaltyLoop fuel' p e per cur maxIterations tolerance
          (mkLoopState c' (lsCurrentCost s) (currentTotal c' p e per)
                       (S (lsIterations s)))
    end
  else Ok s.
Proof. destruct fuel; reflexivity. Qed.

(** What the loop has done when it stops in the state [s'], having
    started in [s]. *)
Definition loopDone (s s' : LoopState) : Prop :=
  exists n,
    lsIterations s' = (lsIterations s + n)%nat /\
    ((lsIterations s <= maxIterations)%nat ->
     (lsIterations s' <= maxIterations)%nat) /\
    iterate n (lsCalc s) = Ok (lsCalc s') /\
    lsCurrentCost s' = currentTotal (lsCalc s') p e per /\
    (Qltb tolerance (Qabs (lsCurrentCost s' - lsPrevCost s'))
     && Nat.ltb (lsIterations s') maxIterations = false) /\
    ((n = 0%nat /\ s' = s) \/
     exists m cm, n = S m /\ iterate m (lsCalc s) = Ok cm /\
                  lsPrevCost s' = currentTotal cm p e per).

Definition loopThrew (s : LoopState) (msg : string) : Prop :=
  exists k ck,
    (lsIterations s + k < maxIterations)%nat /\
    iterate k (lsCalc s) = Ok ck /\
    royaltyIteration ck p e per cur = Throw msg.

(** The loop, from a state whose [currentCost] is the stored total. *)
Lemma royaltyLoop_spec fuel : forall s,
  (maxIterations <= lsIterations s + fuel)%nat ->
  lsCurrentCost s = currentTotal (lsCalc s) p e per ->
  match royaltyLoop fuel p e per cur maxIterations tolerance s with
  | Ok s' => loopDone s s'
  | Throw msg => loopThrew s msg
  | OutOfFuel => False
  end.
Proof.
  induction fuel as [|fuel IH]; intros s Hfuel Hcur; rewrite royaltyLoop_eq.
  - destruct (Qltb tolerance (Qabs (lsCurrentCost s - lsPrevCost s))
              && Nat.ltb (lsIterations s) maxIterations) eqn:E.
    + apply andb_true_iff in E as [_ E]. apply Nat.ltb_lt in E. lia.
    + exists 0%nat. splits; auto; try (now left).
  - destruct (Qltb tolerance (Qabs (lsCurrentCost s - lsPrevCost s))
              && Nat.ltb (lsIterations s) maxIterations) eqn:E.
    + assert (Hlt : (lsIterations s < maxIterations)%nat).
      { apply andb_true_iff in E as [_ E]. now apply Nat.ltb_lt in E. }
      destruct (royaltyIteration (lsCalc s) p e per cur) as [c1| |] eqn:Estep;
        cbn [bind].
      * specialize (IH (mkLoopState c1 (lsCurrentCost s) (currentTotal c1 p e per)
                                    (S (lsIterations s)))).
        cbn [lsIterations lsCalc lsCurrentCost lsPrevCost] in IH.
        specialize (IH ltac:(lia) eq_refl).
        destruct (royaltyLoop fuel p e per cur maxIterations tolerance _)
          as [s'| msg |].
        -- destruct IH as (n & Hn & Hle & Hit & Hc & Hexit & Hprev).
           cbn [lsIterations lsCalc lsCurrentCost lsPrevCost] in *.
           exists (S n). splits; auto; try lia.
           ++ cbn [iterate]. now rewrite Estep.
           ++ right. destruct Hprev as [[-> ->]|(m & cm & -> & Hm & Hp)].
              ** exists 0%nat, (lsCalc s). splits; auto.
              ** exists (S m), cm. splits; auto. cbn [iterate]. now rewrite Estep.
        -- destruct IH as (k & ck & Hk & Hit & Hthrow).
           cbn [lsIterations lsCalc lsCurrentCost lsPrevCost] in *.
           exists (S k), ck. splits; auto; try lia. cbn [iterate]. now rewrite Estep.
        -- exact IH.
      * exists 0%nat, (lsCalc s). splits; auto. lia.
      * eapply royaltyIteration_not_OutOfFuel; eauto.
    + exists 0%nat. splits; auto; try (now left).
Qed.

(** [resolveRoyaltyCycle] always finishes.  When it returns, it has run
    at most [maxIterations] turns, [converged] tells whether the last
    change of the cost is within the tolerance, and a run that stops
    short of the cap has converged.  It throws only what a turn of the
    loop body throws. *)
Lemma resolveRoyaltyCycle_spec (c : t) :
  resolveRoyaltyCycle c p e per cur maxIterations tolerance <> OutOfFuel /\
  (forall r c',
      resolveRoyaltyCycle c p e per cur maxIterations tolerance = Ok (r, c') ->
      (iterations r <= maxIterations)%nat /\
      iterate (iterations r) c = Ok c' /\
      finalCost r = currentTotal c' p e per /\
      (exists prev,
          previousCost c (iterations r) prev /\
          (converged r = true <-> Qabs (finalCost r - prev) <= tolerance)) /\
      ((iterations r < maxIterations)%nat -> converged r = true)) /\
  (forall msg,
      resolveRoyaltyCycle c p e per cur maxIterations tolerance = Throw msg ->
      exists k ck,
        (k < maxIterations)%nat /\ iterate k c = Ok ck /\
        royaltyIteration ck p e per cur = Throw msg).
Proof.
  unfold resolveRoyaltyCycle.
  pose proof (royaltyLoop_spec maxIterations
                (mkLoopState c 0 (currentTotal c p e per) 0)) as H.
  cbn [lsIterations lsCalc lsCurrentCost lsPrevCost] in H.
  specialize (H ltac:(lia) eq_refl).
  destruct (royaltyLoop maxIterations p e per cur maxIterations tolerance _)
    as [s'| msg |]; cbn [bind].
  - destruct H as (n & Hn & Hle & Hit & Hc & Hexit & Hprev).
    cbn [lsIterations lsCalc lsCurrentCost lsPrevCost] in *.
    split; [discriminate|]. split; [|discriminate].
    intros r c' [= <- <-]. cbn [iterations finalCost converged]. rewrite Hn.
    splits; auto.
    + lia.
    + exists (lsPrevCost s'). split.
      * destruct Hprev as [[-> ->]|(m & cm & -> & Hm & Hp)].
        -- left. auto.
        -- right. exists m, cm. auto.
      * apply Qle_bool_iff.
    + intros Hlt. apply andb_false_iff in Hexit as [Hexit|Hexit].
      * apply Qltb_false in Hexit. now apply Qle_bool_iff.
      * apply Nat.ltb_ge in Hexit. lia.
  - split; [discriminate|]. split; [discriminate|].
    intros msg' [= <-]. destruct H as (k & ck & Hk & Hit & Hthrow).
    exists k, ck. auto.
  - destruct H.
Qed.
End RoyaltyCycle.

(** ** Records that a transfer price can start from *)

Section SourceRecords.
Import CostState CostCalculator.

(** No rule writes [interCompanyMarkup] or [customsDuties]. *)
Definition sameTransferFields (cost cost' : Cost) : Prop :=
  interCompanyMarkup cost' = interCompanyMarkup cost /\
  customsDuties cost' = customsDuties cost.

Lemma fold_routes_transferFields (f : RuleAcc -> EntityManager.Route -> RuleAcc) :
  (forall acc route, sameTransferFields (raCost acc) (raCost (f acc route))) ->
  forall routes acc, sameTransferFields (raCost acc) (raCost (fold_left f routes acc)).
Proof.
  intros Hf. induction routes as [|r rs IH]; intros acc; simpl; [split; reflexivity|].
  destruct (Hf acc r) as [H1 H2]. destruct (IH (f acc r)) as [I1 I2].
  split; congruence.
Qed.

Lemma royaltyRoute_transferFields p e rid acc route :
  sameTransferFields (raCost acc) (raCost (royaltyRoute p e rid acc route)).
Proof.
  unfold royaltyRoute. destruct (String.eqb _ _); split; reflexivity.
Qed.

Lemma mgmtRoute_transferFields p e rid acc route :
  sameTransferFields (raCost acc) (raCost (mgmtRoute p e rid acc route)).
Proof.
  unfold mgmtRoute. destruct (String.eqb _ _); split; reflexivity.
Qed.

Lemma ruleSwitch_transferFields c rule p e per cur cost acc :
  ruleSwitch c rule p e per cur cost = Ok acc ->
  sameTransferFields cost (raCost acc).
Proof.
  unfold ruleSwitch. cbv zeta.
  repeat match goal with
         | |- (if ?b then _ else _) = _ -> _ => destruct b
         | |- match ?x with Some _ => _ | None => _ end = _ -> _ => destruct x
         | |- bind ?x _ = _ -> _ => destruct x; simpl
         end;
    try discriminate;
    try (intros [= <-]; split; reflexivity).
  - intros [= <-].
    apply (fold_routes_transferFields (royaltyRoute p e (RuleEngine.id rule))
             (royaltyRoute_transferFields p e (RuleEngine.id rule))
             (routesFor c e "royalty") (mkRuleAcc cost 0 (auditTrail c))).
  - intros [= <-].
    apply (fold_routes_transferFields (mgmtRoute p e (RuleEngine.id rule))
             (mgmtRoute_transferFields p e (RuleEngine.id rule))
             (routesFor c e "mgmt-fee") (mkRuleAcc cost 0 (auditTrail c))).
Qed.

(** A record that [calculateTransferPrice] can copy: balanced, with no
    markup and no duties yet. *)
Definition sourceReady (cost : Cost) : Prop :=
  balanced cost /\ interCompanyMarkup cost == 0 /\ customsDuties cost == 0.

Lemma applyRule_transferFields c rule p e per cur c' cost :
  getCost (costState c) p e per = Some cost ->
  applyRule c rule p e per cur = Ok c' ->
  exists cost',
    getCost (costState c') p e per = Some cost' /\ sameTransferFields cost cost'.
Proof.
  intros Hget. unfold applyRule. rewrite Hget.
  destruct (ruleSwitch c rule p e per cur cost) as [acc| |] eqn:E; simpl;
    try discriminate.
  intros [= <-]. simpl. rewrite getCost_setCost. eexists. split; [reflexivity|].
  apply ruleSwitch_transferFields in E. exact E.
Qed.

Lemma applyRules_sourceReady p e per cur rs : forall c cost tr,
  getCost (costState c) p e per = Some cost ->
  runInv cost rs -> interCompanyMarkup cost == 0 -> customsDuties cost == 0 ->
  applyRules p e per cur c rs = Ok tr ->
  Forall (fun c' => exists cost',
            getCost (costState c') p e per = Some cost' /\ sourceReady cost') tr.
Proof.
  induction rs as [|rule rest IH]; intros c cost tr Hget Hinv Hm Hd; simpl.
  - intros [= <-]. constructor.
  - destruct (applyRule c rule p e per cur) as [c'| |] eqn:E; simpl; try discriminate.
    destruct (applyRules p e per cur c' rest) as [tr'| |] eqn:E'; simpl;
      try discriminate.
    intros [= <-].
    destruct (applyRule_stored _ _ _ _ _ _ _ _ Hget E) as (cost' & Hget' & Hbal & Hsame).
    destruct (applyRule_transferFields _ _ _ _ _ _ _ _ Hget E) as (cost2 & Hget2 & H1 & H2).
    rewrite Hget' in Hget2. injection Hget2 as <-.
    pose proof (runInv_step _ _ _ _ Hinv Hbal Hsame) as Hinv'.
    assert (Hm' : interCompanyMarkup cost' == 0) by (rewrite H1; exact Hm).
    assert (Hd' : customsDuties cost' == 0) by (rewrite H2; exact Hd).
    constructor.
    + exists cost'. split; auto. split; [apply Hinv' | auto].
    + eapply IH; eauto.
Qed.
End SourceRecords.

(* ================================================================== *)
(** * Part III: the claims *)
(* ================================================================== *)

(** ** Graph *)

Lemma isCycle_nonempty {M : Type} (g : Graph.t M) (l : list string) :
  isCycle g l -> l <> [].
Proof. intros (x & mid & -> & _). discriminate. Qed.

Lemma acyclic_of_detectCycles {M : Type} (g : Graph.t M) :
  wf g -> Graph.detectCycles g = Some [] -> acyclic g.
Proof.
  intros Hwf Hrun. destruct (detectCycles_spec g Hwf) as (cs & Hcs & _ & Hnil).
  rewrite Hrun in Hcs. injection Hcs as <-. now apply Hnil.
Qed.

(** The graphs of the unit tests. *)
Definition diamondGraph : Graph.t unit :=
  Graph.addEdge
    (Graph.addEdge (Graph.addEdge (Graph.addEdge Graph.empty "A" "B" tt) "A" "C" tt)
                   "B" "D" tt)
    "C" "D" tt.

Definition triangleGraph : Graph.t unit :=
  Graph.addEdge (Graph.addEdge (Graph.addEdge Graph.empty "A" "B" tt) "B" "C" tt)
                "C" "A" tt.

Definition oneEdgeGraph : Graph.t unit := Graph.addEdge Graph.empty "A" "B" tt.

Lemma wf_diamondGraph : wf diamondGraph.
Proof. repeat apply wf_addEdge. apply wf_empty. Qed.

Lemma wf_triangleGraph : wf triangleGraph.
Proof. repeat apply wf_addEdge. apply wf_empty. Qed.

(** C3.  For every graph kept by the [Graph] class that contains no
    cycle, [topologicalSort] returns a list as long as the node list in
    which the source of every edge comes before its target. *)
Theorem C3_topologicalSort_acyclic {M : Type} (g : Graph.t M) :
  wf g -> acyclic g ->
  exists res,
    Graph.topologicalSort g = Ok res /\
    length res = length (Graph.getNodes g) /\
    forall u v, edge g u v -> precedes res u v.
Proof. intros Hwf Hac. now apply topologicalSort_acyclic. Qed.

Lemma C3_witness :
  exists res,
    Graph.topologicalSort diamondGraph = Ok res /\
    length res = length (Graph.getNodes diamondGraph) /\
    forall u v, edge diamondGraph u v -> precedes res u v.
Proof.
  apply (C3_topologicalSort_acyclic diamondGraph).
  - exact wf_diamondGraph.
  - apply acyclic_of_detectCycles; [exact wf_diamondGraph | vm_compute; reflexivity].
Defined.

(** C4.  For every graph kept by the [Graph] class that contains a
    cycle, [detectCycles] returns at least one cycle, each returned cycle
    is a non-empty closed walk of the graph, and [topologicalSort]
    throws. *)
Theorem C4_cycle_reported {M : Type} (g : Graph.t M) :
  wf g -> hasCycle g ->
  (exists cs,
      Graph.detectCycles g = Some cs /\ cs <> [] /\
      forall c, In c cs -> c <> [] /\ isCycle g c) /\
  Graph.topologicalSort g = Throw Graph.cycleMessage.
Proof.
  intros Hwf Hcyc. split.
  - destruct (detectCycles_cyclic g Hwf Hcyc) as (cs & Hrun & Hne & Hfa).
    exists cs. splits; auto. intros c Hc.
    rewrite Forall_forall in Hfa. specialize (Hfa c Hc).
    split; [eapply isCycle_nonempty; eauto | exact Hfa].
  - now apply topologicalSort_cyclic.
Qed.

Lemma hasCycle_triangleGraph : hasCycle triangleGraph.
Proof.
  exists "A". apply reach_cons with (v := "B").
  { exists (Graph.mkEdge "B" tt). split; [vm_compute; auto | reflexivity]. }
  apply reach_cons with (v := "C").
  { exists (Graph.mkEdge "C" tt). split; [vm_compute; auto | reflexivity]. }
  apply reach_step.
  exists (Graph.mkEdge "A" tt). split; [vm_compute; auto | reflexivity].
Qed.

Lemma C4_witness :
  (exists cs,
      Graph.detectCycles triangleGraph = Some cs /\ cs <> [] /\
      forall c, In c cs -> c <> [] /\ isCycle triangleGraph c) /\
  Graph.topologicalSort triangleGraph = Throw Graph.cycleMessage.
Proof.
  apply (C4_cycle_reported triangleGraph).
  - exact wf_triangleGraph.
  - exact hasCycle_triangleGraph.
Defined.

Lemma simplePath_length {M : Type} (g : Graph.t M) start target p :
  simplePath g start target p -> length p = S (hops p).
Proof. intros (es & -> & _). unfold hops. simpl. lia. Qed.

(** C5, as amended.  [findAllPaths] returns exactly the simple paths from
    [start] to [end] that have fewer than [maxDepth] hops: the bound
    counts the elements of the path, the start node included. *)
Theorem C5_findAllPaths_bound {M : Type} (g : Graph.t M)
        (start target : string) (maxDepth : nat) :
  exists ps,
    Graph.findAllPaths g start target maxDepth = Some ps /\
    forall p, In p ps <->
              simplePath g start target p /\ (hops p + 1 <= maxDepth)%nat.
Proof.
  destruct (findAllPaths_spec g target maxDepth start) as (ps & Hrun & Hin).
  exists ps. split; auto. intros p. rewrite Hin. split.
  - intros [Hp Hlen]. split; auto. rewrite (simplePath_length _ _ _ _ Hp) in Hlen. lia.
  - intros [Hp Hlen]. split; auto. rewrite (simplePath_length _ _ _ _ Hp). lia.
Qed.

(** The one-hop path from ["A"] to ["B"]. *)
Definition oneHopPath : list (Graph.Step unit) :=
  [Graph.mkStep "A" None; Graph.mkStep "B" (Some (Graph.mkEdge "B" tt))].

(** C5 as stated fails: a simple path of one hop is not returned for
    [maxDepth = 1]. *)
Lemma C5_counterexample :
  simplePath oneEdgeGraph "A" "B" oneHopPath /\
  (hops oneHopPath <= 1)%nat /\
  Graph.findAllPaths oneEdgeGraph "A" "B" 1 = Some [].
Proof.
  splits; [|vm_compute; lia | vm_compute; reflexivity].
  exists [Graph.mkEdge "B" tt]. splits; try reflexivity.
  - simpl. split; [vm_compute; auto | exact I].
  - simpl. repeat constructor; simpl; intuition discriminate.
Qed.

(** ** CostState *)

(** C7.  After [addDependency(A, B)] and [addDependency(B, C)] on a new
    state, [markDirty(A)] leaves exactly [A], [B] and [C] dirty; draining
    returns these keys and empties the set, so that a second drain
    returns nothing. *)
Theorem C7_markDirty_chain (A B C : string) (fuel : nat) :
  A <> B -> B <> C -> A <> C -> (3 <= fuel)%nat ->
  exists st',
    CostState.markDirty fuel (chainState A B C) A = Some st' /\
    fst (CostState.drainDirty st') = [A; B; C] /\
    fst (CostState.drainDirty (snd (CostState.drainDirty st'))) = [].
Proof.
  intros HAB HBC HAC Hf.
  destruct (markDirty_chain A B C HAB HBC HAC fuel Hf) as (st' & Hrun & Hd & _).
  exists st'. splits; auto.
Qed.

Lemma C7_witness :
  exists st',
    CostState.markDirty 3 (chainState "A" "B" "C") "A" = Some st' /\
    fst (CostState.drainDirty st') = ["A"; "B"; "C"] /\
    fst (CostState.drainDirty (snd (CostState.drainDirty st'))) = [].
Proof.
  apply (C7_markDirty_chain "A" "B" "C" 3); [discriminate | discriminate | discriminate | lia].
Defined.

(** ** CurrencyConverter *)

(** C10.  Converting an amount into its own currency returns the amount,
    whatever the rate table holds; with an empty table a conversion
    between two different currencies throws. *)
Theorem C10_convert_same_currency :
  (forall (c : CurrencyConverter.t) (amount : Q) (cur period : string),
      CurrencyConverter.convert c amount cur cur period = Ok amount) /\
  (forall (amount : Q) (fromCurrency toCurrency period : string),
      fromCurrency <> toCurrency ->
      CurrencyConverter.convert (CurrencyConverter.mk []) amount
                                fromCurrency toCurrency period
      = Throw (CurrencyConverter.noRate period)).
Proof.
  split.
  - intros. apply convert_same.
  - intros. now apply convert_empty_table.
Qed.

(** ** BOMProcessor *)

(** A bill of materials with one assembly made of a raw material and of
    labour that has no entry of its own. *)
Definition smallBom : list BOMProcessor.BomItem :=
  [BOMProcessor.mkBomItem "WIDGET"
     [BOMProcessor.mkComponent "STEEL" 2 (Some (1 # 100)) None;
      BOMProcessor.mkComponent "LABOR" 1 None (Some "hours")];
   BOMProcessor.mkBomItem "STEEL" []].

Definition smallProcessor : BOMProcessor.t :=
  Eval vm_compute in
    match BOMProcessor.new smallBom with
    | Ok p => p
    | _ => BOMProcessor.mk [] [] []
    end.

(** C6, as amended.  On a processor that the constructor accepted,
    whatever its cache holds, two calls of [explodeBOM] on the same id
    return the same result and the second one needs no recursive call;
    the second call is a cache hit when the id is a product of the BOM
    index, and rebuilds the uncached leaf record when it is not. *)
Theorem C6_explodeBOM_idempotent (bill : list BOMProcessor.BomItem)
        (p0 : BOMProcessor.t) (cache : JsMap.t BOMProcessor.Exploded)
        (pid : string) :
  BOMProcessor.new bill = Ok p0 ->
  let p := BOMProcessor.mk (BOMProcessor.bom p0) (BOMProcessor.bomGraph p0) cache in
  exists r p2,
    BOMProcessor.explodeBOM p pid = Ok (r, p2) /\
    BOMProcessor.explodeBOM p2 pid = Ok (r, p2) /\
    BOMProcessor.explodeBOM_fuel 0 (BOMProcessor.bom p2)
        (BOMProcessor.explosionCache p2) pid 0 JsSet.empty
      = Ok (r, BOMProcessor.explosionCache p2) /\
    (In pid (BOMProcessor.getAllProducts p) ->
     JsMap.get (BOMProcessor.explosionCache p2) pid = Some r) /\
    (~ In pid (BOMProcessor.getAllProducts p) -> JsMap.get cache pid = None ->
     r = leaf pid 0 /\ BOMProcessor.explosionCache p2 = cache).
Proof.
  intros Hnew p. destruct (new_acyclic bill p0 Hnew) as (_ & _ & _ & Hac).
  apply (explodeBOM_twice p pid). exact Hac.
Qed.

Lemma C6_witness :
  let p := BOMProcessor.mk (BOMProcessor.bom smallProcessor)
                           (BOMProcessor.bomGraph smallProcessor) JsMap.empty in
  exists r p2,
    BOMProcessor.explodeBOM p "WIDGET" = Ok (r, p2) /\
    BOMProcessor.explodeBOM p2 "WIDGET" = Ok (r, p2) /\
    BOMProcessor.explodeBOM_fuel 0 (BOMProcessor.bom p2)
        (BOMProcessor.explosionCache p2) "WIDGET" 0 JsSet.empty
      = Ok (r, BOMProcessor.explosionCache p2) /\
    (In "WIDGET" (BOMProcessor.getAllProducts p) ->
     JsMap.get (BOMProcessor.explosionCache p2) "WIDGET" = Some r) /\
    (~ In "WIDGET" (BOMProcessor.getAllProducts p) -> JsMap.get (JsMap.empty (V:=BOMProcessor.Exploded)) "WIDGET" = None ->
     r = leaf "WIDGET" 0 /\ BOMProcessor.explosionCache p2 = JsMap.empty).
Proof.
  apply (C6_explodeBOM_idempotent smallBom smallProcessor JsMap.empty "WIDGET").
  vm_compute. reflexivity.
Defined.

(** C6 as stated fails: ["LABOR"] is not a product of the index, its
    leaf record is not cached, and the cache still has no entry for it
    when the second call starts. *)
Lemma C6_counterexample :
  (p <- BOMProcessor.new smallBom ;;
   '(r, p') <- BOMProcessor.explodeBOM p "LABOR" ;;
   Ok (r, JsMap.get (BOMProcessor.explosionCache p') "LABOR"))
  = Ok (leaf "LABOR" 0, None).
Proof. vm_compute. reflexivity. Qed.

(** ** CostCalculator *)

Section CostClaims.
Import CostState CostCalculator.

(** *** Example data *)

(** One product assembled with one hour of labour. *)
Definition oneProductBom : list BOMProcessor.BomItem :=
  [BOMProcessor.mkBomItem "P" [BOMProcessor.mkComponent "L" 1 None (Some "hours")]].

Definition laborAt (entityId currency : string) : list PeriodCostEntry :=
  [mkPeriodCostEntry "L" entityId [("2024-Q4", mkItemCost 10 currency)]].

Definition burdenRule (ruleId : string) (deps : list string) : RuleEngine.Rule :=
  RuleEngine.mkRule ruleId "labor-burden" deps (1 # 2) [] 0 "" None "".

Definition royaltyRule (ruleId : string) (deps : list string) : RuleEngine.Rule :=
  RuleEngine.mkRule ruleId "transfer-price" deps 0 [] 0 "" None "royalty".

(** A plant in China that pays a royalty and sells to a distributor in
    the United States. *)
Definition plantConfig : Config :=
  mkConfig oneProductBom []
    [EntityManager.mkEntity "E" "manufacturing" "CN" "USD";
     EntityManager.mkEntity "IP" "ip_holder" "IE" "USD";
     EntityManager.mkEntity "D" "distribution" "US" "USD"]
    [EntityManager.mkRoute "E" "D" ["finished-good"] "cost-plus" (1 # 10);
     EntityManager.mkRoute "IP" "E" ["royalty"] "revenue-percent" (1 # 25)]
    [burdenRule "R1" []; royaltyRule "R2" ["R1"]]
    (laborAt "E" "USD") [] [].

(** The same plant with two labour-burden rules. *)
Definition twoBurdenConfig : Config :=
  mkConfig oneProductBom []
    [EntityManager.mkEntity "E" "manufacturing" "CN" "USD"]
    []
    [burdenRule "R1" []; burdenRule "R2" ["R1"]]
    (laborAt "E" "USD") [] [].

(** The calculator built from a configuration. *)
Definition built (config : Config) (dflt : t) : t :=
  match CostCalculator.new config with
  | Ok c => c
  | _ => dflt
  end.

Definition noCalculator : t :=
  mk [] CostState.new (BOMProcessor.mk [] [] []) (CurrencyConverter.mk [])
     (EntityManager.mk [] []) (RuleEngine.mk [] [] []) [] [] [] [] [].

Definition plant : t := Eval vm_compute in built plantConfig noCalculator.

Definition twoBurdenPlant : t := Eval vm_compute in built twoBurdenConfig noCalculator.

Lemma new_plant : CostCalculator.new plantConfig = Ok plant.
Proof. vm_compute. reflexivity. Qed.

Lemma new_twoBurdenPlant : CostCalculator.new twoBurdenConfig = Ok twoBurdenPlant.
Proof. vm_compute. reflexivity. Qed.

Definition plantRules : list RuleEngine.Rule :=
  [burdenRule "R1" []; royaltyRule "R2" ["R1"]].

(** The rules of [twoBurdenPlant], run as [calculate] runs them: the
    base cost of the product, then [executeRule] for every rule of the
    execution order. *)
Definition twoBurdenRecord : outcome (option Cost) :=
  '(_, c1) <- calculateBaseCost twoBurdenPlant "P" "E" "2024-Q4" "USD" ;;
  c2 <- forEachM (fun ruleId c => executeRule c ruleId ["P"] "2024-Q4" "USD")
                 (RuleEngine.getExecutionOrder (ruleEngine c1)) c1 ;;
  Ok (getCost (costState c2) "P" "E" "2024-Q4").

(** C1.  The code breaks the claim: the [labor-burden] branch of
    [applyRule] assigns [laborBurden] and adds the burden to
    [totalCost].  With two labour-burden rules in the execution order
    (each half of a labour cost of 10) the second burden replaces the
    first in [laborBurden] and is added to [totalCost] again: after
    the rules have run, [totalCost] is 20 and the itemized fields sum
    to 15. *)
Theorem C1_totalCost_exceeds_itemized_sum :
  CostCalculator.new twoBurdenConfig = Ok twoBurdenPlant /\
  map (RuleEngine.getRule (ruleEngine twoBurdenPlant))
      (RuleEngine.getExecutionOrder (ruleEngine twoBurdenPlant))
  = [Some (burdenRule "R1" []); Some (burdenRule "R2" ["R1"])] /\
  exists cost,
    twoBurdenRecord = Ok (Some cost) /\
    directLabor cost == 10 /\ laborBurden cost == 5 /\
    totalCost cost == 20 /\ itemizedSum cost == 15 /\ ~ balanced cost.
Proof.
  split; [vm_compute; reflexivity|].
  split; [vm_compute; reflexivity|].
  eexists. split; [vm_compute; reflexivity|].
  splits; try (vm_compute; reflexivity).
  unfold balanced. intros H. vm_compute in H. discriminate.
Qed.

(** *** Transfer prices *)


(** A plant with a direct route at a markup of 100% and a route over a
    warehouse at twice 10%. *)
Definition twoRouteConfig : Config :=
  mkConfig oneProductBom []
    [EntityManager.mkEntity "A" "manufacturing" "US" "USD";
     EntityManager.mkEntity "B" "warehouse" "US" "USD";
     EntityManager.mkEntity "D" "distribution" "US" "USD"]
    [EntityManager.mkRoute "A" "D" ["finished-good"] "cost-plus" 1;
     EntityManager.mkRoute "A" "B" ["finished-good"] "cost-plus" (1 # 10);
     EntityManager.mkRoute "B" "D" ["finished-good"] "cost-plus" (1 # 10)]
    [] (laborAt "A" "USD") [] [].

(** The calculator of a configuration after the base cost of ["P"] at
    an entity, in a target currency. *)
Definition costed (config : Config) (entityId targetCurrency : string)
  : outcome t :=
  c0 <- CostCalculator.new config ;;
  '(_, c1) <- calculateBaseCost c0 "P" entityId "2024-Q4" targetCurrency ;;
  Ok c1.

Definition twoRoute : t :=
  Eval vm_compute in
    match costed twoRouteConfig "A" "USD" with Ok c => c | _ => noCalculator end.

Lemma costed_twoRoute : costed twoRouteConfig "A" "USD" = Ok twoRoute.
Proof. vm_compute. reflexivity. Qed.



(** The direct route is found first and costs 20; the route over the
    warehouse costs 12.1 and is the one stored. *)
Lemma twoRoute_multi_hop :
  exists cs c' stored,
    candidates twoRoute "P" "D" "2024-Q4" = Ok cs /\
    map (fun x => Qred (candCost x)) cs = [20; 12.1] /\
    calculateTransferPrice twoRoute "P" "D" "2024-Q4" "USD" = Ok c' /\
    getCost (costState c') "P" "D" "2024-Q4" = Some stored /\
    totalCost stored == 12.1 /\
    option_map (map pcEntity) (transferPath stored) = Some ["A"; "B"; "D"].
Proof.
  eexists _, _, _. splits; vm_compute; reflexivity.
Qed.

(** A plant with a free route of ten hops to the distributor and a
    direct route at a markup of 100%. *)
Definition hop (a b : string) : EntityManager.Route :=
  EntityManager.mkRoute a b ["finished-good"] "cost-plus" 0.

Definition warehouse (entityId : string) : EntityManager.Entity :=
  EntityManager.mkEntity entityId "warehouse" "US" "USD".

Definition chainConfig : Config :=
  mkConfig oneProductBom []
    [EntityManager.mkEntity "M" "manufacturing" "US" "USD";
     warehouse "N1"; warehouse "N2"; warehouse "N3"; warehouse "N4";
     warehouse "N5"; warehouse "N6"; warehouse "N7"; warehouse "N8";
     warehouse "N9";
     EntityManager.mkEntity "D" "distribution" "US" "USD"]
    [hop "M" "N1"; hop "N1" "N2"; hop "N2" "N3"; hop "N3" "N4"; hop "N4" "N5";
     hop "N5" "N6"; hop "N6" "N7"; hop "N7" "N8"; hop "N8" "N9"; hop "N9" "D";
     EntityManager.mkRoute "M" "D" ["finished-good"] "cost-plus" 1]
    [] (laborAt "M" "USD") [] [].

Definition chain : t :=
  Eval vm_compute in
    match costed chainConfig "M" "USD" with Ok c => c | _ => noCalculator end.

Lemma costed_chain : costed chainConfig "M" "USD" = Ok chain.
Proof. vm_compute. reflexivity. Qed.




(** *** No transfer path *)

(** C8, as amended.  When no manufacturing entity with a stored cost
    has a transfer path to the destination, [calculateTransferPrice]
    returns without an error and leaves the calculator as it is: the
    cost of the destination stays unset and the list of warnings is
    not extended. *)
Theorem C8_no_transfer_path (c : t) (p dest per cur : string) :
  (forall m sc q,
      In m (EntityManager.getManufacturingEntities (entityManager c)) ->
      getCost (costState c) p (EntityManager.id m) per = Some sc ->
      ~ simplePath (EntityManager.transferGraph (entityManager c))
                   (EntityManager.id m) dest q) ->
  exists c',
    calculateTransferPrice c p dest per cur = Ok c' /\
    c' = c /\
    warnings c' = warnings c /\
    (getCost (costState c) p dest per = None ->
     getCost (costState c') p dest per = None).
Proof.
  intros Hno. exists c. splits; auto.
  apply calculateTransferPrice_no_path.
  intros m sc q Hm Hsc Hq _. exact (Hno m sc q Hm Hsc Hq).
Qed.

(** The plant of [plantConfig] without its route to the distributor. *)
Definition noRouteConfig : Config :=
  mkConfig oneProductBom []
    [EntityManager.mkEntity "E" "manufacturing" "CN" "USD";
     EntityManager.mkEntity "D" "distribution" "US" "USD"]
    []
    [] (laborAt "E" "USD") [] [].

Definition noRoute : t :=
  Eval vm_compute in
    match costed noRouteConfig "E" "USD" with Ok c => c | _ => noCalculator end.

Lemma costed_noRoute : costed noRouteConfig "E" "USD" = Ok noRoute.
Proof. vm_compute. reflexivity. Qed.

Lemma C8_witness :
  exists c',
    calculateTransferPrice noRoute "P" "D" "2024-Q4" "USD" = Ok c' /\
    c' = noRoute /\
    warnings c' = warnings noRoute /\
    (getCost (costState noRoute) "P" "D" "2024-Q4" = None ->
     getCost (costState c') "P" "D" "2024-Q4" = None).
Proof.
  apply (C8_no_transfer_path noRoute "P" "D" "2024-Q4" "USD").
  intros m sc q Hm _ (es & _ & Hchain & _ & Hlast).
  vm_compute in Hm. destruct Hm as [<-|[]].
  destruct es as [|e r].
  - simpl in Hlast. discriminate.
  - destruct Hchain as [Hin _]. vm_compute in Hin. exact Hin.
Defined.

(** C8 as stated fails: the manufacturing entity has a stored cost,
    there is no transfer path, the destination stays unset, and the
    list of warnings, which [calculate] returns as [results.warnings],
    is still empty. *)
Lemma C8_counterexample :
  (exists sc, getCost (costState noRoute) "P" "E" "2024-Q4" = Some sc) /\
  EntityManager.findTransferPaths (entityManager noRoute) "E" "D" = Some [] /\
  exists c',
    calculateTransferPrice noRoute "P" "D" "2024-Q4" "USD" = Ok c' /\
    getCost (costState c') "P" "D" "2024-Q4" = None /\
    warnings c' = [].
Proof.
  splits; [eexists; vm_compute; reflexivity | vm_compute; reflexivity |].
  eexists. splits; vm_compute; reflexivity.
Qed.

(** No modelled method appends to the list of warnings. *)
Lemma warnings_unchanged :
  (forall config c, CostCalculator.new config = Ok c -> warnings c = []) /\
  (forall c p e per cur r c',
      calculateBaseCost c p e per cur = Ok (r, c') -> warnings c' = warnings c) /\
  (forall c rule p e per cur c',
      applyRule c rule p e per cur = Ok c' -> warnings c' = warnings c) /\
  (forall c p dest per cur c',
      calculateTransferPrice c p dest per cur = Ok c' -> warnings c' = warnings c).
Proof.
  splits.
  - intros config c. unfold CostCalculator.new.
    destruct (BOMProcessor.new _); simpl; try discriminate.
    destruct (RuleEngine.new _); simpl; try discriminate.
    now intros [= <-].
  - intros c p e per cur r c'. unfold calculateBaseCost.
    destruct (BOMProcessor.getProduct _ _); [|now intros [= _ <-]].
    match goal with |- bind ?X _ = _ -> _ => destruct X end; simpl; try discriminate.
    now intros [= _ <-].
  - intros c rule p e per cur c'. unfold applyRule.
    destruct (getCost _ _ _ _); [|now intros [= <-]].
    destruct (ruleSwitch _ _ _ _ _ _ _); simpl; try discriminate.
    now intros [= <-].
  - intros c p dest per cur c' H.
    destruct (calculateTransferPrice_stored _ _ _ _ _ _ H) as [->|_]; auto.
    revert H. unfold calculateTransferPrice.
    destruct (EntityManager.getEntity _ _); [|now intros [= <-]].
    destruct (negb _); [now intros [= <-]|].
    destruct (selectBestPath _ _ _ _) as [[[[bc bp] src]|]| |]; simpl;
      try discriminate; [|now intros [= <-]].
    destruct (getCost _ _ _ _); [|discriminate].
    now intros [= <-].
Qed.

(** *** resolveRoyaltyCycle *)

(** C9, as amended.  [resolveRoyaltyCycle] ends within [maxIterations]
    turns of its loop.  When it returns, it returns a record with
    [iterations <= maxIterations], [finalCost] the total read last, and
    [converged] true exactly when the last change of the cost is
    within the tolerance; a run that stops short of the cap has
    converged, and one that has not converged has used all its turns.
    It throws only what the recomputation of some turn throws, and
    returns whenever no turn throws. *)
Theorem C9_resolveRoyaltyCycle_result
        (c : t) (p e per cur : string) (maxIterations : nat) (tolerance : Q) :
  resolveRoyaltyCycle c p e per cur maxIterations tolerance <> OutOfFuel /\
  (forall r c',
      resolveRoyaltyCycle c p e per cur maxIterations tolerance = Ok (r, c') ->
      (iterations r <= maxIterations)%nat /\
      iterate p e per cur (iterations r) c = Ok c' /\
      finalCost r = currentTotal c' p e per /\
      (exists prev,
          previousCost p e per cur c (iterations r) prev /\
          (converged r = true <-> Qabs (finalCost r - prev) <= tolerance)) /\
      (converged r = false -> iterations r = maxIterations)) /\
  (forall msg,
      resolveRoyaltyCycle c p e per cur maxIterations tolerance = Throw msg ->
      exists k ck,
        (k < maxIterations)%nat /\ iterate p e per cur k c = Ok ck /\
        royaltyIteration ck p e per cur = Throw msg) /\
  ((forall k ck msg,
       (k < maxIterations)%nat -> iterate p e per cur k c = Ok ck ->
       royaltyIteration ck p e per cur <> Throw msg) ->
   exists r c',
     resolveRoyaltyCycle c p e per cur maxIterations tolerance = Ok (r, c')).
Proof.
  destruct (resolveRoyaltyCycle_spec p e per cur maxIterations tolerance c)
    as (Hfuel & Hok & Hthrow).
  splits; auto.
  - intros r c' Hrun. destruct (Hok r c' Hrun) as (H1 & H2 & H3 & H4 & H5).
    splits; auto. intros Hconv.
    destruct (Nat.eq_dec (iterations r) maxIterations) as [|Hne]; auto.
    rewrite H5 in Hconv by lia. discriminate.
  - intros Hturns.
    destruct (resolveRoyaltyCycle c p e per cur maxIterations tolerance)
      as [[r c']|msg|] eqn:E.
    + eauto.
    + destruct (Hthrow msg eq_refl) as (k & ck & Hk & Hit & Hth).
      exfalso. exact (Hturns k ck msg Hk Hit Hth).
    + congruence.
Qed.

(** Labour paid in euros, and no exchange rates. *)
Definition eurConfig : Config :=
  mkConfig oneProductBom []
    [EntityManager.mkEntity "E" "manufacturing" "DE" "EUR"]
    [] [] (laborAt "E" "EUR") [] [].

Definition eurPlant : t :=
  Eval vm_compute in
    match costed eurConfig "E" "EUR" with Ok c => c | _ => noCalculator end.

Lemma costed_eurPlant : costed eurConfig "E" "EUR" = Ok eurPlant.
Proof. vm_compute. reflexivity. Qed.

(** C9 as stated fails: the cost of the product was computed in euros;
    resolving in dollars recomputes the base cost, whose conversion
    throws, and [resolveRoyaltyCycle] returns no record. *)
Lemma C9_counterexample :
  currentTotal eurPlant "P" "E" "2024-Q4" == 10 /\
  resolveRoyaltyCycle eurPlant "P" "E" "2024-Q4" "USD"
                      defaultMaxIterations defaultTolerance
  = Throw (CurrencyConverter.noRate "2024-Q4").
Proof.
  split; vm_compute; reflexivity.
Qed.
End CostClaims.

(* ================================================================== *)
(** * Part IV: further properties *)
(* ================================================================== *)

(** ** Graph: cycles and orders *)

Section GraphMore.
Context {M : Type}.
Implicit Types (g : Graph.t M).

Lemma detectCycles_iff g :
  wf g ->
  exists cs,
    Graph.detectCycles g = Some cs /\
    Forall (isCycle g) cs /\
    (cs = [] <-> acyclic g).
Proof.
  intros Hwf. destruct (detectCycles_spec g Hwf) as (cs & Hrun & Hfa & Hnil).
  exists cs. splits; auto. split; [exact Hnil|]. intros Hac.
  destruct cs as [|c r]; auto. exfalso.
  inversion Hfa as [|? ? Hc _]; subst.
  destruct (isCycle_reach g c Hc) as [u Hu]. exact (Hac u Hu).
Qed.

(** X1.  On a graph kept by the class, [detectCycles] returns; every
    list it reports is a closed walk of the graph that starts and ends
    at the same node; and it reports nothing exactly when the graph
    has no cycle. *)
Theorem X1_detectCycles_empty_iff_acyclic g :
  wf g ->
  exists cs,
    Graph.detectCycles g = Some cs /\
    Forall (isCycle g) cs /\
    (cs = [] <-> acyclic g).
Proof. apply detectCycles_iff. Qed.

Lemma edge_addEdge_inv g a b (md : M) u v :
  edge (Graph.addEdge g a b md) u v -> edge g u v \/ (u = a /\ v = b).
Proof.
  intros (e & He & Hv). rewrite getNeighbors_addEdge in He.
  destruct (String.eqb_spec a u) as [Heq|Hne].
  - apply in_app_or in He as [He|[<-|[]]].
    + left. now exists e.
    + right. simpl in Hv. auto.
  - left. now exists e.
Qed.

Lemma getNodes_addNode_iff g n x :
  In x (Graph.getNodes (Graph.addNode g n)) <-> x = n \/ In x (Graph.getNodes g).
Proof.
  unfold Graph.addNode, Graph.getNodes.
  destruct (JsMap.has g n) eqn:E.
  - apply jsmap_has_true_iff in E. split; [auto|]. intros [->|H]; auto.
  - rewrite jsmap_in_keys_set. split; intros [H|H]; auto.
Qed.

Lemma getNodes_addEdge_iff g a b (md : M) x :
  In x (Graph.getNodes (Graph.addEdge g a b md)) <->
  x = a \/ x = b \/ In x (Graph.getNodes g).
Proof.
  unfold Graph.addEdge.
  set (g2 := Graph.addNode (Graph.addNode g a) b).
  assert (H2 : In x (Graph.getNodes g2) <-> x = a \/ x = b \/ In x (Graph.getNodes g)).
  { unfold g2. rewrite !getNodes_addNode_iff. tauto. }
  destruct (JsMap.get g2 a) as [l|] eqn:E; [|exact H2].
  rewrite <- H2. unfold Graph.getNodes. rewrite jsmap_in_keys_set.
  split; [intros [->|H]; auto|auto].
  eapply jsmap_get_Some_in; eauto.
Qed.

(** On a graph with no cycle [topologicalSort] returns every node
    exactly once, each edge's source before its target. *)
Lemma topologicalSort_permutation g :
  wf g -> acyclic g ->
  exists res,
    Graph.topologicalSort g = Ok res /\
    NoDup res /\
    (forall x, In x res <-> In x (Graph.getNodes g)) /\
    forall u v, edge g u v -> precedes res u v.
Proof.
  intros Hwf Hac.
  destruct (topologicalSort_acyclic g Hwf Hac) as (res & Hrun & Hlen & Hpre).
  destruct (kahn_result g Hwf) as (res' & Hk & Hnd & Hincl & _).
  assert (res' = res) as ->.
  { revert Hrun. unfold Graph.topologicalSort, Graph.topologicalSort_fuel.
    rewrite Hk. destruct (Nat.eqb _ _); [|discriminate]. now intros [= ->]. }
  exists res. splits; auto. intros x. split; [apply Hincl|].
  apply NoDup_length_incl; auto. lia.
Qed.
End GraphMore.

Lemma X1_witness :
  exists cs,
    Graph.detectCycles triangleGraph = Some cs /\
    Forall (isCycle triangleGraph) cs /\
    (cs = [] <-> acyclic triangleGraph).
Proof. apply (X1_detectCycles_empty_iff_acyclic triangleGraph). exact wf_triangleGraph. Defined.

(** ** Orders and their reversal *)

Section PrecedesMore.
Lemma nth_error_indexOf l i x :
  NoDup l -> nth_error l i = Some x -> Graph.indexOf l x = Some i.
Proof.
  intros Hnd Hn.
  assert (Hin : In x l) by (eapply nth_error_In; eauto).
  destruct (indexOf_in l x Hin) as [j Hj].
  pose proof (indexOf_Some_nth _ _ _ Hj) as Hj'.
  pose proof (indexOf_Some_lt _ _ _ Hj) as Hlt.
  rewrite Hj. f_equal.
  apply (proj1 (NoDup_nth_error l) Hnd); auto. congruence.
Qed.

(** Reversing a list without repetition reverses the order of any two
    of its elements. *)
Lemma precedes_rev l u v :
  NoDup l -> precedes l u v -> precedes (rev l) v u.
Proof.
  intros Hnd (i & j & Hi & Hj & Hlt).
  pose proof (indexOf_Some_lt _ _ _ Hj) as Hjl.
  apply indexOf_Some_nth in Hi, Hj.
  assert (Hnd' : NoDup (rev l)) by now apply NoDup_rev.
  exists (length l - S j)%nat, (length l - S i)%nat. splits; [| |lia].
  - apply nth_error_indexOf; auto. rewrite nth_error_rev.
    destruct (Nat.ltb_spec (length l - S j) (length l)); [|lia].
    rewrite <- Hj. f_equal. lia.
  - apply nth_error_indexOf; auto. rewrite nth_error_rev.
    destruct (Nat.ltb_spec (length l - S i) (length l)); [|lia].
    rewrite <- Hi. f_equal. lia.
Qed.
End PrecedesMore.

(** ** Graphs built by a loop of [addEdge] *)

Section FoldAddEdge.
Context {M A : Type}.
Variables (src dst : A -> string) (md : A -> M).

Definition addEdges (xs : list A) (g : Graph.t M) : Graph.t M :=
  fold_left (fun g' x => Graph.addEdge g' (src x) (dst x) (md x)) xs g.

Lemma addEdges_spec xs : forall g,
  wf g ->
  wf (addEdges xs g) /\
  (forall u v, edge (addEdges xs g) u v <->
               edge g u v \/ exists x, In x xs /\ src x = u /\ dst x = v) /\
  (forall n, In n (Graph.getNodes (addEdges xs g)) <->
             In n (Graph.getNodes g) \/ exists x, In x xs /\ (n = src x \/ n = dst x)).
Proof.
  induction xs as [|x r IH]; intros g Hwf; simpl.
  - splits; auto.
    + intros u v. split; [auto|]. intros [H|(x & [] & _)]; auto.
    + intros n. split; [auto|]. intros [H|(x & [] & _)]; auto.
  - destruct (IH (Graph.addEdge g (src x) (dst x) (md x))) as (H1 & H2 & H3).
    { now apply wf_addEdge. }
    splits; auto.
    + intros u v. rewrite H2. split.
      * intros [H|(y & Hy & Hsrc & Hdst)].
        -- apply edge_addEdge_inv in H as [H|[-> ->]]; auto.
           right. exists x. auto.
        -- right. exists y. auto.
      * intros [H|(y & [<-|Hy] & <- & <-)].
        -- left. now apply edge_addEdge_old.
        -- left. apply edge_addEdge_new.
        -- right. exists y. auto.
    + intros n. rewrite H3, getNodes_addEdge_iff. split.
      * intros [[->|[->|H]]|(y & Hy & Hn)]; auto.
        -- right. exists x. auto.
        -- right. exists x. auto.
        -- right. exists y. auto.
      * intros [H|(y & [<-|Hy] & [->| ->])]; auto.
        -- right. exists y. auto.
        -- right. exists y. auto.
Qed.
End FoldAddEdge.

(** ** BOMProcessor: the constructor and the explosion order *)

Section BomConstructor.
Import BOMProcessor.

(** [v] is a component of an entry for [u] in the bill of materials. *)
Definition billEdge (bill : list BomItem) (u v : string) : Prop :=
  exists item c,
    In item bill /\ productId item = u /\ In c (components item) /\ itemId c = v.

Definition billNode (bill : list BomItem) (n : string) : Prop :=
  exists item, In item bill /\
               (productId item = n \/ exists c, In c (components item) /\ itemId c = n).

Lemma addItem_graph s item :
  wf (snd s) ->
  wf (snd (addItem s item)) /\
  (forall u v, edge (snd (addItem s item)) u v <->
               edge (snd s) u v \/
               (productId item = u /\ exists c, In c (components item) /\ itemId c = v)) /\
  (forall n, In n (Graph.getNodes (snd (addItem s item))) <->
             In n (Graph.getNodes (snd s)) \/ productId item = n \/
             exists c, In c (components item) /\ itemId c = n).
Proof.
  destruct s as [b gr]. simpl. intros Hwf. unfold addItem. simpl.
  destruct (addEdges_spec (fun _ : Component => productId item) itemId
              (fun c => mkBomMeta (quantity c) (orZero (scrapRate c)) (unit c))
              (components item) (Graph.addNode gr (productId item)))
    as (H1 & H2 & H3).
  { now apply wf_addNode. }
  unfold addEdges in *. splits; auto.
  - intros u v. rewrite H2, edge_addNode. split.
    + intros [H|(c & Hc & Hu & Hv)]; auto. right. split; auto. exists c. auto.
    + intros [H|(Hu & c & Hc & Hv)]; auto. right. exists c. auto.
  - intros n. rewrite H3, getNodes_addNode_iff. split.
    + intros [[->|H]|(c & Hc & [-> | ->])]; auto.
      right. right. exists c. auto.
    + intros [H|[<-|(c & Hc & <-)]]; auto.
      right. exists c. auto.
Qed.

Lemma index_graph_from bill : forall s,
  wf (snd s) ->
  let s' := fold_left addItem bill s in
  wf (snd s') /\
  (forall u v, edge (snd s') u v <-> edge (snd s) u v \/ billEdge bill u v) /\
  (forall n, In n (Graph.getNodes (snd s')) <->
             In n (Graph.getNodes (snd s)) \/ billNode bill n).
Proof.
  induction bill as [|item r IH]; intros s Hwf; simpl.
  - splits; auto.
    + intros u v. split; [auto|]. intros [H|(i & c & [] & _)]; auto.
    + intros n. split; [auto|]. intros [H|(i & [] & _)]; auto.
  - destruct (addItem_graph s item Hwf) as (A1 & A2 & A3).
    destruct (IH (addItem s item) A1) as (H1 & H2 & H3).
    splits; auto.
    + intros u v. rewrite H2, A2. unfold billEdge. split.
      * intros [[H|(Hu & c & Hc & Hv)]|(i & c & Hi & Hu & Hc & Hv)];
          [ now left
          | right; exists item, c; simpl; auto
          | right; exists i, c; simpl; auto ].
      * intros [H|(i & c & [Heq|Hi] & Hu & Hc & Hv)];
          [ now left; left
          | subst i; left; right; split; auto; exists c; auto
          | right; exists i, c; auto ].
    + intros n. rewrite H3, A3. unfold billNode. split.
      * intros [[H|[H|(c & Hc & Hn)]]|(i & Hi & Hn)];
          [ now left
          | right; exists item; simpl; auto
          | right; exists item; simpl; split; auto; right; exists c; auto
          | right; exists i; simpl; auto ].
      * intros [H|(i & [Heq|Hi] & Hn)];
          [ now left; left
          | subst i; left; right; exact Hn
          | right; exists i; auto ].
Qed.

(** The graph of the constructor has an edge for every component of
    every entry of the bill, and no other. *)
Lemma index_graph bill :
  wf (snd (index bill)) /\
  (forall u v, edge (snd (index bill)) u v <-> billEdge bill u v) /\
  (forall n, In n (Graph.getNodes (snd (index bill))) <-> billNode bill n).
Proof.
  destruct (index_graph_from bill (JsMap.empty, Graph.empty) wf_empty)
    as (H1 & H2 & H3).
  unfold index. splits; auto.
  - intros u v. rewrite H2. split; [|auto].
    intros [(e & [] & _)|H]; auto.
  - intros n. rewrite H3. split; [|auto]. intros [[]|H]; auto.
Qed.

Lemma new_dichotomy (bill : list BomItem) :
  let gr := snd (index bill) in
  (acyclic gr /\
   BOMProcessor.new bill = Ok (mk (fst (index bill)) gr JsMap.empty)) \/
  (hasCycle gr /\
   exists cs, cs <> [] /\ Forall (isCycle gr) cs /\
              BOMProcessor.new bill = Throw (cyclesMessage cs)).
Proof.
  intros gr. destruct (index_graph bill) as (Hwf & Hed & _).
  destruct (detectCycles_iff gr Hwf) as (cs & Hrun & Hfa & Hiff).
  unfold BOMProcessor.new. fold gr.
  destruct (index bill) as [b g0] eqn:E. simpl in gr. subst gr.
  rewrite Hrun. simpl.
  destruct cs as [|c r]; simpl.
  - left. split; [now apply Hiff | reflexivity].
  - right. split.
    + inversion Hfa; subst. eapply isCycle_reach; eauto.
    + exists (c :: r). splits; auto. discriminate.
Qed.

(** X2.  The constructor of [BOMProcessor] either accepts the bill,
    with an empty cache, and then the component relation of the bill
    has no cycle; or the relation has a cycle and the constructor
    throws the message that lists the cycles found, each of them a
    closed walk along components. *)
Theorem X2_BOMProcessor_new_accepts_iff_acyclic (bill : list BomItem) :
  let gr := snd (index bill) in
  (forall u v, edge gr u v <-> billEdge bill u v) /\
  ((acyclic gr /\
    BOMProcessor.new bill = Ok (mk (fst (index bill)) gr JsMap.empty)) \/
   (hasCycle gr /\
    exists cs, cs <> [] /\ Forall (isCycle gr) cs /\
               BOMProcessor.new bill = Throw (cyclesMessage cs))).
Proof.
  intros gr. split; [apply index_graph | apply new_dichotomy].
Qed.

Lemma getExplosionOrder_spec (bill : list BomItem) (p : BOMProcessor.t) :
  BOMProcessor.new bill = Ok p ->
  exists order,
    getExplosionOrder p = Ok order /\
    NoDup order /\
    (forall n, In n order <-> billNode bill n) /\
    (forall u v, billEdge bill u v -> precedes order v u).
Proof.
  intros Hnew.
  destruct (index_graph bill) as (Hwf & Hed & Hnodes).
  destruct (new_dichotomy bill) as [(Hac & Hok)|(_ & cs & _ & _ & Hthrow)];
    [|rewrite Hthrow in Hnew; discriminate].
  rewrite Hok in Hnew. injection Hnew as <-.
  destruct (topologicalSort_permutation _ Hwf Hac) as (res & Hrun & Hnd & Hin & Hpre).
  unfold getExplosionOrder. simpl. rewrite Hrun. simpl.
  exists (rev res). splits; auto.
  - now apply NoDup_rev.
  - intros n. rewrite <- in_rev, Hin. apply Hnodes.
  - intros u v He. apply precedes_rev; auto. apply Hpre, Hed, He.
Qed.

(** X3.  On a processor that the constructor accepted,
    [getExplosionOrder] returns every product and every component id
    of the bill exactly once, each component before every product it
    is a component of. *)
Theorem X3_getExplosionOrder_components_first
        (bill : list BomItem) (p : BOMProcessor.t) :
  BOMProcessor.new bill = Ok p ->
  exists order,
    getExplosionOrder p = Ok order /\
    NoDup order /\
    (forall n, In n order <-> billNode bill n) /\
    (forall item c, In item bill -> In c (components item) ->
                    precedes order (itemId c) (productId item)).
Proof.
  intros Hnew.
  destruct (getExplosionOrder_spec bill p Hnew) as (order & H1 & H2 & H3 & H4).
  exists order. splits; auto. intros item c Hi Hc. apply H4.
  exists item, c. auto.
Qed.

Lemma X3_witness :
  exists order,
    getExplosionOrder smallProcessor = Ok order /\
    NoDup order /\
    (forall n, In n order <-> billNode smallBom n) /\
    (forall item c, In item smallBom -> In c (components item) ->
                    precedes order (itemId c) (productId item)).
Proof.
  apply (X3_getExplosionOrder_components_first smallBom smallProcessor).
  vm_compute. reflexivity.
Defined.
End BomConstructor.

(** ** Maps filled by a loop of [set] *)

Section FoldSet.
Context {A V : Type}.
Variables (key : A -> string) (val : A -> V).

Definition setAll (xs : list A) (m : JsMap.t V) : JsMap.t V :=
  fold_left (fun m' x => JsMap.set m' (key x) (val x)) xs m.

(** The last element of the list that has the key [k]. *)
Fixpoint lastWith (k : string) (xs : list A) : option A :=
  match xs with
  | [] => None
  | x :: r =>
      match lastWith k r with
      | Some y => Some y
      | None => if String.eqb (key x) k then Some x else None
      end
  end.

Lemma lastWith_Some k xs y :
  lastWith k xs = Some y -> In y xs /\ key y = k.
Proof.
  induction xs as [|x r IH]; simpl; [discriminate|].
  destruct (lastWith k r) as [z|].
  - intros [= ->]. destruct (IH eq_refl). auto.
  - destruct (String.eqb_spec (key x) k); [|discriminate].
    intros [= <-]. auto.
Qed.

Lemma lastWith_None k xs :
  lastWith k xs = None -> forall x, In x xs -> key x <> k.
Proof.
  induction xs as [|x r IH]; simpl; [intros _ y []|].
  destruct (lastWith k r) as [z|]; [discriminate|].
  destruct (String.eqb_spec (key x) k); [discriminate|].
  intros _ y [<-|Hy]; auto.
Qed.

(** The value of a key after the loop is that of the last element with
    this key, or the value before the loop when there is none. *)
Lemma setAll_get xs : forall m k,
  JsMap.get (setAll xs m) k =
  match lastWith k xs with
  | Some x => Some (val x)
  | None => JsMap.get m k
  end.
Proof.
  induction xs as [|x r IH]; intros m k; simpl; [reflexivity|].
  unfold setAll in *. simpl. rewrite IH.
  destruct (lastWith k r); [reflexivity|].
  destruct (String.eqb_spec (key x) k) as [<-|Hne].
  - apply jsmap_get_set_same.
  - now apply jsmap_get_set_other.
Qed.

Lemma setAll_get_in xs m x :
  In x xs -> exists y, JsMap.get (setAll xs m) (key x) = Some (val y) /\
                       In y xs /\ key y = key x.
Proof.
  intros Hx. rewrite setAll_get.
  destruct (lastWith (key x) xs) as [y|] eqn:E.
  - apply lastWith_Some in E as [Hy He]. exists y. auto.
  - exfalso. exact (lastWith_None _ _ E x Hx eq_refl).
Qed.
End FoldSet.

(** ** RuleEngine: the constructor and the execution order *)

Section RuleConstructor.
Import RuleEngine.

(** The rule [r] lists [d] among its dependencies. *)
Definition ruleEdge (allocationRules : list Rule) (d r : string) : Prop :=
  exists rule, In rule allocationRules /\ id rule = r /\ In d (dependencies rule).

Definition ruleNode (allocationRules : list Rule) (n : string) : Prop :=
  exists rule, In rule allocationRules /\ (id rule = n \/ In n (dependencies rule)).

Lemma addNodes_spec (rs : list Rule) : forall g : Graph.t unit,
  wf g ->
  let g' := fold_left (fun g0 r => Graph.addNode g0 (id r)) rs g in
  wf g' /\
  (forall u v, edge g' u v <-> edge g u v) /\
  (forall n, In n (Graph.getNodes g') <->
             In n (Graph.getNodes g) \/ exists r, In r rs /\ id r = n).
Proof.
  induction rs as [|r rest IH]; intros g Hwf; simpl.
  - splits; auto; [tauto|]. intros n. split; [auto|]. intros [H|(r & [] & _)]; auto.
  - destruct (IH (Graph.addNode g (id r))) as (H1 & H2 & H3); [now apply wf_addNode|].
    splits; auto.
    + intros u v. rewrite H2. apply edge_addNode.
    + intros n. rewrite H3, getNodes_addNode_iff. split.
      * intros [[->|H]|(x & Hx & Hn)];
          [ right; exists r; auto | now left | right; exists x; auto ].
      * intros [H|(x & [Heq|Hx] & Hn)];
          [ now left; right | subst x; left; left; auto | right; exists x; auto ].
Qed.

Lemma addDeps_spec (rs : list Rule) : forall g : Graph.t unit,
  wf g ->
  let g' := fold_left
              (fun g0 r => fold_left (fun g1 depId => Graph.addEdge g1 depId (id r) tt)
                                     (dependencies r) g0)
              rs g in
  wf g' /\
  (forall u v, edge g' u v <-> edge g u v \/ ruleEdge rs u v) /\
  (forall n, In n (Graph.getNodes g') <->
             In n (Graph.getNodes g) \/
             exists u v, ruleEdge rs u v /\ (n = u \/ n = v)).
Proof.
  induction rs as [|r rest IH]; intros g Hwf; simpl.
  - splits; auto.
    + intros u v. split; [auto|]. intros [H|(x & [] & _)]; auto.
    + intros n. split; [auto|]. intros [H|(u & v & (x & [] & _) & _)]; auto.
  - destruct (addEdges_spec (fun d : string => d) (fun _ => id r) (fun _ => tt)
                (dependencies r) g Hwf) as (A1 & A2 & A3).
    unfold addEdges in *.
    destruct (IH _ A1) as (H1 & H2 & H3).
    splits; auto.
    + intros u v. rewrite H2, A2. unfold ruleEdge. split.
      * intros [[H|(d & Hd & Hu & Hv)]|(x & Hx & Hv & Hu)];
          [ now left
          | subst; right; exists r; simpl; auto
          | right; exists x; simpl; auto ].
      * intros [H|(x & [Heq|Hx] & Hv & Hu)];
          [ now left; left
          | subst x; left; right; exists u; auto
          | right; exists x; auto ].
    + intros n. rewrite H3, A3. unfold ruleEdge. split.
      * intros [[H|(d & Hd & Hn)]|(u & v & (x & Hx & Hv & Hu) & Hn)];
          [ now left
          | right; exists d, (id r); split; [exists r; simpl; auto | exact Hn]
          | right; exists u, v; split; [exists x; simpl; auto | exact Hn] ].
      * intros [H|(u & v & (x & [Heq|Hx] & Hv & Hu) & Hn)];
          [ now left; left
          | subst x; left; right; exists u; split; [exact Hu | subst v; exact Hn]
          | right; exists u, v; split; [exists x; auto | exact Hn] ].
Qed.

(** The dependency graph of the constructor: a node for every rule id
    and every dependency id, an edge from every dependency to the rule
    that lists it. *)
Lemma buildGraph_spec (allocationRules : list Rule) :
  wf (buildGraph allocationRules) /\
  (forall u v, edge (buildGraph allocationRules) u v <-> ruleEdge allocationRules u v) /\
  (forall n, In n (Graph.getNodes (buildGraph allocationRules)) <->
             ruleNode allocationRules n).
Proof.
  unfold buildGraph.
  destruct (addNodes_spec allocationRules Graph.empty wf_empty) as (N1 & N2 & N3).
  destruct (addDeps_spec allocationRules _ N1) as (D1 & D2 & D3).
  splits; auto.
  - intros u v. rewrite D2, N2. split; [|auto].
    intros [(e & [] & _)|H]; auto.
  - intros n. rewrite D3, N3. unfold ruleNode, ruleEdge. split.
    + intros [[[]|(r & Hr & Hn)]|(u & v & (x & Hx & Hv & Hu) & Hn)].
      * exists r. auto.
      * exists x. split; auto. destruct Hn as [->| ->]; auto.
    + intros (r & Hr & [Hn|Hn]).
      * left. right. exists r. auto.
      * right. exists n, (id r). split; [exists r; auto | auto].
Qed.

Lemma RuleEngine_new_dichotomy (allocationRules : list Rule) :
  let gr := buildGraph allocationRules in
  (acyclic gr /\
   exists order,
     RuleEngine.new allocationRules
     = Ok (mk (setAll id (fun r => r) allocationRules JsMap.empty) gr order) /\
     NoDup order /\
     (forall n, In n order <-> ruleNode allocationRules n) /\
     (forall d r, ruleEdge allocationRules d r -> precedes order d r)) \/
  (hasCycle gr /\
   exists cs, cs <> [] /\ Forall (isCycle gr) cs /\
              RuleEngine.new allocationRules = Throw (cyclesMessage cs)).
Proof.
  intros gr. destruct (buildGraph_spec allocationRules) as (Hwf & Hed & Hnodes).
  destruct (detectCycles_iff gr Hwf) as (cs & Hrun & Hfa & Hiff).
  unfold RuleEngine.new. fold gr. rewrite Hrun. simpl.
  destruct cs as [|c r]; simpl.
  - left. assert (Hac : acyclic gr) by now apply Hiff. split; auto.
    destruct (topologicalSort_permutation gr Hwf Hac) as (res & Hts & Hnd & Hin & Hpre).
    rewrite Hts. simpl. exists res. splits; auto.
    + intros n. rewrite Hin. apply Hnodes.
    + intros d x He. apply Hpre, Hed, He.
  - right. split.
    + inversion Hfa; subst. eapply isCycle_reach; eauto.
    + exists (c :: r). splits; auto. discriminate.
Qed.

(** X4.  The constructor of [RuleEngine] either throws, and then the
    dependencies of the rules contain a cycle, reported in the
    message; or it returns an engine whose execution order lists every
    rule id and every dependency id exactly once, each dependency
    before the rules that list it, and whose [getRule] finds for the
    id of every rule the last rule given with this id. *)
Theorem X4_RuleEngine_new_orders_dependencies (allocationRules : list Rule) :
  let gr := buildGraph allocationRules in
  (forall d r, edge gr d r <-> ruleEdge allocationRules d r) /\
  ((acyclic gr /\
    exists re,
      RuleEngine.new allocationRules = Ok re /\
      NoDup (getExecutionOrder re) /\
      (forall n, In n (getExecutionOrder re) <-> ruleNode allocationRules n) /\
      (forall rule d, In rule allocationRules -> In d (dependencies rule) ->
                      precedes (getExecutionOrder re) d (id rule)) /\
      (forall k, getRule re k = lastWith id k allocationRules)) \/
   (hasCycle gr /\
    exists cs, cs <> [] /\ Forall (isCycle gr) cs /\
               RuleEngine.new allocationRules = Throw (cyclesMessage cs))).
Proof.
  intros gr. split; [apply buildGraph_spec|].
  destruct (RuleEngine_new_dichotomy allocationRules)
    as [(Hac & order & Hnew & Hnd & Hin & Hpre)|H]; [left|right; exact H].
  split; auto. eexists. split; [exact Hnew|]. simpl. splits; auto.
  - intros rule d Hr Hd. apply Hpre. exists rule. auto.
  - intros k. unfold getRule. simpl. rewrite setAll_get. simpl.
    now destruct (lastWith id k allocationRules).
Qed.
End RuleConstructor.

(** ** CurrencyConverter: the rates in use and how conversions compose *)

Section ConvertMore.
Import CurrencyConverter.
Variable c : CurrencyConverter.t.

(** The rates that a conversion for [period] reads, and the period
    they belong to: those of the period itself, or else those of the
    period that [nearestPeriod] picks. *)
Definition ratesFor (period : string) : option (JsMap.t Q * string) :=
  match JsMap.get (rates c) period with
  | Some pr => Some (pr, period)
  | None =>
      match nearestPeriod c period with
      | Some n =>
          if truthy (Some n) then
            match JsMap.get (rates c) n with
            | Some pr => Some (pr, n)
            | None => None
            end
          else None
      | None => None
      end
  end.

Lemma convert_unfold amount f t p :
  f <> t ->
  convert c amount f t p =
  match ratesFor p with
  | Some (pr, p') => convertWith pr amount f t p'
  | None => Throw (noRate p)
  end.
Proof.
  intros Hne. apply String.eqb_neq in Hne.
  unfold convert, ratesFor. cbn [convert_fuel]. rewrite Hne.
  destruct (JsMap.get (rates c) p); [reflexivity|].
  destruct (nearestPeriod c p) as [n|] eqn:E; [|reflexivity].
  destruct (truthy (Some n)); [|reflexivity].
  apply nearestPeriod_in in E. apply jsmap_in_get in E as [pr Hpr].
  now rewrite Hpr.
Qed.

(** The rate of [cur] against the dollar can be read from [pr]: [cur]
    is the dollar, or the table has a rate for it that is not [0]. *)
Definition usable (pr : JsMap.t Q) (cur : string) : Prop :=
  cur = "USD" \/ exists r, rateOf pr (cur +++ "/USD") = Some r.

(** [convertWith] returns exactly when it can read both rates,
    whatever the amount is. *)
Lemma convertWith_Ok_iff pr amount f t p :
  (exists b, convertWith pr amount f t p = Ok b) <-> usable pr f /\ usable pr t.
Proof.
  unfold convertWith, usable.
  destruct (String.eqb_spec f "USD") as [Hf|Hf]; cbn [bind];
    [|destruct (rateOf pr (f +++ "/USD")) as [rf|] eqn:Ef; cbn [bind]].
  all: try (destruct (String.eqb_spec t "USD") as [Ht|Ht];
            [|destruct (rateOf pr (t +++ "/USD")) as [rt|] eqn:Et]).
  all: split;
    [ intros [b Hb]; try discriminate;
      split; first [left; assumption | right; eexists; reflexivity]
    | intros [[Hf'|[r1 Hr1]] [Ht'|[r2 Hr2]]];
      try contradiction; try discriminate; eexists; reflexivity ].
Qed.

(** The pairs of currencies that [convert] converts for a period. *)
Definition convertible (x y p : string) : Prop :=
  x = y \/
  exists pr p', ratesFor p = Some (pr, p') /\ usable pr x /\ usable pr y.

Lemma convert_Ok_iff amount x y p :
  (exists b, convert c amount x y p = Ok b) <-> convertible x y p.
Proof.
  unfold convertible. destruct (string_dec x y) as [->|Hxy].
  - rewrite convert_same. split; [auto | eauto].
  - rewrite convert_unfold by exact Hxy.
    destruct (ratesFor p) as [[pr p']|].
    + rewrite convertWith_Ok_iff. split.
      * intros H. right. exists pr, p'. auto.
      * intros [H|(pr0 & p0 & [= <- <-] & H)]; [contradiction | exact H].
    + split; [intros [b Hb]; discriminate|].
      intros [H|(pr0 & p0 & H & _)]; [contradiction | discriminate].
Qed.

Lemma convertible_sym x y p : convertible x y p -> convertible y x p.
Proof.
  intros [->|(pr & p' & Hr & Hx & Hy)]; [now left|].
  right. exists pr, p'. auto.
Qed.

Lemma convertible_trans x y z p :
  convertible x y p -> convertible y z p -> convertible x z p.
Proof.
  intros [->|(pr & p' & Hr & Hx & Hy)]; [auto|].
  intros [<-|(pr2 & p2 & Hr2 & Hy2 & Hz)].
  - right. exists pr, p'. auto.
  - rewrite Hr in Hr2. injection Hr2 as <- <-. right. exists pr, p'. auto.
Qed.
End ConvertMore.

(** X5.  Whether [convert] returns or throws does not depend on the
    amount, and the pairs of currencies that it converts for a period
    are symmetric and transitive: when an amount converts from [x] to
    [y], every amount does, every amount converts back from [y] to [x],
    and every amount converts from [x] to each currency [z] that some
    amount converts to from [y]. *)
Theorem X5_convertible_symmetric_transitive
        (c : CurrencyConverter.t) (amount : Q) (x y period : string) (b : Q) :
  CurrencyConverter.convert c amount x y period = Ok b ->
  (forall a, exists r, CurrencyConverter.convert c a x y period = Ok r) /\
  (forall a, exists r, CurrencyConverter.convert c a y x period = Ok r) /\
  (forall z a d,
      CurrencyConverter.convert c a y z period = Ok d ->
      forall a', exists r, CurrencyConverter.convert c a' x z period = Ok r).
Proof.
  intros H.
  assert (Hxy : convertible c x y period) by (apply (convert_Ok_iff c amount); eauto).
  splits.
  - intros a. now apply convert_Ok_iff.
  - intros a. now apply convert_Ok_iff, convertible_sym.
  - intros z a d Hd a'. apply convert_Ok_iff.
    apply (convertible_trans c x y z period Hxy).
    apply (convert_Ok_iff c a). eauto.
Qed.

Definition exampleConverter : CurrencyConverter.t :=
  CurrencyConverter.mk
    [("2024-Q3", [("CNY/USD", 137 # 1000); ("EUR/USD", 109 # 100)]);
     ("2024-Q4", [("CNY/USD", 27 # 200); ("EUR/USD", 11 # 10)])].

Lemma X5_witness :
  (exists r, CurrencyConverter.convert exampleConverter 7 "EUR" "CNY" "2024-Q4" = Ok r) /\
  (exists r, CurrencyConverter.convert exampleConverter 7 "CNY" "EUR" "2024-Q4" = Ok r) /\
  (exists r, CurrencyConverter.convert exampleConverter 7 "EUR" "USD" "2024-Q4" = Ok r).
Proof.
  destruct (X5_convertible_symmetric_transitive exampleConverter 100 "EUR" "CNY"
              "2024-Q4" ((100 * (11 # 10)) / (27 # 200)))
    as (H1 & H2 & H3); [vm_compute; reflexivity|].
  splits; [apply H1 | apply H2 |].
  apply (H3 "USD" 3 (3 * (27 # 200))). vm_compute. reflexivity.
Defined.

(** ** CurrencyConverter: the fallback period *)

Section NearestPeriod.
Import CurrencyConverter.
Local Open Scope Z_scope.
Variable c : CurrencyConverter.t.
Variable period : string.
Variable zp : Z.
Hypothesis Hperiod : periodToNumber period = Some zp.

(** [n] is at least as near to [period] as every period of [seen]. *)
Definition nearestOf (seen : list string) (n : string) : Prop :=
  In n seen /\
  exists zn, periodToNumber n = Some zn /\
    forall k zk, In k seen -> periodToNumber k = Some zk ->
                 Z.abs (zn - zp) <= Z.abs (zk - zp).

Lemma periodToNumber_truthy n zn :
  periodToNumber n = Some zn -> truthy (Some n) = true.
Proof.
  intros H. unfold truthy. destruct (String.eqb_spec n ""); auto.
  subst. vm_compute in H. discriminate.
Qed.

Lemma pickNearest_step seen n k :
  nearestOf seen n ->
  (exists zk, periodToNumber k = Some zk) ->
  exists n', pickNearest period (Some n) k = Some n' /\ nearestOf (seen ++ [k]) n'.
Proof.
  intros (Hin & zn & Hzn & Hmin) (zk & Hzk).
  unfold pickNearest. rewrite (periodToNumber_truthy _ _ Hzn).
  rewrite Hzk, Hzn, Hperiod. unfold closer.
  destruct (Z.ltb_spec (Z.abs (zk - zp)) (Z.abs (zn - zp))) as [Hlt|Hge].
  - exists k. split; auto. split; [apply in_or_app; right; now left|].
    exists zk. split; auto. intros x zx Hx Hzx.
    apply in_app_or in Hx as [Hx|[<-|[]]].
    + specialize (Hmin x zx Hx Hzx). lia.
    + rewrite Hzk in Hzx. injection Hzx as <-. lia.
  - exists n. split; auto. split; [apply in_or_app; now left|].
    exists zn. split; auto. intros x zx Hx Hzx.
    apply in_app_or in Hx as [Hx|[<-|[]]].
    + exact (Hmin x zx Hx Hzx).
    + rewrite Hzk in Hzx. injection Hzx as <-. lia.
Qed.

Lemma fold_pickNearest_min l : forall seen n,
  nearestOf seen n ->
  (forall k, In k l -> exists zk, periodToNumber k = Some zk) ->
  exists n', fold_left (pickNearest period) l (Some n) = Some n' /\
             nearestOf (seen ++ l) n'.
Proof.
  induction l as [|k r IH]; intros seen n Hn Hall; cbn [fold_left].
  - exists n. rewrite app_nil_r. auto.
  - destruct (pickNearest_step seen n k Hn) as (n1 & -> & Hn1).
    { apply Hall. now left. }
    destruct (IH (seen ++ [k]) n1 Hn1) as (n' & Hrun & Hn').
    { intros x Hx. apply Hall. now right. }
    exists n'. split; auto. now rewrite <- app_assoc in Hn'.
Qed.

Lemma nearestPeriod_min :
  JsMap.keys (rates c) <> [] ->
  (forall k, In k (JsMap.keys (rates c)) -> exists zk, periodToNumber k = Some zk) ->
  exists n, nearestPeriod c period = Some n /\
            nearestOf (JsMap.keys (rates c)) n.
Proof.
  intros Hne Hall. unfold nearestPeriod.
  assert (Hall' : forall k, In k (sortKeys (JsMap.keys (rates c))) ->
                            exists zk, periodToNumber k = Some zk).
  { intros k Hk. apply Hall. now apply sortKeys_in. }
  assert (Hne' : sortKeys (JsMap.keys (rates c)) <> []).
  { intros E. destruct (JsMap.keys (rates c)) as [|k r] eqn:Ek; [congruence|].
    assert (In k (sortKeys (k :: r))) by (apply sortKeys_in; now left).
    rewrite E in H. exact H. }
  destruct (sortKeys (JsMap.keys (rates c))) as [|k r] eqn:El; [congruence|].
  simpl. destruct (Hall' k (or_introl eq_refl)) as [zk Hzk].
  destruct (fold_pickNearest_min r [k] k) as (n & Hrun & Hin & zn & Hzn & Hmin).
  - split; [now left|]. exists zk. split; auto.
    intros x zx [<-|[]] Hzx. rewrite Hzk in Hzx. injection Hzx as <-. lia.
  - intros x Hx. apply Hall'. now right.
  - exists n. split; [exact Hrun|]. simpl in Hin, Hmin.
    assert (Hsub : forall x, In x (k :: r) <-> In x (JsMap.keys (rates c))).
    { intros x. rewrite <- El. apply sortKeys_in. }
    split; [now apply Hsub|]. exists zn. split; auto.
    intros x zx Hx. apply Hmin. now apply Hsub.
Qed.
End NearestPeriod.

(** X6.  When the rate table has no entry for a period, a conversion
    uses the rates of the period of the table that is nearest in
    quarters (the periods being of the form year, ["-Q"], quarter): it
    behaves as the conversion for that period does, errors included. *)
Theorem X6_convert_falls_back_to_nearest_period
        (c : CurrencyConverter.t) (period : string) (zp : Z) :
  JsMap.get (CurrencyConverter.rates c) period = None ->
  JsMap.keys (CurrencyConverter.rates c) <> [] ->
  CurrencyConverter.periodToNumber period = Some zp ->
  (forall k, In k (JsMap.keys (CurrencyConverter.rates c)) ->
             exists zk, CurrencyConverter.periodToNumber k = Some zk) ->
  exists n zn,
    In n (JsMap.keys (CurrencyConverter.rates c)) /\
    CurrencyConverter.periodToNumber n = Some zn /\
    (forall k zk, In k (JsMap.keys (CurrencyConverter.rates c)) ->
                  CurrencyConverter.periodToNumber k = Some zk ->
                  (Z.abs (zn - zp) <= Z.abs (zk - zp))%Z) /\
    forall amount f t,
      CurrencyConverter.convert c amount f t period
      = CurrencyConverter.convert c amount f t n.
Proof.
  intros Hnone Hne Hp Hall.
  destruct (nearestPeriod_min c period zp Hp Hne Hall) as (n & Hrun & Hin & zn & Hzn & Hmin).
  exists n, zn. splits; auto. intros amount f t.
  destruct (string_dec f t) as [->|Hft]; [now rewrite !convert_same|].
  rewrite !convert_unfold by exact Hft. unfold ratesFor.
  rewrite Hnone, Hrun, (periodToNumber_truthy n zn Hzn).
  apply jsmap_in_get in Hin as [pr Hpr]. rewrite Hpr. reflexivity.
Qed.

Lemma X6_witness :
  exists n zn,
    In n (JsMap.keys (CurrencyConverter.rates exampleConverter)) /\
    CurrencyConverter.periodToNumber n = Some zn /\
    (forall k zk, In k (JsMap.keys (CurrencyConverter.rates exampleConverter)) ->
                  CurrencyConverter.periodToNumber k = Some zk ->
                  (Z.abs (zn - 8101) <= Z.abs (zk - 8101))%Z) /\
    forall amount f t,
      CurrencyConverter.convert exampleConverter amount f t "2025-Q1"
      = CurrencyConverter.convert exampleConverter amount f t n.
Proof.
  apply (X6_convert_falls_back_to_nearest_period exampleConverter "2025-Q1" 8101%Z).
  - reflexivity.
  - discriminate.
  - vm_compute. reflexivity.
  - intros k Hk. vm_compute in Hk.
    destruct Hk as [<-|[<-|[]]]; eexists; vm_compute; reflexivity.
Defined.

(** ** CostState: keys *)

Lemma cat_assoc (a b c : string) : (a +++ b) +++ c = a +++ b +++ c.
Proof.
  unfold cat. induction a as [|ch a IH]; simpl; [reflexivity|]. now rewrite IH.
Qed.

Section CostKeys.
Import CostState.

(** X7.  [getCost] returns what [setCost] stored under the same key,
    with the key written into [_key]; a record stored under a
    different key string is not affected.  The key joins the three
    ids with [":"], so that two different triples can share a key: a
    record stored for the product ["a:b"] at the entity ["c"] is the
    record of the product ["a"] at the entity ["b:c"]. *)
Theorem X7_setCost_getCost (st : t) (p e per : string) (bd : Cost) :
  getCost (setCost st p e per bd) p e per = Some (withKey bd (getCostKey p e per)) /\
  (forall p' e' per',
      getCostKey p' e' per' <> getCostKey p e per ->
      getCost (setCost st p e per bd) p' e' per' = getCost st p' e' per') /\
  (forall a b c,
      getCost (setCost st (a +++ ":" +++ b) c per bd) a (b +++ ":" +++ c) per
      = Some (withKey bd (getCostKey a (b +++ ":" +++ c) per))) /\
  ruleOutputs (setCost st p e per bd) = ruleOutputs st /\
  dependencies (setCost st p e per bd) = dependencies st /\
  dirty (setCost st p e per bd) = dirty st.
Proof.
  splits; try reflexivity.
  - apply getCost_setCost.
  - intros p' e' per' Hne. unfold getCost, setCost. simpl.
    apply jsmap_get_set_other. congruence.
  - intros a b c.
    assert (E : getCostKey (a +++ ":" +++ b) c per = getCostKey a (b +++ ":" +++ c) per).
    { unfold getCostKey. rewrite !cat_assoc. reflexivity. }
    unfold getCost, setCost. cbn [costs]. rewrite E. apply jsmap_get_set_same.
Qed.
End CostKeys.

(** ** CostState: [markDirty] in general *)

Lemma jsset_add_in (s : JsSet.t) k x : In x (JsSet.add s k) <-> x = k \/ In x s.
Proof.
  unfold JsSet.add. destruct (JsSet.has s k) eqn:E.
  - apply jsset_has_true_iff in E. split; [auto|]. intros [->|H]; auto.
  - rewrite in_app_iff. simpl. intuition auto.
Qed.

Section MarkDirty.
Import CostState.
Variable D : JsMap.t JsSet.t.

(** [v] is registered as a dependent of [u]. *)
Definition depEdge (u v : string) : Prop :=
  exists ds, JsMap.get D u = Some ds /\ In v ds.

Inductive depReach : string -> string -> Prop :=
| depReach_step u v : depEdge u v -> depReach u v
| depReach_cons u v w : depEdge u v -> depReach v w -> depReach u w.

Lemma depReach_inv u w :
  depReach u w -> exists d, depEdge u d /\ (d = w \/ depReach d w).
Proof. intros H. inversion H; subst; eauto. Qed.

Lemma depReach_snoc u v w : depReach u v -> depEdge v w -> depReach u w.
Proof.
  intros H He. induction H as [u v H|u v x H Hr IH].
  - eapply depReach_cons; eauto. now apply depReach_step.
  - eapply depReach_cons; eauto.
Qed.

(** [markDirty] only writes the dirty set. *)
Definition sameButDirty (st st' : t) : Prop :=
  costs st' = costs st /\ ruleOutputs st' = ruleOutputs st /\
  dependencies st' = dependencies st.

Lemma markDirty_eq fuel st key :
  markDirty (S fuel) st key =
  let st1 := mk (costs st) (ruleOutputs st) (dependencies st)
                (JsSet.add (dirty st) key) in
  match JsMap.get (dependencies st) key with
  | Some dependents => forEach (fun d s => markDirty fuel s d) dependents st1
  | None => Some st1
  end.
Proof. reflexivity. Qed.

Lemma markDirty_frame fuel : forall st key st',
  markDirty fuel st key = Some st' -> sameButDirty st st'.
Proof.
  induction fuel as [|f IH]; intros st key st'; [discriminate|].
  rewrite markDirty_eq. cbv zeta.
  destruct (JsMap.get (dependencies st) key) as [ds|];
    [|intros [= <-]; unfold sameButDirty; auto].
  set (st1 := mk _ _ _ _).
  assert (H1 : sameButDirty st st1) by (unfold sameButDirty; auto).
  clearbody st1. revert st1 H1.
  induction ds as [|d r IHr]; intros st1 H1; simpl.
  - now intros [= <-].
  - destruct (markDirty f st1 d) as [s2|] eqn:E; [|discriminate].
    apply IH in E. intros H. apply (IHr s2); auto.
    destruct H1 as (A & B & C0), E as (A' & B' & C'). unfold sameButDirty.
    splits; congruence.
Qed.

(** *** Dependencies with a cycle *)

(** [k] is on a cycle of dependencies, or reaches one. *)
Definition reachesCycle (k : string) : Prop :=
  exists v, (k = v \/ depReach k v) /\ depReach v v.

Lemma reachesCycle_next k :
  reachesCycle k ->
  exists ds d, JsMap.get D k = Some ds /\ In d ds /\ reachesCycle d.
Proof.
  intros (v & [->|Hkv] & Hvv).
  - destruct (depReach_inv _ _ Hvv) as (d & (ds & Hget & Hin) & Hd).
    exists ds, d. splits; auto. exists v. split; auto.
  - destruct (depReach_inv _ _ Hkv) as (d & (ds & Hget & Hin) & Hd).
    exists ds, d. splits; auto. exists v. split; auto.
Qed.

Lemma markDirty_diverges fuel : forall st key,
  dependencies st = D -> reachesCycle key -> markDirty fuel st key = None.
Proof.
  induction fuel as [|f IH]; intros st key HD Hk; [reflexivity|].
  rewrite markDirty_eq. cbv zeta. rewrite HD.
  destruct (reachesCycle_next key Hk) as (ds & d & Hget & Hin & Hd).
  rewrite Hget.
  assert (Hloop : forall todo s,
             In d todo -> dependencies s = D ->
             forEach (fun x s0 => markDirty f s0 x) todo s = None).
  { induction todo as [|x r IHr]; intros s Hd' Hs; [destruct Hd'|].
    simpl. destruct (markDirty f s x) as [s2|] eqn:E; [|reflexivity].
    destruct Hd' as [->|Hd'].
    - rewrite (IH s d Hs Hd) in E. discriminate.
    - apply IHr; [exact Hd'|].
      apply markDirty_frame in E as (_ & _ & E). rewrite E. exact Hs. }
  apply Hloop; [exact Hin | reflexivity].
Qed.

(** *** Dependencies without a cycle *)

Hypothesis Hac : forall u, ~ depReach u u.

Lemma markDirty_ok fuel : forall (anc : list string) st key,
  dependencies st = D ->
  NoDup anc ->
  (forall a, In a anc -> In a (JsMap.keys D) /\ depReach a key) ->
  (length (JsMap.keys D) < length anc + fuel)%nat ->
  exists st',
    markDirty fuel st key = Some st' /\
    forall x, In x (dirty st') <-> In x (dirty st) \/ x = key \/ depReach key x.
Proof.
  induction fuel as [|f IH]; intros anc st key HD Hnd Hanc Hlen.
  - exfalso.
    assert (length anc <= length (JsMap.keys D))%nat.
    { apply NoDup_incl_length; auto. intros a Ha. now apply Hanc. }
    lia.
  - rewrite markDirty_eq. cbv zeta. rewrite HD.
    destruct (JsMap.get D key) as [ds|] eqn:Hget.
    + set (st1 := mk _ _ _ _).
      assert (Hkey : In key (JsMap.keys D)) by (eapply jsmap_get_Some_in; eauto).
      assert (Hnk : ~ In key anc).
      { intros Hin. apply (Hac key). now apply Hanc. }
      assert (Hloop : forall todo s,
                 incl todo ds -> dependencies s = D ->
                 exists s', forEach (fun d s0 => markDirty f s0 d) todo s = Some s' /\
                   forall x, In x (dirty s') <->
                             In x (dirty s) \/
                             exists d, In d todo /\ (x = d \/ depReach d x)).
      { induction todo as [|d r IHr]; intros s Hincl Hs; simpl.
        - exists s. split; auto. intros x. split; [auto|].
          intros [H|(d & [] & _)]; auto.
        - assert (Hd : In d ds) by (apply Hincl; now left).
          destruct (IH (key :: anc) s d Hs) as (s1 & Hrun & Hdirty).
          + constructor; auto.
          + intros a [<-|Ha].
            * split; auto. apply depReach_step. now exists ds.
            * destruct (Hanc a Ha) as [Hk Hr]. split; auto.
              eapply depReach_snoc; eauto. now exists ds.
          + simpl. lia.
          + rewrite Hrun.
            destruct (IHr s1) as (s' & Hrun' & Hdirty').
            * intros y Hy. apply Hincl. now right.
            * apply markDirty_frame in Hrun as (_ & _ & E). congruence.
            * exists s'. split; auto. intros x. rewrite Hdirty', Hdirty. split.
              -- intros [[H|H]|(y & Hy & Hxy)];
                   [ now left
                   | right; exists d; split; [now left | exact H]
                   | right; exists y; split; [now right | exact Hxy] ].
              -- intros [H|(y & [Heq|Hy] & Hxy)];
                   [ now left; left
                   | subst y; left; right; exact Hxy
                   | right; exists y; auto ]. }
      destruct (Hloop ds st1 (incl_refl _) eq_refl) as (s' & Hrun & Hdirty).
      exists s'. split; auto. intros x. rewrite Hdirty. unfold st1. simpl.
      rewrite jsset_add_in. split.
      * intros [[->|H]|(d & Hd & [->|Hx])]; auto.
        -- right. right. apply depReach_step. now exists ds.
        -- right. right. eapply depReach_cons; [|exact Hx]. now exists ds.
      * intros [H|[->|H]]; auto.
        destruct (depReach_inv _ _ H) as (d & (ds' & Hg & Hd) & Hx).
        rewrite Hget in Hg. injection Hg as <-.
        right. exists d. split; auto. destruct Hx as [->|Hx]; auto.
    + eexists. split; [reflexivity|]. intros x. simpl. rewrite jsset_add_in.
      split; [intros [->|H]; auto|].
      intros [H|[->|H]]; auto.
      destruct (depReach_inv _ _ H) as (d & (ds & Hg & _) & _). congruence.
Qed.
End MarkDirty.

(** X8.  On a state whose registered dependencies have no cycle,
    [markDirty] returns (the fuel of [updateCost] is enough), writes
    nothing but the dirty set, and adds to it exactly the key and the
    keys that depend on it, directly or through other keys. *)
Theorem X8_markDirty_marks_dependents (st : CostState.t) (key : string) (fuel : nat) :
  (forall u, ~ depReach (CostState.dependencies st) u u) ->
  (JsMap.size (CostState.dependencies st) < fuel)%nat ->
  exists st',
    CostState.markDirty fuel st key = Some st' /\
    CostState.costs st' = CostState.costs st /\
    CostState.ruleOutputs st' = CostState.ruleOutputs st /\
    CostState.dependencies st' = CostState.dependencies st /\
    forall x, In x (CostState.dirty st') <->
              In x (CostState.dirty st) \/ x = key \/
              depReach (CostState.dependencies st) key x.
Proof.
  intros Hac Hfuel.
  destruct (markDirty_ok (CostState.dependencies st) Hac fuel [] st key)
    as (st' & Hrun & Hdirty); auto.
  - constructor.
  - intros a [].
  - unfold JsMap.size, JsMap.keys in *. rewrite length_map. simpl. lia.
  - exists st'. destruct (markDirty_frame fuel st key st' Hrun) as (A & B & C0).
    splits; auto.
Qed.

Lemma X8_witness :
  exists st',
    CostState.markDirty 3 (chainState "A" "B" "C") "A" = Some st' /\
    CostState.costs st' = CostState.costs (chainState "A" "B" "C") /\
    CostState.ruleOutputs st' = CostState.ruleOutputs (chainState "A" "B" "C") /\
    CostState.dependencies st' = CostState.dependencies (chainState "A" "B" "C") /\
    forall x, In x (CostState.dirty st') <->
              In x (CostState.dirty (chainState "A" "B" "C")) \/ x = "A" \/
              depReach (CostState.dependencies (chainState "A" "B" "C")) "A" x.
Proof.
  apply (X8_markDirty_marks_dependents (chainState "A" "B" "C") "A" 3).
  - assert (Hedge : forall u v,
               depEdge (CostState.dependencies (chainState "A" "B" "C")) u v ->
               (u = "A" /\ v = "B") \/ (u = "B" /\ v = "C")).
    { intros u v (ds & Hget & Hin).
      rewrite chainState_eq in Hget by discriminate.
      cbn [JsMap.get CostState.dependencies] in Hget.
      destruct (String.eqb_spec "A" u) as [E1|E1].
      - injection Hget as <-. destruct Hin as [<-|[]]. auto.
      - destruct (String.eqb_spec "B" u) as [E2|E2]; [|discriminate].
        injection Hget as <-. destruct Hin as [<-|[]]. auto. }
    assert (Hreach : forall u v,
               depReach (CostState.dependencies (chainState "A" "B" "C")) u v ->
               (u = "A" /\ (v = "B" \/ v = "C")) \/ (u = "B" /\ v = "C")).
    { intros u v H. induction H as [u v H|u v w H _ IH].
      - apply Hedge in H. tauto.
      - apply Hedge in H.
        destruct H as [[-> ->]|[-> ->]], IH as [[E _]|[E ->]];
          try discriminate; auto. }
    intros u Hu. apply Hreach in Hu.
    destruct Hu as [[-> [E|E]]|[-> E]]; discriminate.
  - vm_compute. lia.
Defined.

(** X9.  [markDirty] has no guard against cycles: when the key is on a
    cycle of registered dependencies, or has a dependent that is, the
    recursion does not end. *)
Theorem X9_markDirty_cycle_never_returns (st : CostState.t) (key : string) :
  reachesCycle (CostState.dependencies st) key ->
  forall fuel, CostState.markDirty fuel st key = None.
Proof.
  intros Hk fuel. now apply (markDirty_diverges (CostState.dependencies st)).
Qed.

Lemma X9_witness :
  CostState.markDirty 1000
    (CostState.addDependency (CostState.addDependency CostState.new "A" "B") "B" "A")
    "A" = None.
Proof.
  apply (X9_markDirty_cycle_never_returns
           (CostState.addDependency (CostState.addDependency CostState.new "A" "B") "B" "A")
           "A").
  exists "A". split; [now left|].
  apply depReach_cons with (v := "B").
  - exists ["B"]. split; [vm_compute; reflexivity | now left].
  - apply depReach_step. exists ["A"]. split; [vm_compute; reflexivity | now left].
Defined.

(** ** EntityManager: entities and routes *)

Section Entities.
Import EntityManager.

(** The neighbour record that the constructor stores for a route. *)
Definition routeEdge (r : Route) : Graph.Edge RouteMeta :=
  Graph.mkEdge (rTo r) (mkRouteMeta (itemTypes r) (markupType r) (markupValue r)).

Lemma new_fst_snd (ents : list Entity) : forall (s : JsMap.t Entity * Graph.t RouteMeta),
  fold_left (fun s0 e => (JsMap.set (fst s0) (id e) e, Graph.addNode (snd s0) (id e)))
            ents s
  = (setAll id (fun e => e) ents (fst s),
     fold_left (fun g e => Graph.addNode g (id e)) ents (snd s)).
Proof.
  induction ents as [|e r IH]; intros [m g]; simpl; [reflexivity|].
  rewrite IH. reflexivity.
Qed.

Lemma new_eq (ents : list Entity) (routes : list Route) :
  EntityManager.new ents routes =
  mk (setAll id (fun e => e) ents JsMap.empty)
     (fold_left (fun g r => Graph.addEdge g (rFrom r) (rTo r)
                              (mkRouteMeta (itemTypes r) (markupType r) (markupValue r)))
                routes
                (fold_left (fun g e => Graph.addNode g (id e)) ents Graph.empty)).
Proof.
  unfold EntityManager.new. rewrite new_fst_snd. reflexivity.
Qed.

Lemma getNeighbors_addNodes (ents : list Entity) : forall (g : Graph.t RouteMeta) u,
  Graph.getNeighbors (fold_left (fun g0 e => Graph.addNode g0 (id e)) ents g) u
  = Graph.getNeighbors g u.
Proof.
  induction ents as [|e r IH]; intros g u; simpl; [reflexivity|].
  rewrite IH. apply getNeighbors_addNode.
Qed.

Lemma getNeighbors_addRoutes (routes : list Route) : forall (g : Graph.t RouteMeta) u,
  Graph.getNeighbors
    (fold_left (fun g0 r => Graph.addEdge g0 (rFrom r) (rTo r)
                              (mkRouteMeta (itemTypes r) (markupType r) (markupValue r)))
               routes g) u
  = Graph.getNeighbors g u
    ++ map routeEdge (filter (fun r => String.eqb (rFrom r) u) routes).
Proof.
  induction routes as [|r rest IH]; intros g u; simpl; [now rewrite app_nil_r|].
  rewrite IH, getNeighbors_addEdge.
  destruct (String.eqb (rFrom r) u); simpl; [|reflexivity].
  now rewrite <- app_assoc.
Qed.

(** The routes that leave an entity, in the order given. *)
Lemma getNeighbors_new ents routes u :
  Graph.getNeighbors (transferGraph (EntityManager.new ents routes)) u
  = map routeEdge (filter (fun r => String.eqb (rFrom r) u) routes).
Proof.
  rewrite new_eq. simpl. rewrite getNeighbors_addRoutes, getNeighbors_addNodes.
  reflexivity.
Qed.

Lemma find_map_filter {A B : Type} (g : A -> B) (q : A -> bool) (p : B -> bool)
      (l : list A) :
  find p (map g (filter q l)) = option_map g (find (fun x => q x && p (g x)) l).
Proof.
  induction l as [|x r IH]; simpl; [reflexivity|].
  destruct (q x); simpl; [|exact IH].
  destruct (p (g x)); simpl; [reflexivity | exact IH].
Qed.

(** X10.  In a manager built by the constructor, [getEntity] returns
    the last entity given with the id, and [getTransferRoute] returns
    the first route given from the one entity to the other, or
    nothing when there is none. *)
Theorem X10_getTransferRoute_first_route
        (ents : list Entity) (routes : list Route) :
  let em := EntityManager.new ents routes in
  (forall k, getEntity em k = lastWith id k ents) /\
  (forall fromEntity toEntity,
      getTransferRoute em fromEntity toEntity
      = option_map routeEdge
          (find (fun r => String.eqb (rFrom r) fromEntity
                          && String.eqb (rTo r) toEntity) routes)) /\
  (forall fromEntity toEntity,
      getTransferRoute em fromEntity toEntity = None <->
      forall r, In r routes -> ~ (rFrom r = fromEntity /\ rTo r = toEntity)).
Proof.
  intros em.
  assert (Hroute : forall f t,
             getTransferRoute em f t
             = option_map routeEdge
                 (find (fun r => String.eqb (rFrom r) f && String.eqb (rTo r) t) routes)).
  { intros f t. unfold getTransferRoute, em. rewrite getNeighbors_new.
    apply find_map_filter. }
  splits; auto.
  - intros k. unfold em, getEntity. rewrite new_eq. simpl.
    rewrite setAll_get. simpl. now destruct (lastWith id k ents).
  - intros f t. rewrite Hroute. split.
    + intros H r Hr [Hf Ht].
      destruct (find _ routes) as [x|] eqn:E; [discriminate|].
      pose proof (find_none _ _ E r Hr) as Hn. simpl in Hn.
      rewrite Hf, Ht, !String.eqb_refl in Hn. discriminate.
    + intros H. destruct (find _ routes) as [x|] eqn:E; [|reflexivity].
      apply find_some in E as [Hx He]. apply andb_prop in He as [Hf Ht].
      apply String.eqb_eq in Hf, Ht. exfalso. exact (H x Hx (conj Hf Ht)).
Qed.
End Entities.

(** ** CostCalculator: the constructor *)

Section CalculatorConstructor.
Import CostState CostCalculator.

(** X11.  The constructor of [CostCalculator] validates the bill of
    materials first and the rules second: a cycle in the bill throws
    the BOM message whatever the rules are, a cycle in the rule
    dependencies throws the rule message, and otherwise the calculator
    starts with no cost record, no rule output, no dependency, no
    dirty key, no contribution and no warning. *)
Theorem X11_CostCalculator_new_validates (config : Config) :
  let bg := snd (BOMProcessor.index (cfgBillOfMaterials config)) in
  let rg := RuleEngine.buildGraph (cfgAllocationRules config) in
  (hasCycle bg /\
   exists cs, cs <> [] /\ Forall (isCycle bg) cs /\
              CostCalculator.new config = Throw (BOMProcessor.cyclesMessage cs)) \/
  (acyclic bg /\ hasCycle rg /\
   exists cs, cs <> [] /\ Forall (isCycle rg) cs /\
              CostCalculator.new config = Throw (RuleEngine.cyclesMessage cs)) \/
  (acyclic bg /\ acyclic rg /\
   exists c, CostCalculator.new config = Ok c /\
             costState c = CostState.new /\ auditTrail c = [] /\ warnings c = [] /\
             currencyConverter c = CurrencyConverter.mk (cfgExchangeRates config) /\
             entityManager c
             = EntityManager.new (cfgEntities config) (cfgTransferRoutes config) /\
             RuleEngine.new (cfgAllocationRules config) = Ok (ruleEngine c) /\
             BOMProcessor.new (cfgBillOfMaterials config) = Ok (bomProcessor c)).
Proof.
  intros bg rg. unfold CostCalculator.new.
  destruct (new_dichotomy (cfgBillOfMaterials config))
    as [(Hb & Hbn)|(Hb & cs & Hne & Hfa & Hthrow)].
  - rewrite Hbn. simpl.
    destruct (RuleEngine_new_dichotomy (cfgAllocationRules config))
      as [(Hr & order & Hrn & _)|(Hr & cs & Hne & Hfa & Hthrow)].
    + right. right. rewrite Hrn. simpl. splits; auto.
      eexists. splits; reflexivity.
    + right. left. rewrite Hthrow. simpl. splits; auto.
      exists cs. splits; auto.
  - left. rewrite Hthrow. simpl. split; auto. exists cs. splits; auto.
Qed.
End CalculatorConstructor.

(** ** CostCalculator: the index of period costs *)

Section PeriodCosts.
Import CostCalculator.

(** The entries of the dataset, one for each period of each entry,
    under the key that [indexPeriodCosts] gives them. *)
Definition periodEntries (pcs : list PeriodCostEntry) : list (string * ItemCost) :=
  flat_map
    (fun cost =>
       map (fun pd : string * ItemCost =>
              (pceItemId cost +++ ":" +++ pceEntityId cost +++ ":" +++ fst pd, snd pd))
           (pcePeriods cost))
    pcs.

Lemma setAll_app {A V : Type} (key : A -> string) (val : A -> V) xs ys m :
  setAll key val (xs ++ ys) m = setAll key val ys (setAll key val xs m).
Proof. unfold setAll. apply fold_left_app. Qed.

Lemma indexPeriodCosts_from pcs : forall index,
  fold_left
    (fun index0 cost =>
       fold_left
         (fun index' (pd : string * ItemCost) =>
            JsMap.set index'
              (pceItemId cost +++ ":" +++ pceEntityId cost +++ ":" +++ fst pd)
              (snd pd))
         (pcePeriods cost) index0)
    pcs index
  = setAll fst snd (periodEntries pcs) index.
Proof.
  induction pcs as [|cost r IH]; intros index; simpl; [reflexivity|].
  rewrite IH, setAll_app. f_equal.
  generalize (pcePeriods cost) index. clear.
  induction l as [|pd l IH]; intros index; simpl; [reflexivity|].
  rewrite IH. reflexivity.
Qed.

(** X12.  [getItemCost] on a calculator built from a configuration
    returns the data of the last period entry of the dataset whose key
    (item, entity and period joined by [":"]) is the key looked up,
    and nothing when no entry has this key. *)
Theorem X12_getItemCost_last_entry (config : Config) (c : t)
        (itemId entityId period : string) :
  CostCalculator.new config = Ok c ->
  getItemCost c itemId entityId period
  = option_map snd
      (lastWith fst (itemId +++ ":" +++ entityId +++ ":" +++ period)
                (periodEntries (cfgPeriodCosts config))).
Proof.
  unfold CostCalculator.new.
  destruct (BOMProcessor.new _); simpl; try discriminate.
  destruct (RuleEngine.new _); simpl; try discriminate.
  intros [= <-]. unfold getItemCost, indexPeriodCosts. simpl.
  rewrite indexPeriodCosts_from, setAll_get. simpl.
  now destruct (lastWith fst _ _).
Qed.

Lemma X12_witness :
  getItemCost plant "L" "E" "2024-Q4"
  = option_map snd
      (lastWith fst ("L" +++ ":" +++ "E" +++ ":" +++ "2024-Q4")
                (periodEntries (cfgPeriodCosts plantConfig))).
Proof.
  apply (X12_getItemCost_last_entry plantConfig plant "L" "E" "2024-Q4").
  vm_compute. reflexivity.
Defined.
End PeriodCosts.

(** ** CostCalculator: the audit trail reconciles with the total *)

Section AuditTrail.
Import CostState CostCalculator.
Variables p e : string.

Definition sumAmounts (l : list Contribution) : Q :=
  fold_right (fun k s => conAmount k + s) 0 l.

(** Contributions recorded for the product and the entity. *)
Definition keyed (l : list Contribution) : Prop :=
  Forall (fun k => conKey k = p +++ ":" +++ e) l.

Lemma sumAmounts_app l1 l2 :
  sumAmounts (l1 ++ l2) == sumAmounts l1 + sumAmounts l2.
Proof.
  induction l1 as [|k r IH]; simpl; [ring|]. rewrite IH. ring.
Qed.

Lemma getContributions_app l added :
  keyed added ->
  getContributions (l ++ added) p e = getContributions l p e ++ added.
Proof.
  intros H. unfold getContributions. rewrite filter_app. f_equal.
  induction H as [|k r Hk _ IH]; cbn [filter]; [reflexivity|].
  rewrite Hk, String.eqb_refl, IH. reflexivity.
Qed.

Lemma keyed_app l1 l2 : keyed l1 -> keyed l2 -> keyed (l1 ++ l2).
Proof. unfold keyed. intros. apply Forall_app. auto. Qed.

Lemma keyed_record rid amt : keyed [mkContribution (p +++ ":" +++ e) rid amt].
Proof. repeat constructor. Qed.

(** What a step adds to the trail and to the total. *)
Definition adds (audit audit' : list Contribution) (total total' : Q) : Prop :=
  exists added,
    audit' = audit ++ added /\ keyed added /\ total' == total + sumAmounts added.

Lemma adds_refl audit total : adds audit audit total total.
Proof. exists []. rewrite app_nil_r. splits; auto; [constructor | simpl; ring]. Qed.

Lemma adds_one audit total rid amt :
  adds audit (recordContribution audit p e rid amt) total (total + amt).
Proof.
  exists [mkContribution (p +++ ":" +++ e) rid amt]. splits; auto.
  - apply keyed_record.
  - simpl. ring.
Qed.

Lemma adds_trans a1 a2 a3 t1 t2 t3 :
  adds a1 a2 t1 t2 -> adds a2 a3 t2 t3 -> adds a1 a3 t1 t3.
Proof.
  intros (x & -> & Kx & Hx) (y & -> & Ky & Hy).
  exists (x ++ y). rewrite app_assoc. splits; auto.
  - now apply keyed_app.
  - rewrite sumAmounts_app, Hy, Hx. ring.
Qed.

Lemma royaltyRoute_adds rid acc route :
  adds (raAudit acc) (raAudit (royaltyRoute p e rid acc route))
       (totalCost (raCost acc)) (totalCost (raCost (royaltyRoute p e rid acc route))).
Proof.
  unfold royaltyRoute. destruct (String.eqb _ _); [|apply adds_refl].
  simpl. apply adds_one.
Qed.

Lemma mgmtRoute_adds rid acc route :
  adds (raAudit acc) (raAudit (mgmtRoute p e rid acc route))
       (totalCost (raCost acc)) (totalCost (raCost (mgmtRoute p e rid acc route))).
Proof.
  unfold mgmtRoute. destruct (String.eqb _ _); [|apply adds_refl].
  simpl. apply adds_one.
Qed.

Lemma fold_routes_adds (f : RuleAcc -> EntityManager.Route -> RuleAcc) :
  (forall acc route,
      adds (raAudit acc) (raAudit (f acc route))
           (totalCost (raCost acc)) (totalCost (raCost (f acc route)))) ->
  forall routes acc,
    adds (raAudit acc) (raAudit (fold_left f routes acc))
         (totalCost (raCost acc)) (totalCost (raCost (fold_left f routes acc))).
Proof.
  intros Hf. induction routes as [|r rs IH]; intros acc; simpl; [apply adds_refl|].
  eapply adds_trans; [apply Hf | apply IH].
Qed.

Lemma ruleSwitch_adds c rule per cur cost acc :
  ruleSwitch c rule p e per cur cost = Ok acc ->
  adds (auditTrail c) (raAudit acc) (totalCost cost) (totalCost (raCost acc)).
Proof.
  unfold ruleSwitch. cbv zeta.
  repeat match goal with
         | |- (if ?b then _ else _) = _ -> _ => destruct b
         | |- match ?x with Some _ => _ | None => _ end = _ -> _ => destruct x
         | |- bind ?x _ = _ -> _ => destruct x; cbn [bind]
         end;
    try discriminate.
  all: try (intros [= <-]; cbn [raAudit raCost totalCost setTotalCost];
            apply adds_refl).
  all: try (intros [= <-]; cbn [raAudit raCost totalCost setTotalCost];
            apply adds_one).
  - intros [= <-].
    apply (fold_routes_adds (royaltyRoute p e (RuleEngine.id rule))
             (royaltyRoute_adds (RuleEngine.id rule))
             (routesFor c e "royalty") (mkRuleAcc cost 0 (auditTrail c))).
  - intros [= <-].
    apply (fold_routes_adds (mgmtRoute p e (RuleEngine.id rule))
             (mgmtRoute_adds (RuleEngine.id rule))
             (routesFor c e "mgmt-fee") (mkRuleAcc cost 0 (auditTrail c))).
Qed.

Lemma applyRule_adds c rule per cur c' cost :
  getCost (costState c) p e per = Some cost ->
  applyRule c rule p e per cur = Ok c' ->
  exists cost',
    getCost (costState c') p e per = Some cost' /\
    adds (auditTrail c) (auditTrail c') (totalCost cost) (totalCost cost').
Proof.
  intros Hget. unfold applyRule. rewrite Hget.
  destruct (ruleSwitch c rule p e per cur cost) as [acc| |] eqn:E; simpl;
    try discriminate.
  intros [= <-]. simpl. rewrite getCost_setCost. eexists. split; [reflexivity|].
  simpl. now apply ruleSwitch_adds in E.
Qed.

Lemma applyRules_adds per cur rs : forall c cost tr,
  getCost (costState c) p e per = Some cost ->
  applyRules p e per cur c rs = Ok tr ->
  Forall (fun c' => exists cost',
            getCost (costState c') p e per = Some cost' /\
            adds (auditTrail c) (auditTrail c') (totalCost cost) (totalCost cost')) tr.
Proof.
  induction rs as [|rule rest IH]; intros c cost tr Hget; simpl.
  - intros [= <-]. constructor.
  - destruct (applyRule c rule p e per cur) as [c'| |] eqn:E; simpl; try discriminate.
    destruct (applyRules p e per cur c' rest) as [tr'| |] eqn:E'; simpl;
      try discriminate.
    intros [= <-].
    destruct (applyRule_adds _ _ _ _ _ _ Hget E) as (cost' & Hget' & Hadds).
    constructor; [eauto|].
    specialize (IH c' cost' tr' Hget' E').
    rewrite Forall_forall in *. intros x Hx.
    destruct (IH x Hx) as (cx & Hgx & Hax). exists cx. split; auto.
    eapply adds_trans; eauto.
Qed.

Lemma calculateBaseCost_adds c per cur bd c1 :
  calculateBaseCost c p e per cur = Ok (Some bd, c1) ->
  exists cost,
    getCost (costState c1) p e per = Some cost /\
    adds (auditTrail c) (auditTrail c1) 0 (totalCost cost).
Proof.
  unfold calculateBaseCost.
  destruct (BOMProcessor.getProduct (bomProcessor c) p) as [product|]; [|discriminate].
  match goal with |- bind ?X _ = _ -> _ => destruct X as [acc| |] end;
    simpl; try discriminate.
  intros [= <- <-]. simpl. rewrite getCost_setCost. eexists. split; [reflexivity|].
  simpl. exists [mkContribution (p +++ ":" +++ e) "BASE" (accMaterial acc + accLabor acc)].
  splits; auto; [apply keyed_record | simpl; ring].
Qed.
End AuditTrail.

(** X13.  The audit trail reconciles with the cost record: when the
    trail has no contribution for a product and an entity, the base cost
    is computed and then rules are applied, the [totalCost] of the
    record is, after each of these steps, the sum of the amounts that
    [getContributions] returns for the product and the entity. *)
Theorem X13_contributions_sum_to_totalCost
        (c : CostCalculator.t) (p e per cur : string) (bd : CostState.Cost)
        (c1 : CostCalculator.t) (rs : list RuleEngine.Rule)
        (tr : list CostCalculator.t) :
  CostCalculator.getContributions (CostCalculator.auditTrail c) p e = [] ->
  CostCalculator.calculateBaseCost c p e per cur = Ok (Some bd, c1) ->
  applyRules p e per cur c1 rs = Ok tr ->
  Forall (fun c' => exists cost,
            CostState.getCost (CostCalculator.costState c') p e per = Some cost /\
            CostState.totalCost cost ==
            sumAmounts (CostCalculator.getContributions
                          (CostCalculator.auditTrail c') p e))
         (c1 :: tr).
Proof.
  intros Hnone Hbase Hrun.
  destruct (calculateBaseCost_adds p e c per cur bd c1 Hbase) as (cost1 & Hget1 & Hadd1).
  assert (Hfin : forall c' cost' ,
             adds p e (CostCalculator.auditTrail c) (CostCalculator.auditTrail c')
                  0 (CostState.totalCost cost') ->
             CostState.totalCost cost' ==
             sumAmounts (CostCalculator.getContributions
                           (CostCalculator.auditTrail c') p e)).
  { intros c' cost' (added & -> & Hk & Hsum).
    rewrite getContributions_app by exact Hk. rewrite Hnone. simpl.
    rewrite Hsum. ring. }
  constructor.
  - exists cost1. split; auto.
  - pose proof (applyRules_adds p e per cur rs c1 cost1 tr Hget1 Hrun) as Hfa.
    rewrite Forall_forall in *. intros x Hx.
    destruct (Hfa x Hx) as (cx & Hgx & Hax). exists cx. split; auto.
    apply Hfin. eapply adds_trans; eauto.
Qed.

Lemma X13_witness :
  exists bd c1 tr,
    CostCalculator.calculateBaseCost plant "P" "E" "2024-Q4" "USD" = Ok (Some bd, c1) /\
    applyRules "P" "E" "2024-Q4" "USD" c1 plantRules = Ok tr /\
    Forall (fun c' => exists cost,
              CostState.getCost (CostCalculator.costState c') "P" "E" "2024-Q4"
              = Some cost /\
              CostState.totalCost cost ==
              sumAmounts (CostCalculator.getContributions
                            (CostCalculator.auditTrail c') "P" "E"))
           (c1 :: tr).
Proof.
  eexists _, _, _.
  split; [vm_compute; reflexivity|].
  split; [vm_compute; reflexivity|].
  match goal with
  | |- Forall _ (?c1 :: ?tr) =>
      eapply (X13_contributions_sum_to_totalCost plant "P" "E" "2024-Q4" "USD"
                _ c1 plantRules tr)
  end; vm_compute; reflexivity.
Defined.

(** ** CostCalculator: what the calculation steps leave alone *)

Section Setup.
Import CostState CostCalculator.

(** The two calculators differ at most in their cost records, rule
    outputs and audit trail. *)
Definition sameSetup (c c' : t) : Prop :=
  bomProcessor c' = bomProcessor c /\
  currencyConverter c' = currencyConverter c /\
  entityManager c' = entityManager c /\
  ruleEngine c' = ruleEngine c /\
  periodCosts c' = periodCosts c /\
  productionVolumes c' = productionVolumes c /\
  costPools c' = costPools c /\
  transferRoutes c' = transferRoutes c /\
  warnings c' = warnings c /\
  dependencies (costState c') = dependencies (costState c) /\
  dirty (costState c') = dirty (costState c).

Lemma sameSetup_refl c : sameSetup c c.
Proof. unfold sameSetup. splits; reflexivity. Qed.

Lemma sameSetup_trans c1 c2 c3 : sameSetup c1 c2 -> sameSetup c2 c3 -> sameSetup c1 c3.
Proof.
  unfold sameSetup.
  intros (A1 & A2 & A3 & A4 & A5 & A6 & A7 & A8 & A9 & A10 & A11)
         (B1 & B2 & B3 & B4 & B5 & B6 & B7 & B8 & B9 & B10 & B11).
  splits; congruence.
Qed.

Lemma forEachM_sameSetup {A : Type} (body : A -> t -> outcome t) (l : list A) :
  (forall a s s', body a s = Ok s' -> sameSetup s s') ->
  forall s s', forEachM body l s = Ok s' -> sameSetup s s'.
Proof.
  intros Hb. induction l as [|a r IH]; simpl; intros s s'.
  - intros [= <-]. apply sameSetup_refl.
  - destruct (body a s) as [s1| |] eqn:E; simpl; try discriminate.
    intros H. eapply sameSetup_trans; [eapply Hb; eauto | eapply IH; eauto].
Qed.

Lemma calculateBaseCost_sameSetup c p e per cur r c' :
  calculateBaseCost c p e per cur = Ok (r, c') -> sameSetup c c'.
Proof.
  unfold calculateBaseCost.
  destruct (BOMProcessor.getProduct _ _); [|intros [= _ <-]; apply sameSetup_refl].
  match goal with |- bind ?X _ = _ -> _ => destruct X end; simpl; try discriminate.
  intros [= _ <-]. unfold sameSetup. simpl. splits; reflexivity.
Qed.

Lemma applyRule_sameSetup c rule p e per cur c' :
  applyRule c rule p e per cur = Ok c' -> sameSetup c c'.
Proof.
  unfold applyRule.
  destruct (getCost _ _ _ _); [|intros [= <-]; apply sameSetup_refl].
  destruct (ruleSwitch _ _ _ _ _ _ _); simpl; try discriminate.
  intros [= <-]. unfold sameSetup. simpl. splits; reflexivity.
Qed.

Lemma executeRule_sameSetup c rid ps per cur c' :
  executeRule c rid ps per cur = Ok c' -> sameSetup c c'.
Proof.
  unfold executeRule.
  destruct (RuleEngine.getRule _ _) as [rule|]; [|intros [= <-]; apply sameSetup_refl].
  apply forEachM_sameSetup. intros pid s s'.
  apply forEachM_sameSetup. intros ent s1 s1'. apply applyRule_sameSetup.
Qed.

Lemma calculateTransferPrice_sameSetup c p dest per cur c' :
  calculateTransferPrice c p dest per cur = Ok c' -> sameSetup c c'.
Proof.
  unfold calculateTransferPrice.
  destruct (EntityManager.getEntity _ _); [|intros [= <-]; apply sameSetup_refl].
  destruct (negb _); [intros [= <-]; apply sameSetup_refl|].
  destruct (selectBestPath _ _ _ _) as [[[[bc bp] src]|]| |]; simpl;
    try discriminate; [|intros [= <-]; apply sameSetup_refl].
  destruct (getCost _ _ _ _); [|discriminate].
  intros [= <-]. unfold sameSetup. simpl. splits; reflexivity.
Qed.

Lemma weighEntity_sameSetup p per priors c ent :
  sameSetup c (weighEntity p per priors c ent).
Proof.
  unfold weighEntity. destruct (getCost _ _ _ _); [|apply sameSetup_refl].
  unfold sameSetup. simpl. splits; reflexivity.
Qed.

Lemma calculateWeightedAverage_sameSetup c p per cur :
  sameSetup c (calculateWeightedAverage c p per cur).
Proof.
  unfold calculateWeightedAverage.
  assert (H : forall priors ents s,
             sameSetup s (fold_left (weighEntity p per priors) ents s)).
  { intros priors. induction ents as [|ent r IH]; intros s; simpl;
      [apply sameSetup_refl|].
    eapply sameSetup_trans; [apply weighEntity_sameSetup | apply IH]. }
  apply H.
Qed.

Lemma royaltyIteration_sameSetup c p e per cur c' :
  royaltyIteration c p e per cur = Ok c' -> sameSetup c c'.
Proof.
  unfold royaltyIteration.
  destruct (calculateBaseCost c p e per cur) as [[r c1]| |] eqn:E; simpl;
    try discriminate.
  intros H. eapply sameSetup_trans; [eapply calculateBaseCost_sameSetup; eauto|].
  revert H. apply forEachM_sameSetup. intros rid s s'. unfold royaltyRuleStep.
  destruct (RuleEngine.getRule _ _); [|discriminate].
  destruct (isRoyaltyRule _); [apply applyRule_sameSetup|].
  intros [= <-]. apply sameSetup_refl.
Qed.

Lemma iterate_sameSetup p e per cur k : forall c c',
  iterate p e per cur k c = Ok c' -> sameSetup c c'.
Proof.
  induction k as [|k IH]; intros c c'; simpl.
  - intros [= <-]. apply sameSetup_refl.
  - destruct (royaltyIteration c p e per cur) as [c1| |] eqn:E; simpl;
      try discriminate.
    intros H. eapply sameSetup_trans;
      [eapply royaltyIteration_sameSetup; eauto | eapply IH; eauto].
Qed.

Lemma resolveRoyaltyCycle_sameSetup c p e per cur n tol r c' :
  resolveRoyaltyCycle c p e per cur n tol = Ok (r, c') -> sameSetup c c'.
Proof.
  intros H.
  destruct (resolveRoyaltyCycle_spec p e per cur n tol c) as (_ & Hok & _).
  destruct (Hok r c' H) as (_ & Hit & _).
  eapply iterate_sameSetup; eauto.
Qed.

(** *** updateCost *)

(** The calculators that a new one leads to through [calculateBaseCost],
    [applyRule], [executeRule], [calculateTransferPrice],
    [calculateWeightedAverage], [resolveRoyaltyCycle] and [updateCost]. *)
Inductive derived (c0 : t) : t -> Prop :=
| derived_start : derived c0 c0
| derived_base c p e per cur r c' :
    derived c0 c -> calculateBaseCost c p e per cur = Ok (r, c') -> derived c0 c'
| derived_rule c rule p e per cur c' :
    derived c0 c -> applyRule c rule p e per cur = Ok c' -> derived c0 c'
| derived_execute c rid ps per cur c' :
    derived c0 c -> executeRule c rid ps per cur = Ok c' -> derived c0 c'
| derived_transfer c p dest per cur c' :
    derived c0 c -> calculateTransferPrice c p dest per cur = Ok c' -> derived c0 c'
| derived_average c p per cur :
    derived c0 c -> derived c0 (calculateWeightedAverage c p per cur)
| derived_resolve c p e per cur n tol r c' :
    derived c0 c -> resolveRoyaltyCycle c p e per cur n tol = Ok (r, c') ->
    derived c0 c'
| derived_update c item e per v keys c' :
    derived c0 c -> updateCost c item e per v = Some (keys, c') -> derived c0 c'.

Lemma updateCost_dependencies c item e per v keys c' :
  updateCost c item e per v = Some (keys, c') ->
  dependencies (costState c') = dependencies (costState c).
Proof.
  unfold updateCost.
  destruct (markDirty _ _ _) as [st|] eqn:E; [|discriminate].
  intros [= _ <-]. simpl. now apply markDirty_frame in E as (_ & _ & E).
Qed.

Lemma derived_dependencies c0 c :
  derived c0 c -> dependencies (costState c) = dependencies (costState c0).
Proof.
  induction 1 as [|c p e per cur r c' _ IH H|c rule p e per cur c' _ IH H
                  |c rid ps per cur c' _ IH H|c p dest per cur c' _ IH H
                  |c p per cur _ IH|c p e per cur n tol r c' _ IH H
                  |c item e per v keys c' _ IH H]; auto.
  - apply calculateBaseCost_sameSetup in H. unfold sameSetup in H.
    destruct H as (_ & _ & _ & _ & _ & _ & _ & _ & _ & H & _). congruence.
  - apply applyRule_sameSetup in H.
    destruct H as (_ & _ & _ & _ & _ & _ & _ & _ & _ & H & _). congruence.
  - apply executeRule_sameSetup in H.
    destruct H as (_ & _ & _ & _ & _ & _ & _ & _ & _ & H & _). congruence.
  - apply calculateTransferPrice_sameSetup in H.
    destruct H as (_ & _ & _ & _ & _ & _ & _ & _ & _ & H & _). congruence.
  - destruct (calculateWeightedAverage_sameSetup c p per cur)
      as (_ & _ & _ & _ & _ & _ & _ & _ & _ & H & _). congruence.
  - apply resolveRoyaltyCycle_sameSetup in H.
    destruct H as (_ & _ & _ & _ & _ & _ & _ & _ & _ & H & _). congruence.
  - apply updateCost_dependencies in H. congruence.
Qed.

(** X14.  None of the methods [calculateBaseCost], [applyRule],
    [executeRule], [calculateTransferPrice], [calculateWeightedAverage],
    [resolveRoyaltyCycle] and [updateCost] registers a dependency: on
    every calculator reached through them from a new one the dependency
    map is empty.  [updateCost] therefore marks the key of the updated item
    and no other: it returns the keys that were dirty before and this
    key, and no key of a product that uses the item; it writes the
    new unit cost into the period costs when the item has an entry
    there, keeping its currency, and adds no entry otherwise. *)
Theorem X14_updateCost_marks_only_the_item
        (config : Config) (c0 c : t) (itemId entityId period : string) (newCost : Q) :
  CostCalculator.new config = Ok c0 ->
  derived c0 c ->
  dependencies (costState c) = JsMap.empty /\
  exists c',
    updateCost c itemId entityId period newCost
    = Some (JsSet.add (dirty (costState c)) (getCostKey itemId entityId period), c') /\
    costs (costState c') = costs (costState c) /\
    getItemCost c' itemId entityId period
    = option_map (fun d => mkItemCost newCost (icCurrency d))
                 (getItemCost c itemId entityId period).
Proof.
  intros Hnew Hd.
  assert (H0 : dependencies (costState c0) = JsMap.empty).
  { revert Hnew. unfold CostCalculator.new.
    destruct (BOMProcessor.new _); simpl; try discriminate.
    destruct (RuleEngine.new _); simpl; try discriminate.
    now intros [= <-]. }
  assert (Hdeps : dependencies (costState c) = JsMap.empty).
  { rewrite (derived_dependencies _ _ Hd). exact H0. }
  split; [exact Hdeps|].
  unfold updateCost. rewrite Hdeps. cbn [JsMap.size JsMap.empty length].
  rewrite markDirty_eq. cbv zeta. rewrite Hdeps. cbn [JsMap.get JsMap.empty].
  eexists. split; [reflexivity|]. split; [reflexivity|].
  unfold getItemCost. cbn [periodCosts].
  destruct (JsMap.get (periodCosts c) _) as [d|] eqn:E; simpl.
  - apply jsmap_get_set_same.
  - exact E.
Qed.

Lemma X14_witness :
  dependencies (costState plant) = JsMap.empty /\
  exists c',
    updateCost plant "L" "E" "2024-Q4" 12
    = Some (JsSet.add (dirty (costState plant)) (getCostKey "L" "E" "2024-Q4"), c') /\
    costs (costState c') = costs (costState plant) /\
    getItemCost c' "L" "E" "2024-Q4"
    = option_map (fun d => mkItemCost 12 (icCurrency d))
                 (getItemCost plant "L" "E" "2024-Q4").
Proof.
  apply (X14_updateCost_marks_only_the_item plantConfig plant plant "L" "E" "2024-Q4" 12).
  - vm_compute. reflexivity.
  - apply derived_start.
Defined.
End Setup.

(** ** Keys: joining is injective in the middle id *)

Lemma string_length_append (a b : string) :
  String.length (a ++ b) = (String.length a + String.length b)%nat.
Proof. induction a as [|ch a IH]; simpl; [reflexivity|]. now rewrite IH. Qed.

Lemma append_cancel_r (s a b : string) : (a ++ s = b ++ s)%string -> a = b.
Proof.
  revert b. induction a as [|ch a IH]; intros [|ch' b] H; simpl in H.
  - reflexivity.
  - exfalso. apply (f_equal String.length) in H. simpl in H.
    rewrite string_length_append in H. lia.
  - exfalso. apply (f_equal String.length) in H. simpl in H.
    rewrite string_length_append in H. lia.
  - injection H as -> H. f_equal. now apply IH.
Qed.

Lemma append_cancel_l (s a b : string) : (s ++ a = s ++ b)%string -> a = b.
Proof. induction s as [|ch s IH]; simpl; [auto|]. intros [= H]. auto. Qed.

(** Two keys with the same product and the same period belong to the
    same entity; two keys with the same entity and period, to the same
    product. *)
Lemma getCostKey_entity p e e' per :
  CostState.getCostKey p e per = CostState.getCostKey p e' per -> e = e'.
Proof.
  unfold CostState.getCostKey, cat. intros H.
  apply append_cancel_l in H. apply append_cancel_l in H.
  now apply append_cancel_r in H.
Qed.

Lemma getCostKey_product p p' e per :
  CostState.getCostKey p e per = CostState.getCostKey p' e per -> p = p'.
Proof.
  unfold CostState.getCostKey, cat. intros H. now apply append_cancel_r in H.
Qed.

(** ** resolveRoyaltyCycle: the second turn repeats the first *)

Lemma forEachM_ext {A S : Type} (f g : A -> S -> outcome S) (l : list A) :
  (forall a s, In a l -> f a s = g a s) ->
  forall s, forEachM f l s = forEachM g l s.
Proof.
  induction l as [|a r IH]; intros H s; simpl; [reflexivity|].
  rewrite (H a s (or_introl eq_refl)).
  destruct (g a s); simpl; auto. apply IH. intros x y Hx. apply H. now right.
Qed.

Section RoyaltyRepeats.
Import CostState CostCalculator.
Variables p e per cur : string.

Local Abbreviation key := (getCostKey p e per).

Definition sameInputs (c d : t) : Prop :=
  bomProcessor d = bomProcessor c /\
  currencyConverter d = currencyConverter c /\
  entityManager d = entityManager c /\
  ruleEngine d = ruleEngine c /\
  periodCosts d = periodCosts c /\
  transferRoutes d = transferRoutes c.

(** The same inputs and the same cost records. *)
Definition agree (c d : t) : Prop :=
  sameInputs c d /\
  forall k, JsMap.get (costs (costState d)) k = JsMap.get (costs (costState c)) k.

(** The same inputs and the same cost records but for the record of
    the product itself. *)
Definition agreeOff (c d : t) : Prop :=
  sameInputs c d /\
  forall k, k <> key ->
            JsMap.get (costs (costState d)) k = JsMap.get (costs (costState c)) k.

Variable product : BOMProcessor.BomItem.

(** No component of the product has the key of the product. *)
Definition notOwnComponent : Prop :=
  forall comp,
    In comp (BOMProcessor.components product) ->
    getCostKey (BOMProcessor.itemId comp) e per <> key.

Hypothesis Hself : notOwnComponent.

Lemma baseComponent_agreeOff c d comp acc :
  agreeOff c d ->
  getCostKey (BOMProcessor.itemId comp) e per <> key ->
  baseComponent d e per cur comp acc = baseComponent c e per cur comp acc.
Proof.
  intros ((_ & Hcc & _ & _ & Hpc & _) & Hoff) Hk.
  unfold baseComponent, getItemCost, getCost. cbv zeta.
  rewrite Hcc, Hpc, (Hoff _ Hk). reflexivity.
Qed.

(** The accumulator that [calculateBaseCost] builds for the product. *)
Definition baseAcc (c : t) : outcome BaseAcc :=
  match BOMProcessor.components product with
  | [] =>
      match getItemCost c p e per with
      | Some costData =>
          dm <- CurrencyConverter.convert (currencyConverter c)
                  (icUnit costData) (icCurrency costData) cur per ;;
          Ok (mkBaseAcc dm 0 [])
      | None => Ok (mkBaseAcc 0 0 [])
      end
  | comps => forEachM (baseComponent c e per cur) comps (mkBaseAcc 0 0 [])
  end.

Lemma baseAcc_agreeOff c d : agreeOff c d -> baseAcc d = baseAcc c.
Proof.
  intros Hag. pose proof Hag as ((_ & Hcc & _ & _ & Hpc & _) & Hoff).
  unfold baseAcc. destruct (BOMProcessor.components product) as [|c0 cs] eqn:Ec.
  - unfold getItemCost. rewrite Hpc, Hcc. reflexivity.
  - apply forEachM_ext. intros comp s Hin.
    apply baseComponent_agreeOff; auto. apply Hself. now rewrite Ec.
Qed.

Lemma calculateBaseCost_eq c :
  BOMProcessor.getProduct (bomProcessor c) p = Some product ->
  calculateBaseCost c p e per cur =
  (acc <- baseAcc c ;;
   Ok (Some (baseBreakdown acc),
       withState c (setCost (costState c) p e per (baseBreakdown acc))
                 (recordContribution (auditTrail c) p e "BASE"
                                     (accMaterial acc + accLabor acc)))).
Proof.
  intros Hp. unfold calculateBaseCost, baseAcc. rewrite Hp.
  destruct (BOMProcessor.components product); reflexivity.
Qed.

Lemma calculateBaseCost_agreeOff c d r c1 :
  BOMProcessor.getProduct (bomProcessor c) p = Some product ->
  agreeOff c d ->
  calculateBaseCost c p e per cur = Ok (r, c1) ->
  exists d1, calculateBaseCost d p e per cur = Ok (r, d1) /\ agree c1 d1.
Proof.
  intros Hp Hag. pose proof Hag as ((Hbp & Hcc & Hem & Hre & Hpc & Htr) & Hoff).
  rewrite !calculateBaseCost_eq by (rewrite ?Hbp; exact Hp).
  rewrite (baseAcc_agreeOff c d Hag).
  destruct (baseAcc c) as [acc| |]; simpl; try discriminate.
  intros [= <- <-]. eexists. split; [reflexivity|].
  split; [unfold sameInputs; simpl; splits; auto|].
  intros k. simpl.
  destruct (String.eqb_spec key k) as [<-|Hne].
  - now rewrite !jsmap_get_set_same.
  - rewrite !jsmap_get_set_other by exact Hne. apply Hoff. congruence.
Qed.

(** *** The royalty rules *)

Lemma ruleSwitch_royalty c rule cost :
  isRoyaltyRule rule = true ->
  ruleSwitch c rule p e per cur cost =
  Ok (fold_left (royaltyRoute p e (RuleEngine.id rule)) (routesFor c e "royalty")
                (mkRuleAcc cost 0 (auditTrail c))).
Proof.
  unfold isRoyaltyRule. intros H. apply andb_prop in H as [Hty Htt].
  apply String.eqb_eq in Hty, Htt.
  unfold ruleSwitch. cbv zeta. rewrite Hty, Htt. reflexivity.
Qed.

Lemma fold_royalty_cost rid routes : forall acc1 acc2,
  raCost acc1 = raCost acc2 ->
  raCost (fold_left (royaltyRoute p e rid) routes acc1)
  = raCost (fold_left (royaltyRoute p e rid) routes acc2).
Proof.
  induction routes as [|r rs IH]; intros acc1 acc2 H; simpl; [exact H|].
  apply IH. unfold royaltyRoute. destruct (String.eqb _ _); simpl; [|exact H].
  now rewrite H.
Qed.

Lemma applyRule_agree c d rule c' :
  isRoyaltyRule rule = true ->
  agree c d ->
  applyRule c rule p e per cur = Ok c' ->
  exists d', applyRule d rule p e per cur = Ok d' /\ agree c' d'.
Proof.
  intros Hroy ((Hbp & Hcc & Hem & Hre & Hpc & Htr) & Hget).
  unfold applyRule, getCost. rewrite Hget.
  destruct (JsMap.get (costs (costState c)) key) as [cost|].
  - rewrite !ruleSwitch_royalty by exact Hroy. cbn [bind].
    intros [= <-]. eexists. split; [reflexivity|].
    split; [unfold sameInputs; simpl; splits; auto|].
    intros k. simpl. unfold routesFor. rewrite Htr.
    rewrite (fold_royalty_cost (RuleEngine.id rule) _
               (mkRuleAcc cost 0 (auditTrail d)) (mkRuleAcc cost 0 (auditTrail c)) eq_refl).
    destruct (String.eqb_spec key k) as [<-|Hne].
    + now rewrite !jsmap_get_set_same.
    + rewrite !jsmap_get_set_other by exact Hne. apply Hget.
  - intros [= <-]. exists d. split; [reflexivity|].
    split; [unfold sameInputs; splits; auto | exact Hget].
Qed.

Lemma royaltyRuleStep_agree c d rid c' :
  agree c d ->
  royaltyRuleStep p e per cur rid c = Ok c' ->
  exists d', royaltyRuleStep p e per cur rid d = Ok d' /\ agree c' d'.
Proof.
  intros Hag. pose proof Hag as ((Hbp & Hcc & Hem & Hre & Hpc & Htr) & Hget).
  unfold royaltyRuleStep. rewrite Hre.
  destruct (RuleEngine.getRule (ruleEngine c) rid) as [rule|]; [|discriminate].
  destruct (isRoyaltyRule rule) eqn:E.
  - now apply applyRule_agree.
  - intros [= <-]. exists d. auto.
Qed.

Lemma royaltySteps_agree order : forall c d c',
  agree c d ->
  forEachM (royaltyRuleStep p e per cur) order c = Ok c' ->
  exists d', forEachM (royaltyRuleStep p e per cur) order d = Ok d' /\ agree c' d'.
Proof.
  induction order as [|rid r IH]; intros c d c' Hag; simpl.
  - intros [= <-]. exists d. auto.
  - destruct (royaltyRuleStep p e per cur rid c) as [c1| |] eqn:E; simpl;
      try discriminate.
    destruct (royaltyRuleStep_agree c d rid c1 Hag E) as (d1 & -> & Hag1).
    simpl. now apply IH.
Qed.

Lemma royaltyIteration_agreeOff c d c1 :
  BOMProcessor.getProduct (bomProcessor c) p = Some product ->
  agreeOff c d ->
  royaltyIteration c p e per cur = Ok c1 ->
  exists d1, royaltyIteration d p e per cur = Ok d1 /\ agree c1 d1.
Proof.
  intros Hp Hag. unfold royaltyIteration.
  destruct (calculateBaseCost c p e per cur) as [[r cb]| |] eqn:E; simpl;
    try discriminate.
  destruct (calculateBaseCost_agreeOff c d r cb Hp Hag E) as (db & -> & Hagb).
  simpl. destruct Hagb as [Hin Hget]. pose proof Hin as (_ & _ & _ & -> & _).
  apply royaltySteps_agree. split; auto.
Qed.

(** *** A turn changes the record of the product only *)

Definition onlyKey (c c' : t) : Prop :=
  sameInputs c c' /\
  forall k, k <> key ->
            JsMap.get (costs (costState c')) k = JsMap.get (costs (costState c)) k.

Lemma onlyKey_refl c : onlyKey c c.
Proof. split; [unfold sameInputs; splits; auto | auto]. Qed.

Lemma onlyKey_trans c1 c2 c3 : onlyKey c1 c2 -> onlyKey c2 c3 -> onlyKey c1 c3.
Proof.
  intros ((A1 & A2 & A3 & A4 & A5 & A6) & HA) ((B1 & B2 & B3 & B4 & B5 & B6) & HB).
  split; [unfold sameInputs; splits; congruence|].
  intros k Hk. rewrite HB, HA; auto.
Qed.

Lemma calculateBaseCost_onlyKey c r c' :
  calculateBaseCost c p e per cur = Ok (r, c') -> onlyKey c c'.
Proof.
  unfold calculateBaseCost.
  destruct (BOMProcessor.getProduct _ _); [|intros [= _ <-]; apply onlyKey_refl].
  match goal with |- bind ?X _ = _ -> _ => destruct X end; simpl; try discriminate.
  intros [= _ <-]. split; [unfold sameInputs; simpl; splits; auto|].
  intros k Hk. simpl. apply jsmap_get_set_other. congruence.
Qed.

Lemma applyRule_onlyKey c rule c' :
  applyRule c rule p e per cur = Ok c' -> onlyKey c c'.
Proof.
  unfold applyRule.
  destruct (getCost _ _ _ _); [|intros [= <-]; apply onlyKey_refl].
  destruct (ruleSwitch _ _ _ _ _ _ _); simpl; try discriminate.
  intros [= <-]. split; [unfold sameInputs; simpl; splits; auto|].
  intros k Hk. simpl. apply jsmap_get_set_other. congruence.
Qed.

Lemma royaltySteps_onlyKey order : forall c c',
  forEachM (royaltyRuleStep p e per cur) order c = Ok c' -> onlyKey c c'.
Proof.
  induction order as [|rid r0 IH]; intros c c'; simpl.
  - intros [= <-]. apply onlyKey_refl.
  - destruct (royaltyRuleStep p e per cur rid c) as [c2| |] eqn:E2; simpl;
      try discriminate.
    intros H. eapply onlyKey_trans; [|eapply IH; eauto].
    unfold royaltyRuleStep in E2.
    destruct (RuleEngine.getRule _ _); [|discriminate].
    destruct (isRoyaltyRule _); [eapply applyRule_onlyKey; eauto|].
    injection E2 as <-. apply onlyKey_refl.
Qed.

Lemma royaltyIteration_onlyKey c c' :
  royaltyIteration c p e per cur = Ok c' -> onlyKey c c'.
Proof.
  unfold royaltyIteration.
  destruct (calculateBaseCost c p e per cur) as [[r c1]| |] eqn:E; simpl;
    try discriminate.
  intros H. eapply onlyKey_trans; [eapply calculateBaseCost_onlyKey; eauto|].
  eapply royaltySteps_onlyKey; eauto.
Qed.

(** The second turn succeeds when the first does, and leaves the same
    total. *)
Lemma royaltyIteration_repeats c c1 :
  BOMProcessor.getProduct (bomProcessor c) p = Some product ->
  royaltyIteration c p e per cur = Ok c1 ->
  exists c2, royaltyIteration c1 p e per cur = Ok c2 /\
             currentTotal c2 p e per = currentTotal c1 p e per.
Proof.
  intros Hp H1.
  pose proof (royaltyIteration_onlyKey c c1 H1) as Hoff.
  destruct (royaltyIteration_agreeOff c c1 c1 Hp Hoff H1) as (c2 & H2 & _ & Hget).
  exists c2. split; auto. unfold currentTotal, getCost. now rewrite Hget.
Qed.
End RoyaltyRepeats.

Section RoyaltyTwoTurns.
Import CostState CostCalculator.

Lemma derived_bomProcessor c0 c : derived c0 c -> bomProcessor c = bomProcessor c0.
Proof.
  induction 1 as [|c p e per cur r c' _ IH H|c rule p e per cur c' _ IH H
                  |c rid ps per cur c' _ IH H|c p dest per cur c' _ IH H
                  |c p per cur _ IH|c p e per cur n tol r c' _ IH H
                  |c item e per v keys c' _ IH H]; auto.
  - apply calculateBaseCost_sameSetup in H. destruct H as (H & _). congruence.
  - apply applyRule_sameSetup in H. destruct H as (H & _). congruence.
  - apply executeRule_sameSetup in H. destruct H as (H & _). congruence.
  - apply calculateTransferPrice_sameSetup in H. destruct H as (H & _). congruence.
  - destruct (calculateWeightedAverage_sameSetup c p per cur) as (H & _). congruence.
  - apply resolveRoyaltyCycle_sameSetup in H. destruct H as (H & _). congruence.
  - revert H. unfold updateCost. destruct (markDirty _ _ _); [|discriminate].
    intros [= _ <-]. simpl. exact IH.
Qed.

(** In a validated bill no product is a component of itself. *)
Lemma validated_notOwnComponent config c0 c p e per product :
  CostCalculator.new config = Ok c0 ->
  derived c0 c ->
  BOMProcessor.getProduct (bomProcessor c) p = Some product ->
  notOwnComponent p e per product.
Proof.
  intros Hnew Hd Hp comp Hcomp Hkey.
  apply getCostKey_product in Hkey.
  rewrite (derived_bomProcessor _ _ Hd) in Hp.
  revert Hnew. unfold CostCalculator.new.
  destruct (BOMProcessor.new (cfgBillOfMaterials config)) as [bp| |] eqn:Eb;
    simpl; try discriminate.
  destruct (RuleEngine.new _); simpl; try discriminate.
  intros [= <-]. simpl in Hp.
  destruct (new_acyclic _ _ Eb) as (_ & _ & _ & Hac).
  apply (Hac p). apply bomReach_step. exists product, comp. auto.
Qed.

Lemma Qabs_diag_le (x tol : Q) : 0 <= tol -> Qltb tol (Qabs (x - x)) = false.
Proof.
  intros H. apply Qltb_false.
  assert (E : x - x == 0) by ring. rewrite E. exact H.
Qed.

Lemma resolve_two_turns (c : t) (p e per cur : string) (product : BOMProcessor.BomItem)
      (maxIterations : nat) (tolerance : Q) :
  BOMProcessor.getProduct (bomProcessor c) p = Some product ->
  notOwnComponent p e per product ->
  0 <= tolerance ->
  (forall r c',
      resolveRoyaltyCycle c p e per cur maxIterations tolerance = Ok (r, c') ->
      (iterations r <= 2)%nat /\
      ((2 <= maxIterations)%nat -> converged r = true)) /\
  (forall msg,
      resolveRoyaltyCycle c p e per cur maxIterations tolerance = Throw msg ->
      royaltyIteration c p e per cur = Throw msg).
Proof.
  intros Hp Hself Htol. unfold resolveRoyaltyCycle.
  rewrite royaltyLoop_eq. cbn [lsCurrentCost lsPrevCost lsIterations lsCalc].
  destruct (Qltb tolerance (Qabs (currentTotal c p e per - 0))) eqn:E0; cbn [andb].
  2:{ cbn [bind]. split; [|discriminate]. intros r c' [= <- <-].
      cbn [iterations converged]. split; [lia|]. intros _.
      apply Qltb_false in E0. now apply Qle_bool_iff. }
  destruct (Nat.ltb_spec 0 maxIterations) as [Hmax|Hmax].
  2:{ cbn [bind]. split; [|discriminate]. intros r c' [= <- <-].
      cbn [iterations]. split; [lia|]. lia. }
  destruct maxIterations as [|m]; [lia|].
  destruct (royaltyIteration c p e per cur) as [c1|msg1|] eqn:E1; cbn [bind].
  2:{ split; [discriminate|]. now intros msg [= <-]. }
  2:{ split; discriminate. }
  rewrite royaltyLoop_eq. cbn [lsCurrentCost lsPrevCost lsIterations lsCalc].
  destruct (Qltb tolerance (Qabs (currentTotal c1 p e per - currentTotal c p e per)))
           eqn:E1'; cbn [andb].
  2:{ cbn [bind]. split; [|discriminate]. intros r c' [= <- <-].
      cbn [iterations converged lsCurrentCost lsPrevCost lsIterations].
      split; [lia|]. intros _. apply Qltb_false in E1'. now apply Qle_bool_iff. }
  destruct (Nat.ltb_spec 1 (S m)) as [Hm|Hm].
  2:{ cbn [bind]. split; [|discriminate]. intros r c' [= <- <-].
      cbn [iterations]. split; [lia|]. lia. }
  destruct m as [|m']; [lia|].
  destruct (royaltyIteration_repeats p e per cur product Hself c c1 Hp E1)
    as (c2 & E2 & HT).
  rewrite E2. cbn [bind].
  rewrite royaltyLoop_eq. cbn [lsCurrentCost lsPrevCost lsIterations lsCalc].
  rewrite HT, (Qabs_diag_le _ _ Htol). cbn [andb bind].
  split; [|discriminate]. intros r c' [= <- <-].
  cbn [iterations converged lsCurrentCost lsPrevCost lsIterations].
  split; [lia|]. intros _. apply Qle_bool_iff.
  apply Qltb_false. now apply Qabs_diag_le.
Qed.

(** X15.  [resolveRoyaltyCycle] recomputes the record of the product
    from the same inputs in every turn, so the second turn repeats the
    first: for a product of the bill, on a calculator reached from a
    new one and with a tolerance that is not negative, the call runs
    at most two turns, reports [converged] whenever [maxIterations] is
    at least two, and throws only what its first turn throws. *)
Theorem X15_resolveRoyaltyCycle_two_turns
        (config : Config) (c0 c : t) (p e per cur : string)
        (product : BOMProcessor.BomItem) (maxIterations : nat) (tolerance : Q) :
  CostCalculator.new config = Ok c0 ->
  derived c0 c ->
  BOMProcessor.getProduct (bomProcessor c) p = Some product ->
  0 <= tolerance ->
  (forall r c',
      resolveRoyaltyCycle c p e per cur maxIterations tolerance = Ok (r, c') ->
      (iterations r <= 2)%nat /\
      ((2 <= maxIterations)%nat -> converged r = true)) /\
  (forall msg,
      resolveRoyaltyCycle c p e per cur maxIterations tolerance = Throw msg ->
      royaltyIteration c p e per cur = Throw msg).
Proof.
  intros Hnew Hd Hp Htol.
  apply (resolve_two_turns c p e per cur product); auto.
  eapply validated_notOwnComponent; eauto.
Qed.
End RoyaltyTwoTurns.

(** The plant with the base cost of its product computed: the record
    has a total of 10 and no royalty yet. *)
Definition costedPlant : CostCalculator.t :=
  Eval vm_compute in
    match CostCalculator.calculateBaseCost plant "P" "E" "2024-Q4" "USD" with
    | Ok (_, c1) => c1
    | _ => plant
    end.

Lemma derived_costedPlant : derived plant costedPlant.
Proof.
  eapply (derived_base plant plant "P" "E" "2024-Q4" "USD" _ costedPlant).
  - apply derived_start.
  - vm_compute. reflexivity.
Qed.

(** On [costedPlant] the loop runs twice: the first turn adds the
    royalty to the record (10 becomes 10.4), the second turn computes
    the same record again. *)
Lemma X15_witness :
  exists r c',
    CostCalculator.resolveRoyaltyCycle costedPlant "P" "E" "2024-Q4" "USD" 10 (1 # 100)
    = Ok (r, c') /\
    CostCalculator.iterations r = 2%nat /\
    CostCalculator.finalCost r == 104 # 10 /\
    (CostCalculator.iterations r <= 2)%nat /\
    CostCalculator.converged r = true.
Proof.
  eexists. eexists.
  split; [vm_compute; reflexivity|].
  split; [reflexivity|].
  split; [vm_compute; reflexivity|].
  match goal with
  | |- (CostCalculator.iterations ?r <= 2)%nat /\ _ =>
      destruct (X15_resolveRoyaltyCycle_two_turns plantConfig plant costedPlant
                  "P" "E" "2024-Q4" "USD"
                  (BOMProcessor.mkBomItem "P"
                     [BOMProcessor.mkComponent "L" 1 None (Some "hours")])
                  10%nat (1 # 100)) as [Hok _];
      [ vm_compute; reflexivity
      | exact derived_costedPlant
      | vm_compute; reflexivity
      | vm_compute; discriminate
      | destruct (Hok r _ eq_refl) as [Hle Hconv]; split; [exact Hle | apply Hconv; lia] ]
  end.
Defined.

(** ** calculateTransferPrice: markups only add *)

Section TransferMonotone.
Import CostState CostCalculator.
Variable c : t.

Local Abbreviation tgraph := (EntityManager.transferGraph (entityManager c)).

(** Every route of the transfer graph has a markup that is not
    negative. *)
Definition markupsNonNegative : Prop :=
  forall u e, In e (Graph.getNeighbors tgraph u) ->
              0 <= EntityManager.mMarkupValue (Graph.meta e).

Lemma dutyRateOf_nonneg country : 0 <= dutyRateOf country.
Proof.
  unfold dutyRateOf. cbv zeta.
  destruct (String.eqb country "DE"), (String.eqb country "US"); discriminate.
Qed.

Lemma walkStep_mono e acc w :
  0 <= EntityManager.mMarkupValue (Graph.meta e) ->
  0 <= transferCost acc ->
  walkStep c (stepOf e) acc = Ok w ->
  transferCost acc <= transferCost w.
Proof.
  intros Hmv Htc. unfold walkStep, stepOf. cbn [Graph.sedge Graph.snode].
  set (mv := EntityManager.mMarkupValue (Graph.meta e)) in *.
  set (tc := transferCost acc) in *.
  set (cost1 := if String.eqb _ "cost-plus" then _ else _).
  assert (H1 : tc <= cost1).
  { unfold cost1. destruct (String.eqb _ "cost-plus"); [nra|].
    destruct (String.eqb _ "resale-minus"); [nra | lra]. }
  destruct (EntityManager.isCrossBorder _ _ _).
  - destruct (EntityManager.getEntity _ _) as [toEntity|]; cbn [bind]; [|discriminate].
    intros [= <-]. cbn [transferCost].
    pose proof (dutyRateOf_nonneg (EntityManager.country toEntity)). nra.
  - cbn [bind]. intros [= <-]. exact H1.
Qed.

Lemma walkSteps_mono es : forall u acc w,
  markupsNonNegative ->
  edgeChain tgraph u es ->
  0 <= transferCost acc ->
  forEachM (walkStep c) (map (@stepOf EntityManager.RouteMeta) es) acc = Ok w ->
  transferCost acc <= transferCost w.
Proof.
  induction es as [|e r IH]; intros u acc w Hmk Hch Htc; simpl.
  - intros [= <-]. lra.
  - destruct Hch as [Hin Hch].
    destruct (walkStep c (stepOf e) acc) as [w1| |] eqn:E; simpl; try discriminate.
    intros H.
    pose proof (walkStep_mono e acc w1 (Hmk u e Hin) Htc E) as H1.
    pose proof (IH (Graph.node e) w1 w Hmk Hch ltac:(lra) H) as H2. lra.
Qed.

Lemma walkPath_mono mfgId total start dest q w :
  markupsNonNegative ->
  simplePath tgraph start dest q ->
  0 <= total ->
  walkPath c mfgId total q = Ok w ->
  total <= transferCost w.
Proof.
  intros Hmk (es & -> & Hch & _) Ht. simpl.
  intros H. now apply (walkSteps_mono es start _ w Hmk Hch) in H.
Qed.

Variables p dest per : string.
Hypothesis Hmk : markupsNonNegative.
Hypothesis Hsrc :
  forall m sc,
    In m (EntityManager.getManufacturingEntities (entityManager c)) ->
    getCost (costState c) p (EntityManager.id m) per = Some sc ->
    0 <= totalCost sc.

(** The best candidate so far costs at least what its source costs. *)
Definition bestAbove (best : Best) : Prop :=
  match best with
  | None => True
  | Some (bc, _, src) =>
      exists sc, getCost (costState c) p src per = Some sc /\ totalCost sc <= bc
  end.

Lemma selectBestPath_above best :
  selectBestPath c p dest per = Ok best -> bestAbove best.
Proof.
  unfold selectBestPath.
  apply (forEachM_inv bestAbove); [|exact I].
  intros m b b' Hm Hb. unfold trySource, EntityManager.findTransferPaths.
  destruct (findAllPaths_spec tgraph dest Graph.defaultMaxDepth (EntityManager.id m))
    as (ps & Hps & Hin).
  rewrite Hps. cbn [ofOption bind].
  apply (forEachM_inv bestAbove); [|exact Hb].
  intros q s s' Hq Hs. unfold tryPath.
  destruct (getCost (costState c) p (EntityManager.id m) per) as [sc|] eqn:Eg;
    [|now intros [= <-]].
  destruct (walkPath c (EntityManager.id m) (totalCost sc) q) as [w| |] eqn:Ew;
    cbn [bind]; try discriminate.
  destruct (betterThan (transferCost w) s); intros [= <-]; auto.
  simpl. exists sc. split; auto.
  apply Hin in Hq as [Hq _].
  eapply walkPath_mono; eauto.
Qed.

Lemma transfer_price_mono cur c' :
  calculateTransferPrice c p dest per cur = Ok c' ->
  c' = c \/
  exists src sc stored,
    getCost (costState c') p dest per = Some stored /\
    sourceEntity stored = Some src /\
    getCost (costState c) p src per = Some sc /\
    totalCost sc <= totalCost stored /\
    interCompanyMarkup stored == totalCost stored - totalCost sc /\
    0 <= interCompanyMarkup stored.
Proof.
  unfold calculateTransferPrice.
  destruct (EntityManager.getEntity (entityManager c) dest) as [d|];
    [|intros [= <-]; now left].
  destruct (negb (String.eqb (EntityManager.type d) "distribution"));
    [intros [= <-]; now left|].
  destruct (selectBestPath c p dest per) as [best| |] eqn:E; cbn [bind];
    try discriminate.
  apply selectBestPath_above in E.
  destruct best as [[[bc bp] src]|]; [|intros [= <-]; now left].
  destruct E as (sc & Hsc & Hle). rewrite Hsc.
  intros [= <-]. right. exists src, sc. eexists.
  split; [cbn [costState withState]; apply getCost_setCost|].
  cbn. splits; auto; try reflexivity. lra.
Qed.
End TransferMonotone.

(** X16.  When no route of the transfer graph has a negative markup and
    no manufacturing record of the product has a negative total, the
    record that [calculateTransferPrice] stores costs at least what its
    source costs: [interCompanyMarkup] is the difference of the two
    totals and is not negative. *)
Theorem X16_transfer_price_not_below_source
        (c : CostCalculator.t) (p dest per cur : string) (c' : CostCalculator.t) :
  markupsNonNegative c ->
  (forall m sc,
      In m (EntityManager.getManufacturingEntities (CostCalculator.entityManager c)) ->
      CostState.getCost (CostCalculator.costState c) p (EntityManager.id m) per = Some sc ->
      0 <= CostState.totalCost sc) ->
  CostCalculator.calculateTransferPrice c p dest per cur = Ok c' ->
  c' = c \/
  exists src sc stored,
    CostState.getCost (CostCalculator.costState c') p dest per = Some stored /\
    CostState.sourceEntity stored = Some src /\
    CostState.getCost (CostCalculator.costState c) p src per = Some sc /\
    CostState.totalCost sc <= CostState.totalCost stored /\
    CostState.interCompanyMarkup stored
    == CostState.totalCost stored - CostState.totalCost sc /\
    0 <= CostState.interCompanyMarkup stored.
Proof. intros Hmk Hsrc. now apply transfer_price_mono. Qed.

Lemma X16_witness :
  exists c',
    CostCalculator.calculateTransferPrice twoRoute "P" "D" "2024-Q4" "USD" = Ok c' /\
    (c' = twoRoute \/
     exists src sc stored,
       CostState.getCost (CostCalculator.costState c') "P" "D" "2024-Q4" = Some stored /\
       CostState.sourceEntity stored = Some src /\
       CostState.getCost (CostCalculator.costState twoRoute) "P" src "2024-Q4" = Some sc /\
       CostState.totalCost sc <= CostState.totalCost stored /\
       CostState.interCompanyMarkup stored
       == CostState.totalCost stored - CostState.totalCost sc /\
       0 <= CostState.interCompanyMarkup stored).
Proof.
  eexists. split; [vm_compute; reflexivity|].
  apply (X16_transfer_price_not_below_source twoRoute "P" "D" "2024-Q4" "USD").
  - intros u e Hin. unfold Graph.getNeighbors in Hin.
    cbn -[String.eqb] in Hin.
    repeat match type of Hin with
           | context [if String.eqb ?a u then _ else _] => destruct (String.eqb a u)
           end;
      cbn in Hin;
      repeat (destruct Hin as [<-|Hin]; [vm_compute; discriminate|]);
      destruct Hin.
  - intros m sc Hm Hsc. vm_compute in Hm. destruct Hm as [<-|[]].
    vm_compute in Hsc. injection Hsc as <-. vm_compute. discriminate.
  - vm_compute. reflexivity.
Defined.

(** ** calculateWeightedAverage *)

(** The average as the loop computes it, from the total of the period
    and the totals of the first and the second prior period, where they
    have a record: the period weighs 0.6, the first prior period 0.25,
    the second 0.15, and the sum is divided by the weights in use. *)
Definition averageOf (t0 : Q) (prior1 prior2 : option Q) : Q :=
  let w0 := CostCalculator.currentWeight in
  match prior1, prior2 with
  | Some t1, Some t2 =>
      (t0 * w0 + t1 * (25 # 100) + t2 * (15 # 100)) / (w0 + (25 # 100) + (15 # 100))
  | Some t1, None => (t0 * w0 + t1 * (25 # 100)) / (w0 + (25 # 100))
  | None, Some t2 => (t0 * w0 + t2 * (15 # 100)) / (w0 + (15 # 100))
  | None, None => (t0 * w0) / w0
  end.

Section WeightedAverage.
Import CostState CostCalculator.
Variable c : t.
Variables p per : string.
Variables prior1 prior2 : string.
Variable e0 : string.
Variable cost0 : Cost.

Local Abbreviation key0 := (getCostKey p e0 per).
Local Abbreviation priors := [prior1; prior2].

Hypothesis Hcost0 : getCost (costState c) p e0 per = Some cost0.

(** The total of the record stored under a key, if there is one. *)
Definition totalAt (s : t) (k : string) : option Q :=
  option_map totalCost (JsMap.get (costs (costState s)) k).

Definition weighInit : WeightAcc :=
  mkWeightAcc (totalCost cost0 * currentWeight) currentWeight 0.

Definition weighed : WeightAcc := fold_left (weighPrior c p e0) priors weighInit.

Definition averaged : Cost :=
  withKey (setWeightedAverageCost cost0 (weightedCost weighed / totalWeight weighed))
          key0.

Lemma weighPrior_ext s acc pr :
  totalAt s (getCostKey p e0 pr) = totalAt c (getCostKey p e0 pr) ->
  weighPrior s p e0 acc pr = weighPrior c p e0 acc pr.
Proof.
  unfold totalAt, weighPrior, getCost. intros H.
  destruct (JsMap.get (costs (costState s)) (getCostKey p e0 pr)) as [a|],
           (JsMap.get (costs (costState c)) (getCostKey p e0 pr)) as [b|];
    try discriminate; [|reflexivity].
  injection H as H. now rewrite H.
Qed.

Lemma fold_weighPrior_ext s l : forall acc,
  (forall k, totalAt s k = totalAt c k) ->
  fold_left (weighPrior s p e0) l acc = fold_left (weighPrior c p e0) l acc.
Proof.
  induction l as [|pr r IH]; intros acc H; simpl; [reflexivity|].
  rewrite IH by exact H. f_equal. now apply weighPrior_ext.
Qed.

(** The state of the loop over the entities: every record has the
    total it had at the start, and the record of [e0] for the period
    is the one of the start, averaged or not. *)
Definition weighInv (done : bool) (s : t) : Prop :=
  (forall k, totalAt s k = totalAt c k) /\
  (getCost (costState s) p e0 per = Some averaged \/
   (done = false /\ getCost (costState s) p e0 per = Some cost0)).

Lemma totalAt_weighEntity s x :
  (forall k, totalAt s k = totalAt c k) ->
  forall k, totalAt (weighEntity p per priors s x) k = totalAt c k.
Proof.
  intros Hs k. unfold weighEntity. cbv zeta.
  destruct (getCost (costState s) p (EntityManager.id x) per) as [cur0|] eqn:Hget;
    [|apply Hs].
  rewrite <- (Hs k).
  unfold totalAt. cbn [costState withState]. unfold setCost. cbn [costs].
  destruct (string_dec k (getCostKey p (EntityManager.id x) per)) as [->|Hk].
  - rewrite jsmap_get_set_same. cbn [option_map withKey setWeightedAverageCost totalCost].
    unfold getCost in Hget. now rewrite Hget.
  - now rewrite jsmap_get_set_other by (intros E; apply Hk; now rewrite E).
Qed.

Lemma weighEntity_inv done s x :
  weighInv done s ->
  weighInv (done || String.eqb (EntityManager.id x) e0) (weighEntity p per priors s x).
Proof.
  intros (Htot & Hrec). split; [now apply totalAt_weighEntity|].
  unfold weighEntity. cbv zeta.
  destruct (String.eqb_spec (EntityManager.id x) e0) as [Heq|Hne].
  - rewrite Heq, orb_true_r.
    assert (Hcur : exists cur0, getCost (costState s) p e0 per = Some cur0 /\
                                totalCost cur0 = totalCost cost0 /\
                                withKey (setWeightedAverageCost cur0
                                           (weightedCost weighed / totalWeight weighed))
                                        key0 = averaged).
    { destruct Hrec as [H|[_ H]]; rewrite H; eexists; splits; try reflexivity. }
    destruct Hcur as (cur0 & Hget & Ht & Hav). rewrite Hget.
    rewrite fold_weighPrior_ext by exact Htot. rewrite Ht. fold weighInit. fold weighed.
    left. cbn [costState withState]. rewrite getCost_setCost. now rewrite <- Hav.
  - rewrite orb_false_r.
    destruct (getCost (costState s) p (EntityManager.id x) per) as [cur0|];
      [|destruct Hrec as [H|[H1 H2]]; auto].
    assert (Hk : getCostKey p (EntityManager.id x) per <> key0).
    { intros H. now apply getCostKey_entity in H. }
    cbn [costState withState]. unfold getCost, setCost. cbn [costs].
    rewrite jsmap_get_set_other by exact Hk. exact Hrec.
Qed.

Lemma weigh_loop l : forall done s,
  weighInv done s ->
  weighInv (done || existsb (fun x => String.eqb (EntityManager.id x) e0) l)
           (fold_left (weighEntity p per priors) l s).
Proof.
  induction l as [|x r IH]; intros done s Hinv; simpl.
  - now rewrite orb_false_r.
  - rewrite orb_assoc. apply IH. now apply weighEntity_inv.
Qed.

Lemma weigh_result ents :
  (exists x, In x ents /\ EntityManager.id x = e0) ->
  getCost (costState (fold_left (weighEntity p per priors) ents c)) p e0 per
  = Some averaged /\
  forall k, totalAt (fold_left (weighEntity p per priors) ents c) k = totalAt c k.
Proof.
  intros (x & Hx & Hid).
  destruct (weigh_loop ents false c) as (Htot & Hrec).
  { split; auto. }
  split; [|exact Htot].
  destruct Hrec as [H|[Hf _]]; auto.
  exfalso. simpl in Hf.
  assert (Ht : existsb (fun y => String.eqb (EntityManager.id y) e0) ents = true).
  { apply existsb_exists. exists x. split; auto. now apply String.eqb_eq. }
  congruence.
Qed.

(** The two turns of the loop over the prior periods. *)
Lemma weighed_formula :
  weightedCost weighed / totalWeight weighed
  = averageOf (totalCost cost0)
              (option_map totalCost (getCost (costState c) p e0 prior1))
              (option_map totalCost (getCost (costState c) p e0 prior2)).
Proof.
  unfold weighed, weighInit, averageOf. cbn [fold_left]. unfold weighPrior.
  destruct (getCost (costState c) p e0 prior1) as [c1|];
    cbn [waIndex priorWeight weightedCost totalWeight option_map];
    destruct (getCost (costState c) p e0 prior2) as [c2|];
    cbn [waIndex priorWeight weightedCost totalWeight option_map]; reflexivity.
Qed.
End WeightedAverage.

Lemma getPriorPeriods_two per :
  exists prior1 prior2, CurrencyConverter.getPriorPeriods per 2 = [prior1; prior2].
Proof.
  unfold CurrencyConverter.getPriorPeriods. cbn [CurrencyConverter.priorLoop].
  eexists. eexists. reflexivity.
Qed.

(** X17.  For an entity that has a record of the product for the
    period, [calculateWeightedAverage] stores this record with the
    field [weightedAverageCost] set, its key written again and nothing
    else changed: the average is the total of the period times 0.6, plus the total of the
    first prior period times 0.25 and that of the second times 0.15
    where the entity has a record for them, divided by the sum of the
    weights in use.  Every record of the state keeps its total, and no
    record is added or removed. *)
Theorem X17_weighted_average_formula
        (c : CostCalculator.t) (p per cur e0 : string) (cost0 : CostState.Cost) :
  (exists x, In x (EntityManager.getAllEntities (CostCalculator.entityManager c)) /\
             EntityManager.id x = e0) ->
  CostState.getCost (CostCalculator.costState c) p e0 per = Some cost0 ->
  exists prior1 prior2,
    CurrencyConverter.getPriorPeriods per 2 = [prior1; prior2] /\
    CostState.getCost
      (CostCalculator.costState (CostCalculator.calculateWeightedAverage c p per cur))
      p e0 per
    = Some (CostState.withKey
              (CostCalculator.setWeightedAverageCost cost0
                 (averageOf (CostState.totalCost cost0)
                    (option_map CostState.totalCost
                       (CostState.getCost (CostCalculator.costState c) p e0 prior1))
                    (option_map CostState.totalCost
                       (CostState.getCost (CostCalculator.costState c) p e0 prior2))))
              (CostState.getCostKey p e0 per)) /\
    forall p' e' per',
      option_map CostState.totalCost
        (CostState.getCost
           (CostCalculator.costState (CostCalculator.calculateWeightedAverage c p per cur))
           p' e' per')
      = option_map CostState.totalCost
          (CostState.getCost (CostCalculator.costState c) p' e' per').
Proof.
  intros Hent Hcost.
  destruct (getPriorPeriods_two per) as (prior1 & prior2 & Hpr).
  exists prior1, prior2. split; [exact Hpr|].
  unfold CostCalculator.calculateWeightedAverage. cbv zeta. rewrite Hpr.
  destruct (weigh_result c p per prior1 prior2 e0 cost0 Hcost _ Hent) as [Hrec Htot].
  split.
  - rewrite Hrec. unfold averaged. now rewrite weighed_formula.
  - intros p' e' per'. apply Htot.
Qed.

(** A plant with a labour cost of 8 in the third quarter and of 10 in the
    fourth, and the base cost of its product computed for both. *)
Definition twoPeriodConfig : CostCalculator.Config :=
  CostCalculator.mkConfig oneProductBom []
    [EntityManager.mkEntity "E" "manufacturing" "CN" "USD"]
    [] []
    [CostCalculator.mkPeriodCostEntry "L" "E"
       [("2024-Q3", CostCalculator.mkItemCost 8 "USD");
        ("2024-Q4", CostCalculator.mkItemCost 10 "USD")]]
    [] [].

Definition twoPeriodPlant : CostCalculator.t :=
  Eval vm_compute in
    match
      (c0 <- CostCalculator.new twoPeriodConfig ;;
       '(_, c1) <- CostCalculator.calculateBaseCost c0 "P" "E" "2024-Q3" "USD" ;;
       '(_, c2) <- CostCalculator.calculateBaseCost c1 "P" "E" "2024-Q4" "USD" ;;
       Ok c2)
    with
    | Ok c => c
    | _ => noCalculator
    end.

Lemma X17_witness :
  exists cost0 prior3,
    CostState.getCost (CostCalculator.costState twoPeriodPlant) "P" "E" "2024-Q4"
    = Some cost0 /\
    CostState.totalCost cost0 = 10 /\
    CostState.getCost (CostCalculator.costState twoPeriodPlant) "P" "E" "2024-Q3"
    = Some prior3 /\
    CostState.totalCost prior3 = 8 /\
    CostState.getCost (CostCalculator.costState twoPeriodPlant) "P" "E" "2024-Q2" = None /\
    CostState.getCost
      (CostCalculator.costState
         (CostCalculator.calculateWeightedAverage twoPeriodPlant "P" "2024-Q4" "USD"))
      "P" "E" "2024-Q4"
    = Some (CostState.withKey
              (CostCalculator.setWeightedAverageCost cost0
                 ((10 * (6 # 10) + 8 * (25 # 100)) / ((6 # 10) + (25 # 100))))
              (CostState.getCostKey "P" "E" "2024-Q4")).
Proof.
  eexists. eexists.
  split; [vm_compute; reflexivity|].
  split; [vm_compute; reflexivity|].
  split; [vm_compute; reflexivity|].
  split; [vm_compute; reflexivity|].
  split; [vm_compute; reflexivity|].
  match goal with
  | |- _ = Some (CostState.withKey (CostCalculator.setWeightedAverageCost ?cost0 _) _) =>
      destruct (X17_weighted_average_formula twoPeriodPlant "P" "2024-Q4" "USD" "E" cost0)
        as (prior1 & prior2 & Hpr & Hrec & _)
  end.
  - eexists. split; [vm_compute; left; reflexivity | reflexivity].
  - vm_compute. reflexivity.
  - vm_compute in Hpr. injection Hpr as <- <-. rewrite Hrec. reflexivity.
Defined.

(** ** BOMProcessor: getFlattenedMaterials *)

Section Flatten.
Import BOMProcessor.
Variable b : JsMap.t BomItem.
Hypothesis Hac : forall u, ~ bomReach b u u.

(** An item with no entry in the index, or with an entry without
    components. *)
Definition rawMaterial (k : string) : Prop :=
  match JsMap.get b k with
  | Some item => components item = []
  | None => True
  end.

Lemma traverse_eq fuel item qty materials :
  traverse fuel b item qty materials =
  let rawMaterial :=
    Some (JsMap.set materials item (orZero (JsMap.get materials item) + qty)) in
  match JsMap.get b item with
  | None => rawMaterial
  | Some product =>
      match components product with
      | [] => rawMaterial
      | comps =>
          match fuel with
          | O => None
          | S fuel' =>
              forEach
                (fun c m =>
                   traverse fuel' b (itemId c)
                            (qty * quantity c / (1 - orZero (scrapRate c))) m)
                comps materials
          end
      end
  end.
Proof. destruct fuel; reflexivity. Qed.

Lemma rawMaterial_no_edge k v : rawMaterial k -> ~ bomEdge b k v.
Proof.
  unfold rawMaterial. intros H (item & c & Hget & Hc & _). rewrite Hget in H.
  rewrite H in Hc. exact Hc.
Qed.

Lemma bomReach_inv u w :
  bomReach b u w -> exists v, bomEdge b u v /\ (v = w \/ bomReach b v w).
Proof. intros H. inversion H; subst; eauto. Qed.

Lemma traverse_ok fuel : forall (anc : list string) item qty materials,
  NoDup anc ->
  (forall a, In a anc -> In a (JsMap.keys b) /\ bomReach b a item) ->
  (length (JsMap.keys b) <= length anc + fuel)%nat ->
  exists m,
    traverse fuel b item qty materials = Some m /\
    forall k, In k (JsMap.keys m) <->
              In k (JsMap.keys materials) \/
              (rawMaterial k /\ (k = item \/ bomReach b item k)).
Proof.
  induction fuel as [|f IH]; intros anc item qty materials Hnd Hanc Hlen;
    rewrite traverse_eq; cbv zeta.
  - (* no fuel: the item must be a raw material *)
    destruct (JsMap.get b item) as [product|] eqn:Hget.
    + destruct (components product) as [|c0 cs] eqn:Hc.
      * eexists. split; [reflexivity|]. intros k. rewrite jsmap_in_keys_set. split.
        -- intros [->|H]; auto. right. split; auto. unfold rawMaterial. now rewrite Hget.
        -- intros [H|[Hraw [->|Hr]]]; auto.
           exfalso. destruct (bomReach_inv _ _ Hr) as (v & He & _).
           apply (rawMaterial_no_edge item v); [unfold rawMaterial; rewrite Hget; auto | exact He].
      * exfalso.
        assert (Hkey : In item (JsMap.keys b)) by (eapply jsmap_get_Some_in; eauto).
        assert (Hnk : ~ In item anc).
        { intros Hin. apply (Hac item). now apply Hanc. }
        assert (length (item :: anc) <= length (JsMap.keys b))%nat.
        { apply NoDup_incl_length; [now constructor|].
          intros a [<-|Ha]; auto. now apply Hanc. }
        simpl in *. lia.
    + eexists. split; [reflexivity|]. intros k. rewrite jsmap_in_keys_set. split.
      * intros [->|H]; auto. right. split; auto. unfold rawMaterial. now rewrite Hget.
      * intros [H|[Hraw [->|Hr]]]; auto.
        exfalso. destruct (bomReach_inv _ _ Hr) as (v & He & _).
        apply (rawMaterial_no_edge item v); [unfold rawMaterial; rewrite Hget; auto | exact He].
  - destruct (JsMap.get b item) as [product|] eqn:Hget.
    + destruct (components product) as [|c0 cs] eqn:Hc.
      * eexists. split; [reflexivity|]. intros k. rewrite jsmap_in_keys_set. split.
        -- intros [->|H]; auto. right. split; auto. unfold rawMaterial. now rewrite Hget.
        -- intros [H|[Hraw [->|Hr]]]; auto.
           exfalso. destruct (bomReach_inv _ _ Hr) as (v & He & _).
           apply (rawMaterial_no_edge item v); [unfold rawMaterial; rewrite Hget; auto | exact He].
      * rewrite <- Hc.
        assert (Hkey : In item (JsMap.keys b)) by (eapply jsmap_get_Some_in; eauto).
        assert (Hnk : ~ In item anc).
        { intros Hin. apply (Hac item). now apply Hanc. }
        assert (Hloop : forall todo m0,
                   incl todo (components product) ->
                   exists m,
                     forEach
                       (fun c m1 =>
                          traverse f b (itemId c)
                                   (qty * quantity c / (1 - orZero (scrapRate c))) m1)
                       todo m0 = Some m /\
                     forall k, In k (JsMap.keys m) <->
                               In k (JsMap.keys m0) \/
                               exists c, In c todo /\ rawMaterial k /\
                                         (k = itemId c \/ bomReach b (itemId c) k)).
        { induction todo as [|c r IHr]; intros m0 Hincl; simpl.
          - exists m0. split; auto. intros k. split; [auto|].
            intros [H|(c & [] & _)]; auto.
          - assert (Hcin : In c (components product)) by (apply Hincl; now left).
            assert (Hedge : bomEdge b item (itemId c)) by (exists product, c; auto).
            destruct (IH (item :: anc) (itemId c)
                         (qty * quantity c / (1 - orZero (scrapRate c))) m0)
              as (m1 & Hrun & Hk1).
            + now constructor.
            + intros a [<-|Ha].
              * split; auto. now apply bomReach_step.
              * destruct (Hanc a Ha) as [Hk Hr]. split; auto.
                eapply bomReach_snoc; eauto.
            + simpl. lia.
            + rewrite Hrun.
              destruct (IHr m1) as (m & Hrun' & Hk).
              { intros y Hy. apply Hincl. now right. }
              exists m. split; auto. intros k. rewrite Hk, Hk1. split.
              * intros [[H|H]|(y & Hy & Hraw & Hxy)];
                  [ now left
                  | right; exists c; split; [now left | exact H]
                  | right; exists y; split; [now right | auto] ].
              * intros [H|(y & [Heq|Hy] & Hraw & Hxy)];
                  [ now left; left
                  | subst y; left; right; auto
                  | right; exists y; auto ]. }
        destruct (Hloop (components product) materials (incl_refl _)) as (m & Hrun & Hk).
        exists m. split; auto. intros k. rewrite Hk. split.
        -- intros [H|(c & Hcin & Hraw & Hxy)]; auto.
           right. split; auto. right.
           assert (Hedge : bomEdge b item (itemId c)) by (exists product, c; auto).
           destruct Hxy as [->|Hr]; [now apply bomReach_step|].
           eapply bomReach_cons; eauto.
        -- intros [H|[Hraw [->|Hr]]]; auto.
           ++ exfalso. unfold rawMaterial in Hraw. rewrite Hget, Hc in Hraw.
              discriminate.
           ++ destruct (bomReach_inv _ _ Hr) as (v & (it & c & Hg & Hcin & Hv) & Hx).
              rewrite Hget in Hg. injection Hg as <-.
              right. exists c. splits; auto. rewrite Hv. destruct Hx as [->|Hx]; auto.
    + eexists. split; [reflexivity|]. intros k. rewrite jsmap_in_keys_set. split.
      * intros [->|H]; auto. right. split; auto. unfold rawMaterial. now rewrite Hget.
      * intros [H|[Hraw [->|Hr]]]; auto.
        exfalso. destruct (bomReach_inv _ _ Hr) as (v & He & _).
        apply (rawMaterial_no_edge item v); [unfold rawMaterial; rewrite Hget; auto | exact He].
Qed.
End Flatten.

(** X18.  On a processor that the constructor accepted,
    [getFlattenedMaterials] returns a map whose keys are exactly the raw
    materials below the product: the items without components that the
    product reaches through components, or the product itself when it
    has no components; for such a product the map holds the multiplier
    alone. *)
Theorem X18_getFlattenedMaterials_raw_materials
        (bill : list BOMProcessor.BomItem) (p : BOMProcessor.t)
        (pid : string) (multiplier : Q) :
  BOMProcessor.new bill = Ok p ->
  exists m,
    BOMProcessor.getFlattenedMaterials p pid multiplier = Some m /\
    (forall k, In k (JsMap.keys m) <->
               rawMaterial (BOMProcessor.bom p) k /\
               (k = pid \/ bomReach (BOMProcessor.bom p) pid k)) /\
    (rawMaterial (BOMProcessor.bom p) pid -> m = [(pid, 0 + multiplier)]).
Proof.
  intros Hnew. destruct (new_acyclic bill p Hnew) as (_ & _ & _ & Hac).
  destruct (traverse_ok (BOMProcessor.bom p) Hac (length (BOMProcessor.bom p)) [] pid
              multiplier JsMap.empty) as (m & Hrun & Hk).
  - constructor.
  - intros a [].
  - unfold JsMap.keys. rewrite length_map. simpl. lia.
  - exists m. splits; auto.
    + intros k. rewrite Hk. split; [intros [[]|H]; auto | auto].
    + intros Hraw. unfold BOMProcessor.getFlattenedMaterials in Hrun.
      rewrite traverse_eq in Hrun. cbv zeta in Hrun. unfold rawMaterial in Hraw.
      destruct (JsMap.get (BOMProcessor.bom p) pid) as [item|].
      * rewrite Hraw in Hrun. now injection Hrun as <-.
      * now injection Hrun as <-.
Qed.

Lemma X18_witness :
  exists m,
    BOMProcessor.getFlattenedMaterials smallProcessor "WIDGET" 1 = Some m /\
    (forall k, In k (JsMap.keys m) <->
               rawMaterial (BOMProcessor.bom smallProcessor) k /\
               (k = "WIDGET" \/ bomReach (BOMProcessor.bom smallProcessor) "WIDGET" k)) /\
    (rawMaterial (BOMProcessor.bom smallProcessor) "WIDGET" ->
     m = [("WIDGET", 0 + 1)]).
Proof.
  apply (X18_getFlattenedMaterials_raw_materials smallBom smallProcessor "WIDGET" 1).
  vm_compute. reflexivity.
Defined.

(** ** RuleEngine: getParallelGroups *)

Lemma setAll_NoDup {A V : Type} (key : A -> string) (val : A -> V) xs : forall m,
  NoDup (JsMap.keys m) -> NoDup (JsMap.keys (setAll key val xs m)).
Proof.
  induction xs as [|x r IH]; intros m H; simpl; auto.
  apply IH. now apply jsmap_NoDup_keys_set.
Qed.

Lemma forallb_false_ex {A : Type} (f : A -> bool) l :
  forallb f l = false -> exists x, In x l /\ f x = false.
Proof.
  induction l as [|a r IH]; simpl; [discriminate|].
  destruct (f a) eqn:E; simpl.
  - intros H. destruct (IH H) as (x & Hx & Hf). eauto.
  - intros _. eauto.
Qed.

Lemma first_missing (E : list string) : forall l,
  ~ incl l E ->
  exists l1 x l2, l = l1 ++ x :: l2 /\ incl l1 E /\ ~ In x E.
Proof.
  induction l as [|a r IH]; intros H.
  - exfalso. apply H. intros x [].
  - destruct (in_dec string_dec a E) as [Ha|Ha].
    + destruct IH as (l1 & x & l2 & -> & Hl1 & Hx).
      { intros Hr. apply H. intros y [<-|Hy]; auto. }
      exists (a :: l1), x, l2. splits; auto.
      intros y [<-|Hy]; auto.
    + exists [], a, r. splits; auto. intros y [].
Qed.

Lemma precedes_split l1 l2 d x :
  ~ In x l1 -> precedes (l1 ++ x :: l2) d x -> In d l1.
Proof.
  intros Hx (i & j & Hi & Hj & Hlt).
  assert (Hjx : Graph.indexOf (l1 ++ x :: l2) x = Some (length l1)).
  { change (l1 ++ x :: l2) with (l1 ++ [x] ++ l2). rewrite app_assoc.
    apply indexOf_app_l. now apply indexOf_app_r. }
  rewrite Hjx in Hj. injection Hj as <-.
  apply indexOf_Some_nth in Hi. rewrite nth_error_app1 in Hi by exact Hlt.
  eapply nth_error_In; eauto.
Qed.

Section ParallelGroups.
Import RuleEngine.
Variable allocationRules : list Rule.
Variable re : t.
Hypothesis Hnew : RuleEngine.new allocationRules = Ok re.

(** [n] is the id of one of the rules given to the constructor. *)
Definition namesRule (n : string) : Prop :=
  exists rule, In rule allocationRules /\ id rule = n.

Lemma engine_facts :
  NoDup (executionOrder re) /\
  (forall n, In n (executionOrder re) <-> ruleNode allocationRules n) /\
  (forall d r, ruleEdge allocationRules d r -> precedes (executionOrder re) d r) /\
  rules re = setAll id (fun r => r) allocationRules JsMap.empty.
Proof.
  destruct (RuleEngine_new_dichotomy allocationRules)
    as [(_ & order & Hn & Hnd & Hin & Hpre)|(_ & cs & _ & _ & Hthrow)].
  - rewrite Hnew in Hn. injection Hn as ->. simpl. splits; auto.
  - rewrite Hnew in Hthrow. discriminate.
Qed.

Lemma getRule_lastWith k : getRule re k = lastWith id k allocationRules.
Proof.
  destruct engine_facts as (_ & _ & _ & Hr). unfold getRule. rewrite Hr.
  rewrite setAll_get. simpl. now destruct (lastWith id k allocationRules).
Qed.

Lemma getRule_in k rule :
  getRule re k = Some rule -> In rule allocationRules /\ id rule = k.
Proof. rewrite getRule_lastWith. apply lastWith_Some. Qed.

Lemma getRule_names k : namesRule k -> exists rule, getRule re k = Some rule.
Proof.
  intros (r & Hr & Hk). rewrite getRule_lastWith.
  destruct (lastWith id k allocationRules) as [y|] eqn:E; eauto.
  exfalso. exact (lastWith_None _ _ _ E r Hr Hk).
Qed.

Lemma keys_rules k : In k (JsMap.keys (rules re)) <-> namesRule k.
Proof.
  split.
  - intros H. apply jsmap_in_get in H as [rule Hg].
    apply getRule_in in Hg as [Hr Hk]. exists rule. auto.
  - intros H. destruct (getRule_names k H) as [rule Hg].
    eapply jsmap_get_Some_in; eauto.
Qed.

Lemma groupLoop_eq fuel groups executed :
  groupLoop fuel re groups executed =
  if Nat.ltb (JsSet.size executed) (JsMap.size (rules re)) then
    match fuel with
    | O => OutOfFuel
    | S fuel' =>
        group <- forEachM (groupStep re executed) (executionOrder re) [] ;;
        if Nat.eqb (length group) 0 then Ok groups
        else groupLoop fuel' re (groups ++ [group])
                       (fold_left JsSet.add group executed)
    end
  else Ok groups.
Proof. destruct fuel; reflexivity. Qed.

(** *** A dependency that names no rule *)

Lemma groupStep_throws : forall xs acc,
  (exists x, In x xs /\ getRule re x = None) ->
  forEachM (groupStep re JsSet.empty) xs acc = Throw undefinedRule.
Proof.
  induction xs as [|a r IH]; intros acc (x & Hin & Hx); [destruct Hin|].
  cbn [forEachM]. unfold groupStep at 1. cbn [JsSet.has JsSet.empty].
  destruct (getRule re a) as [rule|] eqn:Ha; [|reflexivity].
  assert (Hr : exists y, In y r /\ getRule re y = None).
  { destruct Hin as [->|Hin]; [congruence|eauto]. }
  destruct (forallb _ _); cbn [bind]; apply IH; exact Hr.
Qed.

Lemma getParallelGroups_throws rule d :
  In rule allocationRules -> In d (dependencies rule) ->
  (forall r, In r allocationRules -> id r <> d) ->
  getParallelGroups re = Throw undefinedRule.
Proof.
  intros Hr Hd Hno. destruct engine_facts as (_ & Hin & _ & _).
  unfold getParallelGroups. rewrite groupLoop_eq.
  assert (Hk : In (id rule) (JsMap.keys (rules re))).
  { apply keys_rules. exists rule. auto. }
  unfold JsMap.size, JsSet.size, JsSet.empty. unfold JsMap.keys in Hk.
  destruct (rules re) as [|kv rest] eqn:E; [destruct Hk|].
  cbn [length Nat.ltb Nat.leb]. fold (@JsSet.empty).
  rewrite groupStep_throws; [reflexivity|].
  exists d. split.
  - apply Hin. exists rule. auto.
  - rewrite getRule_lastWith.
    destruct (lastWith id d allocationRules) as [y|] eqn:El; auto.
    apply lastWith_Some in El as [Hy Hid]. exfalso. exact (Hno y Hy Hid).
Qed.

(** *** Every dependency names a rule *)

Hypothesis Hclosed :
  forall rule d, In rule allocationRules -> In d (dependencies rule) -> namesRule d.

Lemma order_names n : In n (executionOrder re) <-> namesRule n.
Proof.
  destruct engine_facts as (_ & Hin & _ & _). rewrite Hin. split.
  - intros (rule & Hr & [Hn|Hn]); [exists rule; auto | eapply Hclosed; eauto].
  - intros (rule & Hr & Hn). exists rule. auto.
Qed.

Lemma length_order : length (executionOrder re) = JsMap.size (rules re).
Proof.
  destruct engine_facts as (Hnd & _ & _ & Hr).
  assert (Hk : NoDup (JsMap.keys (rules re))).
  { rewrite Hr. apply setAll_NoDup. constructor. }
  unfold JsMap.size. rewrite <- (length_map fst). fold (JsMap.keys (rules re)).
  apply Nat.le_antisymm; apply NoDup_incl_length; auto; intros n Hn.
  - apply keys_rules, order_names, Hn.
  - apply order_names, keys_rules, Hn.
Qed.

(** A rule that one turn of the loop puts into its group: not executed
    yet, every dependency of it executed. *)
Definition ready (executed : JsSet.t) (ruleId : string) : bool :=
  negb (JsSet.has executed ruleId) &&
  match getRule re ruleId with
  | Some rule => forallb (JsSet.has executed) (dependencies rule)
  | None => false
  end.

Definition groupOf (executed : list string) : list string :=
  filter (ready executed) (executionOrder re).

Lemma group_filter executed : forall xs acc,
  (forall x, In x xs -> namesRule x) ->
  forEachM (groupStep re executed) xs acc = Ok (acc ++ filter (ready executed) xs).
Proof.
  induction xs as [|x r IH]; intros acc Hr; cbn [forEachM filter].
  - now rewrite app_nil_r.
  - assert (Hr' : forall y, In y r -> namesRule y) by (intros; apply Hr; now right).
    destruct (getRule_names x (Hr x (or_introl eq_refl))) as [rule Hg].
    unfold groupStep at 1. unfold ready at 1. rewrite Hg.
    destruct (JsSet.has executed x); cbn [negb andb bind]; [now apply IH|].
    destruct (forallb _ _); cbn [bind].
    + rewrite IH by exact Hr'. now rewrite <- app_assoc.
    + now apply IH.
Qed.

Lemma fold_add_app group : forall executed,
  NoDup group -> (forall x, In x group -> ~ In x executed) ->
  fold_left JsSet.add group executed = executed ++ group.
Proof.
  induction group as [|x r IH]; intros executed Hnd Hdis; simpl.
  - now rewrite app_nil_r.
  - inversion Hnd as [|? ? Hx Hr]; subst.
    rewrite jsset_add_notin by (apply Hdis; now left).
    rewrite IH; auto.
    + now rewrite <- app_assoc.
    + intros y Hy Hin. apply in_app_or in Hin as [Hin|[<-|[]]]; auto.
      apply (Hdis y); auto. now right.
Qed.

Lemma groupOf_in executed x :
  In x (groupOf executed) ->
  In x (executionOrder re) /\ ~ In x executed /\
  exists rule, getRule re x = Some rule /\
               forall d, In d (dependencies rule) -> In d executed.
Proof.
  unfold groupOf. rewrite filter_In. intros [Hin Hready].
  unfold ready in Hready. apply andb_true_iff in Hready as [Hnot Hdeps].
  apply negb_true_iff, jsset_has_false_iff in Hnot.
  destruct (getRule re x) as [rule|]; [|discriminate].
  splits; auto. exists rule. split; auto.
  intros d Hd. rewrite forallb_forall in Hdeps.
  now apply jsset_has_true_iff, Hdeps.
Qed.

Lemma groupOf_NoDup executed : NoDup (groupOf executed).
Proof. apply NoDup_filter. apply engine_facts. Qed.

(** The lists of groups that the loop goes through. *)
Inductive staged : list (list string) -> Prop :=
| staged_nil : staged []
| staged_snoc groups :
    staged groups -> groupOf (concat groups) <> [] ->
    staged (groups ++ [groupOf (concat groups)]).

Lemma concat_snoc (groups : list (list string)) g :
  concat (groups ++ [g]) = concat groups ++ g.
Proof. rewrite concat_app. simpl. now rewrite app_nil_r. Qed.

Lemma staged_concat groups :
  staged groups ->
  NoDup (concat groups) /\ incl (concat groups) (executionOrder re).
Proof.
  induction 1 as [|groups Hst [Hnd Hincl] Hne]; [split; [constructor | intros x []]|].
  rewrite concat_snoc. split.
  - apply NoDup_app; auto using groupOf_NoDup.
    intros x Hx Hg. apply groupOf_in in Hg as (_ & Hn & _). contradiction.
  - intros x Hx. apply in_app_or in Hx as [Hx|Hx]; auto.
    now apply groupOf_in in Hx.
Qed.

Lemma staged_split groups :
  staged groups ->
  forall g1 grp g2, groups = g1 ++ grp :: g2 ->
                    grp = groupOf (concat g1) /\ grp <> [].
Proof.
  induction 1 as [|groups Hst IH Hne]; intros g1 grp g2 E.
  - destruct g1; discriminate.
  - destruct g2 as [|z g2' _] using rev_ind.
    + apply app_inj_tail in E as [E1 E2]. subst. split; [reflexivity | exact Hne].
    + change (g1 ++ grp :: g2' ++ [z]) with (g1 ++ (grp :: g2') ++ [z]) in E.
      rewrite app_assoc in E. apply app_inj_tail in E as [-> _].
      eapply IH; eauto.
Qed.

Lemma progress groups :
  staged groups ->
  (length (concat groups) < JsMap.size (rules re))%nat ->
  groupOf (concat groups) <> [].
Proof.
  intros Hst Hlt. destruct (staged_concat groups Hst) as [Hnd Hincl].
  destruct engine_facts as (Hndo & _ & Hpre & _).
  rewrite <- length_order in Hlt.
  destruct (first_missing (concat groups) (executionOrder re))
    as (l1 & x & l2 & Eo & Hl1 & Hx).
  { intros Hall. pose proof (NoDup_incl_length Hndo Hall). lia. }
  assert (Hxo : In x (executionOrder re)).
  { rewrite Eo. apply in_or_app. right. now left. }
  destruct (getRule_names x (proj1 (order_names x) Hxo)) as [rule Hg].
  assert (Hin : In x (groupOf (concat groups))).
  { unfold groupOf. apply filter_In. split; auto.
    unfold ready. rewrite Hg. apply andb_true_iff. split.
    - now apply negb_true_iff, jsset_has_false_iff.
    - apply forallb_forall. intros d Hd. apply jsset_has_true_iff, Hl1.
      destruct (getRule_in x rule Hg) as [Hr Hid].
      assert (Hp : precedes (executionOrder re) d x).
      { apply Hpre. exists rule. auto. }
      rewrite Eo in Hp. eapply precedes_split; [|exact Hp].
      intros Hx1. apply Hx, Hl1, Hx1. }
  intros E. rewrite E in Hin. destruct Hin.
Qed.

Lemma groupLoop_ok fuel : forall groups,
  staged groups ->
  (JsMap.size (rules re) <= fuel + length (concat groups))%nat ->
  exists groups',
    groupLoop fuel re groups (concat groups) = Ok groups' /\
    staged groups' /\
    (JsMap.size (rules re) <= length (concat groups'))%nat.
Proof.
  induction fuel as [|f IH]; intros groups Hst Hlen; rewrite groupLoop_eq;
    unfold JsSet.size;
    destruct (Nat.ltb_spec (length (concat groups)) (JsMap.size (rules re)))
      as [Hlt|Hge].
  - lia.
  - exists groups. auto.
  - rewrite group_filter by (intros x Hx; now apply order_names).
    cbn [app bind]. fold (groupOf (concat groups)).
    pose proof (progress groups Hst Hlt) as Hne.
    destruct (groupOf (concat groups)) as [|x g] eqn:Eg; [congruence|].
    cbn [length Nat.eqb]. rewrite <- Eg in *.
    destruct (staged_concat groups Hst) as [Hnd Hincl].
    rewrite fold_add_app.
    + rewrite <- concat_snoc. apply IH.
      * now constructor.
      * rewrite concat_snoc, length_app.
        assert (1 <= length (groupOf (concat groups)))%nat
          by (rewrite Eg at 1; simpl; lia).
        lia.
    + apply groupOf_NoDup.
    + intros y Hy. now apply groupOf_in in Hy.
  - exists groups. auto.
Qed.

Lemma getParallelGroups_ok :
  exists groups,
    getParallelGroups re = Ok groups /\
    NoDup (concat groups) /\
    (forall n, In n (concat groups) <-> namesRule n) /\
    (forall g1 grp g2, groups = g1 ++ grp :: g2 ->
       grp <> [] /\
       forall r, In r grp ->
         exists rule,
           getRule re r = Some rule /\
           (forall d, In d (dependencies rule) -> In d (concat g1)) /\
           (g1 <> [] ->
            exists d, In d (dependencies rule) /\ In d (last g1 []))).
Proof.
  destruct (groupLoop_ok (JsMap.size (rules re)) [] staged_nil)
    as (groups & Hrun & Hst & Hlen); [simpl; lia|].
  exists groups. destruct (staged_concat groups Hst) as [Hnd Hincl].
  splits; auto.
  - intros n. rewrite <- order_names. split; [apply Hincl|].
    apply NoDup_length_incl; auto. rewrite length_order. exact Hlen.
  - intros g1 grp g2 E.
    destruct (staged_split groups Hst g1 grp g2 E) as [Hgrp Hne].
    split; auto. intros r Hr. rewrite Hgrp in Hr.
    destruct (groupOf_in _ _ Hr) as (Hro & Hrn & rule & Hg & Hdeps).
    exists rule. splits; auto.
    intros Hg1. destruct (exists_last Hg1) as (g1' & prev & ->).
    rewrite last_last.
    assert (E' : groups = g1' ++ prev :: (grp :: g2)).
    { rewrite E, <- app_assoc. reflexivity. }
    destruct (staged_split groups Hst g1' prev (grp :: g2) E') as [Hprev _].
    rewrite concat_snoc in Hrn, Hdeps.
    assert (Hnot : ready (concat g1') r = false).
    { destruct (ready (concat g1') r) eqn:Er; auto.
      exfalso. apply Hrn, in_or_app. right. rewrite Hprev.
      unfold groupOf. apply filter_In. auto. }
    unfold ready in Hnot. rewrite Hg in Hnot.
    apply andb_false_iff in Hnot as [Hnot|Hnot].
    + exfalso. apply negb_false_iff, jsset_has_true_iff in Hnot.
      apply Hrn, in_or_app. now left.
    + apply forallb_false_ex in Hnot as (d & Hd & Hdn).
      apply jsset_has_false_iff in Hdn.
      exists d. split; auto.
      destruct (in_app_or _ _ _ (Hdeps d Hd)); [contradiction|auto].
Qed.
End ParallelGroups.

(** X19.  When every dependency of every rule is the id of a rule,
    [getParallelGroups] of an engine that the constructor returned ends
    and returns groups in which every rule id occurs exactly once, no
    group is empty, every dependency of a rule lies in a group before
    the rule's own, and every rule outside the first group has a
    dependency in the group just before its own. *)
Theorem X19_getParallelGroups_levels
        (allocationRules : list RuleEngine.Rule) (re : RuleEngine.t) :
  RuleEngine.new allocationRules = Ok re ->
  (forall rule d, In rule allocationRules -> In d (RuleEngine.dependencies rule) ->
                  namesRule allocationRules d) ->
  exists groups,
    RuleEngine.getParallelGroups re = Ok groups /\
    NoDup (concat groups) /\
    (forall n, In n (concat groups) <-> namesRule allocationRules n) /\
    (forall g1 grp g2, groups = g1 ++ grp :: g2 ->
       grp <> [] /\
       forall r, In r grp ->
         exists rule,
           RuleEngine.getRule re r = Some rule /\
           (forall d, In d (RuleEngine.dependencies rule) -> In d (concat g1)) /\
           (g1 <> [] ->
            exists d, In d (RuleEngine.dependencies rule) /\ In d (last g1 []))).
Proof. intros Hnew Hclosed. now apply getParallelGroups_ok. Qed.

(** Four rules: [R2] and [R3] wait for [R1], [R4] for both of them. *)
Definition stepRule (ruleId : string) (deps : list string) : RuleEngine.Rule :=
  RuleEngine.mkRule ruleId "labor-burden" deps 0 [] 0 "" None "".

Definition diamondRules : list RuleEngine.Rule :=
  [stepRule "R4" ["R2"; "R3"]; stepRule "R2" ["R1"]; stepRule "R3" ["R1"];
   stepRule "R1" []].

Definition diamondEngine : RuleEngine.t :=
  Eval vm_compute in
    match RuleEngine.new diamondRules with
    | Ok re => re
    | _ => RuleEngine.mk [] [] []
    end.

Lemma diamondRules_closed rule d :
  In rule diamondRules -> In d (RuleEngine.dependencies rule) ->
  namesRule diamondRules d.
Proof.
  intros Hr Hd.
  assert (Hd' : In d ["R1"; "R2"; "R3"]).
  { simpl in Hr. destruct Hr as [<-|[<-|[<-|[<-|[]]]]]; simpl in Hd; simpl; tauto. }
  simpl in Hd'. destruct Hd' as [<-|[<-|[<-|[]]]].
  - exists (stepRule "R1" []). simpl. tauto.
  - exists (stepRule "R2" ["R1"]). simpl. tauto.
  - exists (stepRule "R3" ["R1"]). simpl. tauto.
Qed.

Lemma X19_witness :
  exists groups,
    RuleEngine.getParallelGroups diamondEngine = Ok groups /\
    NoDup (concat groups) /\
    (forall n, In n (concat groups) <-> namesRule diamondRules n) /\
    (forall g1 grp g2, groups = g1 ++ grp :: g2 ->
       grp <> [] /\
       forall r, In r grp ->
         exists rule,
           RuleEngine.getRule diamondEngine r = Some rule /\
           (forall d, In d (RuleEngine.dependencies rule) -> In d (concat g1)) /\
           (g1 <> [] ->
            exists d, In d (RuleEngine.dependencies rule) /\ In d (last g1 []))).
Proof.
  apply (X19_getParallelGroups_levels diamondRules diamondEngine).
  - vm_compute. reflexivity.
  - exact diamondRules_closed.
Defined.

(** X20.  When a rule lists a dependency that is the id of no rule,
    [getParallelGroups] of the engine that the constructor returned
    throws a TypeError: the execution order contains the dependency, and
    the loop reads the dependencies of the rule it does not find. *)
Theorem X20_getParallelGroups_unknown_dependency
        (allocationRules : list RuleEngine.Rule) (re : RuleEngine.t)
        (rule : RuleEngine.Rule) (d : string) :
  RuleEngine.new allocationRules = Ok re ->
  In rule allocationRules -> In d (RuleEngine.dependencies rule) ->
  (forall r, In r allocationRules -> RuleEngine.id r <> d) ->
  In d (RuleEngine.getExecutionOrder re) /\
  RuleEngine.getRule re d = None /\
  RuleEngine.getParallelGroups re = Throw RuleEngine.undefinedRule.
Proof.
  intros Hnew Hr Hd Hno.
  destruct (engine_facts allocationRules re Hnew) as (_ & Hin & _ & _).
  splits.
  - apply Hin. exists rule. auto.
  - rewrite (getRule_lastWith allocationRules re Hnew).
    destruct (lastWith RuleEngine.id d allocationRules) as [y|] eqn:El; auto.
    apply lastWith_Some in El as [Hy Hid]. exfalso. exact (Hno y Hy Hid).
  - eapply getParallelGroups_throws; eauto.
Qed.

Definition danglingRules : list RuleEngine.Rule := [stepRule "R2" ["R1"]].

Definition danglingEngine : RuleEngine.t :=
  Eval vm_compute in
    match RuleEngine.new danglingRules with
    | Ok re => re
    | _ => RuleEngine.mk [] [] []
    end.

Lemma X20_witness :
  In "R1" (RuleEngine.getExecutionOrder danglingEngine) /\
  RuleEngine.getRule danglingEngine "R1" = None /\
  RuleEngine.getParallelGroups danglingEngine = Throw RuleEngine.undefinedRule.
Proof.
  apply (X20_getParallelGroups_unknown_dependency danglingRules danglingEngine
           (stepRule "R2" ["R1"]) "R1").
  - vm_compute. reflexivity.
  - simpl. tauto.
  - simpl. tauto.
  - intros r [<-|[]]. discriminate.
Defined.

(** ** CurrencyConverter: getPriorPeriods *)

Section PriorPeriods.
Import CurrencyConverter.
Local Open Scope Z_scope.

(** The template literal of the loop. *)
Definition periodString (year quarter : option Z) : string :=
  numToString year +++ "-Q" +++ numToString quarter.

Lemma priorLoop_length count : forall yq, length (priorLoop count yq) = count.
Proof. induction count as [|n IH]; intros yq; simpl; auto. Qed.

Lemma priorLoop_quarters count : forall y q k,
  1 <= q <= 4 -> (k < count)%nat ->
  exists y' q',
    nth_error (priorLoop count (Some y, Some q)) k
    = Some (periodString (Some y') (Some q')) /\
    1 <= q' <= 4 /\
    4 * y' + q' = 4 * y + q - (Z.of_nat k + 1).
Proof.
  induction count as [|n IH]; intros y q k Hq Hk; [lia|].
  cbn [priorLoop]. cbv zeta.
  assert (Hstep : exists y1 q1,
             priorStep (Some y, Some q) = (Some y1, Some q1) /\
             1 <= q1 <= 4 /\ 4 * y1 + q1 = 4 * y + q - 1).
  { unfold priorStep. cbn [option_map].
    destruct (Z.ltb_spec (q - 1) 1).
    - exists (y - 1), 4. splits; auto; lia.
    - exists y, (q - 1). splits; auto; lia. }
  destruct Hstep as (y1 & q1 & -> & Hq1 & Hsum). cbn [fst snd].
  destruct k as [|k]; cbn [nth_error].
  - exists y1, q1. splits; auto; lia.
  - destruct (IH y1 q1 k Hq1) as (y' & q' & Hn & Hq' & Hs); [lia|].
    exists y', q'. splits; auto; lia.
Qed.

Lemma priorLoop_no_quarter count : forall year,
  priorLoop count (year, None) = repeat (periodString year None) count.
Proof.
  induction count as [|n IH]; intros year; simpl; auto.
  now rewrite IH.
Qed.
End PriorPeriods.

(** X21.  [getPriorPeriods] returns [count] periods.  When the period
    reads as a year and a quarter between 1 and 4, the period at index
    [k] names the quarter that lies [k + 1] quarters before it, the
    quarter again between 1 and 4.  When the period contains no [-Q],
    nothing is thrown: every period returned has the quarter [NaN]. *)
Theorem X21_getPriorPeriods_quarters_back (period : string) (count : nat) :
  let parts := CurrencyConverter.splitDashQ period "" in
  length (CurrencyConverter.getPriorPeriods period count) = count /\
  (forall y qs q k,
     CurrencyConverter.Number (nth 0 parts "") = Some y ->
     nth_error parts 1 = Some qs ->
     CurrencyConverter.Number qs = Some q ->
     (1 <= q <= 4)%Z -> (k < count)%nat ->
     exists y' q',
       nth_error (CurrencyConverter.getPriorPeriods period count) k
       = Some (periodString (Some y') (Some q')) /\
       (1 <= q' <= 4)%Z /\
       (4 * y' + q' = 4 * y + q - (Z.of_nat k + 1))%Z) /\
  (nth_error parts 1 = None ->
   CurrencyConverter.getPriorPeriods period count
   = repeat (periodString (CurrencyConverter.Number (nth 0 parts "")) None) count).
Proof.
  intros parts. unfold CurrencyConverter.getPriorPeriods. fold parts. cbv zeta.
  splits.
  - apply priorLoop_length.
  - intros y qs q k Hy Hqs Hq Hr Hk. rewrite Hy, Hqs, Hq.
    now apply priorLoop_quarters.
  - intros Hnone. rewrite Hnone. apply priorLoop_no_quarter.
Qed.

Lemma X21_witness :
  length (CurrencyConverter.getPriorPeriods "2024-Q1" 3) = 3%nat /\
  (exists y' q',
     nth_error (CurrencyConverter.getPriorPeriods "2024-Q1" 3) 1
     = Some (periodString (Some y') (Some q')) /\
     (1 <= q' <= 4)%Z /\
     (4 * y' + q' = 4 * 2024 + 1 - (Z.of_nat 1 + 1))%Z).
Proof.
  destruct (X21_getPriorPeriods_quarters_back "2024-Q1" 3) as (Hlen & Hq & _).
  split; [exact Hlen|].
  apply (Hq 2024%Z "1" 1%Z 1%nat); try (vm_compute; reflexivity).
  - lia.
  - lia.
Defined.
